(** * Face-matching authentication core: a shallow embedding

    This development embeds the numeric core of the face-auth-sso
    repository: the unrolled Euclidean distance loops, the nearest-match
    search, the model loader and the descriptor cache, as they are written
    in

    - [utils/db.js] (the serverless face-recognition utilities),
    - [server/utils/faceRecognition.js],
    - the third near-duplicate implementation (the "extreme optimization"
      variant with 100x75 preprocessing),

    and the token endpoints of [vercel-server/index.js].

    The distance loops and the searches are embedded on two kinds of
    numbers.

    - Module [Double] works on IEEE 754 binary64 values, with every
      addition, subtraction, multiplication and square root rounded as
      the running code rounds it.  The claims on the value of a
      distance, on the comparison with the threshold and on the
      candidate that is returned are settled there.
    - Modules [JsNum], [Distance] and the searches that follow them work
      on exact numbers: a finite double is a real number, while [NaN]
      and the two infinities are kept, because the code relies on them
      ([Infinity] is the initial best distance, and indexing past the end
      of an array yields [undefined], which arithmetic turns into
      [NaN]).  They carry the statements on the shape of the searches
      (the empty candidate list, the batches, the set of the
      candidates) and two statements in which rounding is idealised: a
      query that is enrolled, and the growth of the threshold. *)

From Stdlib Require Import Floats.
From Stdlib Require Import Ascii String Reals Lra List ZArith Lia Bool Arith.
From Stdlib Require Import Sorted.
Import ListNotations.

Set Implicit Arguments.
Set Warnings "-inexact-float".

(** ** JavaScript numbers *)

Module JsNum.

Inductive num : Type :=
| NaN
| NInf
| Num (r : R)
| PInf.

Definition Infinity : num := PInf.

Definition Rltb (a b : R) : bool := if Rlt_dec a b then true else false.
Definition Rleb (a b : R) : bool := if Rle_dec a b then true else false.

(** [a + b] *)
Definition nadd (a b : num) : num :=
  match a, b with
  | NaN, _ | _, NaN => NaN
  | Num x, Num y => Num (x + y)
  | PInf, NInf | NInf, PInf => NaN
  | PInf, _ | _, PInf => PInf
  | NInf, _ | _, NInf => NInf
  end.

(** [a - b] *)
Definition nsub (a b : num) : num :=
  match a, b with
  | NaN, _ | _, NaN => NaN
  | Num x, Num y => Num (x - y)
  | PInf, PInf | NInf, NInf => NaN
  | PInf, _ | _, NInf => PInf
  | NInf, _ | _, PInf => NInf
  end.

(** The infinity obtained when an infinite factor meets the finite factor
    [r]: its sign follows [r], and [0 * Infinity] is [NaN]. *)
Definition signed_inf (r : R) : num :=
  if Rltb 0 r then PInf else if Rltb r 0 then NInf else NaN.

(** [a * b] *)
Definition nmul (a b : num) : num :=
  match a, b with
  | NaN, _ | _, NaN => NaN
  | Num x, Num y => Num (x * y)
  | Num x, PInf | PInf, Num x => signed_inf x
  | Num x, NInf | NInf, Num x => signed_inf (- x)
  | PInf, PInf | NInf, NInf => PInf
  | PInf, NInf | NInf, PInf => NInf
  end.

(** [Math.pow(a, 2)] *)
Definition npow2 (a : num) : num :=
  match a with
  | NaN => NaN
  | Num x => Num (x * x)
  | PInf | NInf => PInf
  end.

(** [Math.sqrt(a)] *)
Definition nsqrt (a : num) : num :=
  match a with
  | NaN | NInf => NaN
  | Num x => if Rltb x 0 then NaN else Num (sqrt x)
  | PInf => PInf
  end.

(** [a < b]: every comparison with [NaN] is false. *)
Definition nltb (a b : num) : bool :=
  match a, b with
  | NaN, _ | _, NaN => false
  | Num x, Num y => Rltb x y
  | NInf, (Num _ | PInf) => true
  | Num _, PInf => true
  | _, _ => false
  end.

(** [a <= b] *)
Definition nleb (a b : num) : bool :=
  match a, b with
  | NaN, _ | _, NaN => false
  | Num x, Num y => Rleb x y
  | NInf, _ => true
  | _, PInf => true
  | _, _ => false
  end.

(** * Arrays of numbers.  [a[i]] is [undefined] past the end of [a]; the
    only use the code makes of an element is arithmetic, where
    [undefined] behaves as [NaN]. *)
Definition idx (a : list num) (i : nat) : num := nth i a NaN.

End JsNum.

Import JsNum.

(** ** Distance computations *)

Module Distance.

Section Terms.

Variables targetArray profileArray : list num.

(** [Math.pow(targetArray[i] - profileArray[i], 2)] *)
Definition sq_term (i : nat) : num :=
  npow2 (nsub (idx targetArray i) (idx profileArray i)).

(** [(i < len) ? Math.pow(targetArray[i] - profileArray[i], 2) : 0] *)
Definition guarded_term (len i : nat) : num :=
  if i <? len then sq_term i else Num 0.

(** The eight-term sum added to [sum] in one iteration of the loop of
    [findMatchingFace] in utils/db.js (and of the third variant);
    JavaScript's [+] associates to the left. *)
Definition block8 (len j : nat) : num :=
  nadd (nadd (nadd (nadd (nadd (nadd (nadd
    (guarded_term len j)
    (guarded_term len (j + 1)))
    (guarded_term len (j + 2)))
    (guarded_term len (j + 3)))
    (guarded_term len (j + 4)))
    (guarded_term len (j + 5)))
    (guarded_term len (j + 6)))
    (guarded_term len (j + 7)).

(** [for (let j = 0; j < len; j += 8) { sum += ... }].  [fuel] bounds
    the number of iterations; the callers pass [len], which is never
    exhausted because [j] grows by eight in each iteration. *)
Fixpoint sumLoop8 (fuel len j : nat) (sum : num) : num :=
  match fuel with
  | O => sum
  | S fuel' =>
      if j <? len
      then sumLoop8 fuel' len (j + 8) (nadd sum (block8 len j))
      else sum
  end.

(** [i + k < length ? targetArray[i + k] - profileDescriptor[i + k] : 0] *)
Definition guarded_diff (length i : nat) : num :=
  if i <? length then nsub (idx targetArray i) (idx profileArray i)
  else Num 0.

(** One iteration of the stride-4 loop of server/utils/faceRecognition.js:
    [diff1] is not guarded, [diff2] to [diff4] are. *)
Definition block4 (length i : nat) : num :=
  let diff1 := nsub (idx targetArray i) (idx profileArray i) in
  let diff2 := guarded_diff length (i + 1) in
  let diff3 := guarded_diff length (i + 2) in
  let diff4 := guarded_diff length (i + 3) in
  nadd (nadd (nadd (nmul diff1 diff1) (nmul diff2 diff2))
             (nmul diff3 diff3))
       (nmul diff4 diff4).

(** [for (let i = 0; i < length; i += 4) { distance += ... }] *)
Fixpoint sumLoop4 (fuel length i : nat) (distance : num) : num :=
  match fuel with
  | O => distance
  | S fuel' =>
      if i <? length
      then sumLoop4 fuel' length (i + 4) (nadd distance (block4 length i))
      else distance
  end.

End Terms.

(** The distance of utils/db.js, lines 415-433 (stride 8). *)
Definition distance8 (targetArray profileArray : list num) : num :=
  let len := length targetArray in
  nsqrt (sumLoop8 targetArray profileArray len len 0 (Num 0)).

(** The distance of server/utils/faceRecognition.js (stride 4), as in
    [compareFaceDescriptors] and [findMatchingFaceDirectly]. *)
Definition distance4 (targetArray profileDescriptor : list num) : num :=
  let length := length targetArray in
  nsqrt (sumLoop4 targetArray profileDescriptor length length 0 (Num 0)).

(** The reference distance, following the specification's words:
    [sqrt (sum over all components of (query[i] - candidate[i])^2)]. *)
Definition sumSquares (query candidate : list num) : num :=
  fold_right (fun qc acc => nadd (npow2 (nsub (fst qc) (snd qc))) acc)
             (Num 0) (combine query candidate).

Definition euclideanDistance (query candidate : list num) : num :=
  nsqrt (sumSquares query candidate).

End Distance.

(** ** Nearest-match search *)

Module Profiles.

(** A face profile as the search sees it: [faceDescriptor] is [None] when
    the field is missing ([null] or [undefined], the falsy cases of
    [!profile.faceDescriptor]); an array, even an empty one, is truthy. *)
Record faceProfile : Type := mkProfile {
  userId : string;
  faceDescriptor : option (list num)
}.

(** [{ match: bestMatch, distance: bestDistance }]; [bestMatch] is still
    [null] when no candidate improved on [Infinity]. *)
Record matchResult : Type := mkMatch {
  match_ : option faceProfile;
  distance : num
}.

(** The loop variables of a search, with a probe that counts the distance
    computations performed so far. *)
Record scanState : Type := mkScan {
  bestMatch : option faceProfile;
  bestDistance : num;
  computed : nat
}.

Definition scanStart : scanState :=
  {| bestMatch := None; bestDistance := Infinity; computed := 0 |}.

(** What a call returns, together with the probe. *)
Record searchRun (A : Type) : Type := mkRun {
  returned : A;
  distancesComputed : nat
}.

(** The default of the [threshold] parameter. *)
Definition defaultThreshold : num := Num 0.6.

(** [a.slice(i, j)] for [0 <= i <= j]. *)
Definition slice (A : Type) (a : list A) (i j : nat) : list A :=
  firstn (j - i) (skipn i a).

End Profiles.

Import Profiles.

(** ** Effects: exceptions over a mutable world *)

Module Effects.

(** The value carried by a rejected promise or a [throw]. *)
Definition exn : Type := string.

Inductive completion (A : Type) : Type :=
| Returned (a : A)
| Thrown (e : exn).

Arguments Returned {A} a.
Arguments Thrown {A} e.

Section Monad.

Variable W : Type.

Definition M (A : Type) : Type := W -> completion A * W.

Definition ret {A : Type} (a : A) : M A := fun w => (Returned a, w).

Definition bind {A B : Type} (c : M A) (k : A -> M B) : M B :=
  fun w =>
    match c w with
    | (Returned a, w') => k a w'
    | (Thrown e, w') => (Thrown e, w')
    end.

(** [try { body } catch (error) { handler }]: the writes made by
    [body] before it threw are kept. *)
Definition tryCatch {A : Type} (body : M A) (handler : exn -> M A) : M A :=
  fun w =>
    match body w with
    | (Returned a, w') => (Returned a, w')
    | (Thrown e, w') => handler e w'
    end.

Definition gets {A : Type} (f : W -> A) : M A := fun w => (Returned (f w), w).

Definition modify (f : W -> W) : M unit := fun w => (Returned tt, f w).

(** Awaiting a call into the library, which resolves or rejects. *)
Definition lift {A : Type} (c : completion A) : M A := fun w => (c, w).

End Monad.

Arguments ret {W A} a.
Arguments bind {W A B} c k.
Arguments tryCatch {W A} body handler.
Arguments gets {W A} f.
Arguments modify {W} f.
Arguments lift {W A} c.

Declare Scope js_scope.
Delimit Scope js_scope with js.

Notation "x <- c ;; k" := (bind c (fun x => k))
  (at level 61, c at next level, right associativity) : js_scope.
Notation "c ;;; k" := (bind c (fun _ => k))
  (at level 61, right associativity) : js_scope.

End Effects.

Import Effects.

(** ** JavaScript [Map]: keys in insertion order *)

Module JsMap.

Section Map.

Variables K V : Type.
Variable K_eq_dec : forall a b : K, {a = b} + {a <> b}.

Definition t : Type := list (K * V).

Definition keyIs (k : K) (e : K * V) : bool :=
  if K_eq_dec (fst e) k then true else false.

Definition keys (m : t) : list K := map fst m.

Definition size (m : t) : nat := length m.

Definition has (k : K) (m : t) : bool := existsb (keyIs k) m.

Fixpoint get (k : K) (m : t) : option V :=
  match m with
  | [] => None
  | e :: rest => if keyIs k e then Some (snd e) else get k rest
  end.

(** [m.set(k, v)]: an existing key keeps its position. *)
Fixpoint set (k : K) (v : V) (m : t) : t :=
  match m with
  | [] => [(k, v)]
  | e :: rest => if keyIs k e then (k, v) :: rest else e :: set k v rest
  end.

Definition delete (k : K) (m : t) : t :=
  filter (fun e => negb (keyIs k e)) m.

(** [m.keys().next().value] *)
Definition firstKey (m : t) : option K :=
  match m with
  | [] => None
  | e :: _ => Some (fst e)
  end.

End Map.

End JsMap.

(** ** The external pipeline *)

(** An image buffer: its bytes, each in [0, 255]. *)
Definition buffer : Type := list Z.

(** A face descriptor ([Float32Array]). *)
Definition descriptor : Type := list num.

(** The calls into [canvas] and [face-api.js] made by descriptor
    extraction.  Each may reject; the detector calls resolve to
    [undefined] ([None]) when no face is found. *)
Class FaceApi : Type := {
  image : Type;
  canvas : Type;
  detection : Type;
  (** [canvas.loadImage(imageBuffer)] *)
  loadImage : buffer -> completion image;
  (** [createCanvas], [getContext] and [drawImage] of [preprocessImage] *)
  drawResized : image -> completion canvas;
  (** [faceapi.detectSingleFace(canvas, FACE_DETECTION_OPTIONS)] *)
  detectSingleFace : canvas -> completion (option detection);
  (** the face crop taken from the original image (utils/db.js) *)
  drawFace : image -> canvas -> detection -> completion canvas;
  (** the face crop taken from the resized canvas (server/utils) *)
  cropFace : canvas -> detection -> completion canvas;
  (** [detectSingleFace(...).withFaceLandmarks(true).withFaceDescriptor()] *)
  detectWithDescriptor : canvas -> completion (option descriptor)
}.

(** What the environment decides during one call: the two readings of
    [Date.now()] and how [loadFromDisk] settles ([None]: all three models
    loaded; [Some e]: rejected with [e]). *)
Record env : Type := mkEnv {
  currentTime : Z;
  loadedTime : Z;
  diskLoad : option exn
}.

(** What [loadModels] hands to its caller: [Promise.resolve()] or the
    promise stored in [modelLoadingPromise], named by its number. *)
Inductive promise : Type :=
| AlreadyResolved
| Outstanding (p : nat).

(** The events of the loader: a call, and the settling of the load in
    flight. *)
Inductive loaderEvent : Type :=
| CallLoadModels (now : Z)
| LoadSucceeded (now : Z)
| LoadFailed.

(** [Buffer.toString('base64')] *)
Module Base64.

Definition alphabet : list Ascii.ascii :=
  list_ascii_of_string
    "ABCDEFGHIJKLMNOPQRSTUVWXYZabcdefghijklmnopqrstuvwxyz0123456789+/"%string.

Definition digit (n : Z) : Ascii.ascii :=
  nth (Z.to_nat n) alphabet "="%char.

Fixpoint encode (data : list Z) : string :=
  match data with
  | [] => EmptyString
  | [a] =>
      String (digit (a / 4)) (String (digit (a mod 4 * 16)) "=="%string)
  | [a; b] =>
      String (digit (a / 4))
        (String (digit (a mod 4 * 16 + b / 16))
           (String (digit (b mod 16 * 4)) "="%string))
  | a :: b :: c :: rest =>
      String (digit (a / 4))
        (String (digit (a mod 4 * 16 + b / 16))
           (String (digit (b mod 16 * 4 + c / 64))
              (String (digit (c mod 64)) (encode rest))))
  end.

End Base64.

(** *** utils/db.js *)

Module UtilsDb.

Definition BATCH_SIZE : nat := 10.

(** Leaving a [for] loop: by falling through or by [return]. *)
Inductive control : Type :=
| Continue (st : scanState)
| Return (st : scanState).

(** [for (const profile of batch) { ... }], lines 405-448. *)
Fixpoint scanBatch (targetArray : list num) (threshold : num)
    (batch : list faceProfile) (st : scanState) : control :=
  match batch with
  | [] => Continue st
  | profile :: rest =>
      match faceDescriptor profile with
      | None => scanBatch targetArray threshold rest st
      | Some profileArray =>
          let distance := Distance.distance8 targetArray profileArray in
          if nltb distance (bestDistance st) then
            let st' := {| bestMatch := Some profile;
                          bestDistance := distance;
                          computed := S (computed st) |} in
            if nltb distance (nmul threshold (Num 0.7))
            then Return st'
            else scanBatch targetArray threshold rest st'
          else
            scanBatch targetArray threshold rest
              {| bestMatch := bestMatch st;
                 bestDistance := bestDistance st;
                 computed := S (computed st) |}
      end
  end.

Definition found (st : scanState) : searchRun (option matchResult) :=
  {| returned := Some {| match_ := bestMatch st; distance := bestDistance st |};
     distancesComputed := computed st |}.

(** [return bestDistance <= threshold ? { match, distance } : null] *)
Definition finish (threshold : num) (st : scanState)
    : searchRun (option matchResult) :=
  if nleb (bestDistance st) threshold then found st
  else {| returned := None; distancesComputed := computed st |}.

(** [for (let i = 0; i < faceProfiles.length; i += BATCH_SIZE)], lines
    402-449; [fuel] bounds the number of batches. *)
Fixpoint scanBatches (fuel : nat) (targetArray : list num) (threshold : num)
    (faceProfiles : list faceProfile) (i : nat) (st : scanState)
    : searchRun (option matchResult) :=
  match fuel with
  | O => finish threshold st
  | S fuel' =>
      if i <? length faceProfiles then
        let batch := slice faceProfiles i (i + BATCH_SIZE) in
        match scanBatch targetArray threshold batch st with
        | Return st' => found st'
        | Continue st' =>
            scanBatches fuel' targetArray threshold faceProfiles
                        (i + BATCH_SIZE) st'
        end
      else finish threshold st
  end.

(** [findMatchingFace(targetDescriptor, faceProfiles, threshold)], lines
    387-456.  A [null] argument is [None]. *)
Definition findMatchingFace_run (targetDescriptor : option (list num))
    (faceProfiles : option (list faceProfile)) (threshold : num)
    : searchRun (option matchResult) :=
  match targetDescriptor, faceProfiles with
  | Some targetArray, Some profiles =>
      if length profiles =? 0
      then {| returned := None; distancesComputed := 0 |}
      else scanBatches (length profiles) targetArray threshold profiles 0
                       scanStart
  | _, _ => {| returned := None; distancesComputed := 0 |}
  end.

Definition findMatchingFace (targetDescriptor : option (list num))
    (faceProfiles : option (list faceProfile)) (threshold : num)
    : option matchResult :=
  returned (findMatchingFace_run targetDescriptor faceProfiles threshold).

(** **** Model loading, lines 93-162 *)

(** The module-level variables of the loader.  [loadsStarted],
    [inFlight] and [warmups] are probes: the number of
    [Promise.all([...loadFromDisk])] operations begun so far, how many of
    them have not settled, and the number of calls to [warmupModels()]. *)
Record loaderState : Type := mkLoader {
  modelsLoaded : bool;
  modelLoadingPromise : option nat;
  lastModelLoadTime : Z;
  loadsStarted : nat;
  inFlight : nat;
  warmups : nat
}.

Definition loaderInit : loaderState :=
  {| modelsLoaded := false; modelLoadingPromise := None;
     lastModelLoadTime := 0; loadsStarted := 0; inFlight := 0;
     warmups := 0 |}.

(** 15 minutes, in milliseconds. *)
Definition MODEL_VALIDITY_DURATION : Z := 15 * 60 * 1000.

(** [modelsLoaded && (currentTime - lastModelLoadTime) < MODEL_VALIDITY_DURATION] *)
Definition modelsValid (currentTime : Z) (s : loaderState) : bool :=
  modelsLoaded s
  && (currentTime - lastModelLoadTime s <? MODEL_VALIDITY_DURATION)%Z.

(** [loadModels()], up to the [return]: the promise handed back and the
    state left behind.  The handlers attached to the new promise are
    [thenLoaded] and [catchLoadError]. *)
Definition loadModels (currentTime : Z) (s : loaderState)
    : promise * loaderState :=
  if modelsValid currentTime s then (AlreadyResolved, s)
  else
    match modelLoadingPromise s with
    | Some p => (Outstanding p, s)
    | None =>
        let p := S (loadsStarted s) in
        (Outstanding p,
         {| modelsLoaded := modelsLoaded s;
            modelLoadingPromise := Some p;
            lastModelLoadTime := lastModelLoadTime s;
            loadsStarted := S (loadsStarted s);
            inFlight := S (inFlight s);
            warmups := warmups s |})
    end.

(** The [.then] callback, lines 144-154.  It calls [warmupModels()],
    lines 168-187, which is not awaited: that call draws a blank canvas
    and runs [faceapi.detectSingleFace] on it once, inside a [try] that
    swallows every error, and writes none of the other variables kept
    here. *)
Definition thenLoaded (now : Z) (s : loaderState) : loaderState :=
  {| modelsLoaded := true;
     modelLoadingPromise := None;
     lastModelLoadTime := now;
     loadsStarted := loadsStarted s;
     inFlight := pred (inFlight s);
     warmups := S (warmups s) |}.

(** The [.catch] callback, lines 155-159; it rethrows [error]. *)
Definition catchLoadError (s : loaderState) : loaderState :=
  {| modelsLoaded := modelsLoaded s;
     modelLoadingPromise := None;
     lastModelLoadTime := lastModelLoadTime s;
     loadsStarted := loadsStarted s;
     inFlight := pred (inFlight s);
     warmups := warmups s |}.

(** One event of the loader.  A load can only settle while one is in
    flight. *)
Definition loaderStep (s : loaderState) (ev : loaderEvent) : loaderState :=
  match ev with
  | CallLoadModels now => snd (loadModels now s)
  | LoadSucceeded now =>
      if inFlight s =? 0 then s else thenLoaded now s
  | LoadFailed =>
      if inFlight s =? 0 then s else catchLoadError s
  end.

Definition loaderRun (evs : list loaderEvent) : loaderState :=
  fold_left loaderStep evs loaderInit.

(** The timestamps carried by a trace, in order. *)
Fixpoint timestamps (evs : list loaderEvent) : list Z :=
  match evs with
  | [] => []
  | CallLoadModels now :: rest => now :: timestamps rest
  | LoadSucceeded now :: rest => now :: timestamps rest
  | LoadFailed :: rest => timestamps rest
  end.

(** What [checkModels()] resolves to, lines 194-205.  [lastLoadTime]
    holds the instant whose ISO rendering the source returns. *)
Record modelsStatus : Type := mkStatus {
  loaded : bool;
  loading : bool;
  timeSinceLastLoad : option Z;
  isValid : bool;
  lastLoadTime : option Z
}.

Definition checkModels (currentTime : Z) (s : loaderState) : modelsStatus :=
  let sinceLastLoad := (currentTime - lastModelLoadTime s)%Z in
  {| loaded := modelsLoaded s;
     loading := match modelLoadingPromise s with
                | Some _ => true
                | None => false
                end;
     timeSinceLastLoad :=
       if modelsLoaded s then Some sinceLastLoad else None;
     isValid :=
       modelsLoaded s && (sinceLastLoad <? MODEL_VALIDITY_DURATION)%Z;
     lastLoadTime :=
       if (lastModelLoadTime s =? 0)%Z then None
       else Some (lastModelLoadTime s) |}.

(** **** The descriptor cache and [hashBuffer] *)

Definition CACHE_SIZE_LIMIT : nat := 100.

(** [ToInt32] *)
Definition toInt32 (z : Z) : Z := ((z + 2 ^ 31) mod 2 ^ 32 - 2 ^ 31)%Z.

(** [((hash << 5) + hash) ^ byte] *)
Definition djb2Step (hash byte : Z) : Z :=
  Z.lxor (toInt32 (toInt32 (toInt32 hash * 32) + hash)) byte.

(** [for (let i = 0; i < data.length; i += step)], lines 373-375. *)
Fixpoint hashLoop (fuel : nat) (data : list Z) (step i : nat) (hash : Z) : Z :=
  match fuel with
  | O => hash
  | S fuel' =>
      if i <? length data
      then hashLoop fuel' data step (i + step) (djb2Step hash (nth i data 0%Z))
      else hash
  end.

(** [hashBuffer(buffer)], lines 364-378.  The key is the integer whose
    base-36 rendering the source returns.  For the empty buffer the
    source's [step] is [NaN] and the loop body never runs; here [step] is
    [1] and the loop body never runs either. *)
Definition hashBuffer (data : buffer) : Z :=
  let totalBytes := Nat.min 100 (length data) in
  let step := Nat.max 1 (length data / totalBytes) in
  hashLoop (length data) data step 0 5381%Z.

(** Everything [extractFaceDescriptor] reads and writes.  [accessLog]
    (the keys read or written in the cache, oldest first) and
    [pipelineCalls] (the detector invocations made by
    [extractFaceDescriptor] on the submitted image) are probes. *)
Record world : Type := mkWorld {
  models : loaderState;
  descriptorCache : JsMap.t Z descriptor;
  cacheAccessOrder : list Z;
  accessLog : list Z;
  pipelineCalls : nat
}.

Definition worldInit : world :=
  {| models := loaderInit; descriptorCache := []; cacheAccessOrder := [];
     accessLog := []; pipelineCalls := 0 |}.

Definition withModels (f : loaderState -> loaderState) (w : world) : world :=
  {| models := f (models w); descriptorCache := descriptorCache w;
     cacheAccessOrder := cacheAccessOrder w; accessLog := accessLog w;
     pipelineCalls := pipelineCalls w |}.

Definition tickPipeline (w : world) : world :=
  {| models := models w; descriptorCache := descriptorCache w;
     cacheAccessOrder := cacheAccessOrder w; accessLog := accessLog w;
     pipelineCalls := S (pipelineCalls w) |}.

(** [a.splice(a.indexOf(key), 1)] when [key] occurs in [a]. *)
Fixpoint removeFirst (key : Z) (a : list Z) : list Z :=
  match a with
  | [] => []
  | k :: rest => if Z.eq_dec k key then rest else k :: removeFirst key rest
  end.

(** [updateCacheAccess(key)], lines 210-219, recorded in the log. *)
Definition updateCacheAccess (key : Z) (w : world) : world :=
  {| models := models w; descriptorCache := descriptorCache w;
     cacheAccessOrder := removeFirst key (cacheAccessOrder w) ++ [key];
     accessLog := accessLog w ++ [key];
     pipelineCalls := pipelineCalls w |}.

(** Lines 340-344: at the limit, [cacheAccessOrder.shift()] and delete
    that key; shifting an empty array yields [undefined], which deletes
    nothing. *)
Definition evictOldest (w : world) : world :=
  if CACHE_SIZE_LIMIT <=? JsMap.size (descriptorCache w) then
    match cacheAccessOrder w with
    | [] => w
    | oldestKey :: rest =>
        {| models := models w;
           descriptorCache :=
             JsMap.delete Z.eq_dec oldestKey (descriptorCache w);
           cacheAccessOrder := rest;
           accessLog := accessLog w;
           pipelineCalls := pipelineCalls w |}
    end
  else w.

(** [descriptorCache.set(bufferHash, descriptor)] *)
Definition cacheSet (key : Z) (d : descriptor) (w : world) : world :=
  {| models := models w;
     descriptorCache := JsMap.set Z.eq_dec key d (descriptorCache w);
     cacheAccessOrder := cacheAccessOrder w; accessLog := accessLog w;
     pipelineCalls := pipelineCalls w |}.

(** **** Descriptor extraction, lines 226-356 *)

Section Extraction.

Context {api : FaceApi}.

Local Open Scope js_scope.

(** [await loadModels()]: the call, then the settling of the promise
    it returned. *)
Definition awaitLoadModels (e : env) : M world unit :=
  fun w =>
    let (p, s) := loadModels (currentTime e) (models w) in
    match p with
    | AlreadyResolved => (Returned tt, withModels (fun _ => s) w)
    | Outstanding _ =>
        match diskLoad e with
        | None =>
            (Returned tt, withModels (fun _ => thenLoaded (loadedTime e) s) w)
        | Some error =>
            (Thrown error, withModels (fun _ => catchLoadError s) w)
        end
    end.

(** [preprocessImage(imageBuffer)], lines 226-254: the [catch] logs and
    rethrows. *)
Definition preprocessImage (imageBuffer : buffer) : M world canvas :=
  tryCatch
    (img <- lift (loadImage imageBuffer) ;;
     lift (drawResized img))
    (fun err => lift (Thrown err)).

(** [extractFaceDescriptor(imageBuffer)], lines 261-356; [null] is
    [None]. *)
Definition extractFaceDescriptor (e : env) (imageBuffer : buffer)
    : M world (option descriptor) :=
  tryCatch
    (awaitLoadModels e ;;;
     let bufferHash := hashBuffer imageBuffer in
     cached <- gets (fun w => JsMap.has Z.eq_dec bufferHash (descriptorCache w)) ;;
     if (cached : bool) then
       modify (updateCacheAccess bufferHash) ;;;
       gets (fun w => JsMap.get Z.eq_dec bufferHash (descriptorCache w))
     else
       img <- lift (loadImage imageBuffer) ;;
       processedCanvas <- preprocessImage imageBuffer ;;
       modify tickPipeline ;;;
       initialDetection <- lift (detectSingleFace processedCanvas) ;;
       match initialDetection with
       | None => ret None
       | Some initial =>
           faceCanvas <- lift (drawFace img processedCanvas initial) ;;
           modify tickPipeline ;;;
           withDescriptor <- lift (detectWithDescriptor faceCanvas) ;;
           match withDescriptor with
           | None => ret None
           | Some descriptor =>
               modify evictOldest ;;;
               modify (cacheSet bufferHash descriptor) ;;;
               modify (updateCacheAccess bufferHash) ;;;
               ret (Some descriptor)
           end
       end)
    (fun error => ret None).

(** A sequence of calls, one after the other. *)
Fixpoint extractAll (calls : list (env * buffer)) (w : world) : world :=
  match calls with
  | [] => w
  | (e, b) :: rest => extractAll rest (snd (extractFaceDescriptor e b w))
  end.

End Extraction.

End UtilsDb.

(** *** server/utils/faceRecognition.js *)

Module ServerUtils.

(** [for (const profile of faceProfiles)], lines 324-347. *)
Fixpoint scanDirectly (targetArray : list num) (threshold : num)
    (faceProfiles : list faceProfile) (st : scanState) : scanState :=
  match faceProfiles with
  | [] => st
  | profile :: rest =>
      match faceDescriptor profile with
      | None => scanDirectly targetArray threshold rest st
      | Some profileDescriptor =>
          let distance := Distance.distance4 targetArray profileDescriptor in
          if nltb distance threshold && nltb distance (bestDistance st) then
            scanDirectly targetArray threshold rest
              {| bestMatch := Some profile;
                 bestDistance := distance;
                 computed := S (computed st) |}
          else
            scanDirectly targetArray threshold rest
              {| bestMatch := bestMatch st;
                 bestDistance := bestDistance st;
                 computed := S (computed st) |}
      end
  end.

(** [findMatchingFaceDirectly], lines 316-350:
    [return bestMatch ? { match: bestMatch, distance: bestDistance } : null] *)
Definition findMatchingFaceDirectly_run (targetArray : list num)
    (faceProfiles : list faceProfile) (threshold : num)
    : searchRun (option matchResult) :=
  let st := scanDirectly targetArray threshold faceProfiles scanStart in
  {| returned :=
       match bestMatch st with
       | Some p => Some {| match_ := Some p; distance := bestDistance st |}
       | None => None
       end;
     distancesComputed := computed st |}.

Definition findMatchingFaceDirectly (targetArray : list num)
    (faceProfiles : list faceProfile) (threshold : num)
    : option matchResult :=
  returned (findMatchingFaceDirectly_run targetArray faceProfiles threshold).

(** What [findMatchingFace] hands back: [null], the object built by
    [findMatchingFaceDirectly], or, on the batched path, the bare
    profile held in [bestMatch]. *)
Inductive found : Type :=
| Null
| MatchObject (m : matchResult)
| BareProfile (p : faceProfile).

Definition ofDirect (r : option matchResult) : found :=
  match r with
  | Some m => MatchObject m
  | None => Null
  end.

(** [for (let i = 0; i < faceProfiles.length; i += batchSize)
       batches.push(faceProfiles.slice(i, i + batchSize))] *)
Fixpoint makeBatches (fuel : nat) (faceProfiles : list faceProfile)
    (batchSize i : nat) : list (list faceProfile) :=
  match fuel with
  | O => []
  | S fuel' =>
      if i <? length faceProfiles
      then slice faceProfiles i (i + batchSize)
           :: makeBatches fuel' faceProfiles batchSize (i + batchSize)
      else []
  end.

(** [batches.forEach(batch => { ... })], lines 297-303. *)
Fixpoint foldBatches (targetArray : list num) (threshold : num)
    (batches : list (list faceProfile)) (st : scanState) : scanState :=
  match batches with
  | [] => st
  | batch :: rest =>
      let r := findMatchingFaceDirectly_run targetArray batch threshold in
      let st1 := {| bestMatch := bestMatch st;
                    bestDistance := bestDistance st;
                    computed := computed st + distancesComputed r |} in
      match returned r with
      | Some batchResult =>
          if nltb (distance batchResult) (bestDistance st)
          then foldBatches targetArray threshold rest
                 {| bestMatch := match_ batchResult;
                    bestDistance := distance batchResult;
                    computed := computed st1 |}
          else foldBatches targetArray threshold rest st1
      | None => foldBatches targetArray threshold rest st1
      end
  end.

Section Cores.

(** [Math.max(1, os.cpus().length - 1)] *)
Variable CPU_CORES : nat.

(** [findMatchingFace], lines 271-307.  [Math.ceil(length / CPU_CORES)]
    is computed on naturals. *)
Definition findMatchingFace_run (targetDescriptor : option (list num))
    (faceProfiles : option (list faceProfile)) (threshold : num)
    : searchRun found :=
  match targetDescriptor, faceProfiles with
  | Some target, Some profiles =>
      if length profiles =? 0
      then {| returned := Null; distancesComputed := 0 |}
      else if (length profiles <? 10) || (CPU_CORES <=? 1) then
        let r := findMatchingFaceDirectly_run target profiles threshold in
        {| returned := ofDirect (returned r);
           distancesComputed := distancesComputed r |}
      else
        let batchSize :=
          (length profiles + CPU_CORES - 1) / CPU_CORES in
        let batches :=
          makeBatches (length profiles) profiles batchSize 0 in
        let st := foldBatches target threshold batches scanStart in
        {| returned := match bestMatch st with
                       | Some p => BareProfile p
                       | None => Null
                       end;
           distancesComputed := computed st |}
  | _, _ => {| returned := Null; distancesComputed := 0 |}
  end.

Definition findMatchingFace (targetDescriptor : option (list num))
    (faceProfiles : option (list faceProfile)) (threshold : num) : found :=
  returned (findMatchingFace_run targetDescriptor faceProfiles threshold).

End Cores.

(** **** Model loading, lines 21-89 *)

(** The module-level variables of the loader, with the probes
    [loadsStarted] and [inFlight]. *)
Record loaderState : Type := mkLoader {
  modelsLoaded : bool;
  modelLoadingPromise : option nat;
  loadsStarted : nat;
  inFlight : nat
}.

Definition loaderInit : loaderState :=
  {| modelsLoaded := false; modelLoadingPromise := None;
     loadsStarted := 0; inFlight := 0 |}.

(** [loadModels()], up to the [return]. *)
Definition loadModels (s : loaderState) : promise * loaderState :=
  match modelLoadingPromise s with
  | Some p => (Outstanding p, s)
  | None =>
      if modelsLoaded s then (AlreadyResolved, s)
      else
        let p := S (loadsStarted s) in
        (Outstanding p,
         {| modelsLoaded := modelsLoaded s;
            modelLoadingPromise := Some p;
            loadsStarted := S (loadsStarted s);
            inFlight := S (inFlight s) |})
  end.

(** The rest of the [try] block once [Promise.all] resolved, then the
    [finally] block. *)
Definition loadResolved (s : loaderState) : loaderState :=
  {| modelsLoaded := true;
     modelLoadingPromise := None;
     loadsStarted := loadsStarted s;
     inFlight := pred (inFlight s) |}.

(** The [catch] block, which rethrows, then the [finally] block. *)
Definition loadRejected (s : loaderState) : loaderState :=
  {| modelsLoaded := modelsLoaded s;
     modelLoadingPromise := None;
     loadsStarted := loadsStarted s;
     inFlight := pred (inFlight s) |}.

Definition loaderStep (s : loaderState) (ev : loaderEvent) : loaderState :=
  match ev with
  | CallLoadModels _ => snd (loadModels s)
  | LoadSucceeded _ =>
      if inFlight s =? 0 then s else loadResolved s
  | LoadFailed =>
      if inFlight s =? 0 then s else loadRejected s
  end.

Definition loaderRun (evs : list loaderEvent) : loaderState :=
  fold_left loaderStep evs loaderInit.

(** **** The descriptor cache *)

(** [Buffer.from(imageBuffer).toString('base64').slice(0, 50)] *)
Definition cacheKeyOf (imageBuffer : buffer) : string :=
  substring 0 50 (Base64.encode imageBuffer).

(** Everything [extractFaceDescriptor] reads and writes, with the probes
    [accessLog] (keys read or written in the cache, oldest first) and
    [pipelineCalls]. *)
Record world : Type := mkWorld {
  models : loaderState;
  descriptorCache : JsMap.t string descriptor;
  accessLog : list string;
  pipelineCalls : nat
}.

Definition worldInit : world :=
  {| models := loaderInit; descriptorCache := [];
     accessLog := []; pipelineCalls := 0 |}.

Definition withModels (f : loaderState -> loaderState) (w : world) : world :=
  {| models := f (models w); descriptorCache := descriptorCache w;
     accessLog := accessLog w; pipelineCalls := pipelineCalls w |}.

Definition tickPipeline (w : world) : world :=
  {| models := models w; descriptorCache := descriptorCache w;
     accessLog := accessLog w; pipelineCalls := S (pipelineCalls w) |}.

Definition logAccess (key : string) (w : world) : world :=
  {| models := models w; descriptorCache := descriptorCache w;
     accessLog := accessLog w ++ [key]; pipelineCalls := pipelineCalls w |}.

(** [descriptorCache.set(cacheKey, descriptor)], recorded in the log. *)
Definition cacheSet (key : string) (d : descriptor) (w : world) : world :=
  {| models := models w;
     descriptorCache := JsMap.set string_dec key d (descriptorCache w);
     accessLog := accessLog w ++ [key];
     pipelineCalls := pipelineCalls w |}.

(** Lines 211-215: past 100 entries, delete the first key of the map. *)
Definition trimCache (w : world) : world :=
  if 100 <? JsMap.size (descriptorCache w) then
    match JsMap.firstKey (descriptorCache w) with
    | None => w
    | Some firstKey =>
        {| models := models w;
           descriptorCache :=
             JsMap.delete string_dec firstKey (descriptorCache w);
           accessLog := accessLog w;
           pipelineCalls := pipelineCalls w |}
    end
  else w.

(** **** Descriptor extraction, lines 96-224 *)

Section Extraction.

Context {api : FaceApi}.

Local Open Scope js_scope.

(** [await loadModels()] *)
Definition awaitLoadModels (e : env) : M world unit :=
  fun w =>
    let (p, s) := loadModels (models w) in
    match p with
    | AlreadyResolved => (Returned tt, withModels (fun _ => s) w)
    | Outstanding _ =>
        match diskLoad e with
        | None => (Returned tt, withModels (fun _ => loadResolved s) w)
        | Some error => (Thrown error, withModels (fun _ => loadRejected s) w)
        end
    end.

(** [preprocessImage(imageBuffer)], lines 96-131. *)
Definition preprocessImage (imageBuffer : buffer) : M world canvas :=
  img <- lift (loadImage imageBuffer) ;;
  lift (drawResized img).

(** [extractFaceDescriptor(imageBuffer)], lines 138-224. *)
Definition extractFaceDescriptor (e : env) (imageBuffer : buffer)
    : M world (option descriptor) :=
  let cacheKey := cacheKeyOf imageBuffer in
  cached <- gets (fun w => JsMap.has string_dec cacheKey (descriptorCache w)) ;;
  if (cached : bool) then
    modify (logAccess cacheKey) ;;;
    gets (fun w => JsMap.get string_dec cacheKey (descriptorCache w))
  else
    awaitLoadModels e ;;;
    tryCatch
      (resizedCanvas <- preprocessImage imageBuffer ;;
       modify tickPipeline ;;;
       firstDetection <- lift (detectSingleFace resizedCanvas) ;;
       match firstDetection with
       | None => ret None
       | Some faceBox =>
           faceCanvas <- lift (cropFace resizedCanvas faceBox) ;;
           modify tickPipeline ;;;
           detectionWithDescriptor <- lift (detectWithDescriptor faceCanvas) ;;
           match detectionWithDescriptor with
           | None => ret None
           | Some descriptor =>
               modify (cacheSet cacheKey descriptor) ;;;
               modify trimCache ;;;
               ret (Some descriptor)
           end
       end)
      (fun error => ret None).

Fixpoint extractAll (calls : list (env * buffer)) (w : world) : world :=
  match calls with
  | [] => w
  | (e, b) :: rest => extractAll rest (snd (extractFaceDescriptor e b w))
  end.

End Extraction.

(** [clearDescriptorCache()], lines 355-358. *)
Definition clearDescriptorCache (w : world) : world :=
  {| models := models w; descriptorCache := [];
     accessLog := accessLog w; pipelineCalls := pipelineCalls w |}.

End ServerUtils.

(** *** The third variant (100x75 preprocessing) *)

Module Variant3.

(** [for (const profile of faceProfiles)], lines 285-315. *)
Fixpoint scan (targetArray : list num) (faceProfiles : list faceProfile)
    (st : scanState) : scanState :=
  match faceProfiles with
  | [] => st
  | profile :: rest =>
      match faceDescriptor profile with
      | None => scan targetArray rest st
      | Some profileArray =>
          let distance := Distance.distance8 targetArray profileArray in
          if nltb distance (bestDistance st) then
            scan targetArray rest
              {| bestMatch := Some profile;
                 bestDistance := distance;
                 computed := S (computed st) |}
          else
            scan targetArray rest
              {| bestMatch := bestMatch st;
                 bestDistance := bestDistance st;
                 computed := S (computed st) |}
      end
  end.

(** [findMatchingFace], lines 273-321:
    [return bestDistance < threshold ? { match, distance } : null] *)
Definition findMatchingFace_run (targetDescriptor : option (list num))
    (faceProfiles : option (list faceProfile)) (threshold : num)
    : searchRun (option matchResult) :=
  match targetDescriptor, faceProfiles with
  | Some targetArray, Some profiles =>
      if length profiles =? 0
      then {| returned := None; distancesComputed := 0 |}
      else
        let st := scan targetArray profiles scanStart in
        {| returned :=
             if nltb (bestDistance st) threshold
             then Some {| match_ := bestMatch st; distance := bestDistance st |}
             else None;
           distancesComputed := computed st |}
  | _, _ => {| returned := None; distancesComputed := 0 |}
  end.

Definition findMatchingFace (targetDescriptor : option (list num))
    (faceProfiles : option (list faceProfile)) (threshold : num)
    : option matchResult :=
  returned (findMatchingFace_run targetDescriptor faceProfiles threshold).

(** **** Model loading, lines 22-94 *)

(** Where the async function started by [loadModels] is suspended: at
    the [await] of the detector (line 68) or at the [await] of the two
    other nets (lines 72-75). *)
Inductive loadPhase : Type :=
| NotLoading
| AwaitingDetector
| AwaitingRest.

(** The module-level variables of the loader, the point reached by the
    load in flight, and two probes: [diskLoads] counts the calls of
    [loadFromDisk], and [restLoaded] records that the landmark and the
    recognition nets have both been loaded. *)
Record loaderState : Type := mkLoader {
  modelsLoaded : bool;
  modelLoadingPromise : option nat;
  modelCache : JsMap.t string unit;
  phase : loadPhase;
  promisesMade : nat;
  diskLoads : nat;
  restLoaded : bool
}.

Definition loaderInit : loaderState :=
  {| modelsLoaded := false; modelLoadingPromise := None; modelCache := [];
     phase := NotLoading; promisesMade := 0; diskLoads := 0;
     restLoaded := false |}.

(** [loadModels()], up to the [return].  With models cached in memory
    the async function runs to its end, [finally] block included, before
    its promise is assigned to [modelLoadingPromise]; otherwise it is
    suspended at the first [await]. *)
Definition loadModels (s : loaderState) : promise * loaderState :=
  match modelLoadingPromise s with
  | Some p => (Outstanding p, s)
  | None =>
      if modelsLoaded s then (AlreadyResolved, s)
      else
        let p := S (promisesMade s) in
        if 0 <? JsMap.size (modelCache s) then
          (Outstanding p,
           {| modelsLoaded := true;
              modelLoadingPromise := Some p;
              modelCache := modelCache s;
              phase := NotLoading;
              promisesMade := p;
              diskLoads := diskLoads s;
              restLoaded := restLoaded s |})
        else
          (Outstanding p,
           {| modelsLoaded := modelsLoaded s;
              modelLoadingPromise := Some p;
              modelCache := modelCache s;
              phase := AwaitingDetector;
              promisesMade := p;
              diskLoads := S (diskLoads s);
              restLoaded := restLoaded s |})
  end.

(** The promise awaited by the load in flight resolves: lines 69-75
    after the detector, lines 78-83 and the [finally] block after the
    two other nets. *)
Definition awaitResolved (s : loaderState) : loaderState :=
  match phase s with
  | NotLoading => s
  | AwaitingDetector =>
      {| modelsLoaded := modelsLoaded s;
         modelLoadingPromise := modelLoadingPromise s;
         modelCache := JsMap.set string_dec "detector"%string tt (modelCache s);
         phase := AwaitingRest;
         promisesMade := promisesMade s;
         diskLoads := S (S (diskLoads s));
         restLoaded := restLoaded s |}
  | AwaitingRest =>
      {| modelsLoaded := true;
         modelLoadingPromise := None;
         modelCache :=
           JsMap.set string_dec "recognition"%string tt
             (JsMap.set string_dec "landmarks"%string tt (modelCache s));
         phase := NotLoading;
         promisesMade := promisesMade s;
         diskLoads := diskLoads s;
         restLoaded := true |}
  end.

(** The promise awaited by the load in flight rejects: the [catch]
    block, which rethrows, then the [finally] block. *)
Definition awaitRejected (s : loaderState) : loaderState :=
  match phase s with
  | NotLoading => s
  | _ =>
      {| modelsLoaded := modelsLoaded s;
         modelLoadingPromise := None;
         modelCache := modelCache s;
         phase := NotLoading;
         promisesMade := promisesMade s;
         diskLoads := diskLoads s;
         restLoaded := restLoaded s |}
  end.

Definition loaderStep (s : loaderState) (ev : loaderEvent) : loaderState :=
  match ev with
  | CallLoadModels _ => snd (loadModels s)
  | LoadSucceeded _ => awaitResolved s
  | LoadFailed => awaitRejected s
  end.

Definition loaderRun (evs : list loaderEvent) : loaderState :=
  fold_left loaderStep evs loaderInit.

(** **** The descriptor cache, lines 152-160 and 224-230 *)

(** [Buffer.from(imageBuffer).toString('base64').slice(0, 32)] *)
Definition cacheKeyOf (imageBuffer : buffer) : string :=
  substring 0 32 (Base64.encode imageBuffer).

(** [if (descriptorCache.size > 50) { delete the first key }
     descriptorCache.set(cacheKey, descriptor)] *)
Definition cacheStore (cacheKey : string) (d : descriptor)
    (cache : JsMap.t string descriptor) : JsMap.t string descriptor :=
  let trimmed :=
    if 50 <? JsMap.size cache then
      match JsMap.firstKey cache with
      | Some firstKey => JsMap.delete string_dec firstKey cache
      | None => cache
      end
    else cache in
  JsMap.set string_dec cacheKey d trimmed.

End Variant3.

(** *** vercel-server/public/js/shared-model-loader.js *)

Module SharedModelLoader.

(** [window.FaceAPI], with a probe: [attempts] counts the passes through
    the [try] block of [loadFaceApiModels], each of which starts loading
    the detector. *)
Record faceApiState : Type := mkState {
  modelsLoaded : bool;
  modelLoadingPromise : option nat;
  lastModelLoadTime : Z;
  faceDetectionReady : bool;
  faceRecognitionReady : bool;
  loadRetries : nat;
  maxRetries : nat;
  attempts : nat
}.

Definition initial : faceApiState :=
  {| modelsLoaded := false; modelLoadingPromise := None;
     lastModelLoadTime := 0; faceDetectionReady := false;
     faceRecognitionReady := false; loadRetries := 0; maxRetries := 3;
     attempts := 0 |}.






(** Lines 87-96: the flags, the time of the load, and the promise
    cleared. *)
Definition loaded (now : Z) (s : faceApiState) : faceApiState :=
  {| modelsLoaded := true;
     modelLoadingPromise := None;
     lastModelLoadTime := now;
     faceDetectionReady := faceDetectionReady s;
     faceRecognitionReady := true;
     loadRetries := loadRetries s; maxRetries := maxRetries s;
     attempts := attempts s |}.



Local Open Scope js_scope.




End SharedModelLoader.

(** *** The token endpoints (vercel-server/index.js) *)

(** The [Token] and [AuthCode] collections are held as lists of
    documents.  The database answers every query; the only rejection is
    that of a unique index.  The fields read from a request are
    strings. *)
Module OAuth.

Local Open Scope string_scope.
Local Open Scope js_scope.

(** An entry of [clients]. *)
Record client : Type := mkClient {
  clientSecret : string;
  redirectUris : list string
}.

(** A document of the [Token] collection. *)
Record tokenDoc : Type := mkToken {
  token : string;
  userId : string;
  clientId : string;
  scope : option string;
  isRefreshToken : bool;
  expiresAt : Z
}.

(** A document of the [AuthCode] collection; [codeValue] is its field
    [code], and the other fields are named likewise. *)
Record authCodeDoc : Type := mkAuthCode {
  codeValue : string;
  codeClientId : string;
  codeUserId : string;
  redirectUri : string;
  codeScope : option string;
  codeExpiresAt : Z;
  nonce : option string
}.

(** The two collections, documents in insertion order. *)
Record store : Type := mkStore {
  tokens : list tokenDoc;
  authCodes : list authCodeDoc
}.

(** [Model.findOne(filter)] *)
Definition findOne {A : Type} (filter : A -> bool) (docs : list A)
    : option A :=
  find filter docs.

(** [Model.deleteOne(filter)] *)
Fixpoint deleteOne {A : Type} (filter : A -> bool) (docs : list A) : list A :=
  match docs with
  | [] => []
  | d :: rest => if filter d then rest else d :: deleteOne filter rest
  end.

Definition withTokens (f : list tokenDoc -> list tokenDoc) (s : store)
    : store :=
  {| tokens := f (tokens s); authCodes := authCodes s |}.

Definition withAuthCodes (f : list authCodeDoc -> list authCodeDoc)
    (s : store) : store :=
  {| tokens := tokens s; authCodes := f (authCodes s) |}.

(** [new Token(d).save()]: the unique index on [token] rejects a second
    document with the same token. *)
Definition saveToken (d : tokenDoc) : M store unit :=
  fun s =>
    if existsb (fun t => token t =? token d) (tokens s)
    then (Thrown "E11000 duplicate key error", s)
    else (Returned tt, withTokens (fun ts => (ts ++ [d])%list) s).

(** [await Promise.all([a, b])]: both operations are started; the
    promise rejects when one of them does. *)
Definition promiseAll2 (a b : M store unit) : M store unit :=
  fun s =>
    let (ra, s1) := a s in
    let (rb, s2) := b s1 in
    (match ra, rb with
     | Returned _, Returned _ => Returned tt
     | Thrown error, _ => Thrown error
     | _, Thrown error => Thrown error
     end, s2).

(** The fields of [req.body] read by the token endpoint, each a
    string. *)
Record tokenBody : Type := mkBody {
  grant_type : string;
  code : string;
  redirect_uri : string;
  client_id : string;
  client_secret : string;
  refresh_token : string
}.

(** What the environment decides during one request: the readings of the
    clock ([new Date()] at the expiry check, [Date.now()] for the
    identity token and for the two expiry times) and the two results of
    [generateRandomString()]. *)
Record tokenEnv : Type := mkTokenEnv {
  checkedAt : Z;
  idTokenNow : Z;
  accessNow : Z;
  refreshNow : Z;
  accessToken : string;
  refreshToken : string
}.

(** The payload signed by [generateJWT], as far as it depends on the
    request and on the collections; the issuer, the times of issue and
    the profile claims are left out. *)
Record idTokenPayload : Type := mkIdToken {
  sub : string;
  aud : option string;
  exp : Z;
  idNonce : option string
}.

Record tokenResponse : Type := mkTokens {
  access_token : string;
  token_type : string;
  expires_in : Z;
  issued_refresh_token : string;
  refresh_expires_in : Z;
  id_token : idTokenPayload
}.

Inductive response : Type :=
| Json (status : nat) (error : string)
| Tokens (body : tokenResponse).

(** The refresh token grant, lines 312-367.  It is not inside a [try]
    block: when a [save] rejects, so does the handler. *)
Definition refreshTokenGrant (e : tokenEnv) (body : tokenBody)
    : M store response :=
  found <- gets (fun s =>
             findOne (fun t => (token t =? refresh_token body)
                               && isRefreshToken t)
                     (tokens s)) ;;
  match found with
  | None => ret (Json 400 "invalid_grant")
  | Some refreshTokenDoc =>
      if (expiresAt refreshTokenDoc <? checkedAt e)%Z
      then ret (Json 400 "invalid_grant")
      else
        modify (withTokens
                  (deleteOne (fun t => token t =? refresh_token body))) ;;;
        let accessTokenExpires := (accessNow e + 3600 * 1000)%Z in
        let refreshTokenExpires := (refreshNow e + 30 * 24 * 3600 * 1000)%Z in
        promiseAll2
          (saveToken {| token := accessToken e;
                        userId := userId refreshTokenDoc;
                        clientId := client_id body;
                        scope := scope refreshTokenDoc;
                        isRefreshToken := false;
                        expiresAt := accessTokenExpires |})
          (saveToken {| token := refreshToken e;
                        userId := userId refreshTokenDoc;
                        clientId := client_id body;
                        scope := scope refreshTokenDoc;
                        isRefreshToken := true;
                        expiresAt := refreshTokenExpires |}) ;;;
        ret (Tokens
               {| access_token := accessToken e;
                  token_type := "Bearer";
                  expires_in := 900;
                  issued_refresh_token := refreshToken e;
                  refresh_expires_in := 604800;
                  id_token :=
                    {| sub := userId refreshTokenDoc;
                       aud := None;
                       exp := (accessTokenExpires / 1000)%Z;
                       idNonce := None |} |})
  end.

(** The authorization code grant, lines 374-479; [user.id] is
    [authCodeData.userId] whether the user is found or not. *)
Definition authorizationCodeGrant (e : tokenEnv) (body : tokenBody)
    : M store response :=
  tryCatch
    (found <- gets (fun s =>
                findOne (fun c => codeValue c =? code body) (authCodes s)) ;;
     match found with
     | None => ret (Json 400 "invalid_grant")
     | Some authCodeData =>
         if negb (codeClientId authCodeData =? client_id body)
            || negb (redirectUri authCodeData =? redirect_uri body)
            || (codeExpiresAt authCodeData <? checkedAt e)%Z
         then ret (Json 400 "invalid_grant")
         else
           modify (withAuthCodes
                     (deleteOne (fun c => codeValue c =? code body))) ;;;
           let idToken :=
             {| sub := codeUserId authCodeData;
                aud := Some (client_id body);
                exp := (idTokenNow e / 1000 + 3600)%Z;
                idNonce := nonce authCodeData |} in
           saveToken {| token := accessToken e;
                        userId := codeUserId authCodeData;
                        clientId := client_id body;
                        scope := codeScope authCodeData;
                        isRefreshToken := false;
                        expiresAt := (accessNow e + 3600 * 1000)%Z |} ;;;
           saveToken {| token := refreshToken e;
                        userId := codeUserId authCodeData;
                        clientId := client_id body;
                        scope := codeScope authCodeData;
                        isRefreshToken := true;
                        expiresAt :=
                          (refreshNow e + 30 * 24 * 3600 * 1000)%Z |} ;;;
           ret (Tokens
                  {| access_token := accessToken e;
                     token_type := "Bearer";
                     expires_in := 900;
                     issued_refresh_token := refreshToken e;
                     refresh_expires_in := 604800;
                     id_token := idToken |})
     end)
    (fun error => ret (Json 500 "server_error")).

(** [POST /token], lines 302-480.  [clients[client_id]] is looked up
    among the registered clients: a property inherited from
    [Object.prototype] has no [clientSecret] equal to a string and is
    answered like an unknown client. *)
Definition tokenEndpoint (clients : JsMap.t string client) (e : tokenEnv)
    (body : tokenBody) : M store response :=
  match JsMap.get string_dec (client_id body) clients with
  | None => ret (Json 401 "invalid_client")
  | Some client =>
      if negb (clientSecret client =? client_secret body)
      then ret (Json 401 "invalid_client")
      else if grant_type body =? "refresh_token"
      then refreshTokenGrant e body
      else if negb (grant_type body =? "authorization_code")
      then ret (Json 400 "unsupported_grant_type")
      else authorizationCodeGrant e body
  end.

(** What [GET /userinfo] answers, lines 481-546: 401 with
    [invalid_token], or the claims of the user, of which [sub] is
    kept. *)
Inductive userinfoResponse : Type :=
| InvalidToken
| Userinfo (sub : string).

Definition userinfo (authorization : option string) (now : Z) (s : store)
    : userinfoResponse :=
  match authorization with
  | None => InvalidToken
  | Some authHeader =>
      if (authHeader =? "") || negb (prefix "Bearer " authHeader)
      then InvalidToken
      else
        let accessToken :=
          substring 7 (String.length authHeader - 7) authHeader in
        match findOne (fun t => (token t =? accessToken)
                                && negb (isRefreshToken t))
                      (tokens s) with
        | None => InvalidToken
        | Some tokenData =>
            if (expiresAt tokenData <? now)%Z then InvalidToken
            else Userinfo (userId tokenData)
        end
  end.

(** What [POST /introspect] answers, lines 615-646; [username] is left
    out. *)
Inductive introspection : Type :=
| InvalidRequest
| Inactive
| Active (client_id : string) (scope : option string) (sub : string)
         (exp iat : Z) (token_type : string).

Definition introspect (token_ : string) (now : Z) (s : store)
    : introspection :=
  if token_ =? "" then InvalidRequest
  else
    match findOne (fun t => token t =? token_) (tokens s) with
    | None => Inactive
    | Some tokenData =>
        if (expiresAt tokenData <? now)%Z then Inactive
        else Active (clientId tokenData) (scope tokenData) (userId tokenData)
                    (expiresAt tokenData / 1000)
                    ((expiresAt tokenData - 3600 * 1000) / 1000)
                    (if isRefreshToken tokenData then "refresh_token"
                     else "access_token")
    end.

(** [POST /revoke], lines 587-591. *)
Definition revoke (token_ : string) (s : store) : store :=
  withTokens (deleteOne (fun t => token t =? token_)) s.

End OAuth.

(** ** The searches on IEEE 754 doubles *)

(** The numbers of the running code are IEEE 754 binary64 values, and
    every addition, subtraction, multiplication and square root is
    rounded (to nearest, ties to even).  This module embeds the distance
    loops and the three searches on those numbers, as the primitive
    [float] type provides them.  [Math.pow(a, 2)] is taken as the rounded
    product [a * a]; ECMA-262 leaves the precision of [Math.pow] to the
    implementation. *)
Module Double.

(** [Math.pow(a, 2)] *)
Definition pow2 (a : float) : float := PrimFloat.mul a a.

(** The elements an array can hold.  A descriptor computed by face-api.js
    is a [Float32Array], whose elements are numbers; a stored profile has
    the schema type [Array], which accepts any element.  The loops read
    an element through the [-] operator only, that is through [ToNumber]:
    a string or an object is [Other n], where [n] is the number it
    converts to (12 for the string "12", 0 for the empty string, [NaN]
    for the string "abc" and for a plain object). *)
Inductive value : Type :=
| Number (x : float)
| Null
| Undefined
| Boolean (b : bool)
| Other (asNumber : float).

(** [ToNumber], applied by the [-] operator to both operands. *)
Definition toNumber (v : value) : float :=
  match v with
  | Number x => x
  | Null => 0%float
  | Undefined => nan
  | Boolean true => 1%float
  | Boolean false => 0%float
  | Other asNumber => asNumber
  end.

(** [a[i]]: [undefined] past the end of [a]. *)
Definition idx (a : list value) (i : nat) : value := nth i a Undefined.

(** [a - b] *)
Definition minus (a b : value) : float :=
  PrimFloat.sub (toNumber a) (toNumber b).

(** *** Distance computations *)

Module Distance.

Section Terms.

Variables targetArray profileArray : list value.

(** [Math.pow(targetArray[i] - profileArray[i], 2)] *)
Definition sq_term (i : nat) : float :=
  pow2 (minus (idx targetArray i) (idx profileArray i)).

(** [(i < len) ? Math.pow(targetArray[i] - profileArray[i], 2) : 0] *)
Definition guarded_term (len i : nat) : float :=
  if i <? len then sq_term i else 0%float.

(** The eight-term sum added to [sum] in one iteration of the loop of
    [findMatchingFace] in utils/db.js (and of the third variant);
    JavaScript's [+] associates to the left. *)
Definition block8 (len j : nat) : float :=
  PrimFloat.add (PrimFloat.add (PrimFloat.add (PrimFloat.add
    (PrimFloat.add (PrimFloat.add (PrimFloat.add
    (guarded_term len j)
    (guarded_term len (j + 1)))
    (guarded_term len (j + 2)))
    (guarded_term len (j + 3)))
    (guarded_term len (j + 4)))
    (guarded_term len (j + 5)))
    (guarded_term len (j + 6)))
    (guarded_term len (j + 7)).

(** [for (let j = 0; j < len; j += 8) { sum += ... }].  [fuel] bounds
    the number of iterations; the callers pass [len], which is never
    exhausted because [j] grows by eight in each iteration. *)
Fixpoint sumLoop8 (fuel len j : nat) (sum : float) : float :=
  match fuel with
  | O => sum
  | S fuel' =>
      if j <? len
      then sumLoop8 fuel' len (j + 8) (PrimFloat.add sum (block8 len j))
      else sum
  end.

(** [i + k < length ? targetArray[i + k] - profileDescriptor[i + k] : 0] *)
Definition guarded_diff (length i : nat) : float :=
  if i <? length then minus (idx targetArray i) (idx profileArray i)
  else 0%float.

(** One iteration of the stride-4 loop of server/utils/faceRecognition.js:
    [diff1] is not guarded, [diff2] to [diff4] are. *)
Definition block4 (length i : nat) : float :=
  let diff1 := minus (idx targetArray i) (idx profileArray i) in
  let diff2 := guarded_diff length (i + 1) in
  let diff3 := guarded_diff length (i + 2) in
  let diff4 := guarded_diff length (i + 3) in
  PrimFloat.add (PrimFloat.add (PrimFloat.add
    (PrimFloat.mul diff1 diff1) (PrimFloat.mul diff2 diff2))
    (PrimFloat.mul diff3 diff3))
    (PrimFloat.mul diff4 diff4).

(** [for (let i = 0; i < length; i += 4) { distance += ... }] *)
Fixpoint sumLoop4 (fuel length i : nat) (distance : float) : float :=
  match fuel with
  | O => distance
  | S fuel' =>
      if i <? length
      then sumLoop4 fuel' length (i + 4)
             (PrimFloat.add distance (block4 length i))
      else distance
  end.

End Terms.

(** The distance of utils/db.js, lines 415-433 (stride 8). *)
Definition distance8 (targetArray profileArray : list value) : float :=
  let len := length targetArray in
  PrimFloat.sqrt (sumLoop8 targetArray profileArray len len 0 0%float).

(** The distance of server/utils/faceRecognition.js (stride 4), as in
    [compareFaceDescriptors] and [findMatchingFaceDirectly]. *)
Definition distance4 (targetArray profileDescriptor : list value) : float :=
  let length := length targetArray in
  PrimFloat.sqrt
    (sumLoop4 targetArray profileDescriptor length length 0 0%float).

(** The squared componentwise differences of two vectors, in order. *)
Definition squares (query candidate : list value) : list float :=
  map (fun qc => pow2 (minus (fst qc) (snd qc))) (combine query candidate).

(** The reference distance, following the specification's words:
    [sqrt (sum over all components of (query[i] - candidate[i])^2)], the
    sum being taken from the first component to the last. *)
Definition euclideanDistance (query candidate : list value) : float :=
  PrimFloat.sqrt (fold_left PrimFloat.add (squares query candidate) 0%float).

(** The sum of a group of terms, from left to right. *)
Definition groupSum (group : list float) : float :=
  match group with
  | [] => 0%float
  | x :: rest => fold_left PrimFloat.add rest x
  end.

(** The terms are taken in groups of [k]; the sum of each group is added
    to the running total. *)
Fixpoint sumGroups (fuel k : nat) (terms : list float) (total : float)
    : float :=
  match fuel, terms with
  | S fuel', _ :: _ =>
      sumGroups fuel' k (skipn k terms)
                (PrimFloat.add total (groupSum (firstn k terms)))
  | _, _ => total
  end.

Definition sumInGroups (k : nat) (terms : list float) : float :=
  sumGroups (length terms) k terms 0%float.

End Distance.

(** *** Nearest-match search *)

(** A face profile as the search sees it: [faceDescriptor] is [None] when
    the field is missing ([null] or [undefined], the falsy cases of
    [!profile.faceDescriptor]); an array, even an empty one, is truthy. *)
Record faceProfile : Type := mkProfile {
  userId : string;
  faceDescriptor : option (list value)
}.

(** [{ match: bestMatch, distance: bestDistance }]; [bestMatch] is still
    [null] when no candidate improved on [Infinity]. *)
Record matchResult : Type := mkMatch {
  match_ : option faceProfile;
  distance : float
}.

(** The loop variables of a search, with a probe that counts the distance
    computations performed so far. *)
Record scanState : Type := mkScan {
  bestMatch : option faceProfile;
  bestDistance : float;
  computed : nat
}.

Definition scanStart : scanState :=
  {| bestMatch := None; bestDistance := infinity; computed := 0 |}.

(** The default of the [threshold] parameter. *)
Definition defaultThreshold : float := 0.6%float.

(** utils/db.js *)
Module UtilsDb.

Definition BATCH_SIZE : nat := 10.

(** Leaving a [for] loop: by falling through or by [return]. *)
Inductive control : Type :=
| Continue (st : scanState)
| Return (st : scanState).

(** [for (const profile of batch) { ... }], lines 405-448. *)
Fixpoint scanBatch (targetArray : list value) (threshold : float)
    (batch : list faceProfile) (st : scanState) : control :=
  match batch with
  | [] => Continue st
  | profile :: rest =>
      match faceDescriptor profile with
      | None => scanBatch targetArray threshold rest st
      | Some profileArray =>
          let distance := Distance.distance8 targetArray profileArray in
          if PrimFloat.ltb distance (bestDistance st) then
            let st' := {| bestMatch := Some profile;
                          bestDistance := distance;
                          computed := S (computed st) |} in
            if PrimFloat.ltb distance (PrimFloat.mul threshold 0.7%float)
            then Return st'
            else scanBatch targetArray threshold rest st'
          else
            scanBatch targetArray threshold rest
              {| bestMatch := bestMatch st;
                 bestDistance := bestDistance st;
                 computed := S (computed st) |}
      end
  end.

Definition found (st : scanState) : searchRun (option matchResult) :=
  {| returned := Some {| match_ := bestMatch st; distance := bestDistance st |};
     distancesComputed := computed st |}.

(** [return bestDistance <= threshold ? { match, distance } : null] *)
Definition finish (threshold : float) (st : scanState)
    : searchRun (option matchResult) :=
  if PrimFloat.leb (bestDistance st) threshold then found st
  else {| returned := None; distancesComputed := computed st |}.

(** [for (let i = 0; i < faceProfiles.length; i += BATCH_SIZE)], lines
    402-449; [fuel] bounds the number of batches. *)
Fixpoint scanBatches (fuel : nat) (targetArray : list value)
    (threshold : float) (faceProfiles : list faceProfile) (i : nat)
    (st : scanState) : searchRun (option matchResult) :=
  match fuel with
  | O => finish threshold st
  | S fuel' =>
      if i <? length faceProfiles then
        let batch := slice faceProfiles i (i + BATCH_SIZE) in
        match scanBatch targetArray threshold batch st with
        | Return st' => found st'
        | Continue st' =>
            scanBatches fuel' targetArray threshold faceProfiles
                        (i + BATCH_SIZE) st'
        end
      else finish threshold st
  end.

(** [findMatchingFace(targetDescriptor, faceProfiles, threshold)], lines
    387-456.  A [null] argument is [None]. *)
Definition findMatchingFace_run (targetDescriptor : option (list value))
    (faceProfiles : option (list faceProfile)) (threshold : float)
    : searchRun (option matchResult) :=
  match targetDescriptor, faceProfiles with
  | Some targetArray, Some profiles =>
      if length profiles =? 0
      then {| returned := None; distancesComputed := 0 |}
      else scanBatches (length profiles) targetArray threshold profiles 0
                       scanStart
  | _, _ => {| returned := None; distancesComputed := 0 |}
  end.

Definition findMatchingFace (targetDescriptor : option (list value))
    (faceProfiles : option (list faceProfile)) (threshold : float)
    : option matchResult :=
  returned (findMatchingFace_run targetDescriptor faceProfiles threshold).

End UtilsDb.

(** server/utils/faceRecognition.js *)
Module ServerUtils.

(** [for (const profile of faceProfiles)], lines 324-347. *)
Fixpoint scanDirectly (targetArray : list value) (threshold : float)
    (faceProfiles : list faceProfile) (st : scanState) : scanState :=
  match faceProfiles with
  | [] => st
  | profile :: rest =>
      match faceDescriptor profile with
      | None => scanDirectly targetArray threshold rest st
      | Some profileDescriptor =>
          let distance := Distance.distance4 targetArray profileDescriptor in
          if PrimFloat.ltb distance threshold
             && PrimFloat.ltb distance (bestDistance st) then
            scanDirectly targetArray threshold rest
              {| bestMatch := Some profile;
                 bestDistance := distance;
                 computed := S (computed st) |}
          else
            scanDirectly targetArray threshold rest
              {| bestMatch := bestMatch st;
                 bestDistance := bestDistance st;
                 computed := S (computed st) |}
      end
  end.

(** [findMatchingFaceDirectly], lines 316-350:
    [return bestMatch ? { match: bestMatch, distance: bestDistance } : null] *)
Definition findMatchingFaceDirectly_run (targetArray : list value)
    (faceProfiles : list faceProfile) (threshold : float)
    : searchRun (option matchResult) :=
  let st := scanDirectly targetArray threshold faceProfiles scanStart in
  {| returned :=
       match bestMatch st with
       | Some p => Some {| match_ := Some p; distance := bestDistance st |}
       | None => None
       end;
     distancesComputed := computed st |}.

Definition findMatchingFaceDirectly (targetArray : list value)
    (faceProfiles : list faceProfile) (threshold : float)
    : option matchResult :=
  returned (findMatchingFaceDirectly_run targetArray faceProfiles threshold).

(** [compareFaceDescriptors(descriptor1, descriptor2, threshold)], lines
    234-262. *)
Definition compareFaceDescriptors (descriptor1 descriptor2 : option (list value))
    (threshold : float) : bool :=
  match descriptor1, descriptor2 with
  | Some d1, Some d2 => PrimFloat.ltb (Distance.distance4 d1 d2) threshold
  | _, _ => false
  end.

End ServerUtils.

(** The third variant *)
Module Variant3.

(** [for (const profile of faceProfiles)], lines 285-315. *)
Fixpoint scan (targetArray : list value) (faceProfiles : list faceProfile)
    (st : scanState) : scanState :=
  match faceProfiles with
  | [] => st
  | profile :: rest =>
      match faceDescriptor profile with
      | None => scan targetArray rest st
      | Some profileArray =>
          let distance := Distance.distance8 targetArray profileArray in
          if PrimFloat.ltb distance (bestDistance st) then
            scan targetArray rest
              {| bestMatch := Some profile;
                 bestDistance := distance;
                 computed := S (computed st) |}
          else
            scan targetArray rest
              {| bestMatch := bestMatch st;
                 bestDistance := bestDistance st;
                 computed := S (computed st) |}
      end
  end.

(** [findMatchingFace], lines 273-321:
    [return bestDistance < threshold ? { match, distance } : null] *)
Definition findMatchingFace_run (targetDescriptor : option (list value))
    (faceProfiles : option (list faceProfile)) (threshold : float)
    : searchRun (option matchResult) :=
  match targetDescriptor, faceProfiles with
  | Some targetArray, Some profiles =>
      if length profiles =? 0
      then {| returned := None; distancesComputed := 0 |}
      else
        let st := scan targetArray profiles scanStart in
        {| returned :=
             if PrimFloat.ltb (bestDistance st) threshold
             then Some {| match_ := bestMatch st; distance := bestDistance st |}
             else None;
           distancesComputed := computed st |}
  | _, _ => {| returned := None; distancesComputed := 0 |}
  end.

Definition findMatchingFace (targetDescriptor : option (list value))
    (faceProfiles : option (list faceProfile)) (threshold : float)
    : option matchResult :=
  returned (findMatchingFace_run targetDescriptor faceProfiles threshold).

(** [compareFaceDescriptors], lines 242-268. *)
Definition compareFaceDescriptors (descriptor1 descriptor2 : option (list value))
    (threshold : float) : bool :=
  match descriptor1, descriptor2 with
  | Some d1, Some d2 => PrimFloat.ltb (Distance.distance8 d1 d2) threshold
  | _, _ => false
  end.

End Variant3.

(** *** Notions used in the statements *)

Module Notions.

(** The candidates of [cs] that carry a descriptor: those for which a
    distance is computed. *)
Definition withDescriptor (cs : list faceProfile) : list faceProfile :=
  filter (fun c => match faceDescriptor c with Some _ => true | None => false end)
         cs.

(** No candidate of [cs] is strictly closer to the query than [d], for
    the distance function [dist] and the comparison [<] of the code: [d]
    is a minimum over the candidates whose distance can be compared (a
    distance that is [NaN] is below nothing). *)
Definition noneCloser (dist : list value -> list value -> float)
    (t : list value) (cs : list faceProfile) (d : float) : Prop :=
  forall c dc, In c cs -> faceDescriptor c = Some dc ->
               PrimFloat.ltb (dist t dc) d = false.

(** Some candidate of [cs] has a distance to the query that passes the
    comparison [cmp] against the bound. *)
Definition someWithin (dist : list value -> list value -> float)
    (cmp : float -> float -> bool) (t : list value) (cs : list faceProfile)
    (bound : float) : Prop :=
  exists c dc, In c cs /\ faceDescriptor c = Some dc
               /\ cmp (dist t dc) bound = true.

(** No candidate of [cs] is both under the threshold and strictly closer
    than [d]. *)
Definition noneCloserWithin (dist : list value -> list value -> float)
    (t : list value) (cs : list faceProfile) (threshold d : float) : Prop :=
  forall c dc, In c cs -> faceDescriptor c = Some dc ->
               PrimFloat.ltb (dist t dc) threshold
               && PrimFloat.ltb (dist t dc) d = false.

(** No candidate of [cs] passes the comparison [cmp] against the bound. *)
Definition noneWithin (dist : list value -> list value -> float)
    (cmp : float -> float -> bool) (t : list value) (cs : list faceProfile)
    (bound : float) : Prop :=
  forall c dc, In c cs -> faceDescriptor c = Some dc ->
               cmp (dist t dc) bound = false.

(** Not negative and not [-0]: a positive zero, a positive number,
    [Infinity], or [NaN]. *)
Definition SFunsigned (x : spec_float) : Prop :=
  match x with
  | S754_zero s | S754_infinity s | S754_finite s _ _ => s = false
  | S754_nan => True
  end.

Definition unsigned (x : float) : Prop := SFunsigned (Prim2SF x).

(** A component the distance needs converts to [NaN]: the array is too
    short for the query, or holds [undefined] or [NaN] there. *)
Definition yieldsNaN (t dc : list value) : Prop :=
  exists i, i < length t /\ toNumber (idx dc i) = nan.

(** A candidate that takes no part in the search: its descriptor is
    missing, or yields [NaN]. *)
Definition unusable (t : list value) (c : faceProfile) : Prop :=
  match faceDescriptor c with
  | None => True
  | Some dc => yieldsNaN t dc
  end.

(** A well-formed descriptor for the query [t]: an array of numbers of
    the length of [t]. *)
Definition isNumber (v : value) : bool :=
  match v with
  | Number x => negb (PrimFloat.is_nan x)
  | _ => false
  end.

Definition wellFormed (t dc : list value) : Prop :=
  length dc = length t /\ forallb isNumber dc = true.

(** Two states of a search that agree on everything but the probe. *)
Definition sameBest (st1 st2 : scanState) : Prop :=
  bestMatch st1 = bestMatch st2 /\ bestDistance st1 = bestDistance st2.

Definition sameControl (c1 c2 : UtilsDb.control) : Prop :=
  match c1, c2 with
  | UtilsDb.Continue a, UtilsDb.Continue b => sameBest a b
  | UtilsDb.Return a, UtilsDb.Return b => sameBest a b
  | _, _ => False
  end.

(** The search of utils/db.js without its batching. *)
Definition flatSearch (t : list value) (threshold : float)
    (cs : list faceProfile) (st : scanState)
    : searchRun (option matchResult) :=
  match UtilsDb.scanBatch t threshold cs st with
  | UtilsDb.Return st' => UtilsDb.found st'
  | UtilsDb.Continue st' => UtilsDb.finish threshold st'
  end.

(** What the loop variables of a search mean once the candidates [seen]
    have been processed. *)
Definition bestOf (dist : list value -> list value -> float) (t : list value)
    (seen : list faceProfile) (st : scanState) : Prop :=
  computed st = length (withDescriptor seen)
  /\ PrimFloat.leb (bestDistance st) (bestDistance st) = true
  /\ match bestMatch st with
     | None => bestDistance st = infinity
     | Some m =>
         In m seen
         /\ exists dm, faceDescriptor m = Some dm
                       /\ bestDistance st = dist t dm
     end.

(** [m] stands in [ps] before every other candidate that is as close to
    the query as [d]: the candidates in front of it are strictly farther
    (or have no distance that can be compared). *)
Definition firstAtDistance (dist : list value -> list value -> float)
    (t : list value) (ps : list faceProfile) (m : faceProfile) (d : float)
    : Prop :=
  exists before after,
    ps = before ++ m :: after
    /\ forall c dc, In c before -> faceDescriptor c = Some dc ->
                    PrimFloat.leb (dist t dc) d = false.

End Notions.

(** *** The claims of the specification, as they are worded *)

Module AsStated.

(** The unrolled loops return the reference Euclidean distance. *)
Definition unrolledIsEuclidean : Prop :=
  forall query candidate : list value,
    length query = length candidate ->
    Distance.distance8 query candidate
      = Distance.euclideanDistance query candidate
    /\ Distance.distance4 query candidate
       = Distance.euclideanDistance query candidate.

(** Exact nearest neighbour: the whole candidate set is scanned, and a
    returned candidate is at minimum distance over all candidates. *)
Definition exactNearest (dist : list value -> list value -> float)
    (find_run : option (list value) -> option (list faceProfile) -> float ->
                searchRun (option matchResult)) : Prop :=
  forall t ps th m d n,
    find_run (Some t) (Some ps) th
      = {| returned := Some {| match_ := Some m; distance := d |};
           distancesComputed := n |} ->
    n = length (Notions.withDescriptor ps) /\ Notions.noneCloser dist t ps d.


(** A candidate whose descriptor is missing or malformed is never
    returned. *)
Definition malformedNeverReturned
    (find : option (list value) -> option (list faceProfile) -> float ->
            option matchResult) : Prop :=
  forall t ps th c d,
    In c ps ->
    (forall dc, faceDescriptor c = Some dc -> ~ Notions.wellFormed t dc) ->
    find (Some t) (Some ps) th <> Some {| match_ := Some c; distance := d |}.

End AsStated.

(** *** Concrete inputs *)

Module Examples.

Open Scope string_scope.

(** One-dimensional descriptors are enough to exercise the control flow
    of the searches. *)
Definition query0 : list value := [Number 0%float].

Definition atQuarter : faceProfile :=
  {| userId := "u-at-quarter"; faceDescriptor := Some [Number 0.25%float] |}.

Definition atZero : faceProfile :=
  {| userId := "u-at-zero"; faceDescriptor := Some [Number 0%float] |}.

(** An empty array, as left by a schema default: too short for any
    non-empty query. *)
Definition emptyDescriptor : faceProfile :=
  {| userId := "u-empty"; faceDescriptor := Some [] |}.

(** An array that holds [null] where a number is expected. *)
Definition nullEntry : faceProfile :=
  {| userId := "u-null-entry"; faceDescriptor := Some [Null] |}.

(** An array that holds the empty string, which converts to 0. *)
Definition emptyString : faceProfile :=
  {| userId := "u-empty-string";
     faceDescriptor := Some [Other 0%float] |}.

(** An array with one component too many for [query0]. *)
Definition tooLong : faceProfile :=
  {| userId := "u-too-long";
     faceDescriptor := Some [Number 0%float; Number 5%float] |}.

(** Nine components, on which the grouping of the additions shows. *)
Definition nine : list value :=
  map Number [3; 3; 4; 0; 1; 83886080; 100663296; 83886080; 0]%float.

Definition origin9 : list value := repeat (Number 0%float) 9.

End Examples.

End Double.

(** ** Auxiliary notions used in the statements and proofs *)

Module Aux.

(** The sum of [n] consecutive guarded terms starting at index [j]. *)
Fixpoint guardedSum (t p : list num) (len n j : nat) : num :=
  match n with
  | O => Num 0
  | S n' => nadd (Distance.guarded_term t p len j) (guardedSum t p len n' (S j))
  end.

(** The candidates of [cs] that carry a descriptor: those for which a
    distance is computed. *)
Definition withDescriptor (cs : list faceProfile) : list faceProfile :=
  filter (fun c => match faceDescriptor c with Some _ => true | None => false end)
         cs.

(** No candidate of [cs] is strictly closer to the query than [d], for
    the distance function [dist]: [d] is a minimum over the candidates
    with a usable descriptor (a distance that is [NaN] is below nothing). *)
Definition noneCloser (dist : list num -> list num -> num) (t : list num)
    (cs : list faceProfile) (d : num) : Prop :=
  forall c dc, In c cs -> faceDescriptor c = Some dc ->
               nltb (dist t dc) d = false.

(** Some candidate of [cs] has a distance to the query that passes the
    comparison [cmp] against the threshold. *)
Definition someWithin (dist : list num -> list num -> num)
    (cmp : num -> num -> bool) (t : list num) (cs : list faceProfile)
    (threshold : num) : Prop :=
  exists c dc, In c cs /\ faceDescriptor c = Some dc
               /\ cmp (dist t dc) threshold = true.

(** No candidate of [cs] is both under the threshold and strictly closer
    than [d]. *)
Definition noneCloserWithin (dist : list num -> list num -> num)
    (t : list num) (cs : list faceProfile) (threshold d : num) : Prop :=
  forall c dc, In c cs -> faceDescriptor c = Some dc ->
               nltb (dist t dc) threshold && nltb (dist t dc) d = false.

(** The search of utils/db.js without its batching. *)
Definition flatSearch (t : list num) (threshold : num)
    (cs : list faceProfile) (st : scanState)
    : searchRun (option matchResult) :=
  match UtilsDb.scanBatch t threshold cs st with
  | UtilsDb.Return st' => UtilsDb.found st'
  | UtilsDb.Continue st' => UtilsDb.finish threshold st'
  end.

(** What the loop variables of a search mean once the candidates [seen]
    have been processed. *)
Definition bestOf (dist : list num -> list num -> num) (t : list num)
    (seen : list faceProfile) (st : scanState) : Prop :=
  computed st = length (withDescriptor seen)
  /\ match bestMatch st with
     | None => bestDistance st = PInf
     | Some m =>
         In m seen
         /\ exists dm r, faceDescriptor m = Some dm
                         /\ bestDistance st = dist t dm
                         /\ dist t dm = Num r /\ (0 <= r)%R
     end.

(** The readings of the clock never go back. *)
Fixpoint nondecreasing (l : list Z) : bool :=
  match l with
  | x :: (y :: _) as rest => (x <=? y)%Z && nondecreasing rest
  | _ => true
  end.

(** The number of loads in flight that the loader's variables account
    for. *)
Definition pendingLoads (promise : option nat) : nat :=
  match promise with
  | Some _ => 1
  | None => 0
  end.

(** While a load is outstanding in utils/db.js, models loaded earlier
    have been stale since the clock read [lo]. *)
Definition staleWhileLoading (s : UtilsDb.loaderState) (lo : Z) : Prop :=
  UtilsDb.modelLoadingPromise s <> None ->
  UtilsDb.modelsLoaded s = true ->
  (UtilsDb.MODEL_VALIDITY_DURATION <= lo - UtilsDb.lastModelLoadTime s)%Z.

(** The part of the world the cache of utils/db.js lives in. *)
Definition cacheView (w : UtilsDb.world)
    : JsMap.t Z descriptor * list Z * list Z :=
  (UtilsDb.descriptorCache w, UtilsDb.cacheAccessOrder w, UtilsDb.accessLog w).

(** When [k] was last read or written, according to a log of accesses
    (oldest first): the position of its last occurrence, counted from 1,
    and 0 if it never occurs. *)
Section Recency.

Variable K : Type.
Variable K_eq_dec : forall a b : K, {a = b} + {a <> b}.

Fixpoint lastAccessRev (k : K) (newestFirst : list K) : nat :=
  match newestFirst with
  | [] => 0
  | x :: rest =>
      if K_eq_dec x k then length newestFirst else lastAccessRev k rest
  end.

Definition lastAccess (k : K) (log : list K) : nat :=
  lastAccessRev k (rev log).

(** [k] is the least recently used of the keys held by a cache. *)
Definition leastRecentlyUsed (V : Type) (k : K) (cache : JsMap.t K V)
    (log : list K) : Prop :=
  forall k', JsMap.has K_eq_dec k' cache = true -> k' <> k ->
             lastAccess k log < lastAccess k' log.

End Recency.

(** The invariant of the cache of utils/db.js: the size limit holds,
    [cacheAccessOrder] lists exactly the keys of the map, and it lists
    them from the least to the most recently used. *)
Definition utilsDbCacheInv (w : UtilsDb.world) : Prop :=
  JsMap.size (UtilsDb.descriptorCache w) <= UtilsDb.CACHE_SIZE_LIMIT
  /\ (forall k, In k (UtilsDb.cacheAccessOrder w)
                <-> JsMap.has Z.eq_dec k (UtilsDb.descriptorCache w) = true)
  /\ StronglySorted
       (fun a b => lastAccess Z.eq_dec a (UtilsDb.accessLog w)
                   < lastAccess Z.eq_dec b (UtilsDb.accessLog w))
       (UtilsDb.cacheAccessOrder w).

(** The part of the world the cache of server/utils/faceRecognition.js
    lives in. *)
Definition serverCacheView (w : ServerUtils.world)
    : JsMap.t string descriptor * list string :=
  (ServerUtils.descriptorCache w, ServerUtils.accessLog w).

End Aux.

(** ** Further notions *)

Module Notions.

(** Every component is a finite number. *)
Definition finite (d : list num) : Prop :=
  forall x, In x d -> exists r, x = Num r.

(** The best match of a search is either still unset, at [Infinity], or
    a candidate at a numeric distance below the threshold. *)
Definition underThreshold (th : num) (st : scanState) : Prop :=
  match bestMatch st with
  | None => bestDistance st = PInf
  | Some _ => exists r, bestDistance st = Num r /\ nltb (Num r) th = true
  end.

(** What the batched search keeps of its state [st] and of the result
    [sb] of one batch. *)
Definition mergeBest (st sb : scanState) : option faceProfile * num :=
  match bestMatch sb with
  | Some p =>
      if nltb (bestDistance sb) (bestDistance st)
      then (Some p, bestDistance sb)
      else (bestMatch st, bestDistance st)
  | None => (bestMatch st, bestDistance st)
  end.

Definition best (st : scanState) : option faceProfile * num :=
  (bestMatch st, bestDistance st).

(** The processing path of [extractFaceDescriptor] runs to its end on
    [imageBuffer] and yields [d]: the image decodes, it is drawn on the
    canvas of the detector, a face is detected there, the face canvas is
    drawn, and the descriptor is computed from it.  [crop] draws the face
    canvas: from the image in utils/db.js, from the resized canvas in
    server/utils/faceRecognition.js. *)
Definition processed {api : FaceApi}
    (crop : image -> canvas -> detection -> completion canvas)
    (imageBuffer : buffer) (d : descriptor) : Prop :=
  exists img cv det fc,
    loadImage imageBuffer = Returned img
    /\ drawResized img = Returned cv
    /\ detectSingleFace cv = Returned (Some det)
    /\ crop img cv det = Returned fc
    /\ detectWithDescriptor fc = Returned (Some d).

(** Every call to [loadModels] among [evs] reads the clock before
    [deadline]. *)
Definition callsBefore (deadline : Z) (evs : list loaderEvent) : Prop :=
  Forall (fun ev => match ev with
                    | CallLoadModels now => (now < deadline)%Z
                    | _ => True
                    end) evs.

End Notions.

(** ** The claims of the specification, as they are worded *)

Module AsStated.


(** Single flight in utils/db.js: a call to [loadModels] made while the
    loading promise is non-null is handed that same promise and leaves
    the loader as it is. *)
Definition samePromiseWhileLoading : Prop :=
  forall (evs : list loaderEvent) (now : Z) (p : nat),
    UtilsDb.modelLoadingPromise (UtilsDb.loaderRun evs) = Some p ->
    UtilsDb.loadModels now (UtilsDb.loaderRun evs)
    = (Outstanding p, UtilsDb.loaderRun evs).

(** Least-recently-used eviction in server/utils/faceRecognition.js: a
    key that a call removes from the cache is the least recently read or
    written. *)
Definition evictsLeastRecentlyUsed : Prop :=
  forall (api : FaceApi) (calls : list (env * buffer)) (e : env) (b : buffer)
         (k : string),
    let w := ServerUtils.extractAll calls ServerUtils.worldInit in
    let w' := snd (ServerUtils.extractFaceDescriptor e b w) in
    JsMap.has string_dec k (ServerUtils.descriptorCache w) = true ->
    JsMap.has string_dec k (ServerUtils.descriptorCache w') = false ->
    Aux.leastRecentlyUsed string_dec k (ServerUtils.descriptorCache w)
                          (ServerUtils.accessLog w).

End AsStated.

(** ** Concrete inputs *)

Module Examples.

Open Scope string_scope.

(** One-dimensional descriptors are enough to exercise the control flow
    of the searches. *)
Definition query0 : list num := [Num 0].

Definition atQuarter : faceProfile :=
  {| userId := "u-at-quarter"; faceDescriptor := Some [Num 0.25] |}.

Definition atZero : faceProfile :=
  {| userId := "u-at-zero"; faceDescriptor := Some [Num 0] |}.


(** A pipeline that finds a face in every buffer; the descriptor is read
    off the bytes. *)
Definition everyFaceApi : FaceApi :=
  {| image := buffer; canvas := buffer; detection := unit;
     loadImage := fun b => Returned b;
     drawResized := fun img => Returned img;
     detectSingleFace := fun _ => Returned (Some tt);
     drawFace := fun img _ _ => Returned img;
     cropFace := fun cv _ => Returned cv;
     detectWithDescriptor :=
       fun cv => Returned (Some (map (fun z => Num (IZR z)) cv)) |}.

(** A pipeline whose image decoder rejects every buffer. *)
Definition brokenDecoderApi : FaceApi :=
  {| image := buffer; canvas := buffer; detection := unit;
     loadImage := fun _ => Thrown "Unsupported image type";
     drawResized := fun img => Returned img;
     detectSingleFace := fun _ => Returned (Some tt);
     drawFace := fun img _ _ => Returned img;
     cropFace := fun cv _ => Returned cv;
     detectWithDescriptor := fun _ => Returned None |}.

(** An environment in which the models load. *)
Definition loadsAt (now : Z) : env :=
  {| currentTime := now; loadedTime := now; diskLoad := None |}.

(** An environment in which [loadFromDisk] rejects. *)
Definition loadFails (now : Z) : env :=
  {| currentTime := now; loadedTime := now;
     diskLoad := Some "ENOENT: no such file or directory" |}.

(** The three-byte buffers [0, 0, n]. *)
Definition image3 (n : nat) : buffer := [0%Z; 0%Z; Z.of_nat n].

(** One call for each of the buffers [image3 0], ..., [image3 (n - 1)]. *)
Definition uploads (n : nat) : list (env * buffer) :=
  map (fun i => (loadsAt 0, image3 i)) (seq 0 n).

(** The worlds left by a load that failed on the first call. *)
Definition utilsDbAfterFailedLoad : UtilsDb.world :=
  UtilsDb.withModels
    (fun _ => {| UtilsDb.modelsLoaded := false;
                 UtilsDb.modelLoadingPromise := None;
                 UtilsDb.lastModelLoadTime := 0;
                 UtilsDb.loadsStarted := 1;
                 UtilsDb.inFlight := 0;
                 UtilsDb.warmups := 0 |})
    UtilsDb.worldInit.

Definition serverUtilsAfterFailedLoad : ServerUtils.world :=
  ServerUtils.withModels
    (fun _ => {| ServerUtils.modelsLoaded := false;
                 ServerUtils.modelLoadingPromise := None;
                 ServerUtils.loadsStarted := 1;
                 ServerUtils.inFlight := 0 |})
    ServerUtils.worldInit.

(** Models loaded at time 0, nothing cached. *)
Definition utilsDbLoadedAtZero : UtilsDb.world :=
  UtilsDb.withModels
    (fun _ => {| UtilsDb.modelsLoaded := true;
                 UtilsDb.modelLoadingPromise := None;
                 UtilsDb.lastModelLoadTime := 0;
                 UtilsDb.loadsStarted := 1;
                 UtilsDb.inFlight := 0;
                 UtilsDb.warmups := 1 |})
    UtilsDb.worldInit.

(** The client registered in the configuration. *)
Definition registeredClients : JsMap.t string OAuth.client :=
  [("face-auth-client",
    {| OAuth.clientSecret :=
         "d8aa5334cf7f03526f438db137b82809f3bd0847961e833e6d05c04f6def49f5";
       OAuth.redirectUris :=
         ["http://localhost:5173/oauth/callback";
          "http://localhost:5001/oauth/callback";
          "https://dapi.clerk.com/v1/oauth_debug/callback";
          "https://prime-stallion-8.clerk.accounts.dev/v1/oauth_callback"] |})].

(** An authorization code issued at time 0, valid for ten minutes. *)
Definition pendingCode : OAuth.authCodeDoc :=
  {| OAuth.codeValue := "c0de";
     OAuth.codeClientId := "face-auth-client";
     OAuth.codeUserId := "u-at-zero";
     OAuth.redirectUri := "http://localhost:5173/oauth/callback";
     OAuth.codeScope := Some "openid profile";
     OAuth.codeExpiresAt := 600000;
     OAuth.nonce := Some "n-1" |}.

Definition storeWithCode : OAuth.store :=
  {| OAuth.tokens := []; OAuth.authCodes := [pendingCode] |}.

(** A refresh token that was issued to another client. *)
Definition storeWithRefreshToken : OAuth.store :=
  {| OAuth.tokens :=
       [ {| OAuth.token := "r-old";
            OAuth.userId := "u-at-zero";
            OAuth.clientId := "client-4f1a";
            OAuth.scope := Some "openid profile";
            OAuth.isRefreshToken := true;
            OAuth.expiresAt := 2592000000 |} ];
     OAuth.authCodes := [] |}.

Definition tokenRequest (grantType : string) : OAuth.tokenBody :=
  {| OAuth.grant_type := grantType;
     OAuth.code := "c0de";
     OAuth.redirect_uri := "http://localhost:5173/oauth/callback";
     OAuth.client_id := "face-auth-client";
     OAuth.client_secret :=
       "d8aa5334cf7f03526f438db137b82809f3bd0847961e833e6d05c04f6def49f5";
     OAuth.refresh_token := "r-old" |}.

(** A request served at time [now], with random tokens ["a-" ++ tag]
    and ["r-" ++ tag]. *)
Definition servedAt (now : Z) (tag : string) : OAuth.tokenEnv :=
  {| OAuth.checkedAt := now; OAuth.idTokenNow := now;
     OAuth.accessNow := now; OAuth.refreshNow := now;
     OAuth.accessToken := "a-" ++ tag;
     OAuth.refreshToken := "r-" ++ tag |}.

End Examples.

(** * Properties *)

Unset Implicit Arguments.

(** ** IEEE 754 comparisons *)

Ltac sf_split x := destruct x as [[]|[]| |[] ? ?].

Ltac sf_cmp :=
  cbn [SFltb SFleb SFeqb SFcompare CompOpp];
  repeat match goal with
  | |- context [Pos.compare_cont Eq ?a ?b] =>
      change (Pos.compare_cont Eq a b) with (Pos.compare a b)
  | H : context [Pos.compare_cont Eq ?a ?b] |- _ =>
      change (Pos.compare_cont Eq a b) with (Pos.compare a b) in H
  end;
  repeat match goal with
  | |- context [Z.compare ?a ?b] => destruct (Z.compare_spec a b)
  | H : context [Z.compare ?a ?b] |- _ => destruct (Z.compare_spec a b)
  | |- context [Pos.compare ?a ?b] => destruct (Pos.compare_spec a b)
  | H : context [Pos.compare ?a ?b] |- _ => destruct (Pos.compare_spec a b)
  end;
  cbn [CompOpp] in *; subst; try discriminate; try reflexivity; try lia.

Ltac sf_order := sf_cmp; intros; sf_cmp.

Lemma SFltb_irrefl (x : spec_float) : SFltb x x = false.
Proof. sf_split x; sf_order. Qed.

Lemma SFltb_trans (x y z : spec_float) :
  SFltb x y = true -> SFltb y z = true -> SFltb x z = true.
Proof. sf_split x; sf_split y; sf_split z; sf_order. Qed.

Lemma SFltb_leb (x y : spec_float) : SFltb x y = true -> SFleb x y = true.
Proof. sf_split x; sf_split y; sf_order. Qed.

Lemma SFleb_ltb_trans (x y z : spec_float) :
  SFleb x y = true -> SFltb y z = true -> SFltb x z = true.
Proof. sf_split x; sf_split y; sf_split z; sf_order. Qed.


Lemma SFleb_total (x y : spec_float) :
  SFleb x x = true -> SFleb y y = true -> SFltb x y = false ->
  SFleb y x = true.
Proof. sf_split x; sf_split y; sf_order. Qed.

Lemma SFltb_comparable (x y : spec_float) :
  SFltb x y = true -> SFleb x x = true /\ SFleb y y = true.
Proof. sf_split x; sf_split y; sf_cmp; intros; split; sf_cmp. Qed.


Lemma SFltb_below_infinity (x y : spec_float) :
  SFltb x y = true -> SFltb x (S754_infinity false) = true.
Proof. sf_split x; sf_split y; sf_order. Qed.

Lemma SFleb_infinity_l (y : spec_float) :
  SFleb (S754_infinity false) y = true -> y = S754_infinity false.
Proof. sf_split y; sf_order. Qed.


Lemma SFleb_neq_ltb (x y : spec_float) :
  SFleb x y = true -> SFeqb x y = false -> SFltb x y = true.
Proof. sf_split x; sf_split y; sf_order. Qed.

(** The same facts on the primitive type. *)

Lemma double_ltb_irrefl (x : float) : PrimFloat.ltb x x = false.
Proof. rewrite FloatAxioms.ltb_spec. apply SFltb_irrefl. Qed.

Lemma double_ltb_trans (x y z : float) :
  PrimFloat.ltb x y = true -> PrimFloat.ltb y z = true ->
  PrimFloat.ltb x z = true.
Proof. rewrite !FloatAxioms.ltb_spec. apply SFltb_trans. Qed.

Lemma double_ltb_leb (x y : float) :
  PrimFloat.ltb x y = true -> PrimFloat.leb x y = true.
Proof. rewrite FloatAxioms.ltb_spec, FloatAxioms.leb_spec. apply SFltb_leb. Qed.

Lemma double_leb_ltb_trans (x y z : float) :
  PrimFloat.leb x y = true -> PrimFloat.ltb y z = true ->
  PrimFloat.ltb x z = true.
Proof. rewrite !FloatAxioms.ltb_spec, FloatAxioms.leb_spec. apply SFleb_ltb_trans. Qed.


(** Two numbers that are not [NaN] compare one way or the other. *)
Lemma double_leb_total (x y : float) :
  PrimFloat.leb x x = true -> PrimFloat.leb y y = true ->
  PrimFloat.ltb x y = false -> PrimFloat.leb y x = true.
Proof. rewrite !FloatAxioms.leb_spec, FloatAxioms.ltb_spec. apply SFleb_total. Qed.

(** Only numbers that are not [NaN] pass a comparison. *)
Lemma double_ltb_comparable (x y : float) :
  PrimFloat.ltb x y = true ->
  PrimFloat.leb x x = true /\ PrimFloat.leb y y = true.
Proof. rewrite !FloatAxioms.leb_spec, FloatAxioms.ltb_spec. apply SFltb_comparable. Qed.


Lemma double_ltb_below_infinity (x y : float) :
  PrimFloat.ltb x y = true -> PrimFloat.ltb x infinity = true.
Proof. rewrite !FloatAxioms.ltb_spec. apply SFltb_below_infinity. Qed.

Lemma double_leb_infinity_l (y : float) :
  PrimFloat.leb infinity y = true -> y = infinity.
Proof.
  rewrite FloatAxioms.leb_spec. intros H. apply Prim2SF_inj.
  exact (SFleb_infinity_l _ H).
Qed.


Lemma double_ltb_infinity_l (y : float) : PrimFloat.ltb infinity y = false.
Proof.
  destruct (PrimFloat.ltb infinity y) eqn:E; [|reflexivity].
  pose proof (double_ltb_below_infinity _ _ E) as H.
  rewrite double_ltb_irrefl in H. discriminate H.
Qed.

(** [a <= b] and not [a == b] give [a < b]. *)
Lemma double_leb_neq_ltb (x y : float) :
  PrimFloat.leb x y = true -> PrimFloat.eqb x y = false ->
  PrimFloat.ltb x y = true.
Proof. rewrite FloatAxioms.leb_spec, FloatAxioms.eqb_spec, FloatAxioms.ltb_spec. apply SFleb_neq_ltb. Qed.

Lemma double_ltb_nan_l (y : float) : PrimFloat.ltb nan y = false.
Proof. rewrite FloatAxioms.ltb_spec. reflexivity. Qed.

(** ** Arithmetic on [NaN] *)

Lemma double_add_nan_r (x : float) : PrimFloat.add x nan = nan.
Proof.
  apply Prim2SF_inj. rewrite FloatAxioms.add_spec.
  change (Prim2SF nan) with S754_nan.
  destruct (Prim2SF x) as [[]|[]| |[] ? ?]; reflexivity.
Qed.

Lemma double_add_nan_l (x : float) : PrimFloat.add nan x = nan.
Proof. apply Prim2SF_inj. rewrite FloatAxioms.add_spec. reflexivity. Qed.

Lemma double_sub_nan_r (x : float) : PrimFloat.sub x nan = nan.
Proof.
  apply Prim2SF_inj. rewrite FloatAxioms.sub_spec.
  change (Prim2SF nan) with S754_nan.
  destruct (Prim2SF x) as [[]|[]| |[] ? ?]; reflexivity.
Qed.

(** ** Signs *)

Lemma binary_round_aux_sign (s : bool) (m e : Z) (l : location) :
  match binary_round_aux prec emax s m e l with
  | S754_zero s' | S754_infinity s' | S754_finite s' _ _ => s' = s
  | S754_nan => True
  end.
Proof.
  unfold binary_round_aux.
  destruct (shr_fexp prec emax m e l) as [mrs e'].
  destruct (shr_fexp prec emax _ e' loc_Exact) as [mrs' e''].
  destruct (shr_m mrs'); auto.
  destruct (Z.leb _ _); auto.
Qed.

Lemma SFmul_self_unsigned (x : spec_float) : Double.Notions.SFunsigned (SF64mul x x).
Proof.
  destruct x as [s|s| |s m e]; simpl; auto using xorb_nilpotent.
  pose proof (binary_round_aux_sign (xorb s s) (Z.pos (m * m)) (e + e)
                loc_Exact) as H.
  unfold SF64mul, SFmul.
  destruct (binary_round_aux _ _ _ _ _ _); simpl in *;
    try exact I; rewrite H; apply xorb_nilpotent.
Qed.

Lemma SFadd_unsigned (x y : spec_float) :
  Double.Notions.SFunsigned x -> Double.Notions.SFunsigned y -> Double.Notions.SFunsigned (SF64add x y).
Proof.
  destruct x as [s|s| |s m e]; destruct y as [s'|s'| |s' m' e']; simpl;
    intros Hx Hy; subst; simpl; auto.
  unfold SF64add, SFadd. cbn [cond_Zopp].
  unfold binary_normalize. cbn [Z.add].
  unfold binary_round.
  destruct (shl_align _ _ _) as [mz ez].
  pose proof (binary_round_aux_sign false (Z.pos mz) ez loc_Exact) as H.
  destruct (binary_round_aux _ _ _ _ _ _); simpl; auto.
Qed.

Lemma SFadd_0_r (x : spec_float) :
  Double.Notions.SFunsigned x -> SF64add x (S754_zero false) = x.
Proof. destruct x as [s|s| |s m e]; simpl; intros; subst; reflexivity. Qed.

Lemma unsigned_zero : Double.Notions.unsigned 0%float.
Proof. reflexivity. Qed.

Lemma unsigned_pow2 (x : float) : Double.Notions.unsigned (Double.pow2 x).
Proof.
  unfold Double.Notions.unsigned, Double.pow2. rewrite FloatAxioms.mul_spec. apply SFmul_self_unsigned.
Qed.

Lemma unsigned_add (x y : float) :
  Double.Notions.unsigned x -> Double.Notions.unsigned y -> Double.Notions.unsigned (PrimFloat.add x y).
Proof. unfold Double.Notions.unsigned. rewrite FloatAxioms.add_spec. apply SFadd_unsigned. Qed.

(** Adding [0] to a sum of squares does not change it. *)
Lemma double_add_0_r (x : float) : Double.Notions.unsigned x -> PrimFloat.add x 0%float = x.
Proof.
  intros H. apply Prim2SF_inj. rewrite FloatAxioms.add_spec.
  change (Prim2SF 0%float) with (S754_zero false).
  apply SFadd_0_r. exact H.
Qed.

(** ** The square of a difference does not depend on its sign *)

Lemma binary_round_aux_opp (s : bool) (m e : Z) (l : location) :
  binary_round_aux prec emax (negb s) m e l
  = SFopp (binary_round_aux prec emax s m e l).
Proof.
  unfold binary_round_aux.
  destruct (shr_fexp prec emax m e l) as [mrs e'].
  destruct (shr_fexp prec emax _ e' loc_Exact) as [mrs' e''].
  destruct (shr_m mrs'); auto.
  destruct (Z.leb _ _); auto.
Qed.

Lemma SFmul_opp (x : spec_float) : SF64mul (SFopp x) (SFopp x) = SF64mul x x.
Proof.
  destruct x as [s|s| |s m e]; simpl; try reflexivity;
    destruct s; reflexivity.
Qed.

Lemma binary_normalize_opp (m e : Z) :
  binary_normalize prec emax (- m) e false
  = match m with
    | Z0 => S754_zero false
    | _ => SFopp (binary_normalize prec emax m e false)
    end.
Proof.
  destruct m; simpl; try reflexivity.
  - unfold binary_round. destruct (shl_align _ _ _) as [mz ez].
    apply (binary_round_aux_opp false).
  - unfold binary_round. destruct (shl_align _ _ _) as [mz ez].
    apply (binary_round_aux_opp true).
Qed.

Lemma SFsub_swap (x y : spec_float) :
  SF64sub y x = SFopp (SF64sub x y)
  \/ (exists s s', SF64sub x y = S754_zero s /\ SF64sub y x = S754_zero s').
Proof.
  destruct x as [s|s| |s m e]; destruct y as [s'|s'| |s' m' e'];
    try (destruct s); try (destruct s');
    try (left; reflexivity);
    try (right; simpl; eauto; fail).
  all: unfold SF64sub, SFsub;
    rewrite (Z.min_comm e' e);
    set (ez := Z.min e e');
    match goal with
    | |- binary_normalize _ _ (?b - ?a) _ _ = _ \/ _ =>
        replace (b - a)%Z with (- (a - b))%Z by lia;
        rewrite binary_normalize_opp;
        destruct (a - b)%Z eqn:E;
        [right; exists false, false; split; reflexivity
        |left; reflexivity|left; reflexivity]
    end.
Qed.

Lemma double_sq_diff_sym (a b : float) :
  Double.pow2 (PrimFloat.sub a b) = Double.pow2 (PrimFloat.sub b a).
Proof.
  unfold Double.pow2.
  apply Prim2SF_inj. rewrite !FloatAxioms.mul_spec, !FloatAxioms.sub_spec.
  destruct (SFsub_swap (Prim2SF a) (Prim2SF b)) as [H|(s & s' & H1 & H2)].
  - rewrite H. symmetry. apply SFmul_opp.
  - rewrite H1, H2. destruct s, s'; reflexivity.
Qed.

(** ** What the loop variables mean *)

Section DoubleInvariant.

Variable dist : list Double.value -> list Double.value -> float.
Variable t : list Double.value.

Lemma double_withDescriptor_snoc_some (seen : list Double.faceProfile)
    (c : Double.faceProfile) (dc : list Double.value) :
  Double.faceDescriptor c = Some dc ->
  length (Double.Notions.withDescriptor (seen ++ [c]))
  = S (length (Double.Notions.withDescriptor seen)).
Proof.
  intros H. unfold Double.Notions.withDescriptor.
  rewrite filter_app, length_app. simpl. rewrite H. simpl. lia.
Qed.

Lemma double_withDescriptor_snoc_none (seen : list Double.faceProfile)
    (c : Double.faceProfile) :
  Double.faceDescriptor c = None ->
  length (Double.Notions.withDescriptor (seen ++ [c]))
  = length (Double.Notions.withDescriptor seen).
Proof.
  intros H. unfold Double.Notions.withDescriptor.
  rewrite filter_app, length_app. simpl. rewrite H. simpl. lia.
Qed.

Lemma double_noneWithin_snoc (cmp : float -> float -> bool)
    (seen : list Double.faceProfile) (c : Double.faceProfile) (d : float) :
  Double.Notions.noneWithin dist cmp t seen d ->
  (forall dc, Double.faceDescriptor c = Some dc -> cmp (dist t dc) d = false) ->
  Double.Notions.noneWithin dist cmp t (seen ++ [c]) d.
Proof.
  intros Hseen Hc x dx Hin Hdx.
  apply in_app_or in Hin. destruct Hin as [Hin|[<-|[]]].
  - exact (Hseen x dx Hin Hdx).
  - exact (Hc dx Hdx).
Qed.

Lemma double_noneCloser_snoc (seen : list Double.faceProfile)
    (c : Double.faceProfile) (d : float) :
  Double.Notions.noneCloser dist t seen d ->
  (forall dc, Double.faceDescriptor c = Some dc ->
              PrimFloat.ltb (dist t dc) d = false) ->
  Double.Notions.noneCloser dist t (seen ++ [c]) d.
Proof. apply (double_noneWithin_snoc PrimFloat.ltb). Qed.

Lemma double_noneCloser_lower (seen : list Double.faceProfile) (b d : float) :
  Double.Notions.noneCloser dist t seen b -> PrimFloat.ltb d b = true ->
  Double.Notions.noneCloser dist t seen d.
Proof.
  intros Hseen Hlt x dx Hin Hdx.
  destruct (PrimFloat.ltb (dist t dx) d) eqn:E; [|reflexivity].
  rewrite <- (Hseen x dx Hin Hdx). symmetry.
  exact (double_ltb_trans _ _ _ E Hlt).
Qed.

Lemma double_bestOf_start : Double.Notions.bestOf dist t [] Double.scanStart.
Proof. repeat split. Qed.

(** A candidate without a descriptor changes nothing. *)
Lemma double_skip (seen : list Double.faceProfile) (c : Double.faceProfile)
    (st : Double.scanState) :
  Double.faceDescriptor c = None ->
  Double.Notions.bestOf dist t seen st ->
  Double.Notions.noneCloser dist t seen (Double.bestDistance st) ->
  Double.Notions.bestOf dist t (seen ++ [c]) st
  /\ Double.Notions.noneCloser dist t (seen ++ [c]) (Double.bestDistance st).
Proof.
  intros Hc (Hn & Hcmp & Hb) Hmin. split.
  - split; [|split; [exact Hcmp|]].
    + rewrite double_withDescriptor_snoc_none by assumption. exact Hn.
    + destruct (Double.bestMatch st) as [m|]; [|exact Hb].
      destruct Hb as [Hin Hm]. split; [|exact Hm].
      apply in_or_app. left. exact Hin.
  - apply double_noneCloser_snoc; [exact Hmin|]. intros dx Hdx. congruence.
Qed.

(** A candidate that does not improve on the best distance only bumps
    the probe. *)
Lemma double_keep (seen : list Double.faceProfile) (c : Double.faceProfile)
    (dc : list Double.value) (st : Double.scanState) :
  Double.faceDescriptor c = Some dc ->
  PrimFloat.ltb (dist t dc) (Double.bestDistance st) = false ->
  Double.Notions.bestOf dist t seen st ->
  Double.Notions.noneCloser dist t seen (Double.bestDistance st) ->
  Double.Notions.bestOf dist t (seen ++ [c])
    {| Double.bestMatch := Double.bestMatch st;
       Double.bestDistance := Double.bestDistance st;
       Double.computed := S (Double.computed st) |}
  /\ Double.Notions.noneCloser dist t (seen ++ [c]) (Double.bestDistance st).
Proof.
  intros Hc Hlt (Hn & Hcmp & Hb) Hmin. split.
  - split; [|split; [exact Hcmp|]]; simpl.
    + rewrite (double_withDescriptor_snoc_some seen c dc Hc). f_equal. exact Hn.
    + destruct (Double.bestMatch st) as [m|]; [|exact Hb].
      destruct Hb as [Hin Hm]. split; [|exact Hm].
      apply in_or_app. left. exact Hin.
  - apply double_noneCloser_snoc; [exact Hmin|].
    intros dx Hdx. rewrite Hc in Hdx. injection Hdx as <-. exact Hlt.
Qed.

(** A candidate that improves on the best distance becomes the best
    match. *)
Lemma double_take (seen : list Double.faceProfile) (c : Double.faceProfile)
    (dc : list Double.value) (st : Double.scanState) :
  Double.faceDescriptor c = Some dc ->
  PrimFloat.ltb (dist t dc) (Double.bestDistance st) = true ->
  Double.Notions.bestOf dist t seen st ->
  Double.Notions.noneCloser dist t seen (Double.bestDistance st) ->
  Double.Notions.bestOf dist t (seen ++ [c])
    {| Double.bestMatch := Some c;
       Double.bestDistance := dist t dc;
       Double.computed := S (Double.computed st) |}
  /\ Double.Notions.noneCloser dist t (seen ++ [c]) (dist t dc).
Proof.
  intros Hc Hlt (Hn & _ & _) Hmin. split.
  - split; [|split]; simpl.
    + rewrite (double_withDescriptor_snoc_some seen c dc Hc). f_equal. exact Hn.
    + exact (proj1 (double_ltb_comparable _ _ Hlt)).
    + split; [apply in_or_app; right; left; reflexivity|].
      exists dc. split; [exact Hc|reflexivity].
  - apply double_noneCloser_snoc.
    + exact (double_noneCloser_lower _ _ _ Hmin Hlt).
    + intros dx Hdx. rewrite Hc in Hdx. injection Hdx as <-.
      apply double_ltb_irrefl.
Qed.

(** A candidate that is not closer than the best one is not below a
    bound either, unless the best one is. *)
Lemma double_not_below (seen : list Double.faceProfile) (d bound : float)
    (st : Double.scanState) :
  Double.Notions.bestOf dist t seen st ->
  Double.Notions.noneWithin dist PrimFloat.ltb t seen bound ->
  PrimFloat.ltb d (Double.bestDistance st) = false ->
  PrimFloat.ltb d bound = false.
Proof.
  intros (_ & Hcmp & Hb) Hnone Hkeep.
  destruct (PrimFloat.ltb d bound) eqn:E; [exfalso|reflexivity].
  pose proof (double_leb_total _ _ (proj1 (double_ltb_comparable _ _ E))
                Hcmp Hkeep) as Hle.
  pose proof (double_leb_ltb_trans _ _ _ Hle E) as Hbest.
  destruct (Double.bestMatch st) as [m|].
  - destruct Hb as (Hin & dm & Hdm & Hbd).
    rewrite Hbd, (Hnone m dm Hin Hdm) in Hbest. discriminate Hbest.
  - rewrite Hb, double_ltb_infinity_l in Hbest. discriminate Hbest.
Qed.

End DoubleInvariant.

(** ** utils/db.js: the batching is transparent *)

Lemma double_scanBatch_app (t : list Double.value) (th : float)
    (l1 l2 : list Double.faceProfile) (st : Double.scanState) :
  Double.UtilsDb.scanBatch t th (l1 ++ l2) st =
  match Double.UtilsDb.scanBatch t th l1 st with
  | Double.UtilsDb.Continue st' => Double.UtilsDb.scanBatch t th l2 st'
  | Double.UtilsDb.Return st' => Double.UtilsDb.Return st'
  end.
Proof.
  revert st. induction l1 as [|c l1 IH]; intros st; [reflexivity|].
  simpl. destruct (Double.faceDescriptor c) as [dc|]; [|apply IH].
  destruct (PrimFloat.ltb (Double.Distance.distance8 t dc)
                          (Double.bestDistance st)); [|apply IH].
  destruct (PrimFloat.ltb (Double.Distance.distance8 t dc)
                          (PrimFloat.mul th 0.7%float));
    [reflexivity|apply IH].
Qed.

Lemma double_scanBatches_flat (fuel : nat) (t : list Double.value)
    (th : float) (ps : list Double.faceProfile) (i : nat)
    (st : Double.scanState) :
  length ps <= i + Double.UtilsDb.BATCH_SIZE * fuel ->
  Double.UtilsDb.scanBatches fuel t th ps i st
  = Double.Notions.flatSearch t th (skipn i ps) st.
Proof.
  unfold Double.Notions.flatSearch.
  revert i st. induction fuel as [|fuel IH]; intros i st Hlen.
  - simpl. rewrite skipn_all2 by (unfold Double.UtilsDb.BATCH_SIZE in Hlen; lia).
    reflexivity.
  - cbn [Double.UtilsDb.scanBatches].
    destruct (Nat.ltb_spec i (length ps)) as [Hi|Hi].
    + rewrite <- (firstn_skipn Double.UtilsDb.BATCH_SIZE (skipn i ps)) at 1.
      rewrite double_scanBatch_app. unfold slice.
      replace (i + Double.UtilsDb.BATCH_SIZE - i)
        with Double.UtilsDb.BATCH_SIZE by lia.
      destruct (Double.UtilsDb.scanBatch t th
                  (firstn Double.UtilsDb.BATCH_SIZE (skipn i ps)) st)
        as [st'|st']; [|reflexivity].
      rewrite IH by (unfold Double.UtilsDb.BATCH_SIZE in *; lia).
      rewrite skipn_skipn.
      replace (Double.UtilsDb.BATCH_SIZE + i)
        with (i + Double.UtilsDb.BATCH_SIZE) by lia.
      reflexivity.
    + rewrite skipn_all2 by lia. reflexivity.
Qed.

Lemma double_findMatchingFace_run_flat (t : list Double.value) (th : float)
    (c : Double.faceProfile) (ps : list Double.faceProfile) :
  Double.UtilsDb.findMatchingFace_run (Some t) (Some (c :: ps)) th
  = Double.Notions.flatSearch t th (c :: ps) Double.scanStart.
Proof.
  unfold Double.UtilsDb.findMatchingFace_run.
  cbn [length Nat.eqb].
  rewrite double_scanBatches_flat
    by (unfold Double.UtilsDb.BATCH_SIZE; simpl; lia).
  reflexivity.
Qed.

Lemma double_findMatchingFace_flat (t : list Double.value) (th : float)
    (ps : list Double.faceProfile) :
  ps <> [] ->
  Double.UtilsDb.findMatchingFace (Some t) (Some ps) th
  = returned (Double.Notions.flatSearch t th ps Double.scanStart).
Proof.
  intros Hne. destruct ps as [|c ps]; [congruence|].
  unfold Double.UtilsDb.findMatchingFace.
  rewrite double_findMatchingFace_run_flat. reflexivity.
Qed.

(** ** utils/db.js: the search loop *)

Lemma double_scanBatch_spec (t : list Double.value) (th : float)
    (ps seen : list Double.faceProfile) (st : Double.scanState) :
  Double.Notions.bestOf Double.Distance.distance8 t seen st ->
  Double.Notions.noneCloser Double.Distance.distance8 t seen
    (Double.bestDistance st) ->
  Double.Notions.noneWithin Double.Distance.distance8 PrimFloat.ltb t seen
    (PrimFloat.mul th 0.7%float) ->
  match Double.UtilsDb.scanBatch t th ps st with
  | Double.UtilsDb.Continue st' =>
      Double.Notions.bestOf Double.Distance.distance8 t (seen ++ ps) st'
      /\ Double.Notions.noneCloser Double.Distance.distance8 t (seen ++ ps)
           (Double.bestDistance st')
      /\ Double.Notions.noneWithin Double.Distance.distance8 PrimFloat.ltb t
           (seen ++ ps) (PrimFloat.mul th 0.7%float)
  | Double.UtilsDb.Return st' =>
      exists before m after,
        ps = before ++ m :: after
        /\ Double.bestMatch st' = Some m
        /\ Double.Notions.bestOf Double.Distance.distance8 t
             (seen ++ before ++ [m]) st'
        /\ Double.Notions.noneCloser Double.Distance.distance8 t
             (seen ++ before ++ [m]) (Double.bestDistance st')
        /\ PrimFloat.ltb (Double.bestDistance st')
                         (PrimFloat.mul th 0.7%float) = true
  end.
Proof.
  revert seen st. induction ps as [|c rest IH]; intros seen st Hbest Hmin Hfar.
  - simpl. rewrite app_nil_r. auto.
  - assert (Hshift : forall l : list Double.faceProfile,
               (seen ++ [c]) ++ l = seen ++ c :: l)
      by (intros l; rewrite <- app_assoc; reflexivity).
    assert (Hstep : forall st1,
      Double.Notions.bestOf Double.Distance.distance8 t (seen ++ [c]) st1
      /\ Double.Notions.noneCloser Double.Distance.distance8 t (seen ++ [c])
           (Double.bestDistance st1) ->
      Double.Notions.noneWithin Double.Distance.distance8 PrimFloat.ltb t
        (seen ++ [c]) (PrimFloat.mul th 0.7%float) ->
      match Double.UtilsDb.scanBatch t th rest st1 with
      | Double.UtilsDb.Continue st' =>
          Double.Notions.bestOf Double.Distance.distance8 t
            (seen ++ c :: rest) st'
          /\ Double.Notions.noneCloser Double.Distance.distance8 t
               (seen ++ c :: rest) (Double.bestDistance st')
          /\ Double.Notions.noneWithin Double.Distance.distance8
               PrimFloat.ltb t (seen ++ c :: rest)
               (PrimFloat.mul th 0.7%float)
      | Double.UtilsDb.Return st' =>
          exists before m after,
            c :: rest = before ++ m :: after
            /\ Double.bestMatch st' = Some m
            /\ Double.Notions.bestOf Double.Distance.distance8 t
                 (seen ++ before ++ [m]) st'
            /\ Double.Notions.noneCloser Double.Distance.distance8 t
                 (seen ++ before ++ [m]) (Double.bestDistance st')
            /\ PrimFloat.ltb (Double.bestDistance st')
                             (PrimFloat.mul th 0.7%float) = true
      end).
    { intros st1 [H1 H2] H3. specialize (IH (seen ++ [c]) st1 H1 H2 H3).
      destruct (Double.UtilsDb.scanBatch t th rest st1) as [st'|st'].
      - rewrite Hshift in IH. exact IH.
      - destruct IH as (before & m & after & -> & Hm & Hb & Hn & He).
        exists (c :: before), m, after.
        rewrite Hshift in Hb, Hn. auto. }
    simpl. destruct (Double.faceDescriptor c) as [dc|] eqn:Hc.
    + destruct (PrimFloat.ltb (Double.Distance.distance8 t dc)
                              (Double.bestDistance st)) eqn:Hlt.
      * pose proof (double_take _ t seen c dc st Hc Hlt Hbest Hmin) as Htake.
        destruct (PrimFloat.ltb (Double.Distance.distance8 t dc)
                                (PrimFloat.mul th 0.7%float)) eqn:He.
        -- exists [], c, rest. simpl. destruct Htake. auto.
        -- apply Hstep; [exact Htake|].
           apply double_noneWithin_snoc; [exact Hfar|].
           intros dx Hdx. rewrite Hc in Hdx. injection Hdx as <-. exact He.
      * apply Hstep.
        -- exact (double_keep _ t seen c dc st Hc Hlt Hbest Hmin).
        -- apply double_noneWithin_snoc; [exact Hfar|].
           intros dx Hdx. rewrite Hc in Hdx. injection Hdx as <-.
           exact (double_not_below _ t seen _ _ st Hbest Hfar Hlt).
    + apply Hstep.
      * exact (double_skip _ t seen c st Hc Hbest Hmin).
      * apply double_noneWithin_snoc; [exact Hfar|].
        intros dx Hdx. congruence.
Qed.

Lemma double_scanBatch_cases (t : list Double.value) (th : float)
    (ps : list Double.faceProfile) :
  (exists st',
      Double.UtilsDb.scanBatch t th ps Double.scanStart
        = Double.UtilsDb.Continue st'
      /\ Double.Notions.bestOf Double.Distance.distance8 t ps st'
      /\ Double.Notions.noneCloser Double.Distance.distance8 t ps
           (Double.bestDistance st')
      /\ Double.Notions.noneWithin Double.Distance.distance8 PrimFloat.ltb t
           ps (PrimFloat.mul th 0.7%float))
  \/ (exists st' before m after,
         Double.UtilsDb.scanBatch t th ps Double.scanStart
           = Double.UtilsDb.Return st'
         /\ ps = before ++ m :: after
         /\ Double.bestMatch st' = Some m
         /\ Double.Notions.bestOf Double.Distance.distance8 t
              (before ++ [m]) st'
         /\ Double.Notions.noneCloser Double.Distance.distance8 t
              (before ++ [m]) (Double.bestDistance st')
         /\ PrimFloat.ltb (Double.bestDistance st')
                          (PrimFloat.mul th 0.7%float) = true).
Proof.
  assert (Hnil : forall cmp d,
             Double.Notions.noneWithin Double.Distance.distance8 cmp t [] d)
    by (intros cmp d c dc []).
  pose proof (double_scanBatch_spec t th ps [] Double.scanStart
                (double_bestOf_start _ _) (Hnil _ _) (Hnil _ _)) as Hspec.
  destruct (Double.UtilsDb.scanBatch t th ps Double.scanStart) as [st'|st'].
  - left. exists st'. split; [reflexivity|exact Hspec].
  - right.
    destruct Hspec as (before & m & after & Hps & Hm & Hb & Hn & He).
    exists st', before, m, after. simpl in Hb, Hn.
    split; [reflexivity|]. tauto.
Qed.

(** ** server/utils/faceRecognition.js: the search loop *)

Lemma double_scanDirectly_app (t : list Double.value) (th : float)
    (l1 l2 : list Double.faceProfile) (st : Double.scanState) :
  Double.ServerUtils.scanDirectly t th (l1 ++ l2) st
  = Double.ServerUtils.scanDirectly t th l2
      (Double.ServerUtils.scanDirectly t th l1 st).
Proof.
  revert st. induction l1 as [|c l1 IH]; intros st; [reflexivity|].
  simpl. destruct (Double.faceDescriptor c) as [dc|]; [|apply IH].
  destruct (PrimFloat.ltb (Double.Distance.distance4 t dc) th
            && PrimFloat.ltb (Double.Distance.distance4 t dc)
                             (Double.bestDistance st)); apply IH.
Qed.

Lemma double_scanDirectly_spec (t : list Double.value) (th : float)
    (ps seen : list Double.faceProfile) (st : Double.scanState) :
  Double.Notions.bestOf Double.Distance.distance4 t seen st ->
  Double.Notions.noneCloserWithin Double.Distance.distance4 t seen th
    (Double.bestDistance st) ->
  (Double.bestMatch st <> None ->
   PrimFloat.ltb (Double.bestDistance st) th = true) ->
  let st' := Double.ServerUtils.scanDirectly t th ps st in
  Double.Notions.bestOf Double.Distance.distance4 t (seen ++ ps) st'
  /\ Double.Notions.noneCloserWithin Double.Distance.distance4 t (seen ++ ps)
       th (Double.bestDistance st')
  /\ (Double.bestMatch st' <> None ->
      PrimFloat.ltb (Double.bestDistance st') th = true).
Proof.
  revert seen st. induction ps as [|c rest IH]; intros seen st Hbest Hmin Hth.
  - simpl. rewrite app_nil_r. auto.
  - assert (Hshift : (seen ++ [c]) ++ rest = seen ++ c :: rest)
      by (rewrite <- app_assoc; reflexivity).
    assert (Hsnoc : forall d,
      Double.Notions.noneCloserWithin Double.Distance.distance4 t seen th d ->
      (forall dc, Double.faceDescriptor c = Some dc ->
         PrimFloat.ltb (Double.Distance.distance4 t dc) th
         && PrimFloat.ltb (Double.Distance.distance4 t dc) d = false) ->
      Double.Notions.noneCloserWithin Double.Distance.distance4 t
        (seen ++ [c]) th d).
    { intros d Hseen Hc x dx Hin Hdx.
      apply in_app_or in Hin. destruct Hin as [Hin|[<-|[]]].
      - exact (Hseen x dx Hin Hdx).
      - exact (Hc dx Hdx). }
    assert (Hkeep : forall dc,
      Double.faceDescriptor c = Some dc ->
      PrimFloat.ltb (Double.Distance.distance4 t dc) th
      && PrimFloat.ltb (Double.Distance.distance4 t dc)
                       (Double.bestDistance st) = false ->
      Double.Notions.bestOf Double.Distance.distance4 t (seen ++ [c])
        {| Double.bestMatch := Double.bestMatch st;
           Double.bestDistance := Double.bestDistance st;
           Double.computed := S (Double.computed st) |}
      /\ Double.Notions.noneCloserWithin Double.Distance.distance4 t
           (seen ++ [c]) th (Double.bestDistance st)).
    { intros dc Hc Hno. split.
      - destruct Hbest as (Hn & Hcmp & Hb).
        split; [|split; [exact Hcmp|]]; simpl.
        + rewrite (double_withDescriptor_snoc_some seen c dc Hc).
          f_equal. exact Hn.
        + destruct (Double.bestMatch st) as [m|]; [|exact Hb].
          destruct Hb as [Hin Hm]. split; [|exact Hm].
          apply in_or_app. left. exact Hin.
      - apply Hsnoc; [exact Hmin|].
        intros dx Hdx. rewrite Hc in Hdx. injection Hdx as <-. exact Hno. }
    simpl. destruct (Double.faceDescriptor c) as [dc|] eqn:Hc.
    + destruct (PrimFloat.ltb (Double.Distance.distance4 t dc) th
                && PrimFloat.ltb (Double.Distance.distance4 t dc)
                                 (Double.bestDistance st)) eqn:Htest;
        rewrite <- Hshift.
      * apply andb_true_iff in Htest. destruct Htest as [Hlt Himp].
        destruct Hbest as (Hn & _ & _).
        apply IH.
        -- split; [|split]; simpl.
           ++ rewrite (double_withDescriptor_snoc_some seen c dc Hc).
              f_equal. exact Hn.
           ++ exact (proj1 (double_ltb_comparable _ _ Hlt)).
           ++ split; [apply in_or_app; right; left; reflexivity|].
              exists dc. split; [exact Hc|reflexivity].
        -- apply Hsnoc.
           ++ intros x dx Hin Hdx. simpl.
              specialize (Hmin x dx Hin Hdx).
              destruct (PrimFloat.ltb (Double.Distance.distance4 t dx) th);
                [|reflexivity].
              simpl in *.
              destruct (PrimFloat.ltb (Double.Distance.distance4 t dx)
                          (Double.Distance.distance4 t dc)) eqn:E;
                [|reflexivity].
              rewrite <- Hmin. symmetry.
              exact (double_ltb_trans _ _ _ E Himp).
           ++ intros dx Hdx. try rewrite Hc in Hdx. injection Hdx as <-.
              simpl. rewrite double_ltb_irrefl. apply andb_false_r.
        -- intros _. exact Hlt.
      * destruct (Hkeep dc eq_refl Htest) as [Hb' Hm'].
        apply IH; [exact Hb'|exact Hm'|exact Hth].
    + rewrite <- Hshift. apply IH.
      * destruct Hbest as (Hn & Hcmp & Hb).
        split; [|split; [exact Hcmp|]].
        -- rewrite double_withDescriptor_snoc_none by assumption. exact Hn.
        -- destruct (Double.bestMatch st) as [m|]; [|exact Hb].
           destruct Hb as [Hin Hm]. split; [|exact Hm].
           apply in_or_app. left. exact Hin.
      * apply Hsnoc; [exact Hmin|]. intros dx Hdx. congruence.
      * exact Hth.
Qed.

Lemma double_scanDirectly_final (t : list Double.value) (th : float)
    (ps : list Double.faceProfile) :
  let st' := Double.ServerUtils.scanDirectly t th ps Double.scanStart in
  Double.Notions.bestOf Double.Distance.distance4 t ps st'
  /\ Double.Notions.noneCloserWithin Double.Distance.distance4 t ps th
       (Double.bestDistance st')
  /\ (Double.bestMatch st' <> None ->
      PrimFloat.ltb (Double.bestDistance st') th = true).
Proof.
  apply (double_scanDirectly_spec t th ps [] Double.scanStart
           (double_bestOf_start _ _)).
  - intros c dc [].
  - intros Hne. exfalso. apply Hne. reflexivity.
Qed.

(** A best match under the threshold is a minimum over all candidates. *)
Lemma double_noneCloserWithin_noneCloser
    (dist : list Double.value -> list Double.value -> float)
    (t : list Double.value) (cs : list Double.faceProfile) (th d : float) :
  Double.Notions.noneCloserWithin dist t cs th d ->
  PrimFloat.ltb d th = true ->
  Double.Notions.noneCloser dist t cs d.
Proof.
  intros H Hd c dc Hin Hc. specialize (H c dc Hin Hc).
  destruct (PrimFloat.ltb (dist t dc) d) eqn:E; [|reflexivity].
  rewrite (double_ltb_trans _ _ _ E Hd) in H. exact H.
Qed.

(** ** The third variant: the search loop *)

Lemma double_scan_spec (t : list Double.value)
    (ps seen : list Double.faceProfile) (st : Double.scanState) :
  Double.Notions.bestOf Double.Distance.distance8 t seen st ->
  Double.Notions.noneCloser Double.Distance.distance8 t seen
    (Double.bestDistance st) ->
  let st' := Double.Variant3.scan t ps st in
  Double.Notions.bestOf Double.Distance.distance8 t (seen ++ ps) st'
  /\ Double.Notions.noneCloser Double.Distance.distance8 t (seen ++ ps)
       (Double.bestDistance st').
Proof.
  revert seen st. induction ps as [|c rest IH]; intros seen st Hbest Hmin.
  - simpl. rewrite app_nil_r. auto.
  - assert (Hshift : (seen ++ [c]) ++ rest = seen ++ c :: rest)
      by (rewrite <- app_assoc; reflexivity).
    simpl. rewrite <- Hshift.
    destruct (Double.faceDescriptor c) as [dc|] eqn:Hc.
    + destruct (PrimFloat.ltb (Double.Distance.distance8 t dc)
                              (Double.bestDistance st)) eqn:Hlt.
      * destruct (double_take _ t seen c dc st Hc Hlt Hbest Hmin).
        apply IH; assumption.
      * destruct (double_keep _ t seen c dc st Hc Hlt Hbest Hmin).
        apply IH; assumption.
    + destruct (double_skip _ t seen c st Hc Hbest Hmin).
      apply IH; assumption.
Qed.

Lemma double_scan_final (t : list Double.value)
    (ps : list Double.faceProfile) :
  let st' := Double.Variant3.scan t ps Double.scanStart in
  Double.Notions.bestOf Double.Distance.distance8 t ps st'
  /\ Double.Notions.noneCloser Double.Distance.distance8 t ps
       (Double.bestDistance st').
Proof.
  apply (double_scan_spec t ps [] Double.scanStart (double_bestOf_start _ _)).
  intros c dc [].
Qed.

(** ** Evaluating the searches on one-dimensional descriptors *)

(** With the default threshold of 0.6, utils/db.js stops at the first
    candidate, at distance 0.25 (below 0.42), and never looks at the
    second one. *)
Lemma double_utilsDb_stops_early :
  Double.UtilsDb.findMatchingFace_run (Some Double.Examples.query0)
    (Some [Double.Examples.atQuarter; Double.Examples.atZero]) 0.6%float
  = {| returned := Some {| Double.match_ := Some Double.Examples.atQuarter;
                           Double.distance := 0.25%float |};
       distancesComputed := 1 |}.
Proof. vm_compute. reflexivity. Qed.

(** The same candidates in server/utils/faceRecognition.js: both are
    compared and the closer one is returned. *)
Lemma double_serverUtils_scans_all :
  Double.ServerUtils.findMatchingFaceDirectly_run Double.Examples.query0
    [Double.Examples.atQuarter; Double.Examples.atZero] 0.6%float
  = {| returned := Some {| Double.match_ := Some Double.Examples.atZero;
                           Double.distance := 0%float |};
       distancesComputed := 2 |}.
Proof. vm_compute. reflexivity. Qed.

(** C1, as worded, fails on utils/db.js: the early termination returns a
    candidate at distance 0.25 although another one is at distance 0,
    after one distance computation out of two. *)
Lemma C1_counterexample :
  ~ Double.AsStated.exactNearest Double.Distance.distance8
      Double.UtilsDb.findMatchingFace_run.
Proof.
  intros H.
  destruct (H _ _ _ _ _ _ double_utilsDb_stops_early) as [_ Hmin].
  specialize (Hmin Double.Examples.atZero [Double.Number 0%float]
                (or_intror (or_introl eq_refl)) eq_refl).
  vm_compute in Hmin. discriminate Hmin.
Qed.

(** C1, amended. In utils/db.js a returned candidate is one of the
    candidates, the distance carried is the distance the stride-8 loop
    computes for it, and either every candidate with a descriptor was
    compared and none has a strictly smaller computed distance, or the
    distance is below the product [threshold * 0.7] and the search
    stopped at that candidate, having compared the candidates up to it,
    none of which has a strictly smaller computed distance.  In
    [findMatchingFaceDirectly] of server/utils/faceRecognition.js every
    candidate with a descriptor is compared and none has a strictly
    smaller computed distance (stride-4 loop) than the returned one.
    Distances and comparisons are those of the code, on doubles. *)
Theorem C1_nearest_match (t : list Double.value)
    (ps : list Double.faceProfile) (th : float)
    (m : Double.faceProfile) (d : float) (n : nat) :
  (Double.UtilsDb.findMatchingFace_run (Some t) (Some ps) th
     = {| returned := Some {| Double.match_ := Some m; Double.distance := d |};
          distancesComputed := n |} ->
   In m ps
   /\ (exists dm, Double.faceDescriptor m = Some dm
                  /\ d = Double.Distance.distance8 t dm)
   /\ ((n = length (Double.Notions.withDescriptor ps)
        /\ Double.Notions.noneCloser Double.Distance.distance8 t ps d)
       \/ (PrimFloat.ltb d (PrimFloat.mul th 0.7%float) = true
           /\ exists before after,
                ps = before ++ m :: after
                /\ n = length (Double.Notions.withDescriptor (before ++ [m]))
                /\ Double.Notions.noneCloser Double.Distance.distance8 t
                     (before ++ [m]) d)))
  /\ (Double.ServerUtils.findMatchingFaceDirectly_run t ps th
        = {| returned := Some {| Double.match_ := Some m;
                                 Double.distance := d |};
             distancesComputed := n |} ->
      In m ps
      /\ (exists dm, Double.faceDescriptor m = Some dm
                     /\ d = Double.Distance.distance4 t dm)
      /\ n = length (Double.Notions.withDescriptor ps)
      /\ Double.Notions.noneCloser Double.Distance.distance4 t ps d).
Proof.
  split.
  - intros Hrun. destruct ps as [|c ps]; [discriminate Hrun|].
    rewrite double_findMatchingFace_run_flat in Hrun.
    unfold Double.Notions.flatSearch in Hrun.
    destruct (double_scanBatch_cases t th (c :: ps))
      as [(st' & Hscan & (Hcount & _ & Hbest) & Hmin & _)
         |(st' & before & m' & after & Hscan & Hps & Hm' & (Hcount & _ & Hbest)
           & Hmin & Hearly)];
      rewrite Hscan in Hrun.
    + unfold Double.UtilsDb.finish in Hrun.
      destruct (PrimFloat.leb (Double.bestDistance st') th);
        [|discriminate Hrun].
      unfold Double.UtilsDb.found in Hrun. injection Hrun as Hm Hd Hn.
      rewrite Hm in Hbest. destruct Hbest as (Hin & dm & Hdm & Hbd).
      subst d n. split; [exact Hin|]. split; [exists dm; auto|].
      left. split; [exact Hcount|exact Hmin].
    + unfold Double.UtilsDb.found in Hrun. injection Hrun as Hm Hd Hn.
      rewrite Hm in Hm'. injection Hm' as <-.
      rewrite Hm in Hbest. destruct Hbest as (_ & dm & Hdm & Hbd).
      subst d n. split; [|split].
      * rewrite Hps. apply in_or_app. right. left. reflexivity.
      * exists dm. auto.
      * right. split; [exact Hearly|]. exists before, after. auto.
  - unfold Double.ServerUtils.findMatchingFaceDirectly_run. intros Hrun.
    destruct (double_scanDirectly_final t th ps)
      as ((Hcount & _ & Hbest) & Hmin & Hth).
    destruct (Double.bestMatch
                (Double.ServerUtils.scanDirectly t th ps Double.scanStart))
      as [m'|] eqn:Hm; [|discriminate Hrun].
    injection Hrun as -> Hd Hn.
    destruct Hbest as (Hin & dm & Hdm & Hbd).
    subst d n. split; [exact Hin|]. split; [exists dm; auto|].
    split; [exact Hcount|].
    apply double_noneCloserWithin_noneCloser with (th := th); [exact Hmin|].
    apply Hth. discriminate.
Qed.

Lemma C1_witness :
  (In Double.Examples.atQuarter
      [Double.Examples.atQuarter; Double.Examples.atZero]
   /\ (exists dm, Double.faceDescriptor Double.Examples.atQuarter = Some dm
                  /\ 0.25%float
                     = Double.Distance.distance8 Double.Examples.query0 dm)
   /\ ((1 = length (Double.Notions.withDescriptor
                      [Double.Examples.atQuarter; Double.Examples.atZero])
        /\ Double.Notions.noneCloser Double.Distance.distance8
             Double.Examples.query0
             [Double.Examples.atQuarter; Double.Examples.atZero] 0.25%float)
       \/ (PrimFloat.ltb 0.25%float (PrimFloat.mul 0.6%float 0.7%float) = true
           /\ exists before after,
                [Double.Examples.atQuarter; Double.Examples.atZero]
                = before ++ Double.Examples.atQuarter :: after
                /\ 1 = length (Double.Notions.withDescriptor
                                 (before ++ [Double.Examples.atQuarter]))
                /\ Double.Notions.noneCloser Double.Distance.distance8
                     Double.Examples.query0
                     (before ++ [Double.Examples.atQuarter]) 0.25%float)))
  /\ (In Double.Examples.atZero
         [Double.Examples.atQuarter; Double.Examples.atZero]
      /\ (exists dm, Double.faceDescriptor Double.Examples.atZero = Some dm
                     /\ 0%float
                        = Double.Distance.distance4 Double.Examples.query0 dm)
      /\ 2 = length (Double.Notions.withDescriptor
                       [Double.Examples.atQuarter; Double.Examples.atZero])
      /\ Double.Notions.noneCloser Double.Distance.distance4
           Double.Examples.query0
           [Double.Examples.atQuarter; Double.Examples.atZero] 0%float).
Proof.
  split.
  - apply (proj1 (C1_nearest_match Double.Examples.query0
                    [Double.Examples.atQuarter; Double.Examples.atZero]
                    0.6%float Double.Examples.atQuarter 0.25%float 1)).
    vm_compute. reflexivity.
  - apply (proj2 (C1_nearest_match Double.Examples.query0
                    [Double.Examples.atQuarter; Double.Examples.atZero]
                    0.6%float Double.Examples.atZero 0%float 2)).
    vm_compute. reflexivity.
Defined.

(** ** When a match is returned *)


(** What the final test of utils/db.js sees when the loop has run to its
    end: the best distance is at most the distance of any candidate that
    can be compared. *)
Lemma double_best_is_least
    (dist : list Double.value -> list Double.value -> float)
    (t : list Double.value) (ps : list Double.faceProfile)
    (st : Double.scanState) (c : Double.faceProfile) (dc : list Double.value) :
  Double.Notions.bestOf dist t ps st ->
  Double.Notions.noneCloser dist t ps (Double.bestDistance st) ->
  In c ps -> Double.faceDescriptor c = Some dc ->
  PrimFloat.leb (dist t dc) (dist t dc) = true ->
  PrimFloat.leb (Double.bestDistance st) (dist t dc) = true.
Proof.
  intros (_ & Hcmp & _) Hmin Hin Hc Hd.
  exact (double_leb_total _ _ Hd Hcmp (Hmin c dc Hin Hc)).
Qed.



Lemma double_serverUtils_matched_iff (t : list Double.value)
    (ps : list Double.faceProfile) (th : float) :
  Double.ServerUtils.findMatchingFaceDirectly t ps th <> None
  <-> Double.Notions.someWithin Double.Distance.distance4 PrimFloat.ltb
        t ps th.
Proof.
  unfold Double.ServerUtils.findMatchingFaceDirectly,
         Double.ServerUtils.findMatchingFaceDirectly_run. simpl.
  destruct (double_scanDirectly_final t th ps)
    as ((_ & _ & Hbest) & Hmin & Hth).
  destruct (Double.bestMatch
              (Double.ServerUtils.scanDirectly t th ps Double.scanStart))
    as [m|] eqn:Hm.
  - split; [|discriminate]. intros _.
    destruct Hbest as (Hin & dm & Hdm & Hbd).
    exists m, dm. rewrite <- Hbd. repeat split; auto.
    apply Hth. discriminate.
  - split; [tauto|]. intros (c & dc & Hin & Hc & Hlt). exfalso.
    specialize (Hmin c dc Hin Hc). rewrite Hlt, Hbest in Hmin.
    rewrite (double_ltb_below_infinity _ _ Hlt) in Hmin. discriminate Hmin.
Qed.

Lemma double_variant3_matched_iff (t : list Double.value)
    (ps : list Double.faceProfile) (th : float) :
  Double.Variant3.findMatchingFace (Some t) (Some ps) th <> None
  <-> Double.Notions.someWithin Double.Distance.distance8 PrimFloat.ltb
        t ps th.
Proof.
  unfold Double.Variant3.findMatchingFace, Double.Variant3.findMatchingFace_run.
  destruct ps as [|c0 ps].
  { simpl. split; [tauto|]. intros (c & dc & [] & _). }
  cbn [length Nat.eqb returned].
  destruct (double_scan_final t (c0 :: ps)) as (Hbest & Hmin).
  set (st' := Double.Variant3.scan t (c0 :: ps) Double.scanStart) in *.
  split.
  - destruct (PrimFloat.ltb (Double.bestDistance st') th) eqn:Hlt; [|tauto].
    intros _. destruct Hbest as (_ & _ & Hbest).
    destruct (Double.bestMatch st') as [m|].
    + destruct Hbest as (Hin & dm & Hdm & Hbd).
      exists m, dm. rewrite <- Hbd. auto.
    + rewrite Hbest, double_ltb_infinity_l in Hlt. discriminate Hlt.
  - intros (c & dc & Hin & Hc & Hlt).
    pose proof (double_best_is_least _ t _ st' c dc Hbest Hmin Hin Hc
                  (proj1 (double_ltb_comparable _ _ Hlt))) as Hb.
    rewrite (double_leb_ltb_trans _ _ _ Hb Hlt). discriminate.
Qed.









(** ** Candidates without a usable descriptor *)

Lemma double_sq_term_nan (t dc : list Double.value) (i : nat) :
  Double.toNumber (Double.idx dc i) = nan ->
  Double.minus (Double.idx t i) (Double.idx dc i) = nan
  /\ Double.Distance.sq_term t dc i = nan.
Proof.
  intros H. unfold Double.Distance.sq_term, Double.minus.
  rewrite H, double_sub_nan_r. split; reflexivity.
Qed.

Ltac nan_sum :=
  repeat first [ rewrite double_add_nan_l | rewrite double_add_nan_r ];
  reflexivity.

Lemma double_block8_nan (t p : list Double.value) (len j k : nat) :
  k < 8 -> Double.Distance.guarded_term t p len (j + k) = nan ->
  Double.Distance.block8 t p len j = nan.
Proof.
  intros Hk H. unfold Double.Distance.block8.
  assert (Hcases : k = 0 \/ k = 1 \/ k = 2 \/ k = 3 \/ k = 4 \/ k = 5
                   \/ k = 6 \/ k = 7) by lia.
  destruct Hcases as [->|[->|[->|[->|[->|[->|[->| ->]]]]]]];
    try rewrite Nat.add_0_r in H; rewrite H; nan_sum.
Qed.

Lemma double_sumLoop8_from_nan (t p : list Double.value) (fuel len j : nat) :
  Double.Distance.sumLoop8 t p fuel len j nan = nan.
Proof.
  revert j. induction fuel as [|fuel IH]; intros j; [reflexivity|].
  simpl. destruct (j <? len); [|reflexivity].
  rewrite double_add_nan_l. apply IH.
Qed.

Lemma double_sumLoop8_nan (t p : list Double.value) (fuel len j i : nat)
    (sum : float) :
  len <= j + 8 * fuel -> j <= i < len ->
  Double.Distance.guarded_term t p len i = nan ->
  Double.Distance.sumLoop8 t p fuel len j sum = nan.
Proof.
  revert j sum. induction fuel as [|fuel IH]; intros j sum Hlen Hi Hnan;
    [lia|].
  cbn [Double.Distance.sumLoop8].
  destruct (Nat.ltb_spec j len) as [Hj|Hj]; [|lia].
  destruct (Nat.lt_ge_cases i (j + 8)) as [Hnear|Hfar].
  - replace i with (j + (i - j)) in Hnan by lia.
    rewrite (double_block8_nan t p len j (i - j)) by (lia || exact Hnan).
    rewrite double_add_nan_r. apply double_sumLoop8_from_nan.
  - apply IH; [lia|lia|exact Hnan].
Qed.

Lemma double_block4_nan (t p : list Double.value) (len i k : nat) :
  k < 4 -> i + k < len ->
  Double.minus (Double.idx t (i + k)) (Double.idx p (i + k)) = nan ->
  Double.Distance.block4 t p len i = nan.
Proof.
  intros Hk Hin H.
  assert (Hg : k <> 0 -> Double.Distance.guarded_diff t p len (i + k) = nan).
  { intros _. unfold Double.Distance.guarded_diff.
    destruct (Nat.ltb_spec (i + k) len); [exact H|lia]. }
  unfold Double.Distance.block4. cbv zeta.
  assert (Hcases : k = 0 \/ k = 1 \/ k = 2 \/ k = 3) by lia.
  destruct Hcases as [->|[->|[->| ->]]].
  - rewrite Nat.add_0_r in H. rewrite H.
    change (PrimFloat.mul nan nan) with nan. nan_sum.
  - rewrite Hg by discriminate.
    change (PrimFloat.mul nan nan) with nan. nan_sum.
  - rewrite Hg by discriminate.
    change (PrimFloat.mul nan nan) with nan. nan_sum.
  - rewrite Hg by discriminate.
    change (PrimFloat.mul nan nan) with nan. nan_sum.
Qed.

Lemma double_sumLoop4_from_nan (t p : list Double.value) (fuel len i : nat) :
  Double.Distance.sumLoop4 t p fuel len i nan = nan.
Proof.
  revert i. induction fuel as [|fuel IH]; intros i; [reflexivity|].
  simpl. destruct (i <? len); [|reflexivity].
  rewrite double_add_nan_l. apply IH.
Qed.

Lemma double_sumLoop4_nan (t p : list Double.value) (fuel len j i : nat)
    (sum : float) :
  len <= j + 4 * fuel -> j <= i < len ->
  Double.minus (Double.idx t i) (Double.idx p i) = nan ->
  Double.Distance.sumLoop4 t p fuel len j sum = nan.
Proof.
  revert j sum. induction fuel as [|fuel IH]; intros j sum Hlen Hi Hnan;
    [lia|].
  cbn [Double.Distance.sumLoop4].
  destruct (Nat.ltb_spec j len) as [Hj|Hj]; [|lia].
  destruct (Nat.lt_ge_cases i (j + 4)) as [Hnear|Hfar].
  - replace i with (j + (i - j)) in Hnan by lia.
    rewrite (double_block4_nan t p len j (i - j)) by (lia || exact Hnan).
    rewrite double_add_nan_r. apply double_sumLoop4_from_nan.
  - apply IH; [lia|lia|exact Hnan].
Qed.

(** A component that converts to [NaN] makes the distance [NaN]. *)
Lemma double_yieldsNaN_distance8 (t dc : list Double.value) :
  Double.Notions.yieldsNaN t dc -> Double.Distance.distance8 t dc = nan.
Proof.
  intros (i & Hi & Hnan). unfold Double.Distance.distance8. cbv zeta.
  rewrite (double_sumLoop8_nan t dc (length t) (length t) 0 i).
  - reflexivity.
  - lia.
  - lia.
  - unfold Double.Distance.guarded_term.
    destruct (Nat.ltb_spec i (length t)); [|lia].
    apply double_sq_term_nan. exact Hnan.
Qed.

Lemma double_yieldsNaN_distance4 (t dc : list Double.value) :
  Double.Notions.yieldsNaN t dc -> Double.Distance.distance4 t dc = nan.
Proof.
  intros (i & Hi & Hnan). unfold Double.Distance.distance4. cbv zeta.
  rewrite (double_sumLoop4_nan t dc (length t) (length t) 0 i).
  - reflexivity.
  - lia.
  - lia.
  - apply double_sq_term_nan. exact Hnan.
Qed.

Lemma double_sameBest_refl (st : Double.scanState) :
  Double.Notions.sameBest st st.
Proof. split; reflexivity. Qed.

Lemma double_sameControl_refl (c : Double.UtilsDb.control) :
  Double.Notions.sameControl c c.
Proof. destruct c; apply double_sameBest_refl. Qed.

(** The probe does not influence the search. *)
Lemma double_scanBatch_sameBest (t : list Double.value) (th : float)
    (ps : list Double.faceProfile) (st1 st2 : Double.scanState) :
  Double.Notions.sameBest st1 st2 ->
  Double.Notions.sameControl (Double.UtilsDb.scanBatch t th ps st1)
                             (Double.UtilsDb.scanBatch t th ps st2).
Proof.
  revert st1 st2. induction ps as [|c rest IH]; intros st1 st2 [Hm Hd].
  - split; assumption.
  - simpl. destruct (Double.faceDescriptor c) as [dc|].
    + rewrite Hd.
      destruct (PrimFloat.ltb (Double.Distance.distance8 t dc)
                              (Double.bestDistance st2)).
      * destruct (PrimFloat.ltb (Double.Distance.distance8 t dc)
                                (PrimFloat.mul th 0.7%float)).
        -- split; reflexivity.
        -- apply IH. split; reflexivity.
      * apply IH. split; simpl; congruence.
    + apply IH. split; assumption.
Qed.

Lemma double_scanBatch_remove (t : list Double.value) (th : float)
    (c : Double.faceProfile) (before after : list Double.faceProfile)
    (st : Double.scanState) :
  Double.Notions.unusable t c ->
  Double.Notions.sameControl
    (Double.UtilsDb.scanBatch t th (before ++ c :: after) st)
    (Double.UtilsDb.scanBatch t th (before ++ after) st).
Proof.
  unfold Double.Notions.unusable. intros Hc. rewrite !double_scanBatch_app.
  destruct (Double.UtilsDb.scanBatch t th before st) as [st'|st'];
    [|apply double_sameBest_refl].
  simpl. destruct (Double.faceDescriptor c) as [dc|].
  - rewrite (double_yieldsNaN_distance8 t dc Hc), double_ltb_nan_l.
    apply double_scanBatch_sameBest. split; reflexivity.
  - apply double_sameControl_refl.
Qed.

Lemma double_flatSearch_sameControl (t : list Double.value) (th : float)
    (ps qs : list Double.faceProfile) :
  Double.Notions.sameControl
    (Double.UtilsDb.scanBatch t th ps Double.scanStart)
    (Double.UtilsDb.scanBatch t th qs Double.scanStart) ->
  returned (Double.Notions.flatSearch t th ps Double.scanStart)
  = returned (Double.Notions.flatSearch t th qs Double.scanStart).
Proof.
  unfold Double.Notions.flatSearch.
  destruct (Double.UtilsDb.scanBatch t th ps Double.scanStart) as [a|a],
           (Double.UtilsDb.scanBatch t th qs Double.scanStart) as [b|b];
    simpl; try contradiction; intros [Hm Hd].
  - unfold Double.UtilsDb.finish. rewrite Hd.
    destruct (PrimFloat.leb (Double.bestDistance b) th); simpl; congruence.
  - congruence.
Qed.

(** With a threshold other than [Infinity] the empty list needs no
    special case. *)
Lemma double_findMatchingFace_flat_finite (t : list Double.value)
    (th : float) (ps : list Double.faceProfile) :
  th <> infinity ->
  Double.UtilsDb.findMatchingFace (Some t) (Some ps) th
  = returned (Double.Notions.flatSearch t th ps Double.scanStart).
Proof.
  intros Hfin. destruct ps as [|c ps];
    [|apply double_findMatchingFace_flat; discriminate].
  unfold Double.Notions.flatSearch, Double.UtilsDb.finish. simpl.
  destruct (PrimFloat.leb infinity th) eqn:E; [|reflexivity].
  exfalso. apply Hfin. exact (double_leb_infinity_l _ E).
Qed.

Lemma double_scanDirectly_sameBest (t : list Double.value) (th : float)
    (ps : list Double.faceProfile) (st1 st2 : Double.scanState) :
  Double.Notions.sameBest st1 st2 ->
  Double.Notions.sameBest (Double.ServerUtils.scanDirectly t th ps st1)
                          (Double.ServerUtils.scanDirectly t th ps st2).
Proof.
  revert st1 st2. induction ps as [|c rest IH]; intros st1 st2 [Hm Hd].
  - split; assumption.
  - simpl. destruct (Double.faceDescriptor c) as [dc|].
    + rewrite Hd.
      destruct (PrimFloat.ltb (Double.Distance.distance4 t dc) th
                && PrimFloat.ltb (Double.Distance.distance4 t dc)
                                 (Double.bestDistance st2));
        apply IH; split; simpl; auto.
    + apply IH. split; assumption.
Qed.

Lemma double_scanDirectly_remove (t : list Double.value) (th : float)
    (c : Double.faceProfile) (before after : list Double.faceProfile)
    (st : Double.scanState) :
  Double.Notions.unusable t c ->
  Double.Notions.sameBest
    (Double.ServerUtils.scanDirectly t th (before ++ c :: after) st)
    (Double.ServerUtils.scanDirectly t th (before ++ after) st).
Proof.
  unfold Double.Notions.unusable. intros Hc.
  rewrite !double_scanDirectly_app. simpl.
  destruct (Double.faceDescriptor c) as [dc|].
  - rewrite (double_yieldsNaN_distance4 t dc Hc), double_ltb_nan_l. simpl.
    apply double_scanDirectly_sameBest. split; reflexivity.
  - apply double_sameBest_refl.
Qed.

Lemma double_scan_app (t : list Double.value)
    (l1 l2 : list Double.faceProfile) (st : Double.scanState) :
  Double.Variant3.scan t (l1 ++ l2) st
  = Double.Variant3.scan t l2 (Double.Variant3.scan t l1 st).
Proof.
  revert st. induction l1 as [|c l1 IH]; intros st; [reflexivity|].
  simpl. destruct (Double.faceDescriptor c) as [dc|]; [|apply IH].
  destruct (PrimFloat.ltb (Double.Distance.distance8 t dc)
                          (Double.bestDistance st)); apply IH.
Qed.

Lemma double_scan_sameBest (t : list Double.value)
    (ps : list Double.faceProfile) (st1 st2 : Double.scanState) :
  Double.Notions.sameBest st1 st2 ->
  Double.Notions.sameBest (Double.Variant3.scan t ps st1)
                          (Double.Variant3.scan t ps st2).
Proof.
  revert st1 st2. induction ps as [|c rest IH]; intros st1 st2 [Hm Hd].
  - split; assumption.
  - simpl. destruct (Double.faceDescriptor c) as [dc|].
    + rewrite Hd.
      destruct (PrimFloat.ltb (Double.Distance.distance8 t dc)
                              (Double.bestDistance st2));
        apply IH; split; simpl; auto.
    + apply IH. split; assumption.
Qed.

Lemma double_scan_remove (t : list Double.value) (c : Double.faceProfile)
    (before after : list Double.faceProfile) (st : Double.scanState) :
  Double.Notions.unusable t c ->
  Double.Notions.sameBest
    (Double.Variant3.scan t (before ++ c :: after) st)
    (Double.Variant3.scan t (before ++ after) st).
Proof.
  unfold Double.Notions.unusable. intros Hc.
  rewrite !double_scan_app. simpl.
  destruct (Double.faceDescriptor c) as [dc|].
  - rewrite (double_yieldsNaN_distance8 t dc Hc), double_ltb_nan_l.
    apply double_scan_sameBest. split; reflexivity.
  - apply double_sameBest_refl.
Qed.

(** The third variant needs no special case for the empty list. *)
Lemma double_variant3_flat (t : list Double.value) (th : float)
    (ps : list Double.faceProfile) :
  Double.Variant3.findMatchingFace (Some t) (Some ps) th
  = let st := Double.Variant3.scan t ps Double.scanStart in
    if PrimFloat.ltb (Double.bestDistance st) th
    then Some {| Double.match_ := Double.bestMatch st;
                 Double.distance := Double.bestDistance st |}
    else None.
Proof.
  destruct ps as [|c ps]; [|reflexivity].
  cbv zeta. simpl. rewrite double_ltb_infinity_l. reflexivity.
Qed.

(** A best match has a distance that can be compared, so its descriptor
    is usable. *)
Lemma double_best_is_usable
    (dist : list Double.value -> list Double.value -> float)
    (t : list Double.value) (seen : list Double.faceProfile)
    (st : Double.scanState) (m : Double.faceProfile) :
  (forall dc, Double.Notions.yieldsNaN t dc -> dist t dc = nan) ->
  Double.Notions.bestOf dist t seen st ->
  Double.bestMatch st = Some m ->
  ~ Double.Notions.unusable t m.
Proof.
  intros Hnan (_ & Hcmp & Hbest) Hm Hbad. rewrite Hm in Hbest.
  destruct Hbest as (_ & dm & Hdm & Hbd).
  unfold Double.Notions.unusable in Hbad. rewrite Hdm in Hbad.
  rewrite Hbd, (Hnan dm Hbad) in Hcmp. discriminate Hcmp.
Qed.

Lemma double_utilsDb_returns_usable (t : list Double.value)
    (ps : list Double.faceProfile) (th : float) (m : Double.faceProfile)
    (d : float) :
  Double.UtilsDb.findMatchingFace (Some t) (Some ps) th
    = Some {| Double.match_ := Some m; Double.distance := d |} ->
  ~ Double.Notions.unusable t m.
Proof.
  intros Hfind.
  assert (Hne : ps <> []) by (intros ->; discriminate Hfind).
  rewrite double_findMatchingFace_flat in Hfind by exact Hne.
  unfold Double.Notions.flatSearch in Hfind.
  destruct (double_scanBatch_cases t th ps)
    as [(st' & Hscan & Hbest & _)
       |(st' & before & m' & after & Hscan & _ & _ & Hbest & _)];
    rewrite Hscan in Hfind.
  - unfold Double.UtilsDb.finish in Hfind.
    destruct (PrimFloat.leb (Double.bestDistance st') th);
      [|discriminate Hfind].
    injection Hfind as Hm _.
    exact (double_best_is_usable _ t _ st' m (double_yieldsNaN_distance8 t)
             Hbest Hm).
  - injection Hfind as Hm _.
    exact (double_best_is_usable _ t _ st' m (double_yieldsNaN_distance8 t)
             Hbest Hm).
Qed.

Lemma double_serverUtils_returns_usable (t : list Double.value)
    (ps : list Double.faceProfile) (th : float) (m : Double.faceProfile)
    (d : float) :
  Double.ServerUtils.findMatchingFaceDirectly t ps th
    = Some {| Double.match_ := Some m; Double.distance := d |} ->
  ~ Double.Notions.unusable t m.
Proof.
  unfold Double.ServerUtils.findMatchingFaceDirectly,
         Double.ServerUtils.findMatchingFaceDirectly_run. simpl.
  destruct (double_scanDirectly_final t th ps) as (Hbest & _ & _).
  destruct (Double.bestMatch
              (Double.ServerUtils.scanDirectly t th ps Double.scanStart))
    as [m'|] eqn:Hm; [|discriminate].
  intros Hfind. injection Hfind as -> _.
  exact (double_best_is_usable _ t _ _ m (double_yieldsNaN_distance4 t)
           Hbest Hm).
Qed.

Lemma double_variant3_returns_usable (t : list Double.value)
    (ps : list Double.faceProfile) (th : float) (m : Double.faceProfile)
    (d : float) :
  Double.Variant3.findMatchingFace (Some t) (Some ps) th
    = Some {| Double.match_ := Some m; Double.distance := d |} ->
  ~ Double.Notions.unusable t m.
Proof.
  rewrite double_variant3_flat. cbv zeta.
  destruct (double_scan_final t ps) as (Hbest & _).
  destruct (PrimFloat.ltb
              (Double.bestDistance (Double.Variant3.scan t ps Double.scanStart))
              th); [|discriminate].
  intros Hfind. injection Hfind as Hm _.
  exact (double_best_is_usable _ t _ _ m (double_yieldsNaN_distance8 t)
           Hbest Hm).
Qed.

(** C8, as worded, fails: a descriptor that holds [null] where a number
    is expected is malformed, yet [null] converts to 0 in the
    subtraction, the candidate is compared like any other, and utils/db.js
    returns it, at distance 0. *)
Lemma C8_counterexample :
  ~ Double.AsStated.malformedNeverReturned Double.UtilsDb.findMatchingFace.
Proof.
  intros H.
  apply (H Double.Examples.query0 [Double.Examples.nullEntry] 0.6%float
           Double.Examples.nullEntry 0%float).
  - left. reflexivity.
  - intros dc Hdc. injection Hdc as <-. intros [_ Hnum]. discriminate Hnum.
  - vm_compute. reflexivity.
Qed.

(** The same happens with a descriptor that is longer than the query:
    the components past the length of the query are not read. *)
Lemma double_longer_descriptor_is_returned :
  ~ Double.Notions.wellFormed Double.Examples.query0
      [Double.Number 0%float; Double.Number 5%float]
  /\ Double.ServerUtils.findMatchingFaceDirectly Double.Examples.query0
       [Double.Examples.tooLong] 0.6%float
     = Some {| Double.match_ := Some Double.Examples.tooLong;
               Double.distance := 0%float |}.
Proof.
  split; [intros [Hlen _]; discriminate Hlen|].
  vm_compute. reflexivity.
Qed.

(** And with a descriptor that holds a string where [ToNumber] reads a
    number. *)
Lemma double_string_entry_is_returned :
  ~ Double.Notions.wellFormed Double.Examples.query0 [Double.Other 0%float]
  /\ Double.Variant3.findMatchingFace (Some Double.Examples.query0)
       (Some [Double.Examples.emptyString]) 0.6%float
     = Some {| Double.match_ := Some Double.Examples.emptyString;
               Double.distance := 0%float |}.
Proof.
  split; [intros [_ Hnum]; discriminate Hnum|].
  vm_compute. reflexivity.
Qed.

(** C8, amended. A candidate whose descriptor is missing, or from which a
    component that the distance needs converts to [NaN] (the array is too
    short for the query, or holds there [undefined], [NaN], or a string
    or an object that is not read as a number), takes no
    part in the search: utils/db.js (for a threshold other than
    [Infinity]), [findMatchingFaceDirectly] of
    server/utils/faceRecognition.js and the third variant return what
    they return without that candidate, wherever it stands in the list,
    and such a candidate is never the returned match. *)
Theorem C8_unusable_candidates_are_skipped (t : list Double.value)
    (th : float) (before after : list Double.faceProfile)
    (c : Double.faceProfile) :
  Double.Notions.unusable t c ->
  (th <> infinity ->
   Double.UtilsDb.findMatchingFace (Some t) (Some (before ++ c :: after)) th
   = Double.UtilsDb.findMatchingFace (Some t) (Some (before ++ after)) th)
  /\ Double.ServerUtils.findMatchingFaceDirectly t (before ++ c :: after) th
     = Double.ServerUtils.findMatchingFaceDirectly t (before ++ after) th
  /\ Double.Variant3.findMatchingFace (Some t) (Some (before ++ c :: after)) th
     = Double.Variant3.findMatchingFace (Some t) (Some (before ++ after)) th
  /\ (forall d, Double.UtilsDb.findMatchingFace (Some t)
                  (Some (before ++ c :: after)) th
                <> Some {| Double.match_ := Some c; Double.distance := d |})
  /\ (forall d, Double.ServerUtils.findMatchingFaceDirectly t
                  (before ++ c :: after) th
                <> Some {| Double.match_ := Some c; Double.distance := d |})
  /\ (forall d, Double.Variant3.findMatchingFace (Some t)
                  (Some (before ++ c :: after)) th
                <> Some {| Double.match_ := Some c; Double.distance := d |}).
Proof.
  intros Hc. split; [|split; [|split; [|split; [|split]]]].
  - intros Hfin. rewrite !double_findMatchingFace_flat_finite by exact Hfin.
    apply double_flatSearch_sameControl, double_scanBatch_remove. exact Hc.
  - unfold Double.ServerUtils.findMatchingFaceDirectly,
           Double.ServerUtils.findMatchingFaceDirectly_run. simpl.
    destruct (double_scanDirectly_remove t th c before after
                Double.scanStart Hc) as [-> ->].
    reflexivity.
  - rewrite !double_variant3_flat. cbv zeta.
    destruct (double_scan_remove t c before after Double.scanStart Hc)
      as [-> ->].
    reflexivity.
  - intros d Hfind. exact (double_utilsDb_returns_usable _ _ _ _ _ Hfind Hc).
  - intros d Hfind.
    exact (double_serverUtils_returns_usable _ _ _ _ _ Hfind Hc).
  - intros d Hfind.
    exact (double_variant3_returns_usable _ _ _ _ _ Hfind Hc).
Qed.

Lemma double_default_threshold_is_finite : 0.6%float <> infinity.
Proof.
  intros H. apply (f_equal (fun x => PrimFloat.ltb x infinity)) in H.
  vm_compute in H. discriminate H.
Qed.

Lemma C8_witness :
  Double.Notions.unusable Double.Examples.query0
    Double.Examples.emptyDescriptor
  /\ Double.UtilsDb.findMatchingFace (Some Double.Examples.query0)
       (Some ([Double.Examples.atQuarter] ++ Double.Examples.emptyDescriptor
                :: [Double.Examples.atZero])) 0.6%float
     = Double.UtilsDb.findMatchingFace (Some Double.Examples.query0)
         (Some ([Double.Examples.atQuarter] ++ [Double.Examples.atZero]))
         0.6%float.
Proof.
  assert (H : Double.Notions.unusable Double.Examples.query0
                Double.Examples.emptyDescriptor).
  { exists 0. split; [simpl; lia|reflexivity]. }
  split; [exact H|].
  exact (proj1 (C8_unusable_candidates_are_skipped Double.Examples.query0
                  0.6%float [Double.Examples.atQuarter]
                  [Double.Examples.atZero]
                  Double.Examples.emptyDescriptor H)
           double_default_threshold_is_finite).
Defined.

(** ** The unrolled loops regroup the sum of squares *)

Lemma double_squares_length (q c : list Double.value) :
  length q <= length c ->
  length (Double.Distance.squares q c) = length q.
Proof.
  intros H. unfold Double.Distance.squares.
  rewrite length_map, length_combine. lia.
Qed.

Lemma double_squares_unsigned (q c : list Double.value) :
  Forall Double.Notions.unsigned (Double.Distance.squares q c).
Proof.
  unfold Double.Distance.squares. apply Forall_forall. intros x Hx.
  apply in_map_iff in Hx. destruct Hx as (qc & <- & _).
  apply unsigned_pow2.
Qed.

Lemma double_sq_term_nth (q c : list Double.value) (i : nat) :
  i < length q -> length q <= length c ->
  Double.Distance.sq_term q c i
  = nth i (Double.Distance.squares q c) 0%float.
Proof.
  unfold Double.Distance.sq_term, Double.Distance.squares, Double.idx.
  revert c i. induction q as [|x q IH]; intros c i Hi Hlen; [simpl in Hi; lia|].
  destruct c as [|y c]; [simpl in Hlen; lia|].
  destruct i as [|i]; [reflexivity|].
  simpl in *. apply IH; lia.
Qed.

(** Inside the range the guard lets the term through, outside it both
    the guard and the list of terms give [0]. *)
Lemma double_guarded_term_nth (q c : list Double.value) (i : nat) :
  length q <= length c ->
  Double.Distance.guarded_term q c (length q) i
  = nth i (Double.Distance.squares q c) 0%float.
Proof.
  intros Hlen. unfold Double.Distance.guarded_term.
  destruct (Nat.ltb_spec i (length q)) as [Hi|Hi].
  - apply double_sq_term_nth; assumption.
  - rewrite nth_overflow; [reflexivity|].
    rewrite double_squares_length by exact Hlen. exact Hi.
Qed.

Lemma double_guarded_diff_square (q c : list Double.value) (i : nat) :
  length q <= length c ->
  PrimFloat.mul (Double.Distance.guarded_diff q c (length q) i)
                (Double.Distance.guarded_diff q c (length q) i)
  = nth i (Double.Distance.squares q c) 0%float.
Proof.
  intros Hlen. rewrite <- double_guarded_term_nth by exact Hlen.
  unfold Double.Distance.guarded_diff, Double.Distance.guarded_term.
  destruct (i <? length q); reflexivity.
Qed.

Section Regrouping.

Variable terms : list float.
Hypothesis terms_unsigned : Forall Double.Notions.unsigned terms.

Lemma double_nth_unsigned (i : nat) :
  Double.Notions.unsigned (nth i terms 0%float).
Proof.
  destruct (Nat.lt_ge_cases i (length terms)) as [Hi|Hi].
  - rewrite Forall_forall in terms_unsigned.
    apply terms_unsigned, nth_In, Hi.
  - rewrite nth_overflow by exact Hi. exact unsigned_zero.
Qed.

Lemma double_skipn_cons (j : nat) :
  j < length terms ->
  skipn j terms = nth j terms 0%float :: skipn (S j) terms.
Proof.
  revert j. induction terms as [|x l IH]; intros j Hj; [simpl in Hj; lia|].
  destruct j as [|j]; [reflexivity|].
  simpl in *. inversion terms_unsigned; subst.
  apply IH; [assumption|lia].
Qed.

(** Adding the terms at the positions [j], [j + 1], ... one after the
    other is adding the terms that exist there: past the end of the list
    the additions are additions of [0]. *)
Lemma double_padding (positions : list nat) (k j : nat) (acc : float) :
  positions = seq j k ->
  Double.Notions.unsigned acc ->
  fold_left (fun a i => PrimFloat.add a (nth i terms 0%float)) positions acc
  = fold_left PrimFloat.add (firstn k (skipn j terms)) acc.
Proof.
  revert positions j acc.
  induction k as [|k IH]; intros positions j acc -> Hacc; [reflexivity|].
  cbn [seq fold_left].
  destruct (Nat.lt_ge_cases j (length terms)) as [Hj|Hj].
  - rewrite (double_skipn_cons j Hj). cbn [firstn fold_left].
    apply IH; [reflexivity|].
    apply unsigned_add; [exact Hacc|apply double_nth_unsigned].
  - rewrite (nth_overflow _ _ Hj), double_add_0_r by exact Hacc.
    rewrite (IH (seq (S j) k) (S j) acc eq_refl Hacc).
    rewrite !skipn_all2 by lia. rewrite !firstn_nil. reflexivity.
Qed.

Lemma double_groupSum (k j : nat) :
  j < length terms ->
  fold_left (fun a i => PrimFloat.add a (nth i terms 0%float)) (seq (S j) k)
            (nth j terms 0%float)
  = Double.Distance.groupSum (firstn (S k) (skipn j terms)).
Proof.
  intros Hj. rewrite (double_skipn_cons j Hj). cbn [firstn].
  unfold Double.Distance.groupSum.
  apply double_padding; [reflexivity|apply double_nth_unsigned].
Qed.

Lemma double_sumGroups_1 (fuel : nat) (l : list float) (total : float) :
  length l <= fuel ->
  Double.Distance.sumGroups fuel 1 l total = fold_left PrimFloat.add l total.
Proof.
  revert l total. induction fuel as [|fuel IH]; intros l total Hlen.
  - destruct l; [reflexivity|simpl in Hlen; lia].
  - destruct l as [|x l]; [reflexivity|].
    cbn [Double.Distance.sumGroups skipn firstn Double.Distance.groupSum
         fold_left].
    apply IH. simpl in Hlen. lia.
Qed.

End Regrouping.

Lemma double_block8_groupSum (q c : list Double.value) (j : nat) :
  length q <= length c -> j < length q ->
  Double.Distance.block8 q c (length q) j
  = Double.Distance.groupSum
      (firstn 8 (skipn j (Double.Distance.squares q c))).
Proof.
  intros Hlen Hj.
  rewrite <- (double_groupSum _ (double_squares_unsigned q c) 7 j)
    by (rewrite double_squares_length by exact Hlen; exact Hj).
  unfold Double.Distance.block8.
  rewrite !double_guarded_term_nth by exact Hlen.
  cbn [seq fold_left].
  replace (j + 1) with (S j) by lia.
  replace (j + 2) with (S (S j)) by lia.
  replace (j + 3) with (S (S (S j))) by lia.
  replace (j + 4) with (S (S (S (S j)))) by lia.
  replace (j + 5) with (S (S (S (S (S j))))) by lia.
  replace (j + 6) with (S (S (S (S (S (S j)))))) by lia.
  replace (j + 7) with (S (S (S (S (S (S (S j))))))) by lia.
  reflexivity.
Qed.

Lemma double_block4_groupSum (q c : list Double.value) (i : nat) :
  length q <= length c -> i < length q ->
  Double.Distance.block4 q c (length q) i
  = Double.Distance.groupSum
      (firstn 4 (skipn i (Double.Distance.squares q c))).
Proof.
  intros Hlen Hi.
  rewrite <- (double_groupSum _ (double_squares_unsigned q c) 3 i)
    by (rewrite double_squares_length by exact Hlen; exact Hi).
  unfold Double.Distance.block4. cbv zeta.
  rewrite !double_guarded_diff_square by exact Hlen.
  change (PrimFloat.mul (Double.minus (Double.idx q i) (Double.idx c i))
                        (Double.minus (Double.idx q i) (Double.idx c i)))
    with (Double.Distance.sq_term q c i).
  rewrite double_sq_term_nth by assumption.
  cbn [seq fold_left].
  replace (i + 1) with (S i) by lia.
  replace (i + 2) with (S (S i)) by lia.
  replace (i + 3) with (S (S (S i))) by lia.
  reflexivity.
Qed.

Lemma double_sumGroups_step (fuel k : nat) (l : list float) (total : float) :
  l <> [] ->
  Double.Distance.sumGroups (S fuel) k l total
  = Double.Distance.sumGroups fuel k (skipn k l)
      (PrimFloat.add total (Double.Distance.groupSum (firstn k l))).
Proof. destruct l; [congruence|reflexivity]. Qed.

Lemma double_sumGroups_nil (fuel k : nat) (total : float) :
  Double.Distance.sumGroups fuel k [] total = total.
Proof. destruct fuel; reflexivity. Qed.

Lemma double_squares_rest (q c : list Double.value) (j : nat) :
  length q <= length c -> j < length q ->
  skipn j (Double.Distance.squares q c) <> [].
Proof.
  intros Hlen Hj.
  rewrite (double_skipn_cons _ (double_squares_unsigned q c) j)
    by (rewrite double_squares_length by exact Hlen; exact Hj).
  discriminate.
Qed.

Lemma double_sumLoop8_sumGroups (q c : list Double.value) (fuel j : nat)
    (sum : float) :
  length q <= length c ->
  Double.Distance.sumLoop8 q c fuel (length q) j sum
  = Double.Distance.sumGroups fuel 8
      (skipn j (Double.Distance.squares q c)) sum.
Proof.
  intros Hlen. revert j sum.
  induction fuel as [|fuel IH]; intros j sum; [reflexivity|].
  cbn [Double.Distance.sumLoop8].
  destruct (Nat.ltb_spec j (length q)) as [Hj|Hj].
  - rewrite double_sumGroups_step by (apply double_squares_rest; assumption).
    rewrite IH, double_block8_groupSum by assumption.
    rewrite skipn_skipn. replace (8 + j) with (j + 8) by lia.
    reflexivity.
  - rewrite skipn_all2
      by (rewrite double_squares_length by exact Hlen; exact Hj).
    rewrite double_sumGroups_nil. reflexivity.
Qed.

Lemma double_sumLoop4_sumGroups (q c : list Double.value) (fuel i : nat)
    (sum : float) :
  length q <= length c ->
  Double.Distance.sumLoop4 q c fuel (length q) i sum
  = Double.Distance.sumGroups fuel 4
      (skipn i (Double.Distance.squares q c)) sum.
Proof.
  intros Hlen. revert i sum.
  induction fuel as [|fuel IH]; intros i sum; [reflexivity|].
  cbn [Double.Distance.sumLoop4].
  destruct (Nat.ltb_spec i (length q)) as [Hi|Hi].
  - rewrite double_sumGroups_step by (apply double_squares_rest; assumption).
    rewrite IH, double_block4_groupSum by assumption.
    rewrite skipn_skipn. replace (4 + i) with (i + 4) by lia.
    reflexivity.
  - rewrite skipn_all2
      by (rewrite double_squares_length by exact Hlen; exact Hi).
    rewrite double_sumGroups_nil. reflexivity.
Qed.

Lemma double_distance8_regroups (q c : list Double.value) :
  length q <= length c ->
  Double.Distance.distance8 q c
  = PrimFloat.sqrt
      (Double.Distance.sumInGroups 8 (Double.Distance.squares q c)).
Proof.
  intros Hlen. unfold Double.Distance.distance8, Double.Distance.sumInGroups.
  cbv zeta. rewrite double_sumLoop8_sumGroups by exact Hlen.
  rewrite double_squares_length by exact Hlen. reflexivity.
Qed.

Lemma double_distance4_regroups (q c : list Double.value) :
  length q <= length c ->
  Double.Distance.distance4 q c
  = PrimFloat.sqrt
      (Double.Distance.sumInGroups 4 (Double.Distance.squares q c)).
Proof.
  intros Hlen. unfold Double.Distance.distance4, Double.Distance.sumInGroups.
  cbv zeta. rewrite double_sumLoop4_sumGroups by exact Hlen.
  rewrite double_squares_length by exact Hlen. reflexivity.
Qed.

(** On doubles the two loops give different results for the vector
    (3, 3, 4, 0, 1, 83886080, 100663296, 83886080, 0) and the origin:
    the sum of the squares is 24206847997116452 when the terms are added
    in groups of eight (or one by one) and 24206847997116448 when they are
    added in groups of four. *)
Lemma double_loops_differ :
  Double.Distance.distance8 Double.Examples.nine Double.Examples.origin9
    = 155585500.60052657%float
  /\ Double.Distance.distance4 Double.Examples.nine Double.Examples.origin9
     = 155585500.60052654%float
  /\ PrimFloat.ltb 155585500.60052654%float 155585500.60052657%float = true.
Proof. repeat split. Qed.

(** C9, as worded, fails on doubles: the stride-8 loop and the stride-4
    loop return different numbers for the same pair of vectors, so they
    cannot both return the reference distance, in whatever order the
    reference adds its terms. *)
Lemma C9_counterexample : ~ Double.AsStated.unrolledIsEuclidean.
Proof.
  intros H.
  destruct (H Double.Examples.nine Double.Examples.origin9 eq_refl)
    as [H8 H4].
  rewrite <- H4 in H8.
  destruct double_loops_differ as (E8 & E4 & Hlt).
  rewrite E8, E4 in H8. rewrite H8, double_ltb_irrefl in Hlt.
  discriminate Hlt.
Qed.

(** C9, amended. For a candidate vector at least as long as the query,
    the stride-8 loop of utils/db.js (and of the third variant) and the
    stride-4 loop of server/utils/faceRecognition.js return the square
    root of the sum of the squared componentwise differences over the
    components of the query, each taken once, with the terms added in
    groups of eight, respectively four, consecutive components: the terms
    of a group are added from left to right and the sum of the group is
    added to the running total.  The guarded positions past the end
    contribute nothing.  The reference adds the same terms one by one.
    Every addition being rounded, the three results agree up to that
    regrouping only. *)
Theorem C9_unrolled_distance_regroups (query candidate : list Double.value) :
  length query <= length candidate ->
  Double.Distance.distance8 query candidate
    = PrimFloat.sqrt
        (Double.Distance.sumInGroups 8
           (Double.Distance.squares query candidate))
  /\ Double.Distance.distance4 query candidate
     = PrimFloat.sqrt
         (Double.Distance.sumInGroups 4
            (Double.Distance.squares query candidate))
  /\ Double.Distance.euclideanDistance query candidate
     = PrimFloat.sqrt
         (Double.Distance.sumInGroups 1
            (Double.Distance.squares query candidate)).
Proof.
  intros Hlen. split; [|split].
  - apply double_distance8_regroups. exact Hlen.
  - apply double_distance4_regroups. exact Hlen.
  - unfold Double.Distance.euclideanDistance, Double.Distance.sumInGroups.
    rewrite double_sumGroups_1 by reflexivity. reflexivity.
Qed.

Lemma C9_witness :
  Double.Distance.distance4 Double.Examples.nine Double.Examples.origin9
  = PrimFloat.sqrt
      (Double.Distance.sumInGroups 4
         (Double.Distance.squares Double.Examples.nine
            Double.Examples.origin9)).
Proof.
  apply (proj1 (proj2 (C9_unrolled_distance_regroups Double.Examples.nine
                         Double.Examples.origin9
                         ltac:(vm_compute; lia)))).
Defined.


(** ** Arithmetic of JavaScript numbers *)

Lemma nadd_assoc (a b c : num) : nadd (nadd a b) c = nadd a (nadd b c).
Proof.
  destruct a, b, c; simpl; try reflexivity.
  f_equal. ring.
Qed.

Lemma nadd_0_r (a : num) : nadd a (Num 0) = a.
Proof.
  destruct a; simpl; try reflexivity.
  f_equal. ring.
Qed.

Lemma nadd_0_l (a : num) : nadd (Num 0) a = a.
Proof.
  destruct a; simpl; try reflexivity.
  f_equal. ring.
Qed.

Lemma nmul_self (a : num) : nmul a a = npow2 a.
Proof. destruct a; reflexivity. Qed.

Lemma Rltb_true (a b : R) : Rltb a b = true <-> (a < b)%R.
Proof. unfold Rltb. destruct (Rlt_dec a b); split; intros; congruence || auto. Qed.

Lemma Rltb_false (a b : R) : Rltb a b = false <-> (b <= a)%R.
Proof.
  unfold Rltb. destruct (Rlt_dec a b); split; intros; try congruence; try lra.
Qed.

Lemma Rleb_true (a b : R) : Rleb a b = true <-> (a <= b)%R.
Proof. unfold Rleb. destruct (Rle_dec a b); split; intros; congruence || auto. Qed.

Lemma Rleb_false (a b : R) : Rleb a b = false <-> (b < a)%R.
Proof.
  unfold Rleb. destruct (Rle_dec a b); split; intros; try congruence; try lra.
Qed.

(** ** The unrolled loops compute the sum of squares *)

Section UnrolledLoops.

Variables t p : list num.
Variable len : nat.

Let g := Distance.guarded_term t p len.
Let gsum := Aux.guardedSum t p len.

Lemma guardedSum_past_end (n j : nat) :
  len <= j -> gsum n j = Num 0.
Proof.
  revert j. induction n as [|n IH]; intros j Hj; [reflexivity|].
  unfold gsum in *. simpl. rewrite IH by lia.
  unfold Distance.guarded_term.
  destruct (Nat.ltb_spec j len); [lia|].
  simpl. f_equal. ring.
Qed.

Lemma block8_guardedSum (j : nat) (rest : num) :
  nadd (Distance.block8 t p len j) rest =
  nadd (g j) (nadd (g (S j)) (nadd (g (2 + j)) (nadd (g (3 + j))
    (nadd (g (4 + j)) (nadd (g (5 + j)) (nadd (g (6 + j))
      (nadd (g (7 + j)) rest))))))).
Proof.
  unfold Distance.block8, g.
  replace (j + 1) with (S j) by lia.
  replace (j + 2) with (2 + j) by lia.
  replace (j + 3) with (3 + j) by lia.
  replace (j + 4) with (4 + j) by lia.
  replace (j + 5) with (5 + j) by lia.
  replace (j + 6) with (6 + j) by lia.
  replace (j + 7) with (7 + j) by lia.
  rewrite !nadd_assoc. reflexivity.
Qed.

Lemma sumLoop8_guardedSum (fuel j : nat) (sum : num) :
  len <= j + 8 * fuel ->
  Distance.sumLoop8 t p fuel len j sum = nadd sum (gsum (8 * fuel) j).
Proof.
  revert j sum. induction fuel as [|fuel IH]; intros j sum Hlen.
  - simpl. rewrite nadd_0_r. reflexivity.
  - cbn [Distance.sumLoop8].
    destruct (Nat.ltb_spec j len) as [Hj|Hj].
    + rewrite IH by lia.
      replace (8 * S fuel) with (8 + 8 * fuel) by lia.
      rewrite nadd_assoc, block8_guardedSum.
      replace (j + 8) with (8 + j) by lia.
      reflexivity.
    + rewrite guardedSum_past_end by lia.
      rewrite nadd_0_r. reflexivity.
Qed.

Lemma guarded_diff_square (k : nat) :
  nmul (Distance.guarded_diff t p len k) (Distance.guarded_diff t p len k)
  = g k.
Proof.
  unfold Distance.guarded_diff, g, Distance.guarded_term, Distance.sq_term.
  destruct (k <? len).
  - apply nmul_self.
  - simpl. f_equal. ring.
Qed.

Lemma block4_guardedSum (i : nat) (rest : num) :
  i < len ->
  nadd (Distance.block4 t p len i) rest =
  nadd (g i) (nadd (g (S i)) (nadd (g (2 + i)) (nadd (g (3 + i)) rest))).
Proof.
  intros Hi. unfold Distance.block4. cbv zeta.
  rewrite !guarded_diff_square.
  replace (nmul (nsub (idx t i) (idx p i)) (nsub (idx t i) (idx p i)))
    with (g i).
  2:{ unfold g, Distance.guarded_term, Distance.sq_term.
      destruct (Nat.ltb_spec i len); [|lia].
      symmetry. apply nmul_self. }
  replace (i + 1) with (S i) by lia.
  replace (i + 2) with (2 + i) by lia.
  replace (i + 3) with (3 + i) by lia.
  rewrite !nadd_assoc. reflexivity.
Qed.

Lemma sumLoop4_guardedSum (fuel i : nat) (distance : num) :
  len <= i + 4 * fuel ->
  Distance.sumLoop4 t p fuel len i distance
  = nadd distance (gsum (4 * fuel) i).
Proof.
  revert i distance. induction fuel as [|fuel IH]; intros i distance Hlen.
  - simpl. rewrite nadd_0_r. reflexivity.
  - cbn [Distance.sumLoop4].
    destruct (Nat.ltb_spec i len) as [Hi|Hi].
    + rewrite IH by lia.
      replace (4 * S fuel) with (4 + 4 * fuel) by lia.
      rewrite nadd_assoc, block4_guardedSum by assumption.
      replace (i + 4) with (4 + i) by lia.
      reflexivity.
    + rewrite guardedSum_past_end by lia.
      rewrite nadd_0_r. reflexivity.
Qed.

End UnrolledLoops.

Lemma guardedSum_cons (x y : num) (t p : list num) (len n j : nat) :
  Aux.guardedSum (x :: t) (y :: p) (S len) n (S j)
  = Aux.guardedSum t p len n j.
Proof.
  revert j. induction n as [|n IH]; intros j; [reflexivity|].
  simpl. rewrite IH. reflexivity.
Qed.

Lemma guardedSum_sumSquares (t p : list num) (n : nat) :
  length t = length p -> length t <= n ->
  Aux.guardedSum t p (length t) n 0 = Distance.sumSquares t p.
Proof.
  revert p n. induction t as [|x t IH]; intros p n Hlen Hn.
  - apply guardedSum_past_end. simpl. lia.
  - destruct p as [|y p]; [discriminate|].
    destruct n as [|n]; [simpl in Hn; lia|].
    cbn [Aux.guardedSum length].
    rewrite guardedSum_cons.
    simpl in Hlen, Hn.
    rewrite IH by lia.
    reflexivity.
Qed.

Lemma distance8_euclidean (t p : list num) :
  length t = length p ->
  Distance.distance8 t p = Distance.euclideanDistance t p.
Proof.
  intros Hlen. unfold Distance.distance8, Distance.euclideanDistance.
  cbv zeta. rewrite sumLoop8_guardedSum by lia.
  rewrite nadd_0_l, guardedSum_sumSquares by lia.
  reflexivity.
Qed.

Lemma distance4_euclidean (t p : list num) :
  length t = length p ->
  Distance.distance4 t p = Distance.euclideanDistance t p.
Proof.
  intros Hlen. unfold Distance.distance4, Distance.euclideanDistance.
  cbv zeta. rewrite sumLoop4_guardedSum by lia.
  rewrite nadd_0_l, guardedSum_sumSquares by lia.
  reflexivity.
Qed.

(** ** Order facts *)

Lemma nltb_trans (a b c : num) :
  nltb a b = true -> nltb b c = true -> nltb a c = true.
Proof.
  destruct a, b, c; simpl; try congruence.
  rewrite !Rltb_true. lra.
Qed.

Lemma nltb_irrefl (a : num) : nltb a a = false.
Proof.
  destruct a; simpl; try reflexivity.
  apply Rltb_false. lra.
Qed.

Lemma nsqrt_range (a : num) :
  nsqrt a = NaN \/ nsqrt a = PInf
  \/ exists r, nsqrt a = Num r /\ (0 <= r)%R.
Proof.
  destruct a; simpl; auto.
  destruct (Rltb r 0); auto.
  right; right. exists (sqrt r). split; [reflexivity|apply sqrt_pos].
Qed.

Lemma distance8_range (t d : list num) :
  Distance.distance8 t d = NaN \/ Distance.distance8 t d = PInf
  \/ exists r, Distance.distance8 t d = Num r /\ (0 <= r)%R.
Proof. apply nsqrt_range. Qed.

Lemma distance4_range (t d : list num) :
  Distance.distance4 t d = NaN \/ Distance.distance4 t d = PInf
  \/ exists r, Distance.distance4 t d = Num r /\ (0 <= r)%R.
Proof. apply nsqrt_range. Qed.

(** A distance that improves on some bound is a non-negative number. *)
Lemma improving_is_number (x b : num) :
  (x = NaN \/ x = PInf \/ exists r, x = Num r /\ (0 <= r)%R) ->
  nltb x b = true -> exists r, x = Num r /\ (0 <= r)%R.
Proof.
  intros [->|[->|H]] Hlt; simpl in Hlt; try discriminate; auto.
  destruct b; discriminate.
Qed.

(** ** utils/db.js: the batching is transparent *)

Lemma scanBatch_app (t : list num) (th : num) (l1 l2 : list faceProfile)
    (st : scanState) :
  UtilsDb.scanBatch t th (l1 ++ l2) st =
  match UtilsDb.scanBatch t th l1 st with
  | UtilsDb.Continue st' => UtilsDb.scanBatch t th l2 st'
  | UtilsDb.Return st' => UtilsDb.Return st'
  end.
Proof.
  revert st. induction l1 as [|c l1 IH]; intros st; [reflexivity|].
  simpl. destruct (faceDescriptor c) as [dc|]; [|apply IH].
  destruct (nltb (Distance.distance8 t dc) (bestDistance st)); [|apply IH].
  destruct (nltb (Distance.distance8 t dc) (nmul th (Num 0.7)));
    [reflexivity|apply IH].
Qed.

Lemma scanBatches_flat (fuel : nat) (t : list num) (th : num)
    (ps : list faceProfile) (i : nat) (st : scanState) :
  length ps <= i + UtilsDb.BATCH_SIZE * fuel ->
  UtilsDb.scanBatches fuel t th ps i st = Aux.flatSearch t th (skipn i ps) st.
Proof.
  unfold Aux.flatSearch.
  revert i st. induction fuel as [|fuel IH]; intros i st Hlen.
  - simpl. rewrite skipn_all2 by (unfold UtilsDb.BATCH_SIZE in Hlen; lia).
    reflexivity.
  - cbn [UtilsDb.scanBatches].
    destruct (Nat.ltb_spec i (length ps)) as [Hi|Hi].
    + rewrite <- (firstn_skipn UtilsDb.BATCH_SIZE (skipn i ps)) at 1.
      rewrite scanBatch_app. unfold slice.
      replace (i + UtilsDb.BATCH_SIZE - i) with UtilsDb.BATCH_SIZE by lia.
      destruct (UtilsDb.scanBatch t th
                  (firstn UtilsDb.BATCH_SIZE (skipn i ps)) st) as [st'|st'];
        [|reflexivity].
      rewrite IH by (unfold UtilsDb.BATCH_SIZE in *; lia).
      rewrite skipn_skipn.
      replace (UtilsDb.BATCH_SIZE + i) with (i + UtilsDb.BATCH_SIZE) by lia.
      reflexivity.
    + rewrite skipn_all2 by lia. reflexivity.
Qed.

Lemma findMatchingFace_run_flat (t : list num) (th : num)
    (c : faceProfile) (ps : list faceProfile) :
  UtilsDb.findMatchingFace_run (Some t) (Some (c :: ps)) th
  = Aux.flatSearch t th (c :: ps) scanStart.
Proof.
  unfold UtilsDb.findMatchingFace_run.
  cbn [length Nat.eqb].
  rewrite scanBatches_flat by (unfold UtilsDb.BATCH_SIZE; simpl; lia).
  reflexivity.
Qed.

(** ** What the loop variables mean *)

Section SearchInvariant.

Variable dist : list num -> list num -> num.
Variable t : list num.

Lemma withDescriptor_snoc_some (seen : list faceProfile) (c : faceProfile)
    (dc : list num) :
  faceDescriptor c = Some dc ->
  length (Aux.withDescriptor (seen ++ [c]))
  = S (length (Aux.withDescriptor seen)).
Proof.
  intros H. unfold Aux.withDescriptor.
  rewrite filter_app, length_app. simpl. rewrite H. simpl. lia.
Qed.

Lemma withDescriptor_snoc_none (seen : list faceProfile) (c : faceProfile) :
  faceDescriptor c = None ->
  length (Aux.withDescriptor (seen ++ [c]))
  = length (Aux.withDescriptor seen).
Proof.
  intros H. unfold Aux.withDescriptor.
  rewrite filter_app, length_app. simpl. rewrite H. simpl. lia.
Qed.

Lemma noneCloser_nil (d : num) : Aux.noneCloser dist t [] d.
Proof. intros c dc []. Qed.

Lemma noneCloser_snoc (seen : list faceProfile) (c : faceProfile) (d : num) :
  Aux.noneCloser dist t seen d ->
  (forall dc, faceDescriptor c = Some dc -> nltb (dist t dc) d = false) ->
  Aux.noneCloser dist t (seen ++ [c]) d.
Proof.
  intros Hseen Hc x dx Hin Hdx.
  apply in_app_or in Hin. destruct Hin as [Hin|[<-|[]]].
  - exact (Hseen x dx Hin Hdx).
  - exact (Hc dx Hdx).
Qed.

Lemma noneCloser_lower (seen : list faceProfile) (b d : num) :
  Aux.noneCloser dist t seen b -> nltb d b = true ->
  Aux.noneCloser dist t seen d.
Proof.
  intros Hseen Hlt x dx Hin Hdx.
  destruct (nltb (dist t dx) d) eqn:E; [|reflexivity].
  rewrite <- (Hseen x dx Hin Hdx). symmetry.
  exact (nltb_trans _ _ _ E Hlt).
Qed.

Lemma bestOf_start : Aux.bestOf dist t [] scanStart.
Proof. split; reflexivity. Qed.

(** A candidate without a descriptor changes nothing. *)
Lemma bestOf_skip (seen : list faceProfile) (c : faceProfile)
    (st : scanState) :
  faceDescriptor c = None ->
  Aux.bestOf dist t seen st -> Aux.bestOf dist t (seen ++ [c]) st.
Proof.
  intros Hc [Hn Hb]. split.
  - rewrite withDescriptor_snoc_none by assumption. exact Hn.
  - destruct (bestMatch st) as [m|]; [|exact Hb].
    destruct Hb as [Hin Hm]. split; [|exact Hm].
    apply in_or_app. left. exact Hin.
Qed.

(** A candidate that does not improve on the best distance only bumps
    the probe. *)
Lemma bestOf_keep (seen : list faceProfile) (c : faceProfile)
    (dc : list num) (st : scanState) :
  faceDescriptor c = Some dc ->
  Aux.bestOf dist t seen st ->
  Aux.bestOf dist t (seen ++ [c])
    {| bestMatch := bestMatch st; bestDistance := bestDistance st;
       computed := S (computed st) |}.
Proof.
  intros Hc [Hn Hb]. split; simpl.
  - rewrite (withDescriptor_snoc_some seen c dc Hc). f_equal. exact Hn.
  - destruct (bestMatch st) as [m|]; [|exact Hb].
    destruct Hb as [Hin Hm]. split; [|exact Hm].
    apply in_or_app. left. exact Hin.
Qed.

(** A candidate whose distance is a number becomes the best match. *)
Lemma bestOf_take (seen : list faceProfile) (c : faceProfile)
    (dc : list num) (r : R) (st : scanState) :
  faceDescriptor c = Some dc ->
  dist t dc = Num r -> (0 <= r)%R ->
  Aux.bestOf dist t seen st ->
  Aux.bestOf dist t (seen ++ [c])
    {| bestMatch := Some c; bestDistance := dist t dc;
       computed := S (computed st) |}.
Proof.
  intros Hc Hr Hpos [Hn _]. split; simpl.
  - rewrite (withDescriptor_snoc_some seen c dc Hc). f_equal. exact Hn.
  - split.
    + apply in_or_app. right. left. reflexivity.
    + exists dc, r. auto.
Qed.

End SearchInvariant.

(** ** utils/db.js: the search loop *)

Lemma scanBatch_spec (t : list num) (th : num) (ps seen : list faceProfile)
    (st : scanState) :
  Aux.bestOf Distance.distance8 t seen st ->
  Aux.noneCloser Distance.distance8 t seen (bestDistance st) ->
  match UtilsDb.scanBatch t th ps st with
  | UtilsDb.Continue st' =>
      Aux.bestOf Distance.distance8 t (seen ++ ps) st'
      /\ Aux.noneCloser Distance.distance8 t (seen ++ ps) (bestDistance st')
  | UtilsDb.Return st' =>
      exists before m after,
        ps = before ++ m :: after
        /\ bestMatch st' = Some m
        /\ Aux.bestOf Distance.distance8 t (seen ++ before ++ [m]) st'
        /\ Aux.noneCloser Distance.distance8 t (seen ++ before ++ [m])
                          (bestDistance st')
        /\ nltb (bestDistance st') (nmul th (Num 0.7)) = true
  end.
Proof.
  revert seen st. induction ps as [|c rest IH]; intros seen st Hbest Hmin.
  - simpl. rewrite app_nil_r. auto.
  - assert (Hshift : forall l : list faceProfile,
               (seen ++ [c]) ++ l = seen ++ c :: l)
      by (intros l; rewrite <- app_assoc; reflexivity).
    assert (Hstep : forall st1,
      Aux.bestOf Distance.distance8 t (seen ++ [c]) st1 ->
      Aux.noneCloser Distance.distance8 t (seen ++ [c]) (bestDistance st1) ->
      match UtilsDb.scanBatch t th rest st1 with
      | UtilsDb.Continue st' =>
          Aux.bestOf Distance.distance8 t (seen ++ c :: rest) st'
          /\ Aux.noneCloser Distance.distance8 t (seen ++ c :: rest)
                            (bestDistance st')
      | UtilsDb.Return st' =>
          exists before m after,
            c :: rest = before ++ m :: after
            /\ bestMatch st' = Some m
            /\ Aux.bestOf Distance.distance8 t (seen ++ before ++ [m]) st'
            /\ Aux.noneCloser Distance.distance8 t (seen ++ before ++ [m])
                              (bestDistance st')
            /\ nltb (bestDistance st') (nmul th (Num 0.7)) = true
      end).
    { intros st1 H1 H2. specialize (IH (seen ++ [c]) st1 H1 H2).
      destruct (UtilsDb.scanBatch t th rest st1) as [st'|st'].
      - rewrite Hshift in IH. exact IH.
      - destruct IH as (before & m & after & -> & Hm & Hb & Hn & He).
        exists (c :: before), m, after.
        rewrite Hshift in Hb, Hn. auto. }
    simpl. destruct (faceDescriptor c) as [dc|] eqn:Hc.
    + destruct (nltb (Distance.distance8 t dc) (bestDistance st)) eqn:Hlt.
      * destruct (improving_is_number _ _ (distance8_range t dc) Hlt)
          as (r & Hr & Hpos).
        assert (Hb' := bestOf_take _ _ seen c dc r st Hc Hr Hpos Hbest).
        assert (Hn' : Aux.noneCloser Distance.distance8 t (seen ++ [c])
                        (Distance.distance8 t dc)).
        { apply noneCloser_snoc.
          - exact (noneCloser_lower _ _ _ _ _ Hmin Hlt).
          - intros dx Hdx. rewrite Hc in Hdx. injection Hdx as <-.
            apply nltb_irrefl. }
        destruct (nltb (Distance.distance8 t dc) (nmul th (Num 0.7))) eqn:He.
        -- exists [], c, rest. simpl. auto.
        -- apply Hstep; assumption.
      * apply Hstep.
        -- exact (bestOf_keep _ _ seen c dc st Hc Hbest).
        -- apply noneCloser_snoc; [exact Hmin|].
           intros dx Hdx. rewrite Hc in Hdx. injection Hdx as <-. exact Hlt.
    + apply Hstep.
      * exact (bestOf_skip _ _ seen c st Hc Hbest).
      * apply noneCloser_snoc; [exact Hmin|]. intros dx Hdx. congruence.
Qed.

(** ** server/utils/faceRecognition.js: the search loop *)

Lemma scanDirectly_spec (t : list num) (th : num)
    (ps seen : list faceProfile) (st : scanState) :
  Aux.bestOf Distance.distance4 t seen st ->
  Aux.noneCloserWithin Distance.distance4 t seen th (bestDistance st) ->
  (bestMatch st <> None -> nltb (bestDistance st) th = true) ->
  let st' := ServerUtils.scanDirectly t th ps st in
  Aux.bestOf Distance.distance4 t (seen ++ ps) st'
  /\ Aux.noneCloserWithin Distance.distance4 t (seen ++ ps) th
                          (bestDistance st')
  /\ (bestMatch st' <> None -> nltb (bestDistance st') th = true).
Proof.
  revert seen st. induction ps as [|c rest IH]; intros seen st Hbest Hmin Hth.
  - simpl. rewrite app_nil_r. auto.
  - assert (Hshift : (seen ++ [c]) ++ rest = seen ++ c :: rest)
      by (rewrite <- app_assoc; reflexivity).
    assert (Hsnoc : forall d,
      Aux.noneCloserWithin Distance.distance4 t seen th d ->
      (forall dc, faceDescriptor c = Some dc ->
         nltb (Distance.distance4 t dc) th
         && nltb (Distance.distance4 t dc) d = false) ->
      Aux.noneCloserWithin Distance.distance4 t (seen ++ [c]) th d).
    { intros d Hseen Hc x dx Hin Hdx.
      apply in_app_or in Hin. destruct Hin as [Hin|[<-|[]]].
      - exact (Hseen x dx Hin Hdx).
      - exact (Hc dx Hdx). }
    simpl. destruct (faceDescriptor c) as [dc|] eqn:Hc.
    + destruct (nltb (Distance.distance4 t dc) th) eqn:Hlt;
        destruct (nltb (Distance.distance4 t dc) (bestDistance st)) eqn:Himp;
        cbn [andb]; rewrite <- Hshift.
      * destruct (improving_is_number _ _ (distance4_range t dc) Hlt)
          as (r & Hr & Hpos).
        apply IH.
        -- exact (bestOf_take _ _ seen c dc r st Hc Hr Hpos Hbest).
        -- apply Hsnoc.
           ++ intros x dx Hin Hdx. simpl.
              specialize (Hmin x dx Hin Hdx).
              destruct (nltb (Distance.distance4 t dx) th); [|reflexivity].
              simpl in *.
              destruct (nltb (Distance.distance4 t dx)
                             (Distance.distance4 t dc)) eqn:E; [|reflexivity].
              rewrite <- Hmin. symmetry. exact (nltb_trans _ _ _ E Himp).
           ++ intros dx Hdx. try rewrite Hc in Hdx. injection Hdx as <-.
              simpl. rewrite nltb_irrefl. apply andb_false_r.
        -- intros _. exact Hlt.
      * apply IH.
        -- exact (bestOf_keep _ _ seen c dc st Hc Hbest).
        -- apply Hsnoc; [exact Hmin|].
           intros dx Hdx. try rewrite Hc in Hdx. injection Hdx as <-.
           simpl. rewrite Himp. apply andb_false_r.
        -- exact Hth.
      * apply IH.
        -- exact (bestOf_keep _ _ seen c dc st Hc Hbest).
        -- apply Hsnoc; [exact Hmin|].
           intros dx Hdx. try rewrite Hc in Hdx. injection Hdx as <-.
           simpl. rewrite Hlt. reflexivity.
        -- exact Hth.
      * apply IH.
        -- exact (bestOf_keep _ _ seen c dc st Hc Hbest).
        -- apply Hsnoc; [exact Hmin|].
           intros dx Hdx. try rewrite Hc in Hdx. injection Hdx as <-.
           simpl. rewrite Hlt. reflexivity.
        -- exact Hth.
    + rewrite <- Hshift. apply IH.
      * exact (bestOf_skip _ _ seen c st Hc Hbest).
      * apply Hsnoc; [exact Hmin|]. intros dx Hdx. congruence.
      * exact Hth.
Qed.

(** ** The third variant: the search loop *)

Lemma scan_spec (t : list num) (ps seen : list faceProfile) (st : scanState) :
  Aux.bestOf Distance.distance8 t seen st ->
  Aux.noneCloser Distance.distance8 t seen (bestDistance st) ->
  let st' := Variant3.scan t ps st in
  Aux.bestOf Distance.distance8 t (seen ++ ps) st'
  /\ Aux.noneCloser Distance.distance8 t (seen ++ ps) (bestDistance st').
Proof.
  revert seen st. induction ps as [|c rest IH]; intros seen st Hbest Hmin.
  - simpl. rewrite app_nil_r. auto.
  - assert (Hshift : (seen ++ [c]) ++ rest = seen ++ c :: rest)
      by (rewrite <- app_assoc; reflexivity).
    simpl. rewrite <- Hshift.
    destruct (faceDescriptor c) as [dc|] eqn:Hc.
    + destruct (nltb (Distance.distance8 t dc) (bestDistance st)) eqn:Hlt.
      * destruct (improving_is_number _ _ (distance8_range t dc) Hlt)
          as (r & Hr & Hpos).
        apply IH.
        -- exact (bestOf_take _ _ seen c dc r st Hc Hr Hpos Hbest).
        -- apply noneCloser_snoc.
           ++ exact (noneCloser_lower _ _ _ _ _ Hmin Hlt).
           ++ intros dx Hdx. rewrite Hc in Hdx. injection Hdx as <-.
              apply nltb_irrefl.
      * apply IH.
        -- exact (bestOf_keep _ _ seen c dc st Hc Hbest).
        -- apply noneCloser_snoc; [exact Hmin|].
           intros dx Hdx. rewrite Hc in Hdx. injection Hdx as <-. exact Hlt.
    + apply IH.
      * exact (bestOf_skip _ _ seen c st Hc Hbest).
      * apply noneCloser_snoc; [exact Hmin|]. intros dx Hdx. congruence.
Qed.

(** C7. Applied to an empty candidate list, [findMatchingFace] returns
    [null] whatever the query and the threshold, and computes no
    distance: in utils/db.js, in server/utils/faceRecognition.js (for any
    number of cores) and in the third variant. *)
Theorem C7_empty_candidates_no_match
    (targetDescriptor : option (list num)) (threshold : num)
    (CPU_CORES : nat) :
  UtilsDb.findMatchingFace_run targetDescriptor (Some []) threshold
    = {| returned := None; distancesComputed := 0 |}
  /\ ServerUtils.findMatchingFace_run CPU_CORES targetDescriptor (Some [])
       threshold
    = {| returned := ServerUtils.Null; distancesComputed := 0 |}
  /\ Variant3.findMatchingFace_run targetDescriptor (Some []) threshold
    = {| returned := None; distancesComputed := 0 |}.
Proof.
  destruct targetDescriptor; repeat split; reflexivity.
Qed.

(** ** Evaluating the searches on one-dimensional descriptors *)

Ltac solve_R := unfold Rabs; repeat (destruct Rcase_abs); lra.

Ltac decide_cmp :=
  repeat match goal with
  | |- context [Rltb ?a ?b] =>
      first [ rewrite (proj2 (Rltb_true a b)) by solve_R
            | rewrite (proj2 (Rltb_false a b)) by solve_R ]
  | |- context [Rleb ?a ?b] =>
      first [ rewrite (proj2 (Rleb_true a b)) by solve_R
            | rewrite (proj2 (Rleb_false a b)) by solve_R ]
  end.

Lemma euclidean_1d (a b : R) :
  Distance.euclideanDistance [Num a] [Num b] = Num (Rabs (a - b)).
Proof.
  unfold Distance.euclideanDistance, Distance.sumSquares. simpl.
  replace ((a - b) * (a - b) + 0)%R with (Rsqr (a - b))
    by (unfold Rsqr; ring).
  rewrite (proj2 (Rltb_false _ _)) by apply Rle_0_sqr.
  rewrite sqrt_Rsqr_abs. reflexivity.
Qed.

Lemma distance8_1d (a b : R) :
  Distance.distance8 [Num a] [Num b] = Num (Rabs (a - b)).
Proof. rewrite distance8_euclidean by reflexivity. apply euclidean_1d. Qed.

Lemma Rabs_0_quarter : Rabs (0 - 0.25) = 0.25%R.
Proof. solve_R. Qed.

(** ** When a match is returned *)

Lemma scanBatch_cases (t : list num) (th : num) (ps : list faceProfile) :
  (exists st',
      UtilsDb.scanBatch t th ps scanStart = UtilsDb.Continue st'
      /\ Aux.bestOf Distance.distance8 t ps st'
      /\ Aux.noneCloser Distance.distance8 t ps (bestDistance st'))
  \/ (exists st' before m after,
         UtilsDb.scanBatch t th ps scanStart = UtilsDb.Return st'
         /\ ps = before ++ m :: after
         /\ bestMatch st' = Some m
         /\ Aux.bestOf Distance.distance8 t (before ++ [m]) st'
         /\ nltb (bestDistance st') (nmul th (Num 0.7)) = true).
Proof.
  pose proof (scanBatch_spec t th ps [] scanStart
                (bestOf_start _ _) (noneCloser_nil _ _ _)) as Hspec.
  destruct (UtilsDb.scanBatch t th ps scanStart) as [st'|st'].
  - left. exists st'. simpl in Hspec. tauto.
  - right. destruct Hspec as (before & m & after & Hps & Hm & Hb & _ & He).
    exists st', before, m, after. simpl in Hb. auto.
Qed.

Lemma findMatchingFace_flat (t : list num) (th : num)
    (ps : list faceProfile) :
  ps <> [] ->
  UtilsDb.findMatchingFace (Some t) (Some ps) th
  = returned (Aux.flatSearch t th ps scanStart).
Proof.
  intros Hne. destruct ps as [|c ps]; [congruence|].
  unfold UtilsDb.findMatchingFace. rewrite findMatchingFace_run_flat.
  reflexivity.
Qed.

Lemma someWithin_nonempty (dist : list num -> list num -> num)
    (cmp : num -> num -> bool) (t : list num) (ps : list faceProfile)
    (th : num) :
  Aux.someWithin dist cmp t ps th -> ps <> [].
Proof. intros (c & dc & Hin & _) ->. destruct Hin. Qed.

Lemma utilsDb_matched_iff (t : list num) (ps : list faceProfile) (tau : R) :
  UtilsDb.findMatchingFace (Some t) (Some ps) (Num tau) <> None
  <-> Aux.someWithin Distance.distance8 nleb t ps (Num tau).
Proof.
  split.
  - intros Hsome.
    assert (Hne : ps <> []) by (intros ->; apply Hsome; reflexivity).
    rewrite findMatchingFace_flat in Hsome by exact Hne.
    unfold Aux.flatSearch in Hsome.
    destruct (scanBatch_cases t (Num tau) ps)
      as [(st' & Hscan & [_ Hbest] & _)
         |(st' & before & m & after & Hscan & Hps & Hm & [_ Hbest] & Hearly)];
      rewrite Hscan in Hsome.
    + unfold UtilsDb.finish in Hsome.
      destruct (nleb (bestDistance st') (Num tau)) eqn:Hle;
        [|exfalso; apply Hsome; reflexivity].
      destruct (bestMatch st') as [m|].
      * destruct Hbest as (Hin & dm & r & Hdm & Hbd & _).
        exists m, dm. rewrite <- Hbd. auto.
      * rewrite Hbest in Hle. discriminate Hle.
    + rewrite Hm in Hbest. destruct Hbest as (_ & dm & r & Hdm & Hbd & Hr & Hpos).
      exists m, dm. split; [|split; [exact Hdm|]].
      * rewrite Hps. apply in_or_app. right. left. reflexivity.
      * rewrite Hbd, Hr in Hearly. rewrite Hr. simpl in *.
        apply Rltb_true in Hearly. apply Rleb_true. lra.
  - intros Hwithin.
    rewrite findMatchingFace_flat by exact (someWithin_nonempty _ _ _ _ _ Hwithin).
    destruct Hwithin as (c & dc & Hin & Hc & Hle).
    unfold Aux.flatSearch.
    destruct (scanBatch_cases t (Num tau) ps)
      as [(st' & -> & [_ Hbest] & Hmin)
         |(st' & before & m & after & -> & _)]; [|discriminate].
    specialize (Hmin c dc Hin Hc).
    destruct (distance8_range t dc) as [E|[E|(r & E & Hpos)]];
      rewrite E in Hle, Hmin; try discriminate Hle.
    assert (Hnum : exists b, bestDistance st' = Num b).
    { destruct (bestMatch st') as [m|].
      - destruct Hbest as (_ & dm & b & _ & Hbd & Hb & _).
        exists b. congruence.
      - rewrite Hbest in Hmin. discriminate Hmin. }
    destruct Hnum as (b & Hb). rewrite Hb in Hmin. simpl in Hmin, Hle.
    apply Rltb_false in Hmin. apply Rleb_true in Hle.
    unfold UtilsDb.finish. rewrite Hb. simpl.
    rewrite (proj2 (Rleb_true b tau)) by lra. discriminate.
Qed.

Lemma scanDirectly_final (t : list num) (th : num) (ps : list faceProfile) :
  let st' := ServerUtils.scanDirectly t th ps scanStart in
  Aux.bestOf Distance.distance4 t ps st'
  /\ Aux.noneCloserWithin Distance.distance4 t ps th (bestDistance st')
  /\ (bestMatch st' <> None -> nltb (bestDistance st') th = true).
Proof.
  apply (scanDirectly_spec t th ps [] scanStart (bestOf_start _ _)).
  - intros c dc [].
  - intros Hne. exfalso. apply Hne. reflexivity.
Qed.

Lemma serverUtils_matched_iff (t : list num) (ps : list faceProfile)
    (th : num) :
  ServerUtils.findMatchingFaceDirectly t ps th <> None
  <-> Aux.someWithin Distance.distance4 nltb t ps th.
Proof.
  unfold ServerUtils.findMatchingFaceDirectly,
         ServerUtils.findMatchingFaceDirectly_run. simpl.
  destruct (scanDirectly_final t th ps) as ([_ Hbest] & Hmin & Hth).
  destruct (bestMatch (ServerUtils.scanDirectly t th ps scanStart))
    as [m|] eqn:Hm.
  - split; [|discriminate]. intros _.
    destruct Hbest as (Hin & dm & r & Hdm & Hbd & _).
    exists m, dm. rewrite <- Hbd. repeat split; auto.
    apply Hth. discriminate.
  - split; [tauto|]. intros (c & dc & Hin & Hc & Hlt). exfalso.
    specialize (Hmin c dc Hin Hc). rewrite Hlt, Hbest in Hmin.
    destruct (improving_is_number _ _ (distance4_range t dc) Hlt)
      as (r & Hr & _).
    rewrite Hr in Hmin. discriminate Hmin.
Qed.

Lemma scan_final (t : list num) (ps : list faceProfile) :
  let st' := Variant3.scan t ps scanStart in
  Aux.bestOf Distance.distance8 t ps st'
  /\ Aux.noneCloser Distance.distance8 t ps (bestDistance st').
Proof.
  exact (scan_spec t ps [] scanStart (bestOf_start _ _)
           (noneCloser_nil _ _ _)).
Qed.

Lemma nltb_below_bound (r b : R) (th : num) :
  nltb (Num r) (Num b) = false -> nltb (Num r) th = true ->
  nltb (Num b) th = true.
Proof.
  destruct th; simpl; try congruence.
  rewrite Rltb_false, !Rltb_true. lra.
Qed.

Lemma variant3_matched_iff (t : list num) (ps : list faceProfile) (th : num) :
  Variant3.findMatchingFace (Some t) (Some ps) th <> None
  <-> Aux.someWithin Distance.distance8 nltb t ps th.
Proof.
  unfold Variant3.findMatchingFace, Variant3.findMatchingFace_run.
  destruct ps as [|c0 ps].
  { simpl. split; [tauto|]. intros (c & dc & [] & _). }
  cbn [length Nat.eqb returned].
  destruct (scan_final t (c0 :: ps)) as ([_ Hbest] & Hmin).
  set (st' := Variant3.scan t (c0 :: ps) scanStart) in *.
  split.
  - destruct (nltb (bestDistance st') th) eqn:Hlt; [|tauto]. intros _.
    destruct (bestMatch st') as [m|].
    + destruct Hbest as (Hin & dm & r & Hdm & Hbd & _).
      exists m, dm. rewrite <- Hbd. auto.
    + rewrite Hbest in Hlt. destruct th; discriminate Hlt.
  - intros (c & dc & Hin & Hc & Hlt).
    specialize (Hmin c dc Hin Hc).
    destruct (improving_is_number _ _ (distance8_range t dc) Hlt)
      as (r & Hr & _).
    rewrite Hr in Hmin, Hlt.
    destruct (bestMatch st') as [m|].
    + destruct Hbest as (_ & dm & b & _ & Hbd & Hb & _).
      rewrite Hbd, Hb in *.
      rewrite (nltb_below_bound r b th Hmin Hlt). discriminate.
    + rewrite Hbest in Hmin. discriminate Hmin.
Qed.

(** ** server/utils/faceRecognition.js: the loop over a concatenation *)

Lemma scanDirectly_app (t : list num) (th : num) (l1 l2 : list faceProfile)
    (st : scanState) :
  ServerUtils.scanDirectly t th (l1 ++ l2) st
  = ServerUtils.scanDirectly t th l2 (ServerUtils.scanDirectly t th l1 st).
Proof.
  revert st. induction l1 as [|c l1 IH]; intros st; [reflexivity|].
  simpl. destruct (faceDescriptor c) as [dc|]; [|apply IH].
  destruct (nltb (Distance.distance4 t dc) th
            && nltb (Distance.distance4 t dc) (bestDistance st)); apply IH.
Qed.

(** ** The model loader *)

Lemma utilsDb_step_inFlight (s : UtilsDb.loaderState) (ev : loaderEvent) :
  UtilsDb.inFlight s = Aux.pendingLoads (UtilsDb.modelLoadingPromise s) ->
  UtilsDb.inFlight (UtilsDb.loaderStep s ev)
  = Aux.pendingLoads (UtilsDb.modelLoadingPromise (UtilsDb.loaderStep s ev)).
Proof.
  intros H. destruct ev as [now|now|]; simpl.
  - unfold UtilsDb.loadModels.
    destruct (UtilsDb.modelsValid now s); [exact H|].
    destruct (UtilsDb.modelLoadingPromise s) eqn:Hp; simpl.
    + rewrite Hp. exact H.
    + rewrite H. reflexivity.
  - destruct (UtilsDb.inFlight s =? 0) eqn:E; [exact H|].
    simpl. rewrite H in *.
    destruct (UtilsDb.modelLoadingPromise s); [reflexivity|discriminate E].
  - destruct (UtilsDb.inFlight s =? 0) eqn:E; [exact H|].
    simpl. rewrite H in *.
    destruct (UtilsDb.modelLoadingPromise s); [reflexivity|discriminate E].
Qed.

Lemma utilsDb_run_inFlight (evs : list loaderEvent) (s : UtilsDb.loaderState) :
  UtilsDb.inFlight s = Aux.pendingLoads (UtilsDb.modelLoadingPromise s) ->
  UtilsDb.inFlight (fold_left UtilsDb.loaderStep evs s)
  = Aux.pendingLoads
      (UtilsDb.modelLoadingPromise (fold_left UtilsDb.loaderStep evs s)).
Proof.
  revert s. induction evs as [|ev evs IH]; intros s H; [exact H|].
  simpl. apply IH, utilsDb_step_inFlight, H.
Qed.

Lemma serverUtils_step_inFlight (s : ServerUtils.loaderState)
    (ev : loaderEvent) :
  ServerUtils.inFlight s
    = Aux.pendingLoads (ServerUtils.modelLoadingPromise s) ->
  ServerUtils.inFlight (ServerUtils.loaderStep s ev)
  = Aux.pendingLoads
      (ServerUtils.modelLoadingPromise (ServerUtils.loaderStep s ev)).
Proof.
  intros H. destruct ev as [now|now|]; simpl.
  - unfold ServerUtils.loadModels.
    destruct (ServerUtils.modelLoadingPromise s) eqn:Hp; simpl.
    + rewrite Hp. exact H.
    + destruct (ServerUtils.modelsLoaded s); simpl.
      * rewrite Hp. exact H.
      * rewrite H. reflexivity.
  - destruct (ServerUtils.inFlight s =? 0) eqn:E; [exact H|].
    simpl. rewrite H in *.
    destruct (ServerUtils.modelLoadingPromise s); [reflexivity|discriminate E].
  - destruct (ServerUtils.inFlight s =? 0) eqn:E; [exact H|].
    simpl. rewrite H in *.
    destruct (ServerUtils.modelLoadingPromise s); [reflexivity|discriminate E].
Qed.

Lemma serverUtils_run_inFlight (evs : list loaderEvent)
    (s : ServerUtils.loaderState) :
  ServerUtils.inFlight s
    = Aux.pendingLoads (ServerUtils.modelLoadingPromise s) ->
  ServerUtils.inFlight (fold_left ServerUtils.loaderStep evs s)
  = Aux.pendingLoads
      (ServerUtils.modelLoadingPromise
         (fold_left ServerUtils.loaderStep evs s)).
Proof.
  revert s. induction evs as [|ev evs IH]; intros s H; [exact H|].
  simpl. apply IH, serverUtils_step_inFlight, H.
Qed.

Lemma pendingLoads_le_1 (p : option nat) : Aux.pendingLoads p <= 1.
Proof. destruct p; simpl; lia. Qed.

(** A call made while a load is outstanding changes nothing. *)
Lemma utilsDb_call_while_loading (now : Z) (s : UtilsDb.loaderState)
    (p : nat) :
  UtilsDb.modelLoadingPromise s = Some p ->
  snd (UtilsDb.loadModels now s) = s.
Proof.
  intros Hp. unfold UtilsDb.loadModels.
  destruct (UtilsDb.modelsValid now s); [reflexivity|].
  rewrite Hp. reflexivity.
Qed.

Lemma staleWhileLoading_mono (s : UtilsDb.loaderState) (lo hi : Z) :
  (lo <= hi)%Z -> Aux.staleWhileLoading s lo -> Aux.staleWhileLoading s hi.
Proof. intros Hle H Hp Hl. specialize (H Hp Hl). lia. Qed.

Lemma staleWhileLoading_call (s : UtilsDb.loaderState) (lo now : Z) :
  (lo <= now)%Z -> Aux.staleWhileLoading s lo ->
  Aux.staleWhileLoading (snd (UtilsDb.loadModels now s)) now.
Proof.
  intros Hle H. unfold UtilsDb.loadModels.
  destruct (UtilsDb.modelsValid now s) eqn:Hv;
    [exact (staleWhileLoading_mono s lo now Hle H)|].
  destruct (UtilsDb.modelLoadingPromise s) eqn:Hp;
    [exact (staleWhileLoading_mono s lo now Hle H)|].
  intros _ Hl. simpl in *.
  unfold UtilsDb.modelsValid in Hv. rewrite Hl in Hv. simpl in Hv.
  apply Z.ltb_ge in Hv. exact Hv.
Qed.

Lemma staleWhileLoading_settled (s : UtilsDb.loaderState) (lo : Z) :
  UtilsDb.modelLoadingPromise s = None -> Aux.staleWhileLoading s lo.
Proof. intros Hp Hne. contradiction. Qed.

Lemma utilsDb_same_promise_from (evs : list loaderEvent)
    (s : UtilsDb.loaderState) (lo now : Z) (p : nat) :
  Aux.staleWhileLoading s lo ->
  Aux.nondecreasing (lo :: UtilsDb.timestamps evs ++ [now]) = true ->
  UtilsDb.modelLoadingPromise (fold_left UtilsDb.loaderStep evs s) = Some p ->
  UtilsDb.loadModels now (fold_left UtilsDb.loaderStep evs s)
  = (Outstanding p, fold_left UtilsDb.loaderStep evs s).
Proof.
  revert s lo. induction evs as [|ev evs IH]; intros s lo Hstale Hsorted Hp.
  - simpl in *. rewrite andb_true_r in Hsorted. apply Z.leb_le in Hsorted.
    unfold UtilsDb.loadModels.
    assert (Hv : UtilsDb.modelsValid now s = false).
    { unfold UtilsDb.modelsValid.
      destruct (UtilsDb.modelsLoaded s) eqn:Hl; [|reflexivity]. simpl.
      apply Z.ltb_ge.
      assert (Hne : UtilsDb.modelLoadingPromise s <> None) by congruence.
      specialize (Hstale Hne Hl). lia. }
    rewrite Hv, Hp. reflexivity.
  - destruct ev as [x|x|]; cbn [fold_left UtilsDb.timestamps app] in *.
    + cbn [Aux.nondecreasing] in Hsorted.
      apply andb_true_iff in Hsorted. destruct Hsorted as [Hle Hrest].
      apply Z.leb_le in Hle.
      apply (IH _ x); [|exact Hrest|exact Hp].
      apply (staleWhileLoading_call s lo x Hle Hstale).
    + cbn [Aux.nondecreasing] in Hsorted.
      apply andb_true_iff in Hsorted. destruct Hsorted as [Hle Hrest].
      apply Z.leb_le in Hle.
      apply (IH _ x); [|exact Hrest|exact Hp].
      simpl. destruct (UtilsDb.inFlight s =? 0).
      * exact (staleWhileLoading_mono s lo x Hle Hstale).
      * apply staleWhileLoading_settled. reflexivity.
    + apply (IH _ lo); [|exact Hsorted|exact Hp].
      simpl. destruct (UtilsDb.inFlight s =? 0).
      * exact Hstale.
      * apply staleWhileLoading_settled. reflexivity.
Qed.

Lemma nondecreasing_repeat_head (l : list Z) (d : Z) :
  Aux.nondecreasing l = true ->
  Aux.nondecreasing (hd d l :: l) = true.
Proof.
  destruct l as [|x l]; [reflexivity|]. intros H.
  cbn [hd Aux.nondecreasing]. cbn [Aux.nondecreasing] in H.
  rewrite H, Z.leb_refl. reflexivity.
Qed.

Lemma timestamps_app (evs1 evs2 : list loaderEvent) :
  UtilsDb.timestamps (evs1 ++ evs2)
  = UtilsDb.timestamps evs1 ++ UtilsDb.timestamps evs2.
Proof.
  induction evs1 as [|[x|x|] evs1 IH]; simpl; congruence.
Qed.

Lemma utilsDb_same_promise (evs : list loaderEvent) (now : Z) (p : nat) :
  Aux.nondecreasing (UtilsDb.timestamps (evs ++ [CallLoadModels now])) = true ->
  UtilsDb.modelLoadingPromise (UtilsDb.loaderRun evs) = Some p ->
  UtilsDb.loadModels now (UtilsDb.loaderRun evs)
  = (Outstanding p, UtilsDb.loaderRun evs).
Proof.
  rewrite timestamps_app. cbn [UtilsDb.timestamps]. intros Hsorted Hp.
  apply (utilsDb_same_promise_from evs UtilsDb.loaderInit
           (hd 0%Z (UtilsDb.timestamps evs ++ [now])) now p).
  - apply staleWhileLoading_settled. reflexivity.
  - apply nondecreasing_repeat_head. exact Hsorted.
  - exact Hp.
Qed.

(** Any number of calls made before the load settles start one load. *)
Lemma utilsDb_calls_start_one_load (times : list Z) (s : UtilsDb.loaderState) :
  UtilsDb.modelsLoaded s = false ->
  UtilsDb.modelLoadingPromise s <> None ->
  UtilsDb.loadsStarted
    (fold_left UtilsDb.loaderStep (map CallLoadModels times) s)
  = UtilsDb.loadsStarted s.
Proof.
  revert s. induction times as [|x times IH]; intros s Hl Hp; [reflexivity|].
  simpl. unfold UtilsDb.loadModels, UtilsDb.modelsValid. rewrite Hl. simpl.
  destruct (UtilsDb.modelLoadingPromise s) eqn:E; [|congruence].
  simpl. apply IH; congruence.
Qed.

Lemma serverUtils_calls_start_one_load (times : list Z)
    (s : ServerUtils.loaderState) :
  ServerUtils.modelLoadingPromise s <> None ->
  ServerUtils.loadsStarted
    (fold_left ServerUtils.loaderStep (map CallLoadModels times) s)
  = ServerUtils.loadsStarted s.
Proof.
  revert s. induction times as [|x times IH]; intros s Hp; [reflexivity|].
  simpl. unfold ServerUtils.loadModels.
  destruct (ServerUtils.modelLoadingPromise s) eqn:E; [|congruence].
  simpl. apply IH; congruence.
Qed.

(** C4, as worded, fails on utils/db.js, which tests the age of the
    models before it looks at the loading promise.  Models loaded at time
    5 are found stale at time 1000000 and a reload is started; a call that
    reads the clock at 900004 while that reload is outstanding (the clock
    was set back) finds the models valid again and is handed a resolved
    promise instead of the outstanding one. *)
Lemma C4_counterexample : ~ AsStated.samePromiseWhileLoading.
Proof.
  intros H.
  specialize (H [CallLoadModels 0; LoadSucceeded 5; CallLoadModels 1000000]
                900004%Z 2 eq_refl).
  discriminate H.
Qed.

(** C4, amended. At most one model load is in flight at any time, in
    utils/db.js and in server/utils/faceRecognition.js.  A call to
    [loadModels] made
    while the loading promise is non-null leaves the loader unchanged (no
    new load is started) and is handed that same promise: always in
    server/utils/faceRecognition.js, and in utils/db.js in every state
    reached from the initial one under a clock that does not go back.
    Any number of calls made before the load settles start exactly one
    load. *)
Theorem C4_single_load_in_flight (evs : list loaderEvent) (now : Z)
    (p : nat) (first : Z) (others : list Z) :
  (UtilsDb.inFlight (UtilsDb.loaderRun evs) <= 1
   /\ ServerUtils.inFlight (ServerUtils.loaderRun evs) <= 1)
  /\ (forall s, UtilsDb.modelLoadingPromise s = Some p ->
                snd (UtilsDb.loadModels now s) = s)
  /\ (Aux.nondecreasing
        (UtilsDb.timestamps (evs ++ [CallLoadModels now])) = true ->
      UtilsDb.modelLoadingPromise (UtilsDb.loaderRun evs) = Some p ->
      UtilsDb.loadModels now (UtilsDb.loaderRun evs)
      = (Outstanding p, UtilsDb.loaderRun evs))
  /\ (forall s, ServerUtils.modelLoadingPromise s = Some p ->
                ServerUtils.loadModels s = (Outstanding p, s))
  /\ UtilsDb.loadsStarted
       (UtilsDb.loaderRun (map CallLoadModels (first :: others))) = 1
  /\ ServerUtils.loadsStarted
       (ServerUtils.loaderRun (map CallLoadModels (first :: others))) = 1.
Proof.
  split; [split|].
  - unfold UtilsDb.loaderRun. rewrite utilsDb_run_inFlight by reflexivity.
    apply pendingLoads_le_1.
  - unfold ServerUtils.loaderRun.
    rewrite serverUtils_run_inFlight by reflexivity.
    apply pendingLoads_le_1.
  - split; [intros s; apply utilsDb_call_while_loading|].
    split; [apply utilsDb_same_promise|].
    split.
    + intros s Hp. unfold ServerUtils.loadModels. rewrite Hp. reflexivity.
    + split.
      * unfold UtilsDb.loaderRun. cbn [map fold_left].
        rewrite utilsDb_calls_start_one_load; [reflexivity|reflexivity|].
        simpl. discriminate.
      * unfold ServerUtils.loaderRun. cbn [map fold_left].
        rewrite serverUtils_calls_start_one_load; [reflexivity|].
        simpl. discriminate.
Qed.

(** Models loaded at time 5, found stale at time 1000000, reloading. *)
Lemma C4_witness :
  UtilsDb.loadModels 1000001
    (UtilsDb.loaderRun
       [CallLoadModels 0; LoadSucceeded 5; CallLoadModels 1000000])
  = (Outstanding 2,
     UtilsDb.loaderRun
       [CallLoadModels 0; LoadSucceeded 5; CallLoadModels 1000000]).
Proof.
  apply (proj1 (proj2 (proj2 (C4_single_load_in_flight
           [CallLoadModels 0; LoadSucceeded 5; CallLoadModels 1000000]
           1000001 2 0 [])))).
  - reflexivity.
  - reflexivity.
Defined.

(** ** JavaScript maps *)

Section MapFacts.

Variables K V : Type.
Variable K_eq_dec : forall a b : K, {a = b} + {a <> b}.

Local Abbreviation has := (JsMap.has K_eq_dec).
Local Abbreviation get := (JsMap.get K_eq_dec).
Local Abbreviation set := (JsMap.set K_eq_dec).
Local Abbreviation delete := (JsMap.delete K_eq_dec).

Lemma keyIs_true (k : K) (e : K * V) :
  JsMap.keyIs K_eq_dec k e = true <-> fst e = k.
Proof.
  unfold JsMap.keyIs. destruct (K_eq_dec (fst e) k); split; congruence.
Qed.

Lemma keyIs_false (k : K) (e : K * V) :
  JsMap.keyIs K_eq_dec k e = false <-> fst e <> k.
Proof.
  unfold JsMap.keyIs. destruct (K_eq_dec (fst e) k); split; congruence.
Qed.

Lemma get_set_same (k : K) (v : V) (m : JsMap.t K V) :
  get k (set k v m) = Some v.
Proof.
  induction m as [|e m IH]; simpl.
  - rewrite (proj2 (keyIs_true k (k, v))) by reflexivity. reflexivity.
  - destruct (JsMap.keyIs K_eq_dec k e) eqn:E; simpl.
    + rewrite (proj2 (keyIs_true k (k, v))) by reflexivity. reflexivity.
    + rewrite E. exact IH.
Qed.

Lemma has_set (k k' : K) (v : V) (m : JsMap.t K V) :
  has k' (set k v m) = true <-> k' = k \/ has k' m = true.
Proof.
  induction m as [|e m IH]; simpl.
  - rewrite orb_false_r, keyIs_true. simpl. intuition congruence.
  - destruct (JsMap.keyIs K_eq_dec k e) eqn:E; simpl.
    + apply keyIs_true in E.
      rewrite !orb_true_iff, !keyIs_true. simpl. intuition congruence.
    + rewrite !orb_true_iff, IH. tauto.
Qed.

Lemma has_delete (k k' : K) (m : JsMap.t K V) :
  has k' (delete k m) = true <-> k' <> k /\ has k' m = true.
Proof.
  induction m as [|e m IH]; simpl.
  - intuition congruence.
  - destruct (JsMap.keyIs K_eq_dec k e) eqn:E; simpl.
    + apply keyIs_true in E. rewrite IH, orb_true_iff, keyIs_true.
      intuition congruence.
    + apply keyIs_false in E.
      rewrite !orb_true_iff, IH, keyIs_true. intuition congruence.
Qed.

Lemma get_delete_other (k k' : K) (m : JsMap.t K V) :
  k' <> k -> get k' (delete k m) = get k' m.
Proof.
  intros Hne. induction m as [|e m IH]; simpl; [reflexivity|].
  destruct (JsMap.keyIs K_eq_dec k e) eqn:E; simpl.
  - apply keyIs_true in E.
    rewrite (proj2 (keyIs_false k' e)) by congruence. exact IH.
  - rewrite IH. reflexivity.
Qed.

Lemma has_get (k : K) (m : JsMap.t K V) :
  has k m = true <-> exists v, get k m = Some v.
Proof.
  induction m as [|e m IH]; simpl.
  - split; [discriminate|]. intros [v Hv]. discriminate Hv.
  - destruct (JsMap.keyIs K_eq_dec k e); simpl.
    + split; [|reflexivity]. intros _. eexists. reflexivity.
    + exact IH.
Qed.

Lemma size_set (k : K) (v : V) (m : JsMap.t K V) :
  JsMap.size (set k v m)
  = if has k m then JsMap.size m else S (JsMap.size m).
Proof.
  unfold JsMap.size. induction m as [|e m IH]; simpl; [reflexivity|].
  destruct (JsMap.keyIs K_eq_dec k e); simpl; [reflexivity|].
  rewrite IH. destruct (has k m); reflexivity.
Qed.

Lemma size_delete_le (k : K) (m : JsMap.t K V) :
  JsMap.size (delete k m) <= JsMap.size m.
Proof. apply filter_length_le. Qed.

Lemma size_delete_lt (k : K) (m : JsMap.t K V) :
  has k m = true -> JsMap.size (delete k m) < JsMap.size m.
Proof.
  unfold JsMap.size. induction m as [|e m IH]; simpl; [discriminate|].
  destruct (JsMap.keyIs K_eq_dec k e); simpl.
  - intros _. pose proof (size_delete_le k m) as Hle.
    unfold JsMap.size in Hle. lia.
  - intros H. specialize (IH H). lia.
Qed.

Lemma firstKey_has (k : K) (m : JsMap.t K V) :
  JsMap.firstKey m = Some k -> has k m = true.
Proof.
  destruct m as [|e m]; simpl; [discriminate|].
  intros H. injection H as H.
  rewrite (proj2 (keyIs_true k e)) by exact H. reflexivity.
Qed.

Lemma firstKey_set (k : K) (v : V) (m : JsMap.t K V) :
  m <> [] -> JsMap.firstKey (set k v m) = JsMap.firstKey m.
Proof.
  destruct m as [|e m]; [congruence|]. intros _. simpl.
  destruct (JsMap.keyIs K_eq_dec k e) eqn:E; [|reflexivity].
  apply keyIs_true in E. simpl. congruence.
Qed.

Lemma has_nonempty (k : K) (m : JsMap.t K V) : has k m = true -> m <> [].
Proof. destruct m; [discriminate|discriminate]. Qed.

End MapFacts.

(** ** utils/db.js: what one extraction does *)

Lemma utilsDb_evict_view (w1 w2 : UtilsDb.world) :
  Aux.cacheView w1 = Aux.cacheView w2 ->
  Aux.cacheView (UtilsDb.evictOldest w1)
  = Aux.cacheView (UtilsDb.evictOldest w2).
Proof.
  unfold Aux.cacheView, UtilsDb.evictOldest. intros H.
  injection H as Hc Ho Hl. rewrite Hc, Ho.
  destruct (UtilsDb.CACHE_SIZE_LIMIT
            <=? JsMap.size (UtilsDb.descriptorCache w2)).
  - destruct (UtilsDb.cacheAccessOrder w2) eqn:E; simpl; congruence.
  - congruence.
Qed.

Lemma utilsDb_set_view (key : Z) (d : descriptor) (w1 w2 : UtilsDb.world) :
  Aux.cacheView w1 = Aux.cacheView w2 ->
  Aux.cacheView (UtilsDb.cacheSet key d w1)
  = Aux.cacheView (UtilsDb.cacheSet key d w2).
Proof.
  unfold Aux.cacheView. simpl. intros H. injection H as Hc Ho Hl. congruence.
Qed.

Lemma utilsDb_update_view (key : Z) (w1 w2 : UtilsDb.world) :
  Aux.cacheView w1 = Aux.cacheView w2 ->
  Aux.cacheView (UtilsDb.updateCacheAccess key w1)
  = Aux.cacheView (UtilsDb.updateCacheAccess key w2).
Proof.
  unfold Aux.cacheView. simpl. intros H. injection H as Hc Ho Hl. congruence.
Qed.

Ltac view_cong :=
  repeat first [ apply utilsDb_update_view
               | apply utilsDb_set_view
               | apply utilsDb_evict_view ];
  reflexivity.

(** Case analysis on the next branch of a monadic computation. *)
Ltac run_step :=
  match goal with
  | |- context [match ?c with Returned _ => _ | Thrown _ => _ end] =>
      destruct c eqn:?
  | |- context [match ?x with Some _ => _ | None => _ end] =>
      destruct x eqn:?
  | |- context [match ?x with AlreadyResolved => _ | Outstanding _ => _ end] =>
      destruct x eqn:?
  | |- context [if ?b then _ else _] => destruct b eqn:?
  | |- context [let (_, _) := ?x in _] => destruct x eqn:?
  end.

Ltac unfold_extract :=
  unfold UtilsDb.extractFaceDescriptor, UtilsDb.preprocessImage,
         UtilsDb.awaitLoadModels, ServerUtils.extractFaceDescriptor,
         ServerUtils.preprocessImage, ServerUtils.awaitLoadModels,
         tryCatch, bind, ret, gets, modify, lift.

(** One call either leaves the cache alone and returns [null], or hits
    the cache and refreshes the key, or misses, computes a descriptor and
    stores it. *)
Lemma utilsDb_extract_effect (api : FaceApi) (e : env) (buf : buffer)
    (w : UtilsDb.world) :
  let key := UtilsDb.hashBuffer buf in
  let r := fst (UtilsDb.extractFaceDescriptor e buf w) in
  let w' := snd (UtilsDb.extractFaceDescriptor e buf w) in
  (r = Returned None /\ Aux.cacheView w' = Aux.cacheView w)
  \/ (JsMap.has Z.eq_dec key (UtilsDb.descriptorCache w) = true
      /\ r = Returned (JsMap.get Z.eq_dec key (UtilsDb.descriptorCache w))
      /\ Aux.cacheView w' = Aux.cacheView (UtilsDb.updateCacheAccess key w)
      /\ UtilsDb.pipelineCalls w' = UtilsDb.pipelineCalls w)
  \/ (JsMap.has Z.eq_dec key (UtilsDb.descriptorCache w) = false
      /\ exists d,
           r = Returned (Some d)
           /\ Aux.cacheView w'
              = Aux.cacheView
                  (UtilsDb.updateCacheAccess key
                     (UtilsDb.cacheSet key d (UtilsDb.evictOldest w)))).
Proof.
  cbv zeta. unfold_extract.
  destruct (UtilsDb.loadModels (currentTime e) (UtilsDb.models w)) as [p s].
  repeat (run_step; simpl);
    first [ left; split; reflexivity
          | right; left; repeat split; reflexivity
          | right; right; split; [reflexivity|];
            eexists; split; [reflexivity|view_cong] ].
Qed.

(** With the models available, a call on a cached key returns the cached
    descriptor and runs no detector. *)
Lemma utilsDb_extract_hit (api : FaceApi) (e : env) (buf : buffer)
    (w : UtilsDb.world) :
  diskLoad e = None ->
  JsMap.has Z.eq_dec (UtilsDb.hashBuffer buf) (UtilsDb.descriptorCache w)
    = true ->
  fst (UtilsDb.extractFaceDescriptor e buf w)
    = Returned (JsMap.get Z.eq_dec (UtilsDb.hashBuffer buf)
                  (UtilsDb.descriptorCache w))
  /\ UtilsDb.pipelineCalls (snd (UtilsDb.extractFaceDescriptor e buf w))
     = UtilsDb.pipelineCalls w.
Proof.
  intros Hload Hhas. unfold_extract. rewrite Hload.
  destruct (UtilsDb.loadModels (currentTime e) (UtilsDb.models w)) as [p s].
  destruct p; simpl; rewrite Hhas; simpl; split; reflexivity.
Qed.

(** After a call that returned a descriptor, the cache holds it under
    the key of the buffer. *)
Lemma utilsDb_extract_caches (api : FaceApi) (e : env) (buf : buffer)
    (w : UtilsDb.world) (d : descriptor) :
  fst (UtilsDb.extractFaceDescriptor e buf w) = Returned (Some d) ->
  JsMap.get Z.eq_dec (UtilsDb.hashBuffer buf)
    (UtilsDb.descriptorCache (snd (UtilsDb.extractFaceDescriptor e buf w)))
  = Some d.
Proof.
  intros Hr.
  destruct (utilsDb_extract_effect api e buf w)
    as [[Hnone _]|[(_ & Hget & Hview & _)|(_ & d' & Hd & Hview)]].
  - rewrite Hr in Hnone. discriminate Hnone.
  - unfold Aux.cacheView in Hview. injection Hview as Hc _ _.
    rewrite Hc. simpl. rewrite Hr in Hget. injection Hget as Hget.
    symmetry. exact Hget.
  - unfold Aux.cacheView in Hview. injection Hview as Hc _ _.
    rewrite Hc. simpl. rewrite Hr in Hd. injection Hd as ->.
    apply get_set_same.
Qed.

(** One case split on the next call of the pipeline. *)
Ltac api_step :=
  match goal with
  | |- context [loadImage ?b] => destruct (loadImage b) eqn:?
  | |- context [drawResized ?i] => destruct (drawResized i) eqn:?
  | |- context [detectSingleFace ?c] =>
      destruct (detectSingleFace c) as [[?|]|?] eqn:?
  | |- context [drawFace ?i ?c ?d] => destruct (drawFace i c d) eqn:?
  | |- context [cropFace ?c ?d] => destruct (cropFace c d) eqn:?
  | |- context [detectWithDescriptor ?c] =>
      destruct (detectWithDescriptor c) as [[?|]|?] eqn:?
  end.

Ltac processed_path :=
  do 4 eexists; split; [|split; [|split; [|split]]]; eassumption.

Ltac processed_miss :=
  let d := fresh "d" in
  let Hd := fresh "Hd" in
  let Hnone := fresh "Hnone" in
  unfold Notions.processed; split;
  [ intros d; split;
    [ intros Hd; try discriminate Hd; injection Hd as <-; processed_path
    | intros (? & ? & ? & ? & ? & ? & ? & ? & ?); congruence ]
  | intros Hnone; try reflexivity; exfalso;
    eapply Hnone; processed_path ].

(** On a key that is not cached, and with models that load, utils/db.js
    returns a descriptor exactly when the processing path runs to its
    end, and [null] otherwise. *)
Lemma utilsDb_extract_miss (api : FaceApi) (e : env) (buf : buffer)
    (w : UtilsDb.world) :
  diskLoad e = None ->
  JsMap.has Z.eq_dec (UtilsDb.hashBuffer buf) (UtilsDb.descriptorCache w)
    = false ->
  (forall d, fst (UtilsDb.extractFaceDescriptor e buf w) = Returned (Some d)
             <-> Notions.processed drawFace buf d)
  /\ ((forall d, ~ Notions.processed drawFace buf d) ->
      fst (UtilsDb.extractFaceDescriptor e buf w) = Returned None).
Proof.
  intros Hload Hmiss. unfold_extract.
  rewrite Hload.
  destruct (UtilsDb.loadModels (currentTime e) (UtilsDb.models w)) as [p s].
  destruct p; simpl; rewrite ?Hmiss; simpl;
    repeat (api_step; simpl); processed_miss.
Qed.

Lemma serverUtils_extract_miss (api : FaceApi) (e : env) (buf : buffer)
    (w : ServerUtils.world) :
  diskLoad e = None ->
  JsMap.has string_dec (ServerUtils.cacheKeyOf buf)
    (ServerUtils.descriptorCache w) = false ->
  (forall d, fst (ServerUtils.extractFaceDescriptor e buf w)
             = Returned (Some d)
             <-> Notions.processed (fun _ => cropFace) buf d)
  /\ ((forall d, ~ Notions.processed (fun _ => cropFace) buf d) ->
      fst (ServerUtils.extractFaceDescriptor e buf w) = Returned None).
Proof.
  intros Hload Hmiss. unfold_extract. simpl.
  rewrite Hmiss. simpl. rewrite Hload.
  destruct (ServerUtils.loadModels (ServerUtils.models w)) as [p s].
  destruct p; simpl; repeat (api_step; simpl); processed_miss.
Qed.

(** C10. [extractFaceDescriptor] never throws to its caller when the
    models load: in utils/db.js every failure, the load included, ends in
    the [catch] block and yields [null]; in
    server/utils/faceRecognition.js every failure after a successful load
    does.  With models that load and a buffer that is not cached, a
    descriptor is returned exactly when the whole processing path
    succeeds; a decoding error, a missing face, a failed descriptor
    computation and any exception thrown on the way are mapped to
    [null], whatever the pipeline does. *)
Theorem C10_extraction_never_throws (api : FaceApi) (e : env)
    (imageBuffer : buffer) (w1 : UtilsDb.world) (w2 : ServerUtils.world) :
  (exists r, fst (UtilsDb.extractFaceDescriptor e imageBuffer w1)
             = Returned r)
  /\ (diskLoad e = None ->
      (exists r, fst (ServerUtils.extractFaceDescriptor e imageBuffer w2)
                 = Returned r)
      /\ (JsMap.has Z.eq_dec (UtilsDb.hashBuffer imageBuffer)
            (UtilsDb.descriptorCache w1) = false ->
          (forall d,
             fst (UtilsDb.extractFaceDescriptor e imageBuffer w1)
               = Returned (Some d)
             <-> Notions.processed drawFace imageBuffer d)
          /\ ((forall d, ~ Notions.processed drawFace imageBuffer d) ->
              fst (UtilsDb.extractFaceDescriptor e imageBuffer w1)
                = Returned None))
      /\ (JsMap.has string_dec (ServerUtils.cacheKeyOf imageBuffer)
            (ServerUtils.descriptorCache w2) = false ->
          (forall d,
             fst (ServerUtils.extractFaceDescriptor e imageBuffer w2)
               = Returned (Some d)
             <-> Notions.processed (fun _ => cropFace) imageBuffer d)
          /\ ((forall d,
                 ~ Notions.processed (fun _ => cropFace) imageBuffer d) ->
              fst (ServerUtils.extractFaceDescriptor e imageBuffer w2)
                = Returned None))).
Proof.
  split.
  - destruct (utilsDb_extract_effect api e imageBuffer w1)
      as [[Hr _]|[(_ & Hr & _)|(_ & d & Hr & _)]];
      rewrite Hr; eexists; reflexivity.
  - intros Hload. split; [|split].
    + unfold_extract. simpl.
      destruct (JsMap.has string_dec (ServerUtils.cacheKeyOf imageBuffer)
                  (ServerUtils.descriptorCache w2));
        simpl; [eexists; reflexivity|].
      rewrite Hload.
      destruct (ServerUtils.loadModels (ServerUtils.models w2)) as [p s].
      destruct p; simpl; repeat (run_step; simpl); eexists; reflexivity.
    + apply utilsDb_extract_miss. exact Hload.
    + apply serverUtils_extract_miss. exact Hload.
Qed.

(** A decoder that rejects every buffer: the call returns [null]. *)
Lemma C10_witness :
  fst (@ServerUtils.extractFaceDescriptor Examples.brokenDecoderApi
         (Examples.loadsAt 0) (Examples.image3 7) ServerUtils.worldInit)
  = Returned None.
Proof.
  apply (proj2 (proj2 (proj2 (proj2 (C10_extraction_never_throws
           Examples.brokenDecoderApi (Examples.loadsAt 0) (Examples.image3 7)
           UtilsDb.worldInit ServerUtils.worldInit) eq_refl)) eq_refl)).
  intros d (img & cv & det & fc & Himg & _). discriminate Himg.
Defined.

(** ** Failed model loads *)

(** C3. On a failed model load, [extractFaceDescriptor] of utils/db.js
    returns [null] instead of propagating the error, for every buffer,
    error and pipeline; server/utils/faceRecognition.js propagates it.
    Both loaders clear the loading promise, so that the next call
    starts a new load; utils/db.js leaves [modelsLoaded] at [true] when
    the failed load was a refresh. *)
Theorem C3_load_failure_outcome (api : FaceApi) (imageBuffer : buffer)
    (error : exn) (t1 t2 : Z) :
  let failing := {| currentTime := t1; loadedTime := t2;
                    diskLoad := Some error |} in
  UtilsDb.extractFaceDescriptor failing imageBuffer UtilsDb.worldInit
    = (Returned None, Examples.utilsDbAfterFailedLoad)
  /\ ServerUtils.extractFaceDescriptor failing imageBuffer
       ServerUtils.worldInit
     = (Thrown error, Examples.serverUtilsAfterFailedLoad)
  /\ (let stale := {| currentTime := 900000; loadedTime := t2;
                      diskLoad := Some error |} in
      fst (UtilsDb.extractFaceDescriptor stale imageBuffer
             Examples.utilsDbLoadedAtZero) = Returned None
      /\ UtilsDb.modelsLoaded
           (UtilsDb.models
              (snd (UtilsDb.extractFaceDescriptor stale imageBuffer
                      Examples.utilsDbLoadedAtZero))) = true
      /\ UtilsDb.modelLoadingPromise
           (UtilsDb.models
              (snd (UtilsDb.extractFaceDescriptor stale imageBuffer
                      Examples.utilsDbLoadedAtZero))) = None)
  /\ fst (UtilsDb.loadModels t2
            (UtilsDb.models Examples.utilsDbAfterFailedLoad)) = Outstanding 2
  /\ fst (ServerUtils.loadModels
            (ServerUtils.models Examples.serverUtilsAfterFailedLoad))
     = Outstanding 2.
Proof.
  cbv zeta. repeat split.
Qed.

(** ** server/utils/faceRecognition.js: what one extraction does *)

Lemma serverUtils_trim_view (w1 w2 : ServerUtils.world) :
  Aux.serverCacheView w1 = Aux.serverCacheView w2 ->
  Aux.serverCacheView (ServerUtils.trimCache w1)
  = Aux.serverCacheView (ServerUtils.trimCache w2).
Proof.
  unfold Aux.serverCacheView, ServerUtils.trimCache. intros H.
  injection H as Hc Hl. rewrite Hc.
  destruct (100 <? JsMap.size (ServerUtils.descriptorCache w2)).
  - destruct (JsMap.firstKey (ServerUtils.descriptorCache w2)) eqn:E;
      simpl; congruence.
  - congruence.
Qed.

Lemma serverUtils_set_view (key : string) (d : descriptor)
    (w1 w2 : ServerUtils.world) :
  Aux.serverCacheView w1 = Aux.serverCacheView w2 ->
  Aux.serverCacheView (ServerUtils.cacheSet key d w1)
  = Aux.serverCacheView (ServerUtils.cacheSet key d w2).
Proof.
  unfold Aux.serverCacheView. simpl. intros H. injection H as Hc Hl.
  congruence.
Qed.

Ltac server_view_cong :=
  repeat first [ apply serverUtils_trim_view
               | apply serverUtils_set_view ];
  reflexivity.

Lemma serverUtils_extract_effect (api : FaceApi) (e : env) (buf : buffer)
    (w : ServerUtils.world) :
  let key := ServerUtils.cacheKeyOf buf in
  let r := fst (ServerUtils.extractFaceDescriptor e buf w) in
  let w' := snd (ServerUtils.extractFaceDescriptor e buf w) in
  (Aux.serverCacheView w' = Aux.serverCacheView w
   /\ (r = Returned None \/ exists err, r = Thrown err))
  \/ (JsMap.has string_dec key (ServerUtils.descriptorCache w) = true
      /\ r = Returned (JsMap.get string_dec key (ServerUtils.descriptorCache w))
      /\ Aux.serverCacheView w'
         = Aux.serverCacheView (ServerUtils.logAccess key w)
      /\ ServerUtils.pipelineCalls w' = ServerUtils.pipelineCalls w)
  \/ (JsMap.has string_dec key (ServerUtils.descriptorCache w) = false
      /\ exists d,
           r = Returned (Some d)
           /\ Aux.serverCacheView w'
              = Aux.serverCacheView
                  (ServerUtils.trimCache (ServerUtils.cacheSet key d w))).
Proof.
  cbv zeta. unfold_extract. simpl.
  destruct (JsMap.has string_dec (ServerUtils.cacheKeyOf buf)
              (ServerUtils.descriptorCache w)) eqn:Hhas; simpl.
  - right. left. repeat split; reflexivity.
  - destruct (ServerUtils.loadModels (ServerUtils.models w)) as [p s].
    destruct p; simpl;
      repeat (run_step; simpl);
      first [ left; split; [reflexivity|left; reflexivity]
            | left; split; [reflexivity|right; eexists; reflexivity]
            | right; right; split; [reflexivity|];
              eexists; split; [reflexivity|server_view_cong] ].
Qed.

(** A freshly stored key survives the trimming of the map. *)
Lemma serverUtils_store_keeps_new (key : string) (d : descriptor)
    (w : ServerUtils.world) :
  JsMap.has string_dec key (ServerUtils.descriptorCache w) = false ->
  JsMap.get string_dec key
    (ServerUtils.descriptorCache
       (ServerUtils.trimCache (ServerUtils.cacheSet key d w)))
  = Some d.
Proof.
  intros Hnew. unfold ServerUtils.trimCache.
  destruct (100 <? JsMap.size
                     (ServerUtils.descriptorCache
                        (ServerUtils.cacheSet key d w))) eqn:Hbig;
    [|simpl; apply get_set_same].
  destruct (JsMap.firstKey
              (ServerUtils.descriptorCache (ServerUtils.cacheSet key d w)))
    as [firstKey|] eqn:Hfirst; [|simpl; apply get_set_same].
  simpl in *.
  destruct (ServerUtils.descriptorCache w) as [|e0 m] eqn:Hm.
  - simpl in Hbig. discriminate Hbig.
  - rewrite firstKey_set in Hfirst by discriminate.
    apply firstKey_has with (K_eq_dec := string_dec) in Hfirst.
    rewrite get_delete_other; [apply get_set_same|].
    intros ->. congruence.
Qed.

Lemma serverUtils_extract_caches (api : FaceApi) (e : env) (buf : buffer)
    (w : ServerUtils.world) (d : descriptor) :
  fst (ServerUtils.extractFaceDescriptor e buf w) = Returned (Some d) ->
  JsMap.get string_dec (ServerUtils.cacheKeyOf buf)
    (ServerUtils.descriptorCache
       (snd (ServerUtils.extractFaceDescriptor e buf w)))
  = Some d.
Proof.
  intros Hr.
  destruct (serverUtils_extract_effect api e buf w)
    as [[_ [Hnone|[err Herr]]]
       |[(_ & Hget & Hview & _)|(Hnew & d' & Hd & Hview)]].
  - rewrite Hr in Hnone. discriminate Hnone.
  - rewrite Hr in Herr. discriminate Herr.
  - unfold Aux.serverCacheView in Hview. injection Hview as Hc _.
    rewrite Hc. simpl. rewrite Hr in Hget. injection Hget as Hget.
    symmetry. exact Hget.
  - unfold Aux.serverCacheView in Hview. injection Hview as Hc _.
    rewrite Hc. rewrite Hr in Hd. injection Hd as ->.
    apply serverUtils_store_keeps_new. exact Hnew.
Qed.

Lemma serverUtils_extract_hit (api : FaceApi) (e : env) (buf : buffer)
    (w : ServerUtils.world) :
  JsMap.has string_dec (ServerUtils.cacheKeyOf buf)
    (ServerUtils.descriptorCache w) = true ->
  fst (ServerUtils.extractFaceDescriptor e buf w)
    = Returned (JsMap.get string_dec (ServerUtils.cacheKeyOf buf)
                  (ServerUtils.descriptorCache w))
  /\ ServerUtils.pipelineCalls
       (snd (ServerUtils.extractFaceDescriptor e buf w))
     = ServerUtils.pipelineCalls w.
Proof.
  intros Hhas. unfold_extract. simpl. rewrite Hhas. simpl.
  split; reflexivity.
Qed.

(** ** Repeated extraction *)




(** ** Recency of access *)

Section RecencyFacts.

Variable K : Type.
Variable K_eq_dec : forall a b : K, {a = b} + {a <> b}.

Lemma lastAccessRev_le (k : K) (l : list K) :
  Aux.lastAccessRev K_eq_dec k l <= length l.
Proof.
  induction l as [|x l IH]; simpl; [lia|].
  destruct (K_eq_dec x k); lia.
Qed.

Lemma lastAccess_le (k : K) (log : list K) :
  Aux.lastAccess K_eq_dec k log <= length log.
Proof.
  unfold Aux.lastAccess. rewrite <- (length_rev log).
  apply lastAccessRev_le.
Qed.

Lemma lastAccess_snoc_same (k : K) (log : list K) :
  Aux.lastAccess K_eq_dec k (log ++ [k]) = S (length log).
Proof.
  unfold Aux.lastAccess. rewrite rev_unit. simpl.
  destruct (K_eq_dec k k); [|congruence].
  rewrite length_rev. reflexivity.
Qed.

Lemma lastAccess_snoc_other (k x : K) (log : list K) :
  x <> k ->
  Aux.lastAccess K_eq_dec k (log ++ [x]) = Aux.lastAccess K_eq_dec k log.
Proof.
  intros Hne. unfold Aux.lastAccess. rewrite rev_unit. simpl.
  destruct (K_eq_dec x k); [congruence|reflexivity].
Qed.

Lemma StronglySorted_snoc (R : K -> K -> Prop) (l : list K) (x : K) :
  StronglySorted R l -> Forall (fun a => R a x) l ->
  StronglySorted R (l ++ [x]).
Proof.
  induction 1 as [|a l Hs IH Ha]; intros Hall; simpl.
  - constructor; constructor.
  - inversion Hall as [|? ? Hax Hrest]; subst.
    constructor; [apply IH; exact Hrest|].
    apply Forall_app. split; [exact Ha|]. constructor; [exact Hax|constructor].
Qed.

(** Touching a key that is not in the list makes it the most recently
    used and keeps the others in order. *)
Lemma sorted_after_touch (log l : list K) (key : K) :
  StronglySorted
    (fun a b => Aux.lastAccess K_eq_dec a log < Aux.lastAccess K_eq_dec b log)
    l ->
  ~ In key l ->
  StronglySorted
    (fun a b => Aux.lastAccess K_eq_dec a (log ++ [key])
                < Aux.lastAccess K_eq_dec b (log ++ [key]))
    (l ++ [key]).
Proof.
  intros Hs Hnotin. apply StronglySorted_snoc.
  - induction Hs as [|a l Hs IH Ha]; [constructor|].
    constructor.
    + apply IH. intros Hin. apply Hnotin. right. exact Hin.
    + rewrite Forall_forall in *. intros b Hb.
      rewrite !lastAccess_snoc_other.
      * apply Ha. exact Hb.
      * intros ->. apply Hnotin. right. exact Hb.
      * intros ->. apply Hnotin. left. reflexivity.
  - rewrite Forall_forall. intros a Ha.
    rewrite lastAccess_snoc_same, lastAccess_snoc_other.
    + pose proof (lastAccess_le a log). lia.
    + intros ->. apply Hnotin. exact Ha.
Qed.

End RecencyFacts.

(** ** utils/db.js: the access order *)

Lemma in_removeFirst (key k : Z) (l : list Z) :
  In k (UtilsDb.removeFirst key l) -> In k l.
Proof.
  induction l as [|x l IH]; simpl; [tauto|].
  destruct (Z.eq_dec x key); simpl; tauto.
Qed.

Lemma in_removeFirst_other (key k : Z) (l : list Z) :
  k <> key -> In k l -> In k (UtilsDb.removeFirst key l).
Proof.
  intros Hne. induction l as [|x l IH]; simpl; [tauto|].
  destruct (Z.eq_dec x key); simpl; intuition congruence.
Qed.

Lemma sorted_removeFirst (R : Z -> Z -> Prop) (key : Z) (l : list Z) :
  StronglySorted R l -> StronglySorted R (UtilsDb.removeFirst key l).
Proof.
  induction 1 as [|a l Hs IH Ha]; simpl; [constructor|].
  destruct (Z.eq_dec a key); [exact Hs|].
  constructor; [exact IH|].
  rewrite Forall_forall in *. intros b Hb.
  apply Ha. exact (in_removeFirst key b l Hb).
Qed.

Lemma notin_removeFirst (R : Z -> Z -> Prop) (key : Z) (l : list Z) :
  (forall a, ~ R a a) -> StronglySorted R l ->
  ~ In key (UtilsDb.removeFirst key l).
Proof.
  intros Hirr. induction 1 as [|a l Hs IH Ha]; simpl; [tauto|].
  destruct (Z.eq_dec a key) as [->|Hne].
  - intros Hin. rewrite Forall_forall in Ha. exact (Hirr key (Ha key Hin)).
  - simpl. intros [Heq|Hin]; [congruence|exact (IH Hin)].
Qed.

(** [updateCacheAccess(key)] restores the inventory and the order once
    [key] is in the map. *)
Lemma utilsDb_touch_establishes (key : Z) (w : UtilsDb.world) :
  (forall k, In k (UtilsDb.cacheAccessOrder w) \/ k = key
             <-> JsMap.has Z.eq_dec k (UtilsDb.descriptorCache w) = true) ->
  StronglySorted
    (fun a b => Aux.lastAccess Z.eq_dec a (UtilsDb.accessLog w)
                < Aux.lastAccess Z.eq_dec b (UtilsDb.accessLog w))
    (UtilsDb.cacheAccessOrder w) ->
  let w' := UtilsDb.updateCacheAccess key w in
  (forall k, In k (UtilsDb.cacheAccessOrder w')
             <-> JsMap.has Z.eq_dec k (UtilsDb.descriptorCache w') = true)
  /\ StronglySorted
       (fun a b => Aux.lastAccess Z.eq_dec a (UtilsDb.accessLog w')
                   < Aux.lastAccess Z.eq_dec b (UtilsDb.accessLog w'))
       (UtilsDb.cacheAccessOrder w').
Proof.
  intros Hkeys Hsorted. simpl. split.
  - intros k. rewrite <- Hkeys, in_app_iff. simpl.
    destruct (Z.eq_dec k key) as [->|Hne].
    + tauto.
    + split.
      * intros [Hin|[Heq|[]]]; [|congruence].
        left. exact (in_removeFirst key k _ Hin).
      * intros [Hin|Heq]; [|congruence].
        left. exact (in_removeFirst_other key k _ Hne Hin).
  - apply sorted_after_touch.
    + apply sorted_removeFirst. exact Hsorted.
    + apply notin_removeFirst with (2 := Hsorted). intros a. lia.
Qed.

(** The eviction step removes the least recently used key, and leaves
    room for one more entry. *)
Lemma utilsDb_evict_spec (w : UtilsDb.world) :
  Aux.utilsDbCacheInv w ->
  let w' := UtilsDb.evictOldest w in
  JsMap.size (UtilsDb.descriptorCache w') < UtilsDb.CACHE_SIZE_LIMIT
  /\ (forall k, In k (UtilsDb.cacheAccessOrder w')
                <-> JsMap.has Z.eq_dec k (UtilsDb.descriptorCache w') = true)
  /\ StronglySorted
       (fun a b => Aux.lastAccess Z.eq_dec a (UtilsDb.accessLog w')
                   < Aux.lastAccess Z.eq_dec b (UtilsDb.accessLog w'))
       (UtilsDb.cacheAccessOrder w')
  /\ (forall k,
        JsMap.has Z.eq_dec k (UtilsDb.descriptorCache w) = true ->
        JsMap.has Z.eq_dec k (UtilsDb.descriptorCache w') = false ->
        Aux.leastRecentlyUsed Z.eq_dec k (UtilsDb.descriptorCache w)
                              (UtilsDb.accessLog w)).
Proof.
  intros (Hsize & Hkeys & Hsorted). cbv zeta. unfold UtilsDb.evictOldest.
  destruct (Nat.leb_spec UtilsDb.CACHE_SIZE_LIMIT
              (JsMap.size (UtilsDb.descriptorCache w))) as [Hfull|Hroom].
  - destruct (UtilsDb.cacheAccessOrder w) as [|oldest rest] eqn:Horder.
    + exfalso. destruct (UtilsDb.descriptorCache w) as [|entry m] eqn:Hm.
      * unfold UtilsDb.CACHE_SIZE_LIMIT in Hfull. simpl in Hfull. lia.
      * assert (Hhas : JsMap.has Z.eq_dec (fst entry) (entry :: m) = true).
        { simpl. rewrite (proj2 (keyIs_true _ _ Z.eq_dec (fst entry) entry))
            by reflexivity. reflexivity. }
        apply Hkeys in Hhas. destruct Hhas.
    + inversion Hsorted as [|? ? Hrest Holdest]; subst.
      assert (Hin : JsMap.has Z.eq_dec oldest (UtilsDb.descriptorCache w)
                    = true) by (apply Hkeys; left; reflexivity).
      assert (Hnotin : ~ In oldest rest).
      { intros H. rewrite Forall_forall in Holdest.
        specialize (Holdest oldest H). lia. }
      simpl. repeat split.
      * pose proof (size_delete_lt _ _ Z.eq_dec oldest _ Hin). lia.
      * intros H. apply has_delete. split; [congruence|].
        apply Hkeys. right. exact H.
      * intros H. apply has_delete in H. destruct H as [Hne H].
        apply Hkeys in H. destruct H as [Heq|H]; [congruence|exact H].
      * exact Hrest.
      * intros k Hk Hgone k' Hk' Hne.
        assert (Heq : k = oldest).
        { destruct (Z.eq_dec k oldest) as [Heq|Hneq]; [exact Heq|].
          assert (JsMap.has Z.eq_dec k
                    (JsMap.delete Z.eq_dec oldest (UtilsDb.descriptorCache w))
                  = true) by (apply has_delete; auto).
          congruence. }
        subst k. apply Hkeys in Hk'. destruct Hk' as [Heq|Hk']; [congruence|].
        rewrite Forall_forall in Holdest. exact (Holdest k' Hk').
  - repeat split; try (apply Hkeys); auto.
    intros k Hk Hgone. congruence.
Qed.

Lemma utilsDbCacheInv_view (w1 w2 : UtilsDb.world) :
  Aux.cacheView w1 = Aux.cacheView w2 ->
  Aux.utilsDbCacheInv w2 -> Aux.utilsDbCacheInv w1.
Proof.
  unfold Aux.cacheView, Aux.utilsDbCacheInv. intros H.
  injection H as Hc Ho Hl. rewrite Hc, Ho, Hl. tauto.
Qed.

(** Storing a descriptor: evict, set, touch. *)
Lemma utilsDb_store_inv (key : Z) (d : descriptor) (w : UtilsDb.world) :
  Aux.utilsDbCacheInv w ->
  Aux.utilsDbCacheInv
    (UtilsDb.updateCacheAccess key
       (UtilsDb.cacheSet key d (UtilsDb.evictOldest w))).
Proof.
  intros Hinv.
  destruct (utilsDb_evict_spec w Hinv) as (Hsize & Hkeys & Hsorted & _).
  set (w1 := UtilsDb.evictOldest w) in *.
  destruct (utilsDb_touch_establishes key (UtilsDb.cacheSet key d w1))
    as [Hkeys' Hsorted'].
  - intros k. simpl. rewrite has_set, Hkeys. tauto.
  - exact Hsorted.
  - split; [|split; assumption].
    simpl. rewrite size_set.
    destruct (JsMap.has Z.eq_dec key (UtilsDb.descriptorCache w1)); lia.
Qed.

Lemma utilsDb_hit_inv (key : Z) (w : UtilsDb.world) :
  Aux.utilsDbCacheInv w ->
  JsMap.has Z.eq_dec key (UtilsDb.descriptorCache w) = true ->
  Aux.utilsDbCacheInv (UtilsDb.updateCacheAccess key w).
Proof.
  intros (Hsize & Hkeys & Hsorted) Hhas.
  destruct (utilsDb_touch_establishes key w) as [Hkeys' Hsorted'].
  - intros k. rewrite <- Hkeys. split; [|tauto].
    intros [H | ->]; [exact H|]. apply Hkeys. exact Hhas.
  - exact Hsorted.
  - split; [exact Hsize|split; assumption].
Qed.

Lemma utilsDb_extract_inv (api : FaceApi) (e : env) (buf : buffer)
    (w : UtilsDb.world) :
  Aux.utilsDbCacheInv w ->
  Aux.utilsDbCacheInv (snd (UtilsDb.extractFaceDescriptor e buf w)).
Proof.
  intros Hinv.
  destruct (utilsDb_extract_effect api e buf w)
    as [[_ Hview]|[(Hhas & _ & Hview & _)|(_ & d & _ & Hview)]];
    apply (utilsDbCacheInv_view _ _ Hview).
  - exact Hinv.
  - apply utilsDb_hit_inv; assumption.
  - apply utilsDb_store_inv. exact Hinv.
Qed.

Lemma utilsDb_extractAll_inv (api : FaceApi) (calls : list (env * buffer))
    (w : UtilsDb.world) :
  Aux.utilsDbCacheInv w -> Aux.utilsDbCacheInv (UtilsDb.extractAll calls w).
Proof.
  revert w. induction calls as [|[e b] calls IH]; intros w Hinv; [exact Hinv|].
  simpl. apply IH, utilsDb_extract_inv, Hinv.
Qed.

Lemma utilsDb_init_inv : Aux.utilsDbCacheInv UtilsDb.worldInit.
Proof.
  split; [|split].
  - unfold UtilsDb.CACHE_SIZE_LIMIT. simpl. lia.
  - intros k. simpl. split; [tauto|discriminate].
  - constructor.
Qed.

(** A key that a call removes from the cache of utils/db.js is the least
    recently used one. *)
Lemma utilsDb_evicts_lru (api : FaceApi) (e : env) (buf : buffer)
    (w : UtilsDb.world) (k : Z) :
  Aux.utilsDbCacheInv w ->
  JsMap.has Z.eq_dec k (UtilsDb.descriptorCache w) = true ->
  JsMap.has Z.eq_dec k
    (UtilsDb.descriptorCache (snd (UtilsDb.extractFaceDescriptor e buf w)))
    = false ->
  Aux.leastRecentlyUsed Z.eq_dec k (UtilsDb.descriptorCache w)
                        (UtilsDb.accessLog w).
Proof.
  intros Hinv Hk Hgone.
  destruct (utilsDb_extract_effect api e buf w)
    as [[_ Hview]|[(_ & _ & Hview & _)|(_ & d & _ & Hview)]];
    unfold Aux.cacheView in Hview; injection Hview as Hc _ _;
    rewrite Hc in Hgone; simpl in Hgone.
  - congruence.
  - congruence.
  - destruct (utilsDb_evict_spec w Hinv) as (_ & _ & _ & Hlru).
    apply Hlru; [exact Hk|].
    destruct (JsMap.has Z.eq_dec k
                (UtilsDb.descriptorCache (UtilsDb.evictOldest w))) eqn:E;
      [|reflexivity].
    assert (JsMap.has Z.eq_dec k
              (JsMap.set Z.eq_dec (UtilsDb.hashBuffer buf) d
                 (UtilsDb.descriptorCache (UtilsDb.evictOldest w))) = true)
      by (apply has_set; right; exact E).
    congruence.
Qed.

(** ** server/utils/faceRecognition.js: the cache *)

Lemma serverUtils_store_size (key : string) (d : descriptor)
    (w : ServerUtils.world) :
  JsMap.size (ServerUtils.descriptorCache w) <= 100 ->
  JsMap.size
    (ServerUtils.descriptorCache
       (ServerUtils.trimCache (ServerUtils.cacheSet key d w))) <= 100.
Proof.
  intros Hsize. unfold ServerUtils.trimCache.
  assert (Hset : JsMap.size
                   (ServerUtils.descriptorCache (ServerUtils.cacheSet key d w))
                 <= 101).
  { simpl. rewrite size_set.
    destruct (JsMap.has string_dec key (ServerUtils.descriptorCache w)); lia. }
  remember (ServerUtils.cacheSet key d w) as w1 eqn:Hw1. clear Hw1.
  destruct (Nat.ltb_spec 100 (JsMap.size (ServerUtils.descriptorCache w1)))
    as [Hbig|Hok]; [|exact Hok].
  destruct (JsMap.firstKey (ServerUtils.descriptorCache w1))
    as [firstKey|] eqn:Hfirst.
  - simpl.
    pose proof (size_delete_lt _ _ string_dec firstKey _
                  (firstKey_has _ _ string_dec _ _ Hfirst)).
    lia.
  - destruct (ServerUtils.descriptorCache w1); [simpl in Hbig; lia|].
    discriminate Hfirst.
Qed.

Lemma serverUtils_extract_size (api : FaceApi) (e : env) (buf : buffer)
    (w : ServerUtils.world) :
  JsMap.size (ServerUtils.descriptorCache w) <= 100 ->
  JsMap.size
    (ServerUtils.descriptorCache
       (snd (ServerUtils.extractFaceDescriptor e buf w))) <= 100.
Proof.
  intros Hsize.
  destruct (serverUtils_extract_effect api e buf w)
    as [[Hview _]|[(_ & _ & Hview & _)|(_ & d & _ & Hview)]];
    unfold Aux.serverCacheView in Hview; injection Hview as Hc _;
    rewrite Hc.
  - exact Hsize.
  - exact Hsize.
  - apply serverUtils_store_size. exact Hsize.
Qed.

Lemma serverUtils_extractAll_size (api : FaceApi)
    (calls : list (env * buffer)) (w : ServerUtils.world) :
  JsMap.size (ServerUtils.descriptorCache w) <= 100 ->
  JsMap.size (ServerUtils.descriptorCache (ServerUtils.extractAll calls w))
  <= 100.
Proof.
  revert w. induction calls as [|[e b] calls IH]; intros w Hsize;
    [exact Hsize|].
  simpl. apply IH, serverUtils_extract_size, Hsize.
Qed.

(** A key that a call removes from the cache of
    server/utils/faceRecognition.js is the first key of the map: the
    entry inserted first. *)
Lemma serverUtils_evicts_first (api : FaceApi) (e : env) (buf : buffer)
    (w : ServerUtils.world) (k : string) :
  JsMap.has string_dec k (ServerUtils.descriptorCache w) = true ->
  JsMap.has string_dec k
    (ServerUtils.descriptorCache
       (snd (ServerUtils.extractFaceDescriptor e buf w))) = false ->
  JsMap.firstKey (ServerUtils.descriptorCache w) = Some k.
Proof.
  intros Hk Hgone.
  destruct (serverUtils_extract_effect api e buf w)
    as [[Hview _]|[(_ & _ & Hview & _)|(_ & d & _ & Hview)]];
    unfold Aux.serverCacheView in Hview; injection Hview as Hc _;
    rewrite Hc in Hgone; simpl in Hgone.
  - congruence.
  - congruence.
  - assert (Hset : JsMap.has string_dec k
                     (JsMap.set string_dec (ServerUtils.cacheKeyOf buf) d
                        (ServerUtils.descriptorCache w)) = true)
      by (apply has_set; right; exact Hk).
    unfold ServerUtils.trimCache in Hgone. simpl in Hgone.
    destruct (100 <? JsMap.size
                       (JsMap.set string_dec (ServerUtils.cacheKeyOf buf) d
                          (ServerUtils.descriptorCache w)));
      [|simpl in Hgone; congruence].
    rewrite firstKey_set in Hgone by exact (has_nonempty _ _ _ _ _ Hk).
    destruct (JsMap.firstKey (ServerUtils.descriptorCache w))
      as [firstKey|]; [|simpl in Hgone; congruence].
    simpl in Hgone. f_equal.
    destruct (string_dec k firstKey) as [Heq|Hne]; [congruence|].
    assert (JsMap.has string_dec k
              (JsMap.delete string_dec firstKey
                 (JsMap.set string_dec (ServerUtils.cacheKeyOf buf) d
                    (ServerUtils.descriptorCache w))) = true)
      by (apply has_delete; auto).
    congruence.
Qed.

(** C6, as worded, fails on server/utils/faceRecognition.js: after a
    hundred uploads and a second look at the first image, the next
    upload evicts the entry of the first image, the most recently read
    one. *)
Lemma C6_counterexample : ~ AsStated.evictsLeastRecentlyUsed.
Proof.
  intros H.
  specialize (H Examples.everyFaceApi
                (Examples.uploads 100
                 ++ [(Examples.loadsAt 0, Examples.image3 0)])
                (Examples.loadsAt 0) (Examples.image3 100)
                (ServerUtils.cacheKeyOf (Examples.image3 0))).
  cbv zeta in H.
  assert (Hlru := H ltac:(vm_compute; reflexivity)
                    ltac:(vm_compute; reflexivity)
                    (ServerUtils.cacheKeyOf (Examples.image3 1))
                    ltac:(vm_compute; reflexivity)
                    ltac:(vm_compute; discriminate)).
  vm_compute in Hlru. lia.
Qed.

(** The third variant tests the size before it stores, so its cache
    comes to hold 51 entries. *)
Lemma variant3_cache_holds_51 :
  JsMap.size
    (fold_left
       (fun cache i =>
          Variant3.cacheStore (Variant3.cacheKeyOf (Examples.image3 i)) []
                              cache)
       (seq 0 60) [])
  = 51.
Proof. vm_compute. reflexivity. Qed.

(** C6, amended. After any sequence of extractions the cache of
    utils/db.js and the cache of server/utils/faceRecognition.js hold at
    most 100 entries.  An entry that a call evicts from the cache of
    utils/db.js is the least recently read or written one; an entry that
    a call evicts from the cache of server/utils/faceRecognition.js is
    the first key of the map, the entry inserted first, whatever has
    been read since. *)
Theorem C6_cache_bound_and_eviction (api : FaceApi)
    (calls : list (env * buffer)) (e : env) (imageBuffer : buffer) :
  let w := UtilsDb.extractAll calls UtilsDb.worldInit in
  let v := ServerUtils.extractAll calls ServerUtils.worldInit in
  JsMap.size (UtilsDb.descriptorCache w) <= 100
  /\ (forall k,
        JsMap.has Z.eq_dec k (UtilsDb.descriptorCache w) = true ->
        JsMap.has Z.eq_dec k
          (UtilsDb.descriptorCache
             (snd (UtilsDb.extractFaceDescriptor e imageBuffer w))) = false ->
        Aux.leastRecentlyUsed Z.eq_dec k (UtilsDb.descriptorCache w)
                              (UtilsDb.accessLog w))
  /\ JsMap.size (ServerUtils.descriptorCache v) <= 100
  /\ (forall k,
        JsMap.has string_dec k (ServerUtils.descriptorCache v) = true ->
        JsMap.has string_dec k
          (ServerUtils.descriptorCache
             (snd (ServerUtils.extractFaceDescriptor e imageBuffer v)))
          = false ->
        JsMap.firstKey (ServerUtils.descriptorCache v) = Some k).
Proof.
  cbv zeta.
  pose proof (utilsDb_extractAll_inv api calls UtilsDb.worldInit
                utilsDb_init_inv) as Hinv.
  split; [exact (proj1 Hinv)|].
  split; [intros k; apply utilsDb_evicts_lru; exact Hinv|].
  split.
  - apply serverUtils_extractAll_size. simpl. lia.
  - intros k. apply serverUtils_evicts_first.
Qed.

(** In utils/db.js, after a hundred uploads and a second look at the
    first image, the next upload evicts the entry of the second image. *)
Lemma C6_witness :
  Aux.leastRecentlyUsed Z.eq_dec (UtilsDb.hashBuffer (Examples.image3 1))
    (UtilsDb.descriptorCache
       (@UtilsDb.extractAll Examples.everyFaceApi
          (Examples.uploads 100 ++ [(Examples.loadsAt 0, Examples.image3 0)])
          UtilsDb.worldInit))
    (UtilsDb.accessLog
       (@UtilsDb.extractAll Examples.everyFaceApi
          (Examples.uploads 100 ++ [(Examples.loadsAt 0, Examples.image3 0)])
          UtilsDb.worldInit)).
Proof.
  apply (proj1 (proj2 (C6_cache_bound_and_eviction Examples.everyFaceApi
           (Examples.uploads 100 ++ [(Examples.loadsAt 0, Examples.image3 0)])
           (Examples.loadsAt 0) (Examples.image3 100)))).
  - vm_compute. reflexivity.
  - vm_compute. reflexivity.
Defined.

(** * Further properties *)

(** ** Comparing two descriptors *)

Lemma double_squares_sym (a b : list Double.value) :
  Double.Distance.squares a b = Double.Distance.squares b a.
Proof.
  unfold Double.Distance.squares. revert b.
  induction a as [|x a IH]; intros [|y b]; simpl; try reflexivity.
  rewrite IH. f_equal. apply double_sq_diff_sym.
Qed.

Lemma double_distance_sym (a b : list Double.value) :
  length a = length b ->
  Double.Distance.distance4 a b = Double.Distance.distance4 b a
  /\ Double.Distance.distance8 a b = Double.Distance.distance8 b a.
Proof.
  intros Hlen.
  rewrite !double_distance4_regroups, !double_distance8_regroups by lia.
  rewrite (double_squares_sym b a). split; reflexivity.
Qed.

(** X1. [compareFaceDescriptors] answers [false] when a descriptor is
    missing.  On two descriptors it answers what the search of the same
    file answers for the second descriptor as the only candidate:
    [true] exactly when [findMatchingFaceDirectly] of
    server/utils/faceRecognition.js, respectively [findMatchingFace] of the
    third variant, returns a match.  On two descriptors of equal length
    it is symmetric.  Distances and comparisons are those of the code,
    on doubles. *)
Theorem compareFaceDescriptors_spec (d1 d2 : list Double.value)
    (threshold : float) (userId : string) :
  let candidate := {| Double.userId := userId;
                      Double.faceDescriptor := Some d2 |} in
  (Double.ServerUtils.compareFaceDescriptors (Some d1) (Some d2) threshold
   = true
   <-> Double.ServerUtils.findMatchingFaceDirectly d1 [candidate] threshold
       <> None)
  /\ (Double.Variant3.compareFaceDescriptors (Some d1) (Some d2) threshold
      = true
      <-> Double.Variant3.findMatchingFace (Some d1) (Some [candidate])
            threshold <> None)
  /\ (length d1 = length d2 ->
      Double.ServerUtils.compareFaceDescriptors (Some d1) (Some d2) threshold
      = Double.ServerUtils.compareFaceDescriptors (Some d2) (Some d1)
          threshold
      /\ Double.Variant3.compareFaceDescriptors (Some d1) (Some d2) threshold
         = Double.Variant3.compareFaceDescriptors (Some d2) (Some d1)
             threshold)
  /\ (forall d,
        Double.ServerUtils.compareFaceDescriptors None d threshold = false
        /\ Double.ServerUtils.compareFaceDescriptors d None threshold = false
        /\ Double.Variant3.compareFaceDescriptors None d threshold = false
        /\ Double.Variant3.compareFaceDescriptors d None threshold = false).
Proof.
  cbv zeta. split; [|split; [|split]].
  - rewrite double_serverUtils_matched_iff.
    unfold Double.ServerUtils.compareFaceDescriptors. split.
    + intros H. eexists _, d2. split; [left; reflexivity|].
      split; [reflexivity|exact H].
    + intros (c & dc & [<-|[]] & Hdc & H). injection Hdc as <-. exact H.
  - rewrite double_variant3_matched_iff.
    unfold Double.Variant3.compareFaceDescriptors. split.
    + intros H. eexists _, d2. split; [left; reflexivity|].
      split; [reflexivity|exact H].
    + intros (c & dc & [<-|[]] & Hdc & H). injection Hdc as <-. exact H.
  - intros Hlen. destruct (double_distance_sym d1 d2 Hlen) as [H4 H8].
    unfold Double.ServerUtils.compareFaceDescriptors,
           Double.Variant3.compareFaceDescriptors.
    rewrite H4, H8. split; reflexivity.
  - intros d. repeat split; destruct d; reflexivity.
Qed.

Lemma compareFaceDescriptors_spec_witness :
  Double.ServerUtils.compareFaceDescriptors
    (Some [Double.Number 3%float; Double.Number 0%float])
    (Some [Double.Number 0%float; Double.Number 4%float]) 0.6%float
  = Double.ServerUtils.compareFaceDescriptors
      (Some [Double.Number 0%float; Double.Number 4%float])
      (Some [Double.Number 3%float; Double.Number 0%float]) 0.6%float.
Proof.
  apply (proj1 (proj1 (proj2 (proj2 (compareFaceDescriptors_spec
           [Double.Number 3%float; Double.Number 0%float]
           [Double.Number 0%float; Double.Number 4%float] 0.6%float
           "u"%string))) eq_refl)).
Defined.

(** ** A query that is enrolled *)

Lemma sumSquares_self (d : list num) :
  Notions.finite d -> Distance.sumSquares d d = Num 0.
Proof.
  unfold Distance.sumSquares.
  induction d as [|x d IH]; intros Hfin; [reflexivity|].
  simpl. rewrite IH by (intros y Hy; apply Hfin; right; exact Hy).
  destruct (Hfin x (or_introl eq_refl)) as [r ->]. simpl.
  f_equal. ring.
Qed.

Lemma euclideanDistance_self (d : list num) :
  Notions.finite d -> Distance.euclideanDistance d d = Num 0.
Proof.
  intros Hfin. unfold Distance.euclideanDistance.
  rewrite sumSquares_self by exact Hfin. simpl.
  rewrite (proj2 (Rltb_false 0 0)) by lra. rewrite sqrt_0. reflexivity.
Qed.

Lemma not_closer_than_zero (r : R) (d : num) :
  d = Num r -> (0 <= r)%R -> nltb (Num 0) d = false -> d = Num 0.
Proof.
  intros -> Hpos H. simpl in H. apply Rltb_false in H.
  f_equal. lra.
Qed.

(** X2. When a candidate carries exactly the query descriptor (all
    components finite), every positive threshold yields a match: at
    distance 0 in server/utils/faceRecognition.js and in the third
    variant; in utils/db.js at distance 0 or, when the search stopped
    early, below 0.7 times the threshold. *)
Theorem enrolled_query_is_matched (t : list num) (ps : list faceProfile)
    (p : faceProfile) (tau : R) :
  In p ps -> faceDescriptor p = Some t -> Notions.finite t -> (0 < tau)%R ->
  (exists m, ServerUtils.findMatchingFaceDirectly t ps (Num tau)
             = Some {| match_ := Some m; distance := Num 0 |})
  /\ (exists m, Variant3.findMatchingFace (Some t) (Some ps) (Num tau)
                = Some {| match_ := Some m; distance := Num 0 |})
  /\ (exists m d, UtilsDb.findMatchingFace (Some t) (Some ps) (Num tau)
                  = Some {| match_ := Some m; distance := d |}
                  /\ (d = Num 0 \/ nltb d (nmul (Num tau) (Num 0.7)) = true)).
Proof.
  intros Hin Hp Hfin Htau.
  assert (H4 : Distance.distance4 t t = Num 0)
    by (rewrite distance4_euclidean by reflexivity;
        apply euclideanDistance_self; exact Hfin).
  assert (H8 : Distance.distance8 t t = Num 0)
    by (rewrite distance8_euclidean by reflexivity;
        apply euclideanDistance_self; exact Hfin).
  assert (Hlt : nltb (Num 0) (Num tau) = true)
    by (simpl; apply Rltb_true; exact Htau).
  split; [|split].
  - pose proof (proj2 (serverUtils_matched_iff t ps (Num tau))) as Hsome.
    unfold ServerUtils.findMatchingFaceDirectly,
           ServerUtils.findMatchingFaceDirectly_run in *. simpl in *.
    destruct (scanDirectly_final t (Num tau) ps) as ([_ Hbest] & Hmin & _).
    destruct (bestMatch (ServerUtils.scanDirectly t (Num tau) ps scanStart))
      as [m|].
    + exists m. do 2 f_equal.
      destruct Hbest as (_ & dm & r & _ & Hbd & Hr & Hpos).
      apply (not_closer_than_zero r); [congruence|exact Hpos|].
      specialize (Hmin p t Hin Hp). rewrite H4 in Hmin.
      simpl in Hmin, Hlt. rewrite Hlt in Hmin. exact Hmin.
    + exfalso. apply Hsome; [|reflexivity].
      exists p, t. rewrite H4. auto.
  - pose proof (proj2 (variant3_matched_iff t ps (Num tau))) as Hsome.
    unfold Variant3.findMatchingFace, Variant3.findMatchingFace_run in *.
    destruct ps as [|c0 ps]; [destruct Hin|].
    cbn [length Nat.eqb returned] in *.
    destruct (scan_final t (c0 :: ps)) as ([_ Hbest] & Hmin).
    destruct (nltb (bestDistance (Variant3.scan t (c0 :: ps) scanStart))
                   (Num tau)) eqn:Hth.
    + destruct (bestMatch (Variant3.scan t (c0 :: ps) scanStart)) as [m|].
      * exists m. do 2 f_equal.
        destruct Hbest as (_ & dm & r & _ & Hbd & Hr & Hpos).
        apply (not_closer_than_zero r); [congruence|exact Hpos|].
        specialize (Hmin p t Hin Hp). rewrite H8 in Hmin. exact Hmin.
      * rewrite Hbest in Hth. discriminate Hth.
    + exfalso. apply Hsome; [|reflexivity].
      exists p, t. rewrite H8. auto.
  - assert (Hne : ps <> []) by (intros ->; destruct Hin).
    pose proof (proj2 (utilsDb_matched_iff t ps tau)) as Hsome.
    rewrite findMatchingFace_flat in * by exact Hne.
    unfold Aux.flatSearch in *.
    destruct (scanBatch_cases t (Num tau) ps)
      as [(st' & Hscan & [_ Hbest] & Hmin)
         |(st' & before & m & after & Hscan & _ & Hm & _ & Hearly)];
      rewrite Hscan in *.
    + unfold UtilsDb.finish in *.
      destruct (nleb (bestDistance st') (Num tau)) eqn:Hle.
      * destruct (bestMatch st') as [m|] eqn:Hm.
        -- exists m, (bestDistance st'). split.
           ++ unfold UtilsDb.found. simpl. rewrite Hm. reflexivity.
           ++ left. destruct Hbest as (_ & dm & r & _ & Hbd & Hr & Hpos).
              apply (not_closer_than_zero r); [congruence|exact Hpos|].
              specialize (Hmin p t Hin Hp). rewrite H8 in Hmin. exact Hmin.
        -- rewrite Hbest in Hle. discriminate Hle.
      * exfalso. apply Hsome; [|reflexivity].
        exists p, t. rewrite H8. split; [exact Hin|split; [exact Hp|]].
        simpl. apply Rleb_true. lra.
    + exists m, (bestDistance st'). split.
      * unfold UtilsDb.found. simpl. rewrite Hm. reflexivity.
      * right. exact Hearly.
Qed.

Lemma enrolled_query_is_matched_witness :
  exists m, ServerUtils.findMatchingFaceDirectly Examples.query0
              [Examples.atQuarter; Examples.atZero] (Num 0.6)
            = Some {| match_ := Some m; distance := Num 0 |}.
Proof.
  assert (Hfin : Notions.finite Examples.query0)
    by (intros x [<-|[]]; exists 0%R; reflexivity).
  assert (Hpos : (0 < 0.6)%R) by lra.
  exact (proj1 (enrolled_query_is_matched Examples.query0
                  [Examples.atQuarter; Examples.atZero] Examples.atZero 0.6
                  (or_intror (or_introl eq_refl)) eq_refl Hfin Hpos)).
Defined.

(** ** Raising the threshold *)

Lemma someWithin_le_mono (dist : list num -> list num -> num) (t : list num)
    (ps : list faceProfile) (tau1 tau2 : R) :
  (tau1 <= tau2)%R ->
  Aux.someWithin dist nleb t ps (Num tau1) ->
  Aux.someWithin dist nleb t ps (Num tau2).
Proof.
  intros Hle (c & dc & Hin & Hc & H). exists c, dc. repeat split; auto.
  destruct (dist t dc); simpl in *; try discriminate; try reflexivity.
  apply Rleb_true in H. apply Rleb_true. lra.
Qed.

Lemma someWithin_lt_mono (dist : list num -> list num -> num) (t : list num)
    (ps : list faceProfile) (tau1 tau2 : R) :
  (tau1 <= tau2)%R ->
  Aux.someWithin dist nltb t ps (Num tau1) ->
  Aux.someWithin dist nltb t ps (Num tau2).
Proof.
  intros Hle (c & dc & Hin & Hc & H). exists c, dc. repeat split; auto.
  destruct (dist t dc); simpl in *; try discriminate; try reflexivity.
  apply Rltb_true in H. apply Rltb_true. lra.
Qed.

(** X3. Raising the threshold never turns a match into [null], in any of the
    three searches. *)
Theorem threshold_monotone (t : list num) (ps : list faceProfile)
    (tau1 tau2 : R) :
  (tau1 <= tau2)%R ->
  (UtilsDb.findMatchingFace (Some t) (Some ps) (Num tau1) <> None ->
   UtilsDb.findMatchingFace (Some t) (Some ps) (Num tau2) <> None)
  /\ (ServerUtils.findMatchingFaceDirectly t ps (Num tau1) <> None ->
      ServerUtils.findMatchingFaceDirectly t ps (Num tau2) <> None)
  /\ (Variant3.findMatchingFace (Some t) (Some ps) (Num tau1) <> None ->
      Variant3.findMatchingFace (Some t) (Some ps) (Num tau2) <> None).
Proof.
  intros Hle. repeat split.
  - rewrite !utilsDb_matched_iff. apply someWithin_le_mono. exact Hle.
  - rewrite !serverUtils_matched_iff. apply someWithin_lt_mono. exact Hle.
  - rewrite !variant3_matched_iff. apply someWithin_lt_mono. exact Hle.
Qed.

Lemma threshold_monotone_witness :
  Variant3.findMatchingFace (Some Examples.query0) (Some [Examples.atQuarter])
    (Num 0.6) <> None.
Proof.
  apply (proj2 (proj2 (threshold_monotone Examples.query0
                         [Examples.atQuarter] 0.5 0.6 ltac:(lra)))).
  apply variant3_matched_iff.
  exists Examples.atQuarter, [Num 0.25]. repeat split.
  - left. reflexivity.
  - unfold Examples.query0. rewrite distance8_1d, Rabs_0_quarter.
    simpl. decide_cmp. reflexivity.
Defined.

(** ** Ties go to the candidate met first *)

Lemma double_displaced_is_farther (y best x : float) :
  PrimFloat.ltb y best = false -> PrimFloat.ltb x best = true ->
  PrimFloat.leb y x = false.
Proof.
  intros H1 H2. destruct (PrimFloat.leb y x) eqn:E; [exfalso|reflexivity].
  rewrite (double_leb_ltb_trans _ _ _ E H2) in H1. discriminate H1.
Qed.

Lemma double_displaced_within_is_farther (y th best x : float) :
  PrimFloat.ltb y th && PrimFloat.ltb y best = false ->
  PrimFloat.ltb x th = true -> PrimFloat.ltb x best = true ->
  PrimFloat.leb y x = false.
Proof.
  intros H1 H2 H3. destruct (PrimFloat.leb y x) eqn:E; [exfalso|reflexivity].
  rewrite (double_leb_ltb_trans _ _ _ E H2),
          (double_leb_ltb_trans _ _ _ E H3) in H1.
  discriminate H1.
Qed.

Lemma double_firstAtDistance_later
    (dist : list Double.value -> list Double.value -> float)
    (t : list Double.value) (seen : list Double.faceProfile)
    (c m : Double.faceProfile) (d : float) :
  Double.Notions.firstAtDistance dist t seen m d ->
  Double.Notions.firstAtDistance dist t (seen ++ [c]) m d.
Proof.
  intros (before & after & -> & H).
  exists before, (after ++ [c]). split; [|exact H].
  rewrite <- app_assoc. reflexivity.
Qed.

Lemma double_firstAtDistance_new
    (dist : list Double.value -> list Double.value -> float)
    (t : list Double.value) (seen : list Double.faceProfile)
    (c : Double.faceProfile) (d : float) :
  (forall c' dc, In c' seen -> Double.faceDescriptor c' = Some dc ->
                 PrimFloat.leb (dist t dc) d = false) ->
  Double.Notions.firstAtDistance dist t (seen ++ [c]) c d.
Proof. intros H. exists seen, []. split; [reflexivity|exact H]. Qed.

Lemma double_scan_first (t : list Double.value)
    (ps seen : list Double.faceProfile) (st : Double.scanState) :
  Double.Notions.bestOf Double.Distance.distance8 t seen st ->
  Double.Notions.noneCloser Double.Distance.distance8 t seen
    (Double.bestDistance st) ->
  (forall m, Double.bestMatch st = Some m ->
             Double.Notions.firstAtDistance Double.Distance.distance8 t seen m
               (Double.bestDistance st)) ->
  forall m, Double.bestMatch (Double.Variant3.scan t ps st) = Some m ->
            Double.Notions.firstAtDistance Double.Distance.distance8 t
              (seen ++ ps) m
              (Double.bestDistance (Double.Variant3.scan t ps st)).
Proof.
  revert seen st. induction ps as [|c rest IH]; intros seen st Hbest Hmin Hfirst.
  - simpl. rewrite app_nil_r. exact Hfirst.
  - destruct (double_scan_spec t [c] seen st Hbest Hmin) as [Hbest1 Hmin1].
    assert (Hshift : (seen ++ [c]) ++ rest = seen ++ c :: rest)
      by (rewrite <- app_assoc; reflexivity).
    rewrite <- Hshift.
    change (c :: rest) with ([c] ++ rest).
    rewrite (double_scan_app t [c] rest st).
    apply IH; [exact Hbest1|exact Hmin1|].
    clear IH Hbest1 Hmin1. simpl.
    destruct (Double.faceDescriptor c) as [dc|] eqn:Hc.
    + destruct (PrimFloat.ltb (Double.Distance.distance8 t dc)
                              (Double.bestDistance st)) eqn:Hlt;
        simpl; intros m Hm.
      * injection Hm as <-. apply double_firstAtDistance_new.
        intros c' dc' Hin Hc'.
        exact (double_displaced_is_farther _ _ _ (Hmin c' dc' Hin Hc') Hlt).
      * apply double_firstAtDistance_later, Hfirst, Hm.
    + intros m Hm. apply double_firstAtDistance_later, Hfirst, Hm.
Qed.

Lemma double_scanDirectly_first (t : list Double.value) (th : float)
    (ps seen : list Double.faceProfile) (st : Double.scanState) :
  Double.Notions.bestOf Double.Distance.distance4 t seen st ->
  Double.Notions.noneCloserWithin Double.Distance.distance4 t seen th
    (Double.bestDistance st) ->
  (Double.bestMatch st <> None ->
   PrimFloat.ltb (Double.bestDistance st) th = true) ->
  (forall m, Double.bestMatch st = Some m ->
             Double.Notions.firstAtDistance Double.Distance.distance4 t seen m
               (Double.bestDistance st)) ->
  forall m,
    Double.bestMatch (Double.ServerUtils.scanDirectly t th ps st) = Some m ->
    Double.Notions.firstAtDistance Double.Distance.distance4 t (seen ++ ps) m
      (Double.bestDistance (Double.ServerUtils.scanDirectly t th ps st)).
Proof.
  revert seen st.
  induction ps as [|c rest IH]; intros seen st Hbest Hmin Hth Hfirst.
  - simpl. rewrite app_nil_r. exact Hfirst.
  - destruct (double_scanDirectly_spec t th [c] seen st Hbest Hmin Hth)
      as (Hbest1 & Hmin1 & Hth1).
    assert (Hshift : (seen ++ [c]) ++ rest = seen ++ c :: rest)
      by (rewrite <- app_assoc; reflexivity).
    rewrite <- Hshift.
    change (c :: rest) with ([c] ++ rest).
    rewrite (double_scanDirectly_app t th [c] rest st).
    apply IH; [exact Hbest1|exact Hmin1|exact Hth1|].
    clear IH Hbest1 Hmin1 Hth1. simpl.
    destruct (Double.faceDescriptor c) as [dc|] eqn:Hc.
    + destruct (PrimFloat.ltb (Double.Distance.distance4 t dc) th) eqn:Hlt;
        destruct (PrimFloat.ltb (Double.Distance.distance4 t dc)
                                (Double.bestDistance st)) eqn:Himp;
        simpl; intros m Hm;
        try (apply double_firstAtDistance_later, Hfirst, Hm).
      injection Hm as <-. apply double_firstAtDistance_new.
      intros c' dc' Hin Hc'.
      exact (double_displaced_within_is_farther _ _ _ _ (Hmin c' dc' Hin Hc')
               Hlt Himp).
    + intros m Hm. apply double_firstAtDistance_later, Hfirst, Hm.
Qed.

Lemma double_scanBatch_first (t : list Double.value) (th : float)
    (ps seen : list Double.faceProfile) (st : Double.scanState) :
  Double.Notions.bestOf Double.Distance.distance8 t seen st ->
  Double.Notions.noneCloser Double.Distance.distance8 t seen
    (Double.bestDistance st) ->
  (forall m, Double.bestMatch st = Some m ->
             Double.Notions.firstAtDistance Double.Distance.distance8 t seen m
               (Double.bestDistance st)) ->
  forall st' m,
    (Double.UtilsDb.scanBatch t th ps st = Double.UtilsDb.Continue st'
     \/ Double.UtilsDb.scanBatch t th ps st = Double.UtilsDb.Return st') ->
    Double.bestMatch st' = Some m ->
    Double.Notions.firstAtDistance Double.Distance.distance8 t (seen ++ ps) m
      (Double.bestDistance st').
Proof.
  revert seen st. induction ps as [|c rest IH]; intros seen st Hbest Hmin Hfirst.
  - simpl. intros st' m [H|H]; [|discriminate H].
    injection H as <-. rewrite app_nil_r. apply Hfirst.
  - assert (Hshift : (seen ++ [c]) ++ rest = seen ++ c :: rest)
      by (rewrite <- app_assoc; reflexivity).
    simpl. rewrite <- Hshift.
    destruct (Double.faceDescriptor c) as [dc|] eqn:Hc.
    + destruct (PrimFloat.ltb (Double.Distance.distance8 t dc)
                              (Double.bestDistance st)) eqn:Hlt.
      * assert (Hnew : Double.Notions.firstAtDistance
                         Double.Distance.distance8 t
                         (seen ++ [c]) c (Double.Distance.distance8 t dc)).
        { apply double_firstAtDistance_new. intros c' dc' Hin Hc'.
          exact (double_displaced_is_farther _ _ _ (Hmin c' dc' Hin Hc')
                   Hlt). }
        destruct (double_take _ t seen c dc st Hc Hlt Hbest Hmin)
          as [Hbest1 Hmin1].
        destruct (PrimFloat.ltb (Double.Distance.distance8 t dc)
                                (PrimFloat.mul th 0.7%float)) eqn:He.
        -- intros st' m [H|H]; [discriminate H|].
           injection H as <-. simpl. intros Hm. injection Hm as <-.
           destruct Hnew as (before & after & Heq & Hfar).
           exists before, (after ++ rest). split; [|exact Hfar].
           rewrite Heq, <- app_assoc. reflexivity.
        -- apply IH; [exact Hbest1|exact Hmin1|].
           simpl. intros m Hm. injection Hm as <-. exact Hnew.
      * destruct (double_keep _ t seen c dc st Hc Hlt Hbest Hmin)
          as [Hbest1 Hmin1].
        apply IH; [exact Hbest1|exact Hmin1|].
        simpl. intros m Hm. apply double_firstAtDistance_later, Hfirst, Hm.
    + destruct (double_skip _ t seen c st Hc Hbest Hmin) as [Hbest1 Hmin1].
      apply IH; [exact Hbest1|exact Hmin1|].
      intros m Hm. apply double_firstAtDistance_later, Hfirst, Hm.
Qed.

(** X4. Among candidates at the same distance the one met first is returned:
    every candidate that stands before the returned one has a strictly
    larger computed distance (or one that cannot be compared), in all
    three searches.  Distances and comparisons are those of the code, on
    doubles. *)
Theorem first_of_equals_is_returned (t : list Double.value)
    (ps : list Double.faceProfile) (th : float) (m : Double.faceProfile)
    (d : float) :
  (Double.UtilsDb.findMatchingFace (Some t) (Some ps) th
     = Some {| Double.match_ := Some m; Double.distance := d |} ->
   Double.Notions.firstAtDistance Double.Distance.distance8 t ps m d)
  /\ (Double.ServerUtils.findMatchingFaceDirectly t ps th
        = Some {| Double.match_ := Some m; Double.distance := d |} ->
      Double.Notions.firstAtDistance Double.Distance.distance4 t ps m d)
  /\ (Double.Variant3.findMatchingFace (Some t) (Some ps) th
        = Some {| Double.match_ := Some m; Double.distance := d |} ->
      Double.Notions.firstAtDistance Double.Distance.distance8 t ps m d).
Proof.
  assert (Hstart : forall dist m',
             Double.bestMatch Double.scanStart = Some m' ->
             Double.Notions.firstAtDistance dist t [] m'
               (Double.bestDistance Double.scanStart))
    by (intros dist m' H; discriminate H).
  assert (Hnil : forall dist d',
             Double.Notions.noneCloser dist t [] d')
    by (intros dist d' c dc []).
  split; [|split].
  - intros Hfind.
    assert (Hne : ps <> []) by (intros ->; discriminate Hfind).
    rewrite double_findMatchingFace_flat in Hfind by exact Hne.
    unfold Double.Notions.flatSearch in Hfind.
    pose proof (double_scanBatch_first t th ps [] Double.scanStart
                  (double_bestOf_start _ _) (Hnil _ _) (Hstart _)) as Hfirst.
    destruct (Double.UtilsDb.scanBatch t th ps Double.scanStart)
      as [st'|st'] eqn:Hscan.
    + unfold Double.UtilsDb.finish in Hfind.
      destruct (PrimFloat.leb (Double.bestDistance st') th);
        [|discriminate Hfind].
      injection Hfind as Hm <-. exact (Hfirst st' m (or_introl eq_refl) Hm).
    + injection Hfind as Hm <-. exact (Hfirst st' m (or_intror eq_refl) Hm).
  - unfold Double.ServerUtils.findMatchingFaceDirectly,
           Double.ServerUtils.findMatchingFaceDirectly_run. simpl.
    intros Hfind.
    destruct (Double.bestMatch
                (Double.ServerUtils.scanDirectly t th ps Double.scanStart))
      as [m'|] eqn:Hm; [|discriminate Hfind].
    injection Hfind as -> <-.
    apply (double_scanDirectly_first t th ps [] Double.scanStart
             (double_bestOf_start _ _));
      [intros c dc []| |apply Hstart|exact Hm].
    intros H. exfalso. apply H. reflexivity.
  - rewrite double_variant3_flat. cbv zeta. intros Hfind.
    destruct (PrimFloat.ltb
                (Double.bestDistance
                   (Double.Variant3.scan t ps Double.scanStart)) th);
      [|discriminate Hfind].
    injection Hfind as Hm <-.
    exact (double_scan_first t ps [] Double.scanStart
             (double_bestOf_start _ _) (Hnil _ _) (Hstart _) m Hm).
Qed.

Lemma first_of_equals_is_returned_witness :
  Double.Notions.firstAtDistance Double.Distance.distance4
    Double.Examples.query0
    [Double.Examples.atQuarter; Double.Examples.atZero]
    Double.Examples.atZero 0%float.
Proof.
  apply (proj1 (proj2 (first_of_equals_is_returned Double.Examples.query0
                         [Double.Examples.atQuarter; Double.Examples.atZero]
                         0.6%float Double.Examples.atZero 0%float))).
  vm_compute. reflexivity.
Defined.

(** ** server/utils/faceRecognition.js: the batched search *)

Lemma makeBatches_concat (fuel : nat) (ps : list faceProfile)
    (batchSize i : nat) :
  length ps <= i + batchSize * fuel ->
  concat (ServerUtils.makeBatches fuel ps batchSize i) = skipn i ps.
Proof.
  revert i. induction fuel as [|fuel IH]; intros i Hlen.
  - simpl. rewrite skipn_all2 by lia. reflexivity.
  - cbn [ServerUtils.makeBatches].
    destruct (Nat.ltb_spec i (length ps)) as [Hi|Hi].
    + cbn [concat]. rewrite IH by lia. unfold slice.
      replace (i + batchSize - i) with batchSize by lia.
      replace (i + batchSize) with (batchSize + i) by lia.
      rewrite <- skipn_skipn. apply firstn_skipn.
    + simpl. rewrite skipn_all2 by lia. reflexivity.
Qed.

Ltac split_cmp :=
  unfold Rltb in *;
  repeat match goal with
         | |- context [Rlt_dec ?a ?b] => destruct (Rlt_dec a b)
         | H : context [Rlt_dec ?a ?b] |- _ => destruct (Rlt_dec a b)
         end.

(** Scanning one more candidate from the running state gives what
    merging the running state with the scan of the batch alone gives. *)
Lemma scanDirectly_merge_step (t : list num) (th : num) (c : faceProfile)
    (st sf sb : scanState) :
  Notions.underThreshold th st ->
  Notions.underThreshold th sb ->
  Notions.best sf = Notions.mergeBest st sb ->
  Notions.underThreshold th (ServerUtils.scanDirectly t th [c] sb)
  /\ Notions.best (ServerUtils.scanDirectly t th [c] sf)
     = Notions.mergeBest st (ServerUtils.scanDirectly t th [c] sb).
Proof.
  unfold Notions.underThreshold, Notions.best, Notions.mergeBest.
  intros Hst Hsb Hsf. simpl.
  destruct (faceDescriptor c) as [dc|]; [|split; assumption].
  destruct sf as [mf df nf], sb as [mb db nb], st as [ms ds ns].
  simpl in *.
  destruct (distance4_range t dc) as [Hx|[Hx|(rx & Hx & _)]];
    rewrite Hx; clear Hx;
    destruct ms as [pst|], mb as [psb|];
    repeat match goal with
           | H : exists r, _ |- _ => destruct H as (? & ? & ?)
           end; subst;
    destruct th; simpl in *; try discriminate;
    split_cmp; simpl in *; try discriminate;
    try (injection Hsf as ? ?; subst); simpl;
    split_cmp; simpl;
    repeat match goal with
           | |- _ /\ _ => split
           | |- exists r, Num ?x = Num r /\ _ => exists x; split; [reflexivity|]
           end;
    split_cmp; simpl; try reflexivity; try congruence; try (exfalso; lra).
Qed.

Lemma scanDirectly_merge (t : list num) (th : num) (b : list faceProfile)
    (st sf sb : scanState) :
  Notions.underThreshold th st ->
  Notions.underThreshold th sb ->
  Notions.best sf = Notions.mergeBest st sb ->
  Notions.underThreshold th (ServerUtils.scanDirectly t th b sb)
  /\ Notions.best (ServerUtils.scanDirectly t th b sf)
     = Notions.mergeBest st (ServerUtils.scanDirectly t th b sb).
Proof.
  revert sf sb. induction b as [|c rest IH]; intros sf sb Hst Hsb Hsf.
  - split; assumption.
  - change (c :: rest) with ([c] ++ rest). rewrite !scanDirectly_app.
    destruct (scanDirectly_merge_step t th c st sf sb Hst Hsb Hsf)
      as [Hsb1 Hsf1].
    apply IH; assumption.
Qed.

Lemma underThreshold_best (th : num) (st1 st2 : scanState) :
  Notions.best st1 = Notions.best st2 ->
  Notions.underThreshold th st1 -> Notions.underThreshold th st2.
Proof.
  unfold Notions.best, Notions.underThreshold. intros H.
  injection H as -> ->. tauto.
Qed.

Lemma mergeBest_best (st1 st2 sb : scanState) :
  Notions.best st1 = Notions.best st2 ->
  Notions.mergeBest st1 sb = Notions.mergeBest st2 sb.
Proof.
  unfold Notions.best, Notions.mergeBest. intros H.
  injection H as -> ->. reflexivity.
Qed.

Lemma underThreshold_merge (th : num) (st sb s : scanState) :
  Notions.underThreshold th st -> Notions.underThreshold th sb ->
  Notions.best s = Notions.mergeBest st sb ->
  Notions.underThreshold th s.
Proof.
  unfold Notions.best, Notions.mergeBest, Notions.underThreshold.
  intros Hst Hsb H.
  destruct (bestMatch sb) as [p|].
  - destruct (nltb (bestDistance sb) (bestDistance st));
      injection H as -> ->; assumption.
  - injection H as -> ->. assumption.
Qed.

(** The batched loop keeps the best match that a single scan of all the
    batches, one after the other, keeps. *)
Lemma foldBatches_concat (t : list num) (th : num)
    (batches : list (list faceProfile)) (st sf : scanState) :
  Notions.best st = Notions.best sf ->
  Notions.underThreshold th st ->
  Notions.best (ServerUtils.foldBatches t th batches st)
  = Notions.best (ServerUtils.scanDirectly t th (concat batches) sf).
Proof.
  revert st sf. induction batches as [|b rest IH]; intros st sf Hbest Hst.
  - exact Hbest.
  - cbn [concat]. rewrite scanDirectly_app.
    assert (Hstart : Notions.underThreshold th scanStart) by reflexivity.
    assert (Hsf : Notions.underThreshold th sf)
      by exact (underThreshold_best th st sf Hbest Hst).
    destruct (scanDirectly_merge t th b sf sf scanStart Hsf Hstart eq_refl)
      as [Hsb Hmerge].
    rewrite <- (mergeBest_best st sf _ Hbest) in Hmerge.
    set (sb := ServerUtils.scanDirectly t th b scanStart) in *.
    assert (Hnext : forall s,
               Notions.best s = Notions.mergeBest st sb ->
               Notions.best (ServerUtils.foldBatches t th rest s)
               = Notions.best
                   (ServerUtils.scanDirectly t th (concat rest)
                      (ServerUtils.scanDirectly t th b sf))).
    { intros s Hs. apply IH; [congruence|].
      exact (underThreshold_merge th st sb s Hst Hsb Hs). }
    cbn [ServerUtils.foldBatches].
    unfold ServerUtils.findMatchingFaceDirectly_run. cbn [returned].
    fold sb. unfold Notions.mergeBest in Hnext.
    destruct (bestMatch sb) as [p|]; simpl.
    + destruct (nltb (bestDistance sb) (bestDistance st));
        apply Hnext; reflexivity.
    + apply Hnext. reflexivity.
Qed.

(** X5. [findMatchingFace] of server/utils/faceRecognition.js.  With fewer
    than ten profiles, or a single core, it returns what
    [findMatchingFaceDirectly] returns.  Otherwise it splits the
    profiles into batches, finds the same profile as
    [findMatchingFaceDirectly] on the whole list, and returns that
    profile itself: never an object with [match] and [distance]. *)
Theorem findMatchingFace_paths (CPU_CORES : nat) (t : list num)
    (ps : list faceProfile) (th : num) :
  ps <> [] ->
  let direct := ServerUtils.findMatchingFaceDirectly t ps th in
  (length ps < 10 \/ CPU_CORES <= 1 ->
   ServerUtils.findMatchingFace CPU_CORES (Some t) (Some ps) th
   = ServerUtils.ofDirect direct)
  /\ (10 <= length ps -> 1 < CPU_CORES ->
      ServerUtils.findMatchingFace CPU_CORES (Some t) (Some ps) th
      = match direct with
        | Some {| match_ := Some p |} => ServerUtils.BareProfile p
        | _ => ServerUtils.Null
        end).
Proof.
  intros Hne. cbv zeta.
  unfold ServerUtils.findMatchingFace, ServerUtils.findMatchingFace_run.
  destruct (Nat.eqb_spec (length ps) 0) as [H0|H0];
    [destruct ps; [congruence|discriminate H0]|].
  split.
  - intros Hsmall.
    assert (Hcond : (length ps <? 10) || (CPU_CORES <=? 1) = true).
    { apply orb_true_iff. destruct Hsmall as [H|H];
        [left; apply Nat.ltb_lt|right; apply Nat.leb_le]; exact H. }
    rewrite Hcond. reflexivity.
  - intros Hmany Hcores.
    assert (Hcond : (length ps <? 10) || (CPU_CORES <=? 1) = false).
    { apply orb_false_iff. split;
        [apply Nat.ltb_ge|apply Nat.leb_gt]; assumption. }
    rewrite Hcond. cbn [returned].
    assert (Hsize : 1 <= (length ps + CPU_CORES - 1) / CPU_CORES)
      by (apply Nat.div_str_pos; lia).
    pose proof (foldBatches_concat t th
                  (ServerUtils.makeBatches (length ps) ps
                     ((length ps + CPU_CORES - 1) / CPU_CORES) 0)
                  scanStart scanStart eq_refl eq_refl) as Hfold.
    rewrite makeBatches_concat in Hfold by nia.
    simpl skipn in Hfold. unfold Notions.best in Hfold.
    injection Hfold as Hm _. rewrite Hm.
    unfold ServerUtils.findMatchingFaceDirectly,
           ServerUtils.findMatchingFaceDirectly_run. cbn [returned].
    destruct (bestMatch (ServerUtils.scanDirectly t th ps scanStart));
      reflexivity.
Qed.

Lemma findMatchingFace_paths_witness :
  ServerUtils.findMatchingFace 2 (Some Examples.query0)
    (Some (repeat Examples.atQuarter 10)) (Num 0.6)
  = match ServerUtils.findMatchingFaceDirectly Examples.query0
            (repeat Examples.atQuarter 10) (Num 0.6) with
    | Some {| match_ := Some p |} => ServerUtils.BareProfile p
    | _ => ServerUtils.Null
    end.
Proof.
  apply (proj2 (findMatchingFace_paths 2 Examples.query0
                  (repeat Examples.atQuarter 10) (Num 0.6)
                  ltac:(discriminate))); simpl; lia.
Defined.

(** ** Reloading the models *)

Lemma fold_left_invariant {A B : Type} (f : A -> B -> A) (P : A -> Prop) :
  (forall a b, P a -> P (f a b)) ->
  forall l a, P a -> P (fold_left f l a).
Proof.
  intros Hstep l. induction l as [|b l IH]; intros a Ha; [exact Ha|].
  simpl. apply IH, Hstep, Ha.
Qed.

Lemma serverUtils_loaded_is_settled (evs : list loaderEvent) :
  ServerUtils.modelsLoaded (ServerUtils.loaderRun evs) = true ->
  ServerUtils.modelLoadingPromise (ServerUtils.loaderRun evs) = None.
Proof.
  unfold ServerUtils.loaderRun.
  apply (fold_left_invariant ServerUtils.loaderStep
           (fun s => ServerUtils.modelsLoaded s = true ->
                     ServerUtils.modelLoadingPromise s = None));
    [|discriminate].
  intros s ev Hs. destruct ev as [now|now|]; simpl.
  - unfold ServerUtils.loadModels.
    destruct (ServerUtils.modelLoadingPromise s) eqn:Hp; simpl.
    + intros Hl. rewrite Hp. exact (Hs Hl).
    + destruct (ServerUtils.modelsLoaded s) eqn:Hl; simpl;
        [intros _; exact Hp|try rewrite Hl; discriminate].
  - destruct (ServerUtils.inFlight s =? 0); [exact Hs|reflexivity].
  - destruct (ServerUtils.inFlight s =? 0); [exact Hs|reflexivity].
Qed.

Lemma serverUtils_settled_step (s : ServerUtils.loaderState)
    (ev : loaderEvent) :
  ServerUtils.modelsLoaded s = true ->
  ServerUtils.modelLoadingPromise s = None ->
  ServerUtils.inFlight s = 0 ->
  ServerUtils.loaderStep s ev = s.
Proof.
  intros Hl Hp Hf. destruct ev as [now|now|]; simpl.
  - unfold ServerUtils.loadModels. rewrite Hp, Hl. reflexivity.
  - rewrite Hf. reflexivity.
  - rewrite Hf. reflexivity.
Qed.

(** X6. [loadModels] of server/utils/faceRecognition.js loads the models
    once: after a load has succeeded, nothing that happens later changes
    the loader, no further load is started, and every call is handed an
    already resolved promise. *)
Theorem serverUtils_models_load_once (evs later : list loaderEvent) :
  ServerUtils.modelsLoaded (ServerUtils.loaderRun evs) = true ->
  ServerUtils.loaderRun (evs ++ later) = ServerUtils.loaderRun evs
  /\ ServerUtils.loadModels (ServerUtils.loaderRun (evs ++ later))
     = (AlreadyResolved, ServerUtils.loaderRun evs).
Proof.
  intros Hl.
  pose proof (serverUtils_loaded_is_settled evs Hl) as Hp.
  assert (Hf : ServerUtils.inFlight (ServerUtils.loaderRun evs) = 0).
  { unfold ServerUtils.loaderRun in *.
    rewrite serverUtils_run_inFlight by reflexivity.
    rewrite Hp. reflexivity. }
  assert (Hrun : ServerUtils.loaderRun (evs ++ later)
                 = ServerUtils.loaderRun evs).
  { unfold ServerUtils.loaderRun in *. rewrite fold_left_app.
    apply (fold_left_invariant ServerUtils.loaderStep
             (fun s => s = fold_left ServerUtils.loaderStep evs
                             ServerUtils.loaderInit));
      [|reflexivity].
    intros s ev ->. apply serverUtils_settled_step; assumption. }
  split; [exact Hrun|].
  rewrite Hrun. unfold ServerUtils.loadModels. rewrite Hp, Hl. reflexivity.
Qed.

Lemma serverUtils_models_load_once_witness :
  ServerUtils.loaderRun
    ([CallLoadModels 0; LoadSucceeded 5]
       ++ [CallLoadModels 1000000; LoadFailed; CallLoadModels 2000000])
  = ServerUtils.loaderRun [CallLoadModels 0; LoadSucceeded 5].
Proof.
  apply (proj1 (serverUtils_models_load_once
                  [CallLoadModels 0; LoadSucceeded 5]
                  [CallLoadModels 1000000; LoadFailed;
                   CallLoadModels 2000000] eq_refl)).
Defined.

Lemma utilsDb_settled_step (s : UtilsDb.loaderState) (ev : loaderEvent) :
  UtilsDb.modelsLoaded s = true ->
  UtilsDb.modelLoadingPromise s = None ->
  UtilsDb.inFlight s = 0 ->
  match ev with
  | CallLoadModels now =>
      (now < UtilsDb.lastModelLoadTime s + UtilsDb.MODEL_VALIDITY_DURATION)%Z
  | _ => True
  end ->
  UtilsDb.loaderStep s ev = s.
Proof.
  intros Hl Hp Hf Hev. destruct ev as [now|now|]; simpl.
  - unfold UtilsDb.loadModels, UtilsDb.modelsValid. rewrite Hl. simpl.
    replace (now - UtilsDb.lastModelLoadTime s
             <? UtilsDb.MODEL_VALIDITY_DURATION)%Z with true;
      [reflexivity|].
    symmetry. apply Z.ltb_lt. lia.
  - rewrite Hf. reflexivity.
  - rewrite Hf. reflexivity.
Qed.

(** X7. [loadModels] of utils/db.js keeps loaded models for fifteen minutes.
    Once a load has succeeded and nothing is in flight, the calls made
    less than [MODEL_VALIDITY_DURATION] after [lastModelLoadTime] leave
    the loader as it is and start no load; a call made at or after that
    instant starts a new load, the one in flight, while [modelsLoaded]
    stays [true]. *)
Theorem utilsDb_models_expire (evs later : list loaderEvent) (now : Z) :
  let s := UtilsDb.loaderRun evs in
  let deadline :=
    (UtilsDb.lastModelLoadTime s + UtilsDb.MODEL_VALIDITY_DURATION)%Z in
  UtilsDb.modelsLoaded s = true ->
  UtilsDb.modelLoadingPromise s = None ->
  (Notions.callsBefore deadline later ->
   UtilsDb.loaderRun (evs ++ later) = s)
  /\ ((deadline <= now)%Z ->
      let (p, s') := UtilsDb.loadModels now s in
      p = Outstanding (S (UtilsDb.loadsStarted s))
      /\ UtilsDb.loadsStarted s' = S (UtilsDb.loadsStarted s)
      /\ UtilsDb.inFlight s' = 1
      /\ UtilsDb.modelsLoaded s' = true).
Proof.
  cbv zeta. intros Hl Hp.
  assert (Hf : UtilsDb.inFlight (UtilsDb.loaderRun evs) = 0).
  { unfold UtilsDb.loaderRun in *.
    rewrite utilsDb_run_inFlight by reflexivity.
    rewrite Hp. reflexivity. }
  split.
  - intros Hcalls. unfold UtilsDb.loaderRun in *. rewrite fold_left_app.
    induction Hcalls as [|ev rest Hev _ IH]; [reflexivity|].
    simpl. rewrite utilsDb_settled_step by assumption. exact IH.
  - intros Hlate.
    assert (Hstale : UtilsDb.modelsValid now (UtilsDb.loaderRun evs) = false).
    { unfold UtilsDb.modelsValid. rewrite Hl. simpl. apply Z.ltb_ge. lia. }
    unfold UtilsDb.loadModels. rewrite Hstale, Hp. simpl.
    rewrite Hf, Hl. repeat split; reflexivity.
Qed.

Lemma utilsDb_models_expire_witness :
  UtilsDb.loaderRun
    ([CallLoadModels 0; LoadSucceeded 5]
       ++ [CallLoadModels 600000; LoadFailed; CallLoadModels 900004])
  = UtilsDb.loaderRun [CallLoadModels 0; LoadSucceeded 5].
Proof.
  apply (proj1 (utilsDb_models_expire
                  [CallLoadModels 0; LoadSucceeded 5]
                  [CallLoadModels 600000; LoadFailed; CallLoadModels 900004]
                  900005 eq_refl eq_refl)).
  repeat constructor.
Defined.

(** X8. [checkModels] of utils/db.js against [loadModels]: it reports
    [isValid] exactly when a call to [loadModels] at that instant would
    resolve at once and load nothing, and it reports [loading] exactly
    when a load is in flight.  Under a clock that does not go back it
    never reports both. *)
Theorem checkModels_agrees_with_loadModels (evs : list loaderEvent)
    (now : Z) :
  Aux.nondecreasing
    (UtilsDb.timestamps (evs ++ [CallLoadModels now])) = true ->
  let s := UtilsDb.loaderRun evs in
  let status := UtilsDb.checkModels now s in
  (UtilsDb.isValid status = true
   <-> UtilsDb.loadModels now s = (AlreadyResolved, s))
  /\ (UtilsDb.loading status = true <-> UtilsDb.inFlight s = 1)
  /\ (UtilsDb.loading status = true -> UtilsDb.isValid status = false).
Proof.
  intros Hclock. cbv zeta.
  assert (Hvalid : UtilsDb.isValid
                     (UtilsDb.checkModels now (UtilsDb.loaderRun evs)) = true
                   <-> UtilsDb.loadModels now (UtilsDb.loaderRun evs)
                       = (AlreadyResolved, UtilsDb.loaderRun evs)).
  { unfold UtilsDb.checkModels, UtilsDb.loadModels, UtilsDb.modelsValid.
    cbn [UtilsDb.isValid].
    destruct (UtilsDb.modelsLoaded (UtilsDb.loaderRun evs)
              && (now - UtilsDb.lastModelLoadTime (UtilsDb.loaderRun evs)
                  <? UtilsDb.MODEL_VALIDITY_DURATION)%Z).
    - split; reflexivity.
    - split; [discriminate|].
      destruct (UtilsDb.modelLoadingPromise (UtilsDb.loaderRun evs));
        discriminate. }
  split; [exact Hvalid|]. split.
  - unfold UtilsDb.checkModels. cbn [UtilsDb.loading].
    unfold UtilsDb.loaderRun. rewrite utilsDb_run_inFlight by reflexivity.
    destruct (UtilsDb.modelLoadingPromise
                (fold_left UtilsDb.loaderStep evs UtilsDb.loaderInit));
      simpl; split; congruence.
  - intros Hloading.
    apply not_true_is_false. intros Hv. apply Hvalid in Hv.
    unfold UtilsDb.checkModels in Hloading. cbn [UtilsDb.loading] in Hloading.
    destruct (UtilsDb.modelLoadingPromise (UtilsDb.loaderRun evs)) as [p|]
      eqn:Hp; [|discriminate Hloading].
    rewrite (utilsDb_same_promise evs now p Hclock Hp) in Hv.
    discriminate Hv.
Qed.

(** Stale models being reloaded: [loading] and not [isValid]. *)
Lemma checkModels_agrees_with_loadModels_witness :
  UtilsDb.isValid
    (UtilsDb.checkModels 1000001
       (UtilsDb.loaderRun
          [CallLoadModels 0; LoadSucceeded 5; CallLoadModels 1000000]))
  = false.
Proof.
  apply (proj2 (proj2 (checkModels_agrees_with_loadModels
           [CallLoadModels 0; LoadSucceeded 5; CallLoadModels 1000000]
           1000001 eq_refl))).
  reflexivity.
Defined.

(** ** Cache keys *)

Lemma hashLoop_sampled (fuel : nat) (d1 d2 : list Z) (step i : nat)
    (hash : Z) :
  step <> 0 ->
  length d1 = length d2 ->
  (forall j, j < length d1 -> j mod step = 0 -> nth j d1 0%Z = nth j d2 0%Z) ->
  i mod step = 0 ->
  UtilsDb.hashLoop fuel d1 step i hash = UtilsDb.hashLoop fuel d2 step i hash.
Proof.
  intros Hstep Hlen Hsame. revert i hash.
  induction fuel as [|fuel IH]; intros i hash Hi; [reflexivity|].
  simpl. rewrite <- Hlen.
  destruct (i <? length d1) eqn:Hin; [|reflexivity].
  apply Nat.ltb_lt in Hin.
  rewrite (Hsame i Hin Hi).
  apply IH.
  replace (i + step) with (i + 1 * step) by lia.
  rewrite Nat.Div0.mod_add. exact Hi.
Qed.

Lemma hashBuffer_sampled (d1 d2 : buffer) :
  length d1 = length d2 ->
  (forall j, j < length d1 ->
             j mod Nat.max 1 (length d1 / Nat.min 100 (length d1)) = 0 ->
             nth j d1 0%Z = nth j d2 0%Z) ->
  UtilsDb.hashBuffer d1 = UtilsDb.hashBuffer d2.
Proof.
  intros Hlen Hsame. unfold UtilsDb.hashBuffer. cbv zeta.
  rewrite <- Hlen.
  apply hashLoop_sampled; [lia|exact Hlen|exact Hsame|].
  apply Nat.Div0.mod_0_l.
Qed.

(** X9. [hashBuffer] of utils/db.js reads one byte in every [step], where
    [step = max(1, floor(length / min(100, length)))]: two buffers of
    the same length that agree on the bytes at the multiples of [step]
    have the same key, whatever their other bytes are.  So once
    [extractFaceDescriptor] has returned a descriptor for one of them, a
    call on the other returns that descriptor from the cache and runs no
    detector (the models being available). *)
Theorem utilsDb_sampled_bytes_decide (d1 d2 : buffer) :
  length d1 = length d2 ->
  (forall j, j < length d1 ->
             j mod Nat.max 1 (length d1 / Nat.min 100 (length d1)) = 0 ->
             nth j d1 0%Z = nth j d2 0%Z) ->
  UtilsDb.hashBuffer d1 = UtilsDb.hashBuffer d2
  /\ forall (api : FaceApi) (e1 e2 : env) (w : UtilsDb.world)
            (d : descriptor),
       fst (UtilsDb.extractFaceDescriptor e1 d1 w) = Returned (Some d) ->
       diskLoad e2 = None ->
       let first := UtilsDb.extractFaceDescriptor e1 d1 w in
       let second := UtilsDb.extractFaceDescriptor e2 d2 (snd first) in
       fst second = Returned (Some d)
       /\ UtilsDb.pipelineCalls (snd second)
          = UtilsDb.pipelineCalls (snd first).
Proof.
  intros Hlen Hsame.
  pose proof (hashBuffer_sampled d1 d2 Hlen Hsame) as Hkey.
  split; [exact Hkey|].
  intros api e1 e2 w d Hfirst Hload. cbv zeta.
  pose proof (utilsDb_extract_caches api e1 d1 w d Hfirst) as Hget.
  rewrite Hkey in Hget.
  assert (Hhas : JsMap.has Z.eq_dec (UtilsDb.hashBuffer d2)
                   (UtilsDb.descriptorCache
                      (snd (UtilsDb.extractFaceDescriptor e1 d1 w)))
                 = true)
    by (apply has_get; exists d; exact Hget).
  destruct (utilsDb_extract_hit api e2 d2 _ Hload Hhas) as [Hr Hcalls].
  rewrite Hr, Hget. split; [reflexivity|exact Hcalls].
Qed.

(** Two hundred bytes are sampled at every second position; the byte at
    position 1 is not read. *)
Lemma utilsDb_sampled_bytes_decide_witness :
  UtilsDb.hashBuffer (0%Z :: 0%Z :: repeat 0%Z 198)
  = UtilsDb.hashBuffer (0%Z :: 7%Z :: repeat 0%Z 198).
Proof.
  apply (utilsDb_sampled_bytes_decide
           (0%Z :: 0%Z :: repeat 0%Z 198) (0%Z :: 7%Z :: repeat 0%Z 198)).
  - reflexivity.
  - intros j _ Hj.
    destruct j as [|[|j]]; [reflexivity|discriminate Hj|reflexivity].
Defined.

Lemma substring_0_0 (s : string) : substring 0 0 s = EmptyString.
Proof. destruct s; reflexivity. Qed.

(** Whole groups: three bytes make four characters. *)
Lemma encode_prefix_groups (a b : nat) :
  (forall d1 d2, firstn a d1 = firstn a d2 ->
                 substring 0 b (Base64.encode d1)
                 = substring 0 b (Base64.encode d2)) ->
  forall k d1 d2,
    firstn (3 * k + a) d1 = firstn (3 * k + a) d2 ->
    substring 0 (4 * k + b) (Base64.encode d1)
    = substring 0 (4 * k + b) (Base64.encode d2).
Proof.
  intros Hbase k. induction k as [|k IH]; intros d1 d2 H.
  - apply Hbase. exact H.
  - replace (3 * S k + a) with (S (S (S (3 * k + a)))) in H by lia.
    replace (4 * S k + b) with (S (S (S (S (4 * k + b))))) by lia.
    destruct d1 as [|x1 [|y1 [|z1 r1]]];
      destruct d2 as [|x2 [|y2 [|z2 r2]]];
      cbn [firstn] in H; try discriminate H;
      try (injection H as -> ->; reflexivity);
      try (injection H as ->; reflexivity);
      try reflexivity.
    injection H as -> -> -> H.
    cbn [Base64.encode substring]. do 4 f_equal. apply IH. exact H.
Qed.

Lemma encode_prefix_2 (d1 d2 : list Z) :
  firstn 2 d1 = firstn 2 d2 ->
  substring 0 2 (Base64.encode d1) = substring 0 2 (Base64.encode d2).
Proof.
  intros H.
  destruct d1 as [|x1 [|y1 [|z1 r1]]];
    destruct d2 as [|x2 [|y2 [|z2 r2]]];
    cbn [firstn] in H; try discriminate H;
    try (injection H as -> ->; reflexivity);
    try (injection H as ->; reflexivity);
    reflexivity.
Qed.

Lemma serverUtils_key_prefix (b1 b2 : buffer) :
  firstn 38 b1 = firstn 38 b2 ->
  ServerUtils.cacheKeyOf b1 = ServerUtils.cacheKeyOf b2.
Proof.
  intros H. unfold ServerUtils.cacheKeyOf.
  apply (encode_prefix_groups 2 2 encode_prefix_2 12). exact H.
Qed.

Lemma variant3_key_prefix (b1 b2 : buffer) :
  firstn 24 b1 = firstn 24 b2 ->
  Variant3.cacheKeyOf b1 = Variant3.cacheKeyOf b2.
Proof.
  intros H. unfold Variant3.cacheKeyOf.
  apply (encode_prefix_groups 0 0
           (fun d1 d2 _ => eq_trans (substring_0_0 _)
                             (eq_sym (substring_0_0 _))) 8).
  exact H.
Qed.

(** X10. The cache keys of server/utils/faceRecognition.js and of the third
    variant are the first 50 and the first 32 characters of the base64
    rendering of the image: they are decided by the first 38 and the
    first 24 bytes.  So in server/utils/faceRecognition.js, once
    [extractFaceDescriptor] has returned a descriptor for an image, a
    call on any image with the same first 38 bytes returns that
    descriptor from the cache and runs no detector. *)
Theorem leading_bytes_decide_the_key (b1 b2 : buffer) :
  (firstn 24 b1 = firstn 24 b2 ->
   Variant3.cacheKeyOf b1 = Variant3.cacheKeyOf b2)
  /\ (firstn 38 b1 = firstn 38 b2 ->
      ServerUtils.cacheKeyOf b1 = ServerUtils.cacheKeyOf b2
      /\ forall (api : FaceApi) (e1 e2 : env) (w : ServerUtils.world)
                (d : descriptor),
           fst (ServerUtils.extractFaceDescriptor e1 b1 w)
             = Returned (Some d) ->
           let first := ServerUtils.extractFaceDescriptor e1 b1 w in
           let second :=
             ServerUtils.extractFaceDescriptor e2 b2 (snd first) in
           fst second = Returned (Some d)
           /\ ServerUtils.pipelineCalls (snd second)
              = ServerUtils.pipelineCalls (snd first)).
Proof.
  split; [apply variant3_key_prefix|].
  intros H.
  pose proof (serverUtils_key_prefix b1 b2 H) as Hkey.
  split; [exact Hkey|].
  intros api e1 e2 w d Hfirst. cbv zeta.
  pose proof (serverUtils_extract_caches api e1 b1 w d Hfirst) as Hget.
  rewrite Hkey in Hget.
  assert (Hhas : JsMap.has string_dec (ServerUtils.cacheKeyOf b2)
                   (ServerUtils.descriptorCache
                      (snd (ServerUtils.extractFaceDescriptor e1 b1 w)))
                 = true)
    by (apply has_get; exists d; exact Hget).
  destruct (serverUtils_extract_hit api e2 b2 _ Hhas) as [Hr Hcalls].
  rewrite Hr, Hget. split; [reflexivity|exact Hcalls].
Qed.

(** Two images of forty bytes that differ in the last byte only. *)
Lemma leading_bytes_decide_the_key_witness :
  ServerUtils.cacheKeyOf (repeat 255%Z 39 ++ [0%Z])
  = ServerUtils.cacheKeyOf (repeat 255%Z 39 ++ [1%Z]).
Proof.
  apply (proj2 (leading_bytes_decide_the_key
                  (repeat 255%Z 39 ++ [0%Z]) (repeat 255%Z 39 ++ [1%Z]))).
  reflexivity.
Defined.

(** ** utils/db.js against the third variant *)

Lemma double_scanBatch_without_early_exit (t : list Double.value)
    (th : float) (ps : list Double.faceProfile) (st : Double.scanState) :
  Double.Notions.noneWithin Double.Distance.distance8 PrimFloat.ltb t ps
    (PrimFloat.mul th 0.7%float) ->
  Double.UtilsDb.scanBatch t th ps st
  = Double.UtilsDb.Continue (Double.Variant3.scan t ps st).
Proof.
  revert st. induction ps as [|c rest IH]; intros st Hfar; [reflexivity|].
  cbn [Double.UtilsDb.scanBatch Double.Variant3.scan].
  assert (Hrest : Double.Notions.noneWithin Double.Distance.distance8
                    PrimFloat.ltb t rest (PrimFloat.mul th 0.7%float))
    by (intros c' dc Hin; apply Hfar; right; exact Hin).
  destruct (Double.faceDescriptor c) as [dc|] eqn:Hdc; [|apply IH; exact Hrest].
  cbv zeta. rewrite (Hfar c dc (or_introl eq_refl) Hdc).
  destruct (PrimFloat.ltb (Double.Distance.distance8 t dc)
                          (Double.bestDistance st));
    apply IH; exact Hrest.
Qed.

(** X11. [findMatchingFace] of utils/db.js against the third variant.  When
    the code finds no candidate's distance below the product
    [threshold * 0.7], the early return of utils/db.js is never taken: it
    computes as many distances as the third variant, it returns every
    match the third variant returns, and the only matches it returns
    beyond those are at a distance equal ([==]) to the threshold.
    Distances and comparisons are those of the code, on doubles. *)
Theorem utilsDb_without_early_exit (t : list Double.value)
    (ps : list Double.faceProfile) (th : float) :
  Double.Notions.noneWithin Double.Distance.distance8 PrimFloat.ltb t ps
    (PrimFloat.mul th 0.7%float) ->
  distancesComputed
    (Double.UtilsDb.findMatchingFace_run (Some t) (Some ps) th)
  = distancesComputed
      (Double.Variant3.findMatchingFace_run (Some t) (Some ps) th)
  /\ (forall m,
        Double.Variant3.findMatchingFace (Some t) (Some ps) th = Some m ->
        Double.UtilsDb.findMatchingFace (Some t) (Some ps) th = Some m)
  /\ (forall m,
        Double.UtilsDb.findMatchingFace (Some t) (Some ps) th = Some m ->
        PrimFloat.eqb (Double.distance m) th = false ->
        Double.Variant3.findMatchingFace (Some t) (Some ps) th = Some m).
Proof.
  intros Hfar.
  unfold Double.UtilsDb.findMatchingFace, Double.Variant3.findMatchingFace.
  destruct ps as [|c rest]; [repeat split; intros m H; discriminate H|].
  rewrite double_findMatchingFace_run_flat. unfold Double.Notions.flatSearch.
  rewrite double_scanBatch_without_early_exit by exact Hfar.
  unfold Double.Variant3.findMatchingFace_run. cbn [length Nat.eqb]. cbv zeta.
  remember (Double.Variant3.scan t (c :: rest) Double.scanStart) as st
    eqn:Hst.
  clear Hst. unfold Double.UtilsDb.finish, Double.UtilsDb.found.
  split; [destruct (PrimFloat.leb (Double.bestDistance st) th); reflexivity|].
  cbn [returned]. split; intros m.
  - destruct (PrimFloat.ltb (Double.bestDistance st) th) eqn:Hlt;
      [|discriminate].
    rewrite (double_ltb_leb _ _ Hlt). intros H. exact H.
  - destruct (PrimFloat.leb (Double.bestDistance st) th) eqn:Hle;
      [|discriminate].
    cbn [returned]. intros H Hne. injection H as <-.
    cbn [Double.distance] in Hne.
    rewrite (double_leb_neq_ltb _ _ Hle Hne). reflexivity.
Qed.

(** With the threshold 0.3 a candidate at distance 0.25 is not below
    0.21. *)
Lemma utilsDb_without_early_exit_witness :
  distancesComputed
    (Double.UtilsDb.findMatchingFace_run (Some Double.Examples.query0)
       (Some [Double.Examples.atQuarter]) 0.3%float)
  = distancesComputed
      (Double.Variant3.findMatchingFace_run (Some Double.Examples.query0)
         (Some [Double.Examples.atQuarter]) 0.3%float).
Proof.
  apply (proj1 (utilsDb_without_early_exit Double.Examples.query0
                  [Double.Examples.atQuarter] 0.3%float
                  ltac:(intros c dc [<-|[]] Hdc; injection Hdc as <-;
                        vm_compute; reflexivity))).
Defined.

(** ** The candidate set *)

Lemma directly_returns (t : list num) (ps : list faceProfile) (th : num)
    (m : matchResult) :
  ServerUtils.findMatchingFaceDirectly t ps th = Some m ->
  exists p dp r,
    m = {| match_ := Some p; distance := Num r |}
    /\ In p ps /\ faceDescriptor p = Some dp
    /\ Distance.distance4 t dp = Num r
    /\ nltb (Num r) th = true
    /\ Aux.noneCloserWithin Distance.distance4 t ps th (Num r).
Proof.
  unfold ServerUtils.findMatchingFaceDirectly,
         ServerUtils.findMatchingFaceDirectly_run. cbn [returned].
  destruct (scanDirectly_final t th ps) as (Hbest & Hnone & Hth).
  destruct Hbest as [_ Hbest].
  destruct (bestMatch (ServerUtils.scanDirectly t th ps scanStart))
    as [p|]; [|discriminate].
  destruct Hbest as (Hin & dp & r & Hdp & Hd & Hr & _).
  intros H. injection H as <-.
  rewrite Hd, Hr in *.
  exists p, dp, r. repeat split; try assumption.
  apply Hth. discriminate.
Qed.

Lemma directly_more_candidates (t : list num) (ps ps' : list faceProfile)
    (th : num) (m : matchResult) :
  incl ps ps' ->
  ServerUtils.findMatchingFaceDirectly t ps th = Some m ->
  exists m' r r',
    ServerUtils.findMatchingFaceDirectly t ps' th = Some m'
    /\ distance m = Num r /\ distance m' = Num r' /\ (r' <= r)%R.
Proof.
  intros Hincl Hm.
  destruct (directly_returns t ps th m Hm)
    as (p & dp & r & -> & Hin & Hdp & Hd & Hth & _).
  assert (Hsome : ServerUtils.findMatchingFaceDirectly t ps' th <> None).
  { apply serverUtils_matched_iff. exists p, dp.
    repeat split; [apply Hincl, Hin|exact Hdp|]. rewrite Hd. exact Hth. }
  destruct (ServerUtils.findMatchingFaceDirectly t ps' th) as [m'|] eqn:Hm';
    [|congruence].
  destruct (directly_returns t ps' th m' Hm')
    as (p' & dp' & r' & -> & _ & _ & _ & _ & Hnone).
  exists {| match_ := Some p'; distance := Num r' |}, r, r'.
  repeat split.
  specialize (Hnone p dp (Hincl p Hin) Hdp).
  rewrite Hd, Hth in Hnone. simpl in Hnone.
  apply Rltb_false in Hnone. exact Hnone.
Qed.

(** X12. [findMatchingFaceDirectly] of server/utils/faceRecognition.js looks
    at the set of candidates only.  With more candidates a match is never
    lost and is never farther from the query; two lists with the same
    members, in any order and with any repetitions, give a match at the
    same distance or no match both. *)
Theorem directly_depends_on_candidate_set (t : list num)
    (ps ps' : list faceProfile) (th : num) :
  incl ps ps' ->
  (forall m, ServerUtils.findMatchingFaceDirectly t ps th = Some m ->
             exists m' r r',
               ServerUtils.findMatchingFaceDirectly t ps' th = Some m'
               /\ distance m = Num r /\ distance m' = Num r'
               /\ (r' <= r)%R)
  /\ (incl ps' ps ->
      option_map distance (ServerUtils.findMatchingFaceDirectly t ps th)
      = option_map distance (ServerUtils.findMatchingFaceDirectly t ps' th)).
Proof.
  intros Hincl.
  split; [intros m; apply directly_more_candidates; exact Hincl|].
  intros Hincl'.
  destruct (ServerUtils.findMatchingFaceDirectly t ps th) as [m|] eqn:Hm.
  - destruct (directly_more_candidates t ps ps' th m Hincl Hm)
      as (m' & r & r' & Hm' & Hr & Hr' & Hle).
    destruct (directly_more_candidates t ps' ps th m' Hincl' Hm')
      as (m2 & r2 & r3 & Hm2 & Hr2 & Hr3 & Hle').
    rewrite Hm in Hm2. injection Hm2 as <-.
    rewrite Hm'. simpl. rewrite Hr, Hr'. f_equal.
    rewrite Hr' in Hr2. injection Hr2 as <-.
    rewrite Hr in Hr3. injection Hr3 as <-.
    f_equal. lra.
  - destruct (ServerUtils.findMatchingFaceDirectly t ps' th) as [m'|] eqn:Hm';
      [|reflexivity].
    destruct (directly_more_candidates t ps' ps th m' Hincl' Hm')
      as (m2 & _ & _ & Hm2 & _).
    rewrite Hm in Hm2. discriminate Hm2.
Qed.

Lemma directly_depends_on_candidate_set_witness :
  option_map distance
    (ServerUtils.findMatchingFaceDirectly Examples.query0
       [Examples.atQuarter; Examples.atZero] (Num 0.6))
  = option_map distance
      (ServerUtils.findMatchingFaceDirectly Examples.query0
         [Examples.atZero; Examples.atQuarter; Examples.atZero] (Num 0.6)).
Proof.
  apply (proj2 (directly_depends_on_candidate_set Examples.query0
                  [Examples.atQuarter; Examples.atZero]
                  [Examples.atZero; Examples.atQuarter; Examples.atZero]
                  (Num 0.6)
                  ltac:(intros c [<-|[<-|[]]]; simpl; auto))).
  intros c [<-|[<-|[<-|[]]]]; simpl; auto.
Defined.

(** ** The cache of the third variant *)

Lemma variant3_store_size (key : string) (d : descriptor)
    (cache : JsMap.t string descriptor) :
  JsMap.size cache <= 51 ->
  JsMap.size (Variant3.cacheStore key d cache) <= 51.
Proof.
  intros Hsize. unfold Variant3.cacheStore. cbv zeta.
  assert (Htrim : JsMap.size
                    (if 50 <? JsMap.size cache
                     then match JsMap.firstKey cache with
                          | Some firstKey =>
                              JsMap.delete string_dec firstKey cache
                          | None => cache
                          end
                     else cache) <= 50).
  { destruct (Nat.ltb_spec 50 (JsMap.size cache)) as [Hbig|Hok];
      [|exact Hok].
    destruct (JsMap.firstKey cache) as [firstKey|] eqn:Hfirst.
    - pose proof (size_delete_lt _ _ string_dec firstKey _
                    (firstKey_has _ _ string_dec _ _ Hfirst)).
      lia.
    - destruct cache; [simpl in Hbig; lia|discriminate Hfirst]. }
  rewrite size_set.
  match goal with |- (if ?b then _ else _) <= _ => destruct b end; lia.
Qed.

(** X13. The descriptor cache of the third variant is trimmed before a new
    entry is stored, and only when it holds more than 50 entries: after
    any sequence of stores it holds at most 51 entries, not 50.  A store
    always keeps the entry it adds, and an entry it drops is the first
    key of the map, the entry inserted first. *)
Theorem variant3_cache_bound (stores : list (string * descriptor))
    (cache : JsMap.t string descriptor) :
  JsMap.size cache <= 51 ->
  let final :=
    fold_left (fun c kd => Variant3.cacheStore (fst kd) (snd kd) c)
              stores cache in
  JsMap.size final <= 51
  /\ (forall key d,
        JsMap.get string_dec key (Variant3.cacheStore key d final) = Some d)
  /\ (forall key d k,
        JsMap.has string_dec k final = true ->
        JsMap.has string_dec k (Variant3.cacheStore key d final) = false ->
        JsMap.firstKey final = Some k).
Proof.
  intros Hsize. cbv zeta. split; [|split].
  - apply (fold_left_invariant
             (fun c kd => Variant3.cacheStore (fst kd) (snd kd) c)
             (fun c => JsMap.size c <= 51)); [|exact Hsize].
    intros c kd Hc. apply variant3_store_size. exact Hc.
  - intros key d. apply get_set_same.
  - intros key d k.
    remember (fold_left
                (fun c kd => Variant3.cacheStore (fst kd) (snd kd) c)
                stores cache) as final eqn:Hfinal.
    clear Hfinal. intros Hk Hgone.
    unfold Variant3.cacheStore in Hgone. cbv zeta in Hgone.
    destruct (50 <? JsMap.size final).
    + destruct (JsMap.firstKey final) as [firstKey|].
      * f_equal. destruct (string_dec k firstKey) as [Heq|Hne];
          [congruence|].
        assert (JsMap.has string_dec k
                  (JsMap.set string_dec key d
                     (JsMap.delete string_dec firstKey final)) = true)
          by (apply has_set; right; apply has_delete; auto).
        congruence.
      * assert (JsMap.has string_dec k (JsMap.set string_dec key d final)
                = true) by (apply has_set; right; exact Hk).
        congruence.
    + assert (JsMap.has string_dec k (JsMap.set string_dec key d final)
              = true) by (apply has_set; right; exact Hk).
      congruence.
Qed.

(** Sixty images stored one after the other: 51 entries are held. *)
Lemma variant3_cache_bound_witness :
  JsMap.size
    (fold_left (fun c kd => Variant3.cacheStore (fst kd) (snd kd) c)
       (map (fun i => (Variant3.cacheKeyOf (Examples.image3 i), []))
            (seq 0 60))
       [])
  <= 51.
Proof.
  apply (proj1 (variant3_cache_bound
                  (map (fun i => (Variant3.cacheKeyOf (Examples.image3 i),
                                  @nil num))
                       (seq 0 60))
                  [] ltac:(simpl; lia))).
Defined.

(** ** The loader of the third variant *)

Lemma variant3_loader_invariant (evs : list loaderEvent) :
  let s := Variant3.loaderRun evs in
  (Variant3.phase s <> Variant3.NotLoading ->
   Variant3.modelLoadingPromise s <> None
   /\ Variant3.modelsLoaded s = false)
  /\ (Variant3.phase s = Variant3.AwaitingRest ->
      0 < JsMap.size (Variant3.modelCache s))
  /\ (Variant3.restLoaded s = true -> Variant3.modelsLoaded s = true).
Proof.
  cbv zeta. unfold Variant3.loaderRun.
  apply (fold_left_invariant Variant3.loaderStep
           (fun s =>
              (Variant3.phase s <> Variant3.NotLoading ->
               Variant3.modelLoadingPromise s <> None
               /\ Variant3.modelsLoaded s = false)
              /\ (Variant3.phase s = Variant3.AwaitingRest ->
                  0 < JsMap.size (Variant3.modelCache s))
              /\ (Variant3.restLoaded s = true ->
                  Variant3.modelsLoaded s = true)));
    [|simpl; repeat split; congruence].
  intros s ev (Hphase & Hcache & Hrest).
  destruct ev as [now|now|]; cbn [Variant3.loaderStep].
  - unfold Variant3.loadModels.
    destruct (Variant3.modelLoadingPromise s) eqn:Hp;
      [simpl; rewrite Hp; auto|].
    destruct (Variant3.modelsLoaded s) eqn:Hl;
      [simpl; rewrite Hp, Hl; auto|].
    assert (Hidle : Variant3.phase s = Variant3.NotLoading).
    { destruct (Variant3.phase s) eqn:E; [reflexivity| |];
        destruct Hphase as [Hne _]; congruence. }
    destruct (0 <? JsMap.size (Variant3.modelCache s)); simpl.
    + repeat split; congruence.
    + repeat split; try congruence.
      intros H. apply Hrest in H. congruence.
  - unfold Variant3.awaitResolved.
    destruct (Variant3.phase s) eqn:E; simpl.
    + rewrite E. auto.
    + destruct Hphase as [Hne Hl]; [congruence|].
      repeat split; try assumption.
      intros _. destruct (Variant3.modelCache s) as [|e m]; simpl; [lia|].
      destruct (JsMap.keyIs string_dec "detector"%string e); simpl; lia.
    + repeat split; congruence.
  - unfold Variant3.awaitRejected.
    destruct (Variant3.phase s) eqn:E; simpl;
      [rewrite E; auto| |]; repeat split; try congruence; exact Hrest.
Qed.

Lemma variant3_cached_path_is_final (s : Variant3.loaderState)
    (later : list loaderEvent) :
  Variant3.modelLoadingPromise s <> None ->
  Variant3.phase s = Variant3.NotLoading ->
  fold_left Variant3.loaderStep later s = s.
Proof.
  intros Hp Hphase.
  apply (fold_left_invariant Variant3.loaderStep (fun s' => s' = s));
    [|reflexivity].
  intros s' ev ->. destruct ev as [now|now|]; cbn [Variant3.loaderStep].
  - unfold Variant3.loadModels.
    destruct (Variant3.modelLoadingPromise s); [reflexivity|congruence].
  - unfold Variant3.awaitResolved. rewrite Hphase. reflexivity.
  - unfold Variant3.awaitRejected. rewrite Hphase. reflexivity.
Qed.

(** X14. [loadModels] of the third variant loads the detector first and the
    two other nets afterwards, and takes a non-empty [modelCache] as the
    sign that everything is in memory.  When the load of the two other
    nets fails, the detector is in [modelCache] already: the next call
    sets [modelsLoaded] without reading the disk, and from then on
    nothing is loaded any more, although the landmark and recognition
    nets never were. *)
Theorem variant3_failed_load_is_never_retried (evs later : list loaderEvent)
    (now : Z) :
  Variant3.phase (Variant3.loaderRun evs) = Variant3.AwaitingRest ->
  let s' :=
    Variant3.loaderRun
      (evs ++ LoadFailed :: CallLoadModels now :: later) in
  Variant3.modelsLoaded s' = true
  /\ Variant3.restLoaded s' = false
  /\ Variant3.diskLoads s' = Variant3.diskLoads (Variant3.loaderRun evs).
Proof.
  intros Hphase. cbv zeta.
  destruct (variant3_loader_invariant evs) as (Hinv & Hcache & Hrest).
  cbv zeta in Hinv, Hcache, Hrest.
  destruct Hinv as [Hp Hl]; [congruence|].
  specialize (Hcache Hphase).
  assert (Hnot : Variant3.restLoaded (Variant3.loaderRun evs) = false).
  { destruct (Variant3.restLoaded (Variant3.loaderRun evs)); [|reflexivity].
    rewrite Hrest in Hl by reflexivity. discriminate Hl. }
  unfold Variant3.loaderRun in *. rewrite fold_left_app.
  remember (fold_left Variant3.loaderStep evs Variant3.loaderInit) as s
    eqn:Hs. clear Hs.
  apply Nat.ltb_lt in Hcache.
  assert (Hfinal :
            fold_left Variant3.loaderStep
              (LoadFailed :: CallLoadModels now :: later) s
            = {| Variant3.modelsLoaded := true;
                 Variant3.modelLoadingPromise :=
                   Some (S (Variant3.promisesMade s));
                 Variant3.modelCache := Variant3.modelCache s;
                 Variant3.phase := Variant3.NotLoading;
                 Variant3.promisesMade := S (Variant3.promisesMade s);
                 Variant3.diskLoads := Variant3.diskLoads s;
                 Variant3.restLoaded := Variant3.restLoaded s |}).
  { cbn [fold_left Variant3.loaderStep].
    unfold Variant3.awaitRejected. rewrite Hphase.
    unfold Variant3.loadModels.
    cbn [Variant3.modelLoadingPromise Variant3.modelsLoaded
         Variant3.modelCache Variant3.promisesMade Variant3.diskLoads
         Variant3.restLoaded].
    rewrite Hl, Hcache. cbn [snd].
    apply variant3_cached_path_is_final; [simpl; congruence|reflexivity]. }
  rewrite Hfinal. simpl. repeat split; assumption.
Qed.

Lemma variant3_failed_load_is_never_retried_witness :
  Variant3.modelsLoaded
    (Variant3.loaderRun
       ([CallLoadModels 0; LoadSucceeded 1]
          ++ LoadFailed :: CallLoadModels 3 :: [CallLoadModels 4]))
  = true.
Proof.
  apply (proj1 (variant3_failed_load_is_never_retried
                  [CallLoadModels 0; LoadSucceeded 1] [CallLoadModels 4] 3
                  eq_refl)).
Defined.

(** ** The retrying loader of the browser *)




(** ** The cost of an extraction *)

Lemma utilsDb_evict_calls (w : UtilsDb.world) :
  UtilsDb.pipelineCalls (UtilsDb.evictOldest w) = UtilsDb.pipelineCalls w.
Proof.
  unfold UtilsDb.evictOldest.
  destruct (UtilsDb.CACHE_SIZE_LIMIT <=? JsMap.size (UtilsDb.descriptorCache w));
    [|reflexivity].
  destruct (UtilsDb.cacheAccessOrder w); reflexivity.
Qed.

Lemma serverUtils_trim_calls (w : ServerUtils.world) :
  ServerUtils.pipelineCalls (ServerUtils.trimCache w)
  = ServerUtils.pipelineCalls w.
Proof.
  unfold ServerUtils.trimCache.
  destruct (100 <? JsMap.size (ServerUtils.descriptorCache w));
    [|reflexivity].
  destruct (JsMap.firstKey (ServerUtils.descriptorCache w)); reflexivity.
Qed.

Lemma utilsDb_extract_cost (api : FaceApi) (e : env) (buf : buffer)
    (w : UtilsDb.world) :
  let r := fst (UtilsDb.extractFaceDescriptor e buf w) in
  let w' := snd (UtilsDb.extractFaceDescriptor e buf w) in
  UtilsDb.pipelineCalls w <= UtilsDb.pipelineCalls w'
    <= UtilsDb.pipelineCalls w + 2
  /\ (JsMap.has Z.eq_dec (UtilsDb.hashBuffer buf) (UtilsDb.descriptorCache w)
        = false ->
      forall d, r = Returned (Some d) ->
                UtilsDb.pipelineCalls w' = UtilsDb.pipelineCalls w + 2).
Proof.
  cbv zeta. unfold_extract.
  destruct (UtilsDb.loadModels (currentTime e) (UtilsDb.models w)) as [p s].
  repeat (run_step; simpl); rewrite ?utilsDb_evict_calls; simpl;
    (split; [lia|]); intros Hmiss found Hfound;
    try discriminate; try lia; congruence.
Qed.

Lemma serverUtils_extract_cost (api : FaceApi) (e : env) (buf : buffer)
    (w : ServerUtils.world) :
  let r := fst (ServerUtils.extractFaceDescriptor e buf w) in
  let w' := snd (ServerUtils.extractFaceDescriptor e buf w) in
  ServerUtils.pipelineCalls w <= ServerUtils.pipelineCalls w'
    <= ServerUtils.pipelineCalls w + 2
  /\ (JsMap.has string_dec (ServerUtils.cacheKeyOf buf)
        (ServerUtils.descriptorCache w) = false ->
      forall d, r = Returned (Some d) ->
                ServerUtils.pipelineCalls w' = ServerUtils.pipelineCalls w + 2).
Proof.
  cbv zeta. unfold_extract. simpl.
  destruct (JsMap.has string_dec (ServerUtils.cacheKeyOf buf)
              (ServerUtils.descriptorCache w)) eqn:Hhas; simpl.
  - split; [lia|discriminate].
  - destruct (ServerUtils.loadModels (ServerUtils.models w)) as [p s].
    destruct p; simpl;
      repeat (run_step; simpl); rewrite ?serverUtils_trim_calls; simpl;
      (split; [lia|]); intros _ found Hfound;
      try discriminate; try lia.
Qed.

Lemma utilsDb_evict_models (w : UtilsDb.world) :
  UtilsDb.models (UtilsDb.evictOldest w) = UtilsDb.models w.
Proof.
  unfold UtilsDb.evictOldest.
  destruct (UtilsDb.CACHE_SIZE_LIMIT <=? JsMap.size (UtilsDb.descriptorCache w));
    [|reflexivity].
  destruct (UtilsDb.cacheAccessOrder w); reflexivity.
Qed.

(** The warm-up of utils/db.js: [warmupModels] is called once when the
    load awaited by the call succeeds, and not otherwise. *)
Lemma utilsDb_extract_warmups (api : FaceApi) (e : env) (buf : buffer)
    (w : UtilsDb.world) :
  UtilsDb.warmups (UtilsDb.models (snd (UtilsDb.extractFaceDescriptor e buf w)))
  = UtilsDb.warmups (UtilsDb.models w)
    + match fst (UtilsDb.loadModels (currentTime e) (UtilsDb.models w)),
            diskLoad e with
      | Outstanding _, None => 1
      | _, _ => 0
      end.
Proof.
  unfold_extract.
  assert (Hkeep : UtilsDb.warmups
                    (snd (UtilsDb.loadModels (currentTime e)
                            (UtilsDb.models w)))
                  = UtilsDb.warmups (UtilsDb.models w)).
  { unfold UtilsDb.loadModels.
    destruct (UtilsDb.modelsValid (currentTime e) (UtilsDb.models w));
      [reflexivity|].
    destruct (UtilsDb.modelLoadingPromise (UtilsDb.models w)); reflexivity. }
  destruct (UtilsDb.loadModels (currentTime e) (UtilsDb.models w)) as [p s].
  simpl in Hkeep. simpl.
  destruct p; [|destruct (diskLoad e)]; simpl;
    repeat (run_step; simpl); rewrite ?utilsDb_evict_models; simpl; lia.
Qed.

(** X16. What a call of [extractFaceDescriptor] costs, in utils/db.js and in
    server/utils/faceRecognition.js: it runs the detector at most twice on
    the submitted image, and a descriptor that does not come from the
    cache has cost exactly two such runs.  In utils/db.js the call also
    triggers [warmupModels], with its one detector run on a blank canvas,
    exactly when the load it awaited succeeded, so that a call stands for
    at most three detector runs; the loader of
    server/utils/faceRecognition.js has no warm-up.  After
    [clearDescriptorCache] every descriptor returned has been computed
    anew. *)
Theorem extraction_detector_runs (api : FaceApi) (e : env)
    (imageBuffer : buffer) (w1 : UtilsDb.world) (w2 : ServerUtils.world) :
  (let r := fst (UtilsDb.extractFaceDescriptor e imageBuffer w1) in
   let w' := snd (UtilsDb.extractFaceDescriptor e imageBuffer w1) in
   UtilsDb.pipelineCalls w1 <= UtilsDb.pipelineCalls w'
     <= UtilsDb.pipelineCalls w1 + 2
   /\ (JsMap.has Z.eq_dec (UtilsDb.hashBuffer imageBuffer)
         (UtilsDb.descriptorCache w1) = false ->
       forall d, r = Returned (Some d) ->
                 UtilsDb.pipelineCalls w' = UtilsDb.pipelineCalls w1 + 2)
   /\ UtilsDb.warmups (UtilsDb.models w')
      = UtilsDb.warmups (UtilsDb.models w1)
        + match fst (UtilsDb.loadModels (currentTime e) (UtilsDb.models w1)),
                diskLoad e with
          | Outstanding _, None => 1
          | _, _ => 0
          end
   /\ UtilsDb.pipelineCalls w' + UtilsDb.warmups (UtilsDb.models w')
      <= UtilsDb.pipelineCalls w1 + UtilsDb.warmups (UtilsDb.models w1) + 3)
  /\ (let r := fst (ServerUtils.extractFaceDescriptor e imageBuffer w2) in
      let w' := snd (ServerUtils.extractFaceDescriptor e imageBuffer w2) in
      ServerUtils.pipelineCalls w2 <= ServerUtils.pipelineCalls w'
        <= ServerUtils.pipelineCalls w2 + 2
      /\ (JsMap.has string_dec (ServerUtils.cacheKeyOf imageBuffer)
            (ServerUtils.descriptorCache w2) = false ->
          forall d, r = Returned (Some d) ->
                    ServerUtils.pipelineCalls w'
                    = ServerUtils.pipelineCalls w2 + 2))
  /\ (let cleared := ServerUtils.clearDescriptorCache w2 in
      forall d,
        fst (ServerUtils.extractFaceDescriptor e imageBuffer cleared)
          = Returned (Some d) ->
        ServerUtils.pipelineCalls
          (snd (ServerUtils.extractFaceDescriptor e imageBuffer cleared))
        = ServerUtils.pipelineCalls w2 + 2).
Proof.
  split.
  { cbv zeta.
    destruct (utilsDb_extract_cost api e imageBuffer w1) as [Hrun Hmiss].
    cbv zeta in Hrun, Hmiss.
    pose proof (utilsDb_extract_warmups api e imageBuffer w1) as Hwarm.
    split; [exact Hrun|]. split; [exact Hmiss|]. split; [exact Hwarm|].
    rewrite Hwarm.
    destruct (fst (UtilsDb.loadModels (currentTime e) (UtilsDb.models w1)));
      [|destruct (diskLoad e)]; lia. }
  split; [apply serverUtils_extract_cost|].
  cbv zeta. intros d Hd.
  destruct (serverUtils_extract_cost api e imageBuffer
              (ServerUtils.clearDescriptorCache w2)) as [_ Hcost].
  cbv zeta in Hcost. rewrite (Hcost eq_refl d Hd). reflexivity.
Qed.

(** The first call on a fresh process: two runs on the image and one
    warm-up. *)
Lemma extraction_detector_runs_witness :
  UtilsDb.pipelineCalls
    (snd (@UtilsDb.extractFaceDescriptor Examples.everyFaceApi
            (Examples.loadsAt 0) (Examples.image3 5) UtilsDb.worldInit))
  = UtilsDb.pipelineCalls UtilsDb.worldInit + 2.
Proof.
  apply (proj1 (proj2 (proj1 (extraction_detector_runs
                         Examples.everyFaceApi (Examples.loadsAt 0)
                         (Examples.image3 5) UtilsDb.worldInit
                         ServerUtils.worldInit)))
           eq_refl [Num 0; Num 0; Num 5]).
  reflexivity.
Defined.

(** ** The access order of utils/db.js *)

Lemma StronglySorted_NoDup (A : Type) (R : A -> A -> Prop) (l : list A) :
  (forall a, ~ R a a) -> StronglySorted R l -> NoDup l.
Proof.
  intros Hirr Hsorted. induction Hsorted as [|a l _ IH Hall].
  - constructor.
  - constructor; [|exact IH].
    intros Hin. rewrite Forall_forall in Hall.
    exact (Hirr a (Hall a Hin)).
Qed.

Lemma has_in_keys (K V : Type) (K_eq_dec : forall a b : K, {a = b} + {a <> b})
    (k : K) (m : JsMap.t K V) :
  JsMap.has K_eq_dec k m = true -> In k (JsMap.keys m).
Proof.
  unfold JsMap.has, JsMap.keys. intros H.
  apply existsb_exists in H. destruct H as (x & Hin & Hk).
  apply keyIs_true in Hk. subst k. apply in_map. exact Hin.
Qed.

(** X17. [updateCacheAccess] of utils/db.js keeps [cacheAccessOrder] in step
    with the cache: after any sequence of extractions the array lists
    exactly the keys held by the Map, lists none of them twice, and so
    never holds more than 100 keys. *)
Theorem utilsDb_access_order_tracks_cache (api : FaceApi)
    (calls : list (env * buffer)) :
  let w := UtilsDb.extractAll calls UtilsDb.worldInit in
  (forall k, In k (UtilsDb.cacheAccessOrder w)
             <-> JsMap.has Z.eq_dec k (UtilsDb.descriptorCache w) = true)
  /\ NoDup (UtilsDb.cacheAccessOrder w)
  /\ length (UtilsDb.cacheAccessOrder w) <= 100.
Proof.
  cbv zeta.
  destruct (utilsDb_extractAll_inv api calls UtilsDb.worldInit
              utilsDb_init_inv) as (Hsize & Hkeys & Hsorted).
  assert (Hnodup : NoDup (UtilsDb.cacheAccessOrder
                            (UtilsDb.extractAll calls UtilsDb.worldInit))).
  { apply StronglySorted_NoDup in Hsorted; [exact Hsorted|].
    intros a. apply Nat.lt_irrefl. }
  split; [exact Hkeys|]. split; [exact Hnodup|].
  apply Nat.le_trans
    with (m := JsMap.size (UtilsDb.descriptorCache
                             (UtilsDb.extractAll calls UtilsDb.worldInit)));
    [|exact Hsize].
  unfold JsMap.size.
  rewrite <- (length_map fst).
  apply NoDup_incl_length; [exact Hnodup|].
  intros k Hk. apply Hkeys in Hk.
  exact (has_in_keys _ _ Z.eq_dec k _ Hk).
Qed.

(** ** The batches of server/utils/faceRecognition.js *)

Lemma makeBatches_count (fuel : nat) (ps : list faceProfile)
    (batchSize i : nat) :
  0 < batchSize ->
  length (ServerUtils.makeBatches fuel ps batchSize i) * batchSize
  <= length ps - i + (batchSize - 1).
Proof.
  intros Hb. revert i. induction fuel as [|fuel IH]; intros i; [simpl; lia|].
  cbn [ServerUtils.makeBatches].
  destruct (Nat.ltb_spec i (length ps)) as [Hi|Hi]; [|simpl; lia].
  cbn [length]. specialize (IH (i + batchSize)).
  destruct (Nat.le_gt_cases (i + batchSize) (length ps)) as [Hfits|Hlast].
  - lia.
  - replace (length ps - (i + batchSize)) with 0 in IH by lia.
    destruct (length (ServerUtils.makeBatches fuel ps batchSize
                        (i + batchSize))) as [|c]; [lia|].
    simpl in IH. nia.
Qed.

Lemma makeBatches_sizes (fuel : nat) (ps : list faceProfile)
    (batchSize i : nat) :
  0 < batchSize ->
  Forall (fun batch => 0 < length batch <= batchSize)
         (ServerUtils.makeBatches fuel ps batchSize i).
Proof.
  intros Hb. revert i. induction fuel as [|fuel IH]; intros i;
    [constructor|].
  cbn [ServerUtils.makeBatches].
  destruct (Nat.ltb_spec i (length ps)) as [Hi|Hi]; [|constructor].
  constructor; [|apply IH].
  unfold slice. rewrite length_firstn, length_skipn. lia.
Qed.

(** X18. The batches that [findMatchingFace] of
    server/utils/faceRecognition.js cuts the profiles into: put one
    after the other they are the list of profiles, there are at most
    [CPU_CORES] of them, none is empty, and none holds more than
    [ceil(length / CPU_CORES)] profiles. *)
Theorem batches_partition_profiles (CPU_CORES : nat)
    (faceProfiles : list faceProfile) :
  0 < CPU_CORES -> faceProfiles <> [] ->
  let batchSize := (length faceProfiles + CPU_CORES - 1) / CPU_CORES in
  let batches :=
    ServerUtils.makeBatches (length faceProfiles) faceProfiles batchSize 0 in
  concat batches = faceProfiles
  /\ length batches <= CPU_CORES
  /\ Forall (fun batch => 0 < length batch <= batchSize) batches.
Proof.
  intros Hcores Hne. cbv zeta.
  assert (Hn : 0 < length faceProfiles)
    by (destruct faceProfiles; [congruence|simpl; lia]).
  assert (Hsize : 0 < (length faceProfiles + CPU_CORES - 1) / CPU_CORES)
    by (apply Nat.div_str_pos; lia).
  assert (Hcover : length faceProfiles
                   <= CPU_CORES
                      * ((length faceProfiles + CPU_CORES - 1) / CPU_CORES)).
  { pose proof (Nat.div_mod_eq (length faceProfiles + CPU_CORES - 1)
                  CPU_CORES) as Hdiv.
    pose proof (Nat.mod_upper_bound (length faceProfiles + CPU_CORES - 1)
                  CPU_CORES ltac:(lia)) as Hmod.
    lia. }
  split; [|split].
  - rewrite makeBatches_concat by nia. reflexivity.
  - pose proof (makeBatches_count (length faceProfiles) faceProfiles
                  ((length faceProfiles + CPU_CORES - 1) / CPU_CORES) 0
                  Hsize) as Hcount.
    remember ((length faceProfiles + CPU_CORES - 1) / CPU_CORES) as b.
    remember (length (ServerUtils.makeBatches (length faceProfiles)
                        faceProfiles b 0)) as k.
    clear Heqk Heqb. nia.
  - apply makeBatches_sizes. exact Hsize.
Qed.

(** Twelve profiles on five cores: four batches of three. *)
Lemma batches_partition_profiles_witness :
  length
    (ServerUtils.makeBatches 12 (repeat Examples.atQuarter 12)
       ((12 + 5 - 1) / 5) 0)
  <= 5.
Proof.
  apply (proj1 (proj2 (batches_partition_profiles 5
                         (repeat Examples.atQuarter 12)
                         ltac:(lia) ltac:(discriminate)))).
Defined.

(** ** Cached descriptors and the loader *)

(** X19. Serving a cached descriptor.  server/utils/faceRecognition.js looks
    in the cache first: a cached descriptor is returned whatever the
    state of the loader, which is left untouched.  utils/db.js awaits
    [loadModels] first: when the models are not valid and no load is in
    flight, a call on a cached image starts a load from disk; it returns
    the cached descriptor if that load succeeds and [null] if it
    fails. *)
Theorem cached_descriptor_and_loader (api : FaceApi) (e : env)
    (imageBuffer : buffer) (w1 : UtilsDb.world) (w2 : ServerUtils.world) :
  (JsMap.has string_dec (ServerUtils.cacheKeyOf imageBuffer)
     (ServerUtils.descriptorCache w2) = true ->
   let done := ServerUtils.extractFaceDescriptor e imageBuffer w2 in
   fst done
     = Returned (JsMap.get string_dec (ServerUtils.cacheKeyOf imageBuffer)
                   (ServerUtils.descriptorCache w2))
   /\ ServerUtils.models (snd done) = ServerUtils.models w2)
  /\ (JsMap.has Z.eq_dec (UtilsDb.hashBuffer imageBuffer)
        (UtilsDb.descriptorCache w1) = true ->
      UtilsDb.modelsValid (currentTime e) (UtilsDb.models w1) = false ->
      UtilsDb.modelLoadingPromise (UtilsDb.models w1) = None ->
      let done := UtilsDb.extractFaceDescriptor e imageBuffer w1 in
      UtilsDb.loadsStarted (UtilsDb.models (snd done))
        = S (UtilsDb.loadsStarted (UtilsDb.models w1))
      /\ fst done
         = match diskLoad e with
           | None =>
               Returned (JsMap.get Z.eq_dec (UtilsDb.hashBuffer imageBuffer)
                           (UtilsDb.descriptorCache w1))
           | Some _ => Returned None
           end).
Proof.
  split.
  - intros Hhas. cbv zeta. unfold_extract. simpl. rewrite Hhas. simpl.
    split; reflexivity.
  - intros Hhas Hstale Hidle. cbv zeta. unfold_extract.
    unfold UtilsDb.loadModels. rewrite Hstale, Hidle.
    destruct (diskLoad e) as [error|]; simpl.
    + split; reflexivity.
    + rewrite Hhas. simpl. split; reflexivity.
Qed.

(** The image cached by a first call, asked for again sixteen minutes
    later while the disk fails. *)
Lemma cached_descriptor_and_loader_witness :
  let first :=
    @UtilsDb.extractFaceDescriptor Examples.everyFaceApi (Examples.loadsAt 0)
      (Examples.image3 5) UtilsDb.worldInit in
  fst (@UtilsDb.extractFaceDescriptor Examples.everyFaceApi
         (Examples.loadFails 960000) (Examples.image3 5) (snd first))
  = Returned None.
Proof.
  cbv zeta.
  refine (proj2 (proj2 (cached_descriptor_and_loader Examples.everyFaceApi
                          (Examples.loadFails 960000) (Examples.image3 5)
                          (snd (@UtilsDb.extractFaceDescriptor
                                  Examples.everyFaceApi (Examples.loadsAt 0)
                                  (Examples.image3 5) UtilsDb.worldInit))
                          ServerUtils.worldInit)
                   _ _ _)); reflexivity.
Defined.

(** ** The token endpoints *)

Section Collections.

Variable A : Type.
Variable key : A -> string.

Lemma deleteOne_subset (k : string) (docs : list A) (d : A) :
  In d (OAuth.deleteOne (fun x => String.eqb (key x) k) docs) -> In d docs.
Proof.
  induction docs as [|x rest IH]; simpl; [tauto|].
  destruct (String.eqb (key x) k); simpl; tauto.
Qed.

(** Under a unique index, [deleteOne] leaves no document with the
    key. *)
Lemma deleteOne_removes (k : string) (docs : list A) (d : A) :
  NoDup (map key docs) ->
  In d (OAuth.deleteOne (fun x => String.eqb (key x) k) docs) ->
  key d <> k.
Proof.
  induction docs as [|x rest IH]; simpl; [tauto|].
  intros Hnd Hin. inversion Hnd as [|? ? Hnotin Hrest]; subst.
  destruct (String.eqb_spec (key x) k) as [Heq|Hne].
  - intros Hk. apply Hnotin. rewrite Heq, <- Hk. apply in_map. exact Hin.
  - destruct Hin as [<-|Hin]; [exact Hne|]. apply IH; assumption.
Qed.

Lemma deleteOne_NoDup (k : string) (docs : list A) :
  NoDup (map key docs) ->
  NoDup (map key (OAuth.deleteOne (fun x => String.eqb (key x) k) docs)).
Proof.
  induction docs as [|x rest IH]; simpl; [tauto|].
  intros Hnd. inversion Hnd as [|? ? Hnotin Hrest]; subst.
  destruct (String.eqb (key x) k); [exact Hrest|].
  simpl. constructor; [|apply IH; exact Hrest].
  intros Hin. apply Hnotin. apply in_map_iff in Hin.
  destruct Hin as (d & Hd & Hin). rewrite <- Hd. apply in_map.
  exact (deleteOne_subset k rest d Hin).
Qed.

Lemma findOne_app_fresh (filter : A -> bool) (docs more : list A) :
  (forall d, In d docs -> filter d = false) ->
  OAuth.findOne filter (docs ++ more) = OAuth.findOne filter more.
Proof.
  intros H. unfold OAuth.findOne.
  induction docs as [|x rest IH]; [reflexivity|].
  simpl. rewrite (H x (or_introl eq_refl)).
  apply IH. intros d Hd. apply H. right. exact Hd.
Qed.

End Collections.

Lemma saveToken_fresh (d : OAuth.tokenDoc) (s : OAuth.store) :
  ~ In (OAuth.token d) (map OAuth.token (OAuth.tokens s)) ->
  OAuth.saveToken d s
  = (Returned tt, OAuth.withTokens (fun ts => ts ++ [d]) s).
Proof.
  intros Hfresh. unfold OAuth.saveToken.
  destruct (existsb (fun t => String.eqb (OAuth.token t) (OAuth.token d))
              (OAuth.tokens s)) eqn:E; [|reflexivity].
  exfalso. apply Hfresh. apply existsb_exists in E.
  destruct E as (t & Hin & Ht). apply String.eqb_eq in Ht.
  rewrite <- Ht. apply in_map. exact Hin.
Qed.

(** The outcome of the authorization code grant, by cases on the code
    presented. *)
Lemma authorizationCodeGrant_cases (e : OAuth.tokenEnv)
    (body : OAuth.tokenBody) (s : OAuth.store) :
  ~ In (OAuth.accessToken e) (map OAuth.token (OAuth.tokens s)) ->
  ~ In (OAuth.refreshToken e) (map OAuth.token (OAuth.tokens s)) ->
  OAuth.accessToken e <> OAuth.refreshToken e ->
  (OAuth.authorizationCodeGrant e body s
     = (Returned (OAuth.Json 400 "invalid_grant"), s)
   /\ forall ac, OAuth.findOne
                   (fun c => String.eqb (OAuth.codeValue c) (OAuth.code body))
                   (OAuth.authCodes s) = Some ac ->
                 OAuth.codeClientId ac <> OAuth.client_id body
                 \/ OAuth.redirectUri ac <> OAuth.redirect_uri body
                 \/ (OAuth.codeExpiresAt ac < OAuth.checkedAt e)%Z)
  \/ exists ac,
       OAuth.findOne
         (fun c => String.eqb (OAuth.codeValue c) (OAuth.code body))
         (OAuth.authCodes s) = Some ac
       /\ OAuth.codeClientId ac = OAuth.client_id body
       /\ OAuth.redirectUri ac = OAuth.redirect_uri body
       /\ (OAuth.checkedAt e <= OAuth.codeExpiresAt ac)%Z
       /\ OAuth.authorizationCodeGrant e body s
          = (Returned
               (OAuth.Tokens
                  {| OAuth.access_token := OAuth.accessToken e;
                     OAuth.token_type := "Bearer";
                     OAuth.expires_in := 900;
                     OAuth.issued_refresh_token := OAuth.refreshToken e;
                     OAuth.refresh_expires_in := 604800;
                     OAuth.id_token :=
                       {| OAuth.sub := OAuth.codeUserId ac;
                          OAuth.aud := Some (OAuth.client_id body);
                          OAuth.exp := (OAuth.idTokenNow e / 1000 + 3600)%Z;
                          OAuth.idNonce := OAuth.nonce ac |} |}),
             {| OAuth.tokens :=
                  OAuth.tokens s
                  ++ [ {| OAuth.token := OAuth.accessToken e;
                          OAuth.userId := OAuth.codeUserId ac;
                          OAuth.clientId := OAuth.client_id body;
                          OAuth.scope := OAuth.codeScope ac;
                          OAuth.isRefreshToken := false;
                          OAuth.expiresAt :=
                            (OAuth.accessNow e + 3600 * 1000)%Z |};
                       {| OAuth.token := OAuth.refreshToken e;
                          OAuth.userId := OAuth.codeUserId ac;
                          OAuth.clientId := OAuth.client_id body;
                          OAuth.scope := OAuth.codeScope ac;
                          OAuth.isRefreshToken := true;
                          OAuth.expiresAt :=
                            (OAuth.refreshNow e + 30 * 24 * 3600 * 1000)%Z |} ];
                OAuth.authCodes :=
                  OAuth.deleteOne
                    (fun c => String.eqb (OAuth.codeValue c) (OAuth.code body))
                    (OAuth.authCodes s) |}).
Proof.
  intros Ha Hr Hdiff.
  unfold OAuth.authorizationCodeGrant, tryCatch, bind, gets, modify, ret.
  destruct (OAuth.findOne
              (fun c => String.eqb (OAuth.codeValue c) (OAuth.code body))
              (OAuth.authCodes s)) as [ac|] eqn:Hfind;
    [|left; split; [reflexivity|discriminate]].
  destruct (String.eqb_spec (OAuth.codeClientId ac) (OAuth.client_id body))
    as [Hclient|Hclient]; simpl;
    [|left; split; [reflexivity|intros ? [= <-]; auto]].
  destruct (String.eqb_spec (OAuth.redirectUri ac) (OAuth.redirect_uri body))
    as [Huri|Huri]; simpl;
    [|left; split; [reflexivity|intros ? [= <-]; auto]].
  destruct (Z.ltb_spec (OAuth.codeExpiresAt ac) (OAuth.checkedAt e))
    as [Hexp|Hexp];
    [left; split; [reflexivity|intros ? [= <-]; auto]|].
  right. exists ac. repeat split; try assumption.
  rewrite saveToken_fresh by exact Ha.
  rewrite saveToken_fresh.
  - unfold OAuth.withTokens, OAuth.withAuthCodes. simpl.
    rewrite <- app_assoc. reflexivity.
  - unfold OAuth.withTokens, OAuth.withAuthCodes. simpl.
    rewrite map_app, in_app_iff. simpl. intros [H|[H|[]]]; auto.
Qed.

(** The outcome of the refresh token grant, by cases on the token
    presented. *)
Lemma refreshTokenGrant_cases (e : OAuth.tokenEnv) (body : OAuth.tokenBody)
    (s : OAuth.store) :
  ~ In (OAuth.accessToken e) (map OAuth.token (OAuth.tokens s)) ->
  ~ In (OAuth.refreshToken e) (map OAuth.token (OAuth.tokens s)) ->
  OAuth.accessToken e <> OAuth.refreshToken e ->
  let presented :=
    OAuth.findOne
      (fun t => String.eqb (OAuth.token t) (OAuth.refresh_token body)
                && OAuth.isRefreshToken t)
      (OAuth.tokens s) in
  (OAuth.refreshTokenGrant e body s
     = (Returned (OAuth.Json 400 "invalid_grant"), s)
   /\ forall old, presented = Some old ->
                  (OAuth.expiresAt old < OAuth.checkedAt e)%Z)
  \/ exists old,
       presented = Some old
       /\ (OAuth.checkedAt e <= OAuth.expiresAt old)%Z
       /\ OAuth.refreshTokenGrant e body s
          = (Returned
               (OAuth.Tokens
                  {| OAuth.access_token := OAuth.accessToken e;
                     OAuth.token_type := "Bearer";
                     OAuth.expires_in := 900;
                     OAuth.issued_refresh_token := OAuth.refreshToken e;
                     OAuth.refresh_expires_in := 604800;
                     OAuth.id_token :=
                       {| OAuth.sub := OAuth.userId old;
                          OAuth.aud := None;
                          OAuth.exp :=
                            ((OAuth.accessNow e + 3600 * 1000) / 1000)%Z;
                          OAuth.idNonce := None |} |}),
             {| OAuth.tokens :=
                  OAuth.deleteOne
                    (fun t => String.eqb (OAuth.token t)
                                         (OAuth.refresh_token body))
                    (OAuth.tokens s)
                  ++ [ {| OAuth.token := OAuth.accessToken e;
                          OAuth.userId := OAuth.userId old;
                          OAuth.clientId := OAuth.client_id body;
                          OAuth.scope := OAuth.scope old;
                          OAuth.isRefreshToken := false;
                          OAuth.expiresAt :=
                            (OAuth.accessNow e + 3600 * 1000)%Z |};
                       {| OAuth.token := OAuth.refreshToken e;
                          OAuth.userId := OAuth.userId old;
                          OAuth.clientId := OAuth.client_id body;
                          OAuth.scope := OAuth.scope old;
                          OAuth.isRefreshToken := true;
                          OAuth.expiresAt :=
                            (OAuth.refreshNow e + 30 * 24 * 3600 * 1000)%Z |} ];
                OAuth.authCodes := OAuth.authCodes s |}).
Proof.
  intros Ha Hr Hdiff. cbv zeta.
  unfold OAuth.refreshTokenGrant, bind, gets, modify, ret.
  destruct (OAuth.findOne
              (fun t => String.eqb (OAuth.token t) (OAuth.refresh_token body)
                        && OAuth.isRefreshToken t)
              (OAuth.tokens s)) as [old|] eqn:Hfind;
    [|left; split; [reflexivity|discriminate]].
  destruct (Z.ltb_spec (OAuth.expiresAt old) (OAuth.checkedAt e))
    as [Hexp|Hexp];
    [left; split; [reflexivity|intros ? [= <-]; exact Hexp]|].
  right. exists old. repeat split; try assumption.
  unfold OAuth.promiseAll2.
  rewrite saveToken_fresh.
  2:{ unfold OAuth.withTokens. simpl. intros Hin. apply Ha.
      apply in_map_iff in Hin. destruct Hin as (d & Hd & Hin).
      rewrite <- Hd. apply in_map.
      exact (deleteOne_subset _ OAuth.token _ _ d Hin). }
  rewrite saveToken_fresh.
  2:{ unfold OAuth.withTokens. simpl. rewrite map_app, in_app_iff. simpl.
      intros [Hin|[H|[]]]; [|auto].
      apply Hr. apply in_map_iff in Hin. destruct Hin as (d & Hd & Hin).
      rewrite <- Hd. apply in_map.
      exact (deleteOne_subset _ OAuth.token _ _ d Hin). }
  unfold OAuth.withTokens. simpl. rewrite <- app_assoc. reflexivity.
Qed.

Lemma substring_whole (s : string) : substring 0 (String.length s) s = s.
Proof. induction s as [|c s IH]; simpl; [reflexivity|]. rewrite IH. reflexivity. Qed.

Lemma prefix_nil (s : string) : prefix "" s = true.
Proof. destruct s; reflexivity. Qed.

(** What [GET /userinfo] reads in the header [Bearer <token>]. *)
Lemma userinfo_bearer (tok : string) (now : Z) (s : OAuth.store) :
  OAuth.userinfo (Some ("Bearer " ++ tok)%string) now s
  = match OAuth.findOne
            (fun t => String.eqb (OAuth.token t) tok
                      && negb (OAuth.isRefreshToken t))
            (OAuth.tokens s) with
    | None => OAuth.InvalidToken
    | Some tokenData =>
        if (OAuth.expiresAt tokenData <? now)%Z then OAuth.InvalidToken
        else OAuth.Userinfo (OAuth.userId tokenData)
    end.
Proof.
  unfold OAuth.userinfo.
  change ("Bearer " ++ tok)%string
    with (String "B" (String "e" (String "a" (String "r" (String "e"
           (String "r" (String " " tok))))))).
  cbn [String.eqb String.length Nat.sub orb negb].
  replace (prefix "Bearer "
             (String "B" (String "e" (String "a" (String "r" (String "e"
                (String "r" (String " " tok))))))))
    with true by (simpl; rewrite prefix_nil; reflexivity).
  cbn [negb].
  assert (Hsub : substring 7 (String.length tok - 0)
                   (String "B" (String "e" (String "a" (String "r"
                      (String "e" (String "r" (String " " tok)))))))
                 = tok)
    by (rewrite Nat.sub_0_r; simpl; apply substring_whole).
  rewrite Hsub. reflexivity.
Qed.

Lemma deleteOne_app_fresh (A : Type) (filter : A -> bool)
    (docs more : list A) :
  (forall d, In d docs -> filter d = false) ->
  OAuth.deleteOne filter (docs ++ more)
  = docs ++ OAuth.deleteOne filter more.
Proof.
  intros H. induction docs as [|x rest IH]; [reflexivity|].
  simpl. rewrite (H x (or_introl eq_refl)). f_equal.
  apply IH. intros d Hd. apply H. right. exact Hd.
Qed.

(** What a successful request leaves in the [Token] collection. *)
Lemma tokenEndpoint_issued (clients : JsMap.t string OAuth.client)
    (e : OAuth.tokenEnv) (body : OAuth.tokenBody) (s : OAuth.store)
    (t : OAuth.tokenResponse) :
  ~ In (OAuth.accessToken e) (map OAuth.token (OAuth.tokens s)) ->
  ~ In (OAuth.refreshToken e) (map OAuth.token (OAuth.tokens s)) ->
  OAuth.accessToken e <> OAuth.refreshToken e ->
  fst (OAuth.tokenEndpoint clients e body s) = Returned (OAuth.Tokens t) ->
  exists base sc,
    OAuth.tokens (snd (OAuth.tokenEndpoint clients e body s))
    = base
      ++ [ {| OAuth.token := OAuth.accessToken e;
              OAuth.userId := OAuth.sub (OAuth.id_token t);
              OAuth.clientId := OAuth.client_id body;
              OAuth.scope := sc;
              OAuth.isRefreshToken := false;
              OAuth.expiresAt := (OAuth.accessNow e + 3600 * 1000)%Z |};
           {| OAuth.token := OAuth.refreshToken e;
              OAuth.userId := OAuth.sub (OAuth.id_token t);
              OAuth.clientId := OAuth.client_id body;
              OAuth.scope := sc;
              OAuth.isRefreshToken := true;
              OAuth.expiresAt :=
                (OAuth.refreshNow e + 30 * 24 * 3600 * 1000)%Z |} ]
    /\ (forall d, In d base -> In d (OAuth.tokens s))
    /\ OAuth.access_token t = OAuth.accessToken e
    /\ OAuth.issued_refresh_token t = OAuth.refreshToken e
    /\ OAuth.expires_in t = 900%Z.
Proof.
  intros Ha Hr Hdiff. unfold OAuth.tokenEndpoint.
  destruct (JsMap.get string_dec (OAuth.client_id body) clients) as [c|];
    [|discriminate].
  destruct (negb (String.eqb (OAuth.clientSecret c)
                             (OAuth.client_secret body)));
    [discriminate|].
  destruct (String.eqb (OAuth.grant_type body) "refresh_token").
  - destruct (refreshTokenGrant_cases e body s Ha Hr Hdiff)
      as [[Hrefused _]|(old & _ & _ & Hissued)].
    + rewrite Hrefused. discriminate.
    + rewrite Hissued. cbn [fst snd OAuth.tokens]. intros Ht.
      injection Ht as <-. cbn.
      eexists _, _. split; [reflexivity|].
      split; [intros d; apply (deleteOne_subset _ OAuth.token)|].
      repeat split.
  - destruct (negb (String.eqb (OAuth.grant_type body)
                               "authorization_code"));
      [discriminate|].
    destruct (authorizationCodeGrant_cases e body s Ha Hr Hdiff)
      as [[Hrefused _]|(ac & _ & _ & _ & _ & Hissued)].
    + rewrite Hrefused. discriminate.
    + rewrite Hissued. cbn [fst snd OAuth.tokens]. intros Ht.
      injection Ht as <-. cbn.
      eexists _, _. split; [reflexivity|].
      split; [auto|]. repeat split.
Qed.

(** X20. The tokens issued by [POST /token] at the other endpoints, for
    fresh random tokens.  [GET /userinfo] accepts the access token, and
    answers for the user named in the identity token, until one hour
    after it was issued, although the response announces [expires_in:
    900]; it never accepts the refresh token.  [POST /introspect]
    reports the access token active over the same hour.  After
    [POST /revoke] of the access token both endpoints refuse it. *)
Theorem issued_tokens_lifecycle (clients : JsMap.t string OAuth.client)
    (e : OAuth.tokenEnv) (body : OAuth.tokenBody) (s : OAuth.store)
    (t : OAuth.tokenResponse) (now : Z) :
  ~ In (OAuth.accessToken e) (map OAuth.token (OAuth.tokens s)) ->
  ~ In (OAuth.refreshToken e) (map OAuth.token (OAuth.tokens s)) ->
  OAuth.accessToken e <> OAuth.refreshToken e ->
  OAuth.accessToken e <> ""%string ->
  fst (OAuth.tokenEndpoint clients e body s) = Returned (OAuth.Tokens t) ->
  let s' := snd (OAuth.tokenEndpoint clients e body s) in
  let bearer (value : string) := Some ("Bearer " ++ value)%string in
  let expiry := (OAuth.accessNow e + 3600 * 1000)%Z in
  OAuth.expires_in t = 900%Z
  /\ OAuth.userinfo (bearer (OAuth.access_token t)) now s'
     = (if (expiry <? now)%Z then OAuth.InvalidToken
        else OAuth.Userinfo (OAuth.sub (OAuth.id_token t)))
  /\ OAuth.userinfo (bearer (OAuth.issued_refresh_token t)) now s'
     = OAuth.InvalidToken
  /\ (exists sc,
        OAuth.introspect (OAuth.access_token t) now s'
        = if (expiry <? now)%Z then OAuth.Inactive
          else OAuth.Active (OAuth.client_id body) sc
                 (OAuth.sub (OAuth.id_token t))
                 (expiry / 1000) ((expiry - 3600 * 1000) / 1000)
                 "access_token")
  /\ OAuth.userinfo (bearer (OAuth.access_token t)) now
       (OAuth.revoke (OAuth.access_token t) s')
     = OAuth.InvalidToken
  /\ OAuth.introspect (OAuth.access_token t) now
       (OAuth.revoke (OAuth.access_token t) s')
     = OAuth.Inactive.
Proof.
  intros Ha Hr Hdiff Hnonempty Hissued. cbv zeta.
  destruct (tokenEndpoint_issued clients e body s t Ha Hr Hdiff Hissued)
    as (base & sc & Htokens & Hbase & Haccess & Hrefresh & Hexpires).
  assert (HbaseA : forall d, In d base ->
                     String.eqb (OAuth.token d) (OAuth.accessToken e) = false).
  { intros d Hd. apply String.eqb_neq. intros Heq. apply Ha.
    rewrite <- Heq. apply in_map. apply Hbase. exact Hd. }
  assert (HbaseR : forall d, In d base ->
                     String.eqb (OAuth.token d) (OAuth.refreshToken e) = false).
  { intros d Hd. apply String.eqb_neq. intros Heq. apply Hr.
    rewrite <- Heq. apply in_map. apply Hbase. exact Hd. }
  assert (Hne : String.eqb (OAuth.accessToken e) (OAuth.refreshToken e)
                = false) by (apply String.eqb_neq; exact Hdiff).
  assert (Hne' : String.eqb (OAuth.refreshToken e) (OAuth.accessToken e)
                 = false)
    by (apply String.eqb_neq; intros H; apply Hdiff; symmetry; exact H).
  assert (Hfull : String.eqb (OAuth.accessToken e) "" = false)
    by (apply String.eqb_neq; exact Hnonempty).
  rewrite Haccess, Hrefresh.
  split; [exact Hexpires|].
  split.
  { rewrite userinfo_bearer, Htokens.
    rewrite findOne_app_fresh
      by (intros d Hd; rewrite (HbaseA d Hd); reflexivity).
    unfold OAuth.findOne. simpl. rewrite String.eqb_refl. simpl.
    reflexivity. }
  split.
  { rewrite userinfo_bearer, Htokens.
    rewrite findOne_app_fresh
      by (intros d Hd; rewrite (HbaseR d Hd); reflexivity).
    unfold OAuth.findOne. simpl. rewrite Hne, String.eqb_refl. simpl.
    reflexivity. }
  split.
  { exists sc. unfold OAuth.introspect. rewrite Hfull, Htokens.
    rewrite findOne_app_fresh by exact HbaseA.
    unfold OAuth.findOne. simpl. rewrite String.eqb_refl. simpl.
    reflexivity. }
  assert (Hrevoked :
            OAuth.tokens
              (OAuth.revoke (OAuth.accessToken e)
                 (snd (OAuth.tokenEndpoint clients e body s)))
            = base
              ++ [ {| OAuth.token := OAuth.refreshToken e;
                      OAuth.userId := OAuth.sub (OAuth.id_token t);
                      OAuth.clientId := OAuth.client_id body;
                      OAuth.scope := sc;
                      OAuth.isRefreshToken := true;
                      OAuth.expiresAt :=
                        (OAuth.refreshNow e + 30 * 24 * 3600 * 1000)%Z |} ]).
  { unfold OAuth.revoke, OAuth.withTokens. cbn [OAuth.tokens].
    rewrite Htokens, deleteOne_app_fresh by exact HbaseA.
    simpl. rewrite String.eqb_refl. reflexivity. }
  split.
  { rewrite userinfo_bearer, Hrevoked.
    rewrite findOne_app_fresh
      by (intros d Hd; rewrite (HbaseA d Hd); reflexivity).
    unfold OAuth.findOne. simpl. rewrite Hne'. reflexivity. }
  { unfold OAuth.introspect. rewrite Hfull, Hrevoked.
    rewrite findOne_app_fresh by exact HbaseA.
    unfold OAuth.findOne. simpl. rewrite Hne'. reflexivity. }
Qed.

(** Half an hour after it was issued, long after the announced 900
    seconds, the access token is still accepted. *)
Lemma issued_tokens_lifecycle_witness :
  OAuth.userinfo (Some "Bearer a-1"%string) 1801000
    (snd (OAuth.tokenEndpoint Examples.registeredClients
            (Examples.servedAt 1000 "1")
            (Examples.tokenRequest "authorization_code")
            Examples.storeWithCode))
  = OAuth.Userinfo "u-at-zero".
Proof.
  refine (proj1 (proj2
            (issued_tokens_lifecycle Examples.registeredClients
               (Examples.servedAt 1000 "1")
               (Examples.tokenRequest "authorization_code")
               Examples.storeWithCode _ 1801000 _ _ _ _ eq_refl))).
  - simpl. tauto.
  - simpl. tauto.
  - discriminate.
  - discriminate.
Defined.
